(** * Codeulator server core: a shallow embedding and its verified properties

    The development follows the TypeScript sources of the server:
    - [Errors]     : errors.ts      (SafeError, sanitizeError, the catch block of handleErrors)
    - [Filesystem] : filesystem.ts  (ExtensionClient: sendCommand, the message handler,
                                     stat and findValidPaths)
    - [Core]       : applicationPool.ts and server.ts (PooledApplication.performOperation,
                     restart, ApplicationPool.acquire / release / the memory-pressure
                     tick, Server.finalizeLease), over a small model of JavaScript
                     promises and their reactions.
    - [Keys], [Extension] : fsproxy/src/client.ts (Client.type, the message handler)
    - [ReadHistory], [Paths], [Storage], [Handlers] : server.ts and the handlers
                     (Lease.addToReadHistory, Server.normalizePath, MemoryStorage,
                     Server.openFile, createDraft and edit as far as drafts go)
    - [Directories] : filesystem.ts (createIntermediateDirectories)
    - [Responses]  : errors.ts      (what handleErrors answers)
    - [Meminfo]    : applicationPool.ts (_readMeminfo)
    - [Edit]       : handlers/edit.ts (escapeString, indent, getKeystrokes)
    - [Analyze]    : analyze.ts     (analyzeFile, on texts of UTF-16 code units)

    JavaScript numbers that only count (generation, _nextID, pool length) are
    modelled as unbounded naturals: the 2^53 limit of a double is out of reach of
    an increment-by-one counter. *)

From Stdlib Require Import String Ascii.
From stdpp Require Import base tactics option list gmap strings pretty.

Open Scope string_scope.
Open Scope list_scope.

(* ===================================================================== *)
(** * errors.ts                                                          *)
(* ===================================================================== *)
Module Errors.

(** A JavaScript value as far as the server inspects it: [undefined], an
    instance of [Error] (possibly of its subclass [SafeError]), or any other
    value (for instance the parsed JSON payload of an RPC error reply, which
    is never an [Error] instance). *)
Inductive value :=
| VUndefined
| VPayload (payload : string)
| VError (e : error)
with error :=
| MkError (safe : bool)               (* instanceof SafeError *)
          (message : string)
          (status : option N)         (* SafeError.status; absent on a plain Error *)
          (recoverable : option bool) (* the [recoverable] property; None is undefined *)
          (sensitive : bool)          (* the [sensitive] property is set (to true) *)
          (cause : value).

Definition e_safe (e : error) : bool := let 'MkError s _ _ _ _ _ := e in s.
Definition e_message (e : error) : string := let 'MkError _ m _ _ _ _ := e in m.
Definition e_status (e : error) : option N := let 'MkError _ _ s _ _ _ := e in s.
Definition e_recoverable (e : error) : option bool := let 'MkError _ _ _ r _ _ := e in r.
Definition e_sensitive (e : error) : bool := let 'MkError _ _ _ _ s _ := e in s.
Definition e_cause (e : error) : value := let 'MkError _ _ _ _ _ c := e in c.

(** [new Error(message)]: no status, no recoverable property, no cause. *)
Definition plainError (message : string) : error :=
  MkError false message None None false VUndefined.

(** [result instanceof Error] *)
Definition instanceofError (v : value) : bool :=
  match v with VError _ => true | _ => false end.

(** The two shapes [new SafeError(...args)] is called with: a message string
    with an optional status, or one options object. *)
Inductive safe_args :=
| ArgsPositional (message : string) (status : option N)
| ArgsOptions (message : option string) (status : option N)
              (recoverable : option bool) (cause : value) (sensitive : option bool).

(** JavaScript truthiness of an optional boolean field. *)
Definition truthy (b : option bool) : bool := default false b.

(** JavaScript truthiness of an optional number ([if (status)]). *)
Definition truthyN (n : option N) : bool :=
  match n with Some n => negb (n =? 0)%N | None => false end.

(** The constructor of [SafeError]. The class fields give [status = 400];
    [args[0].message ?? args[0]] is the message ([String(object)] when an
    options object has no message); [args[0].status ?? args[1]] replaces the
    status when truthy; [recoverable] is [args[0].recoverable ?? true];
    [sensitive] is set only when [args[0].sensitive] is truthy. *)
Definition SafeError (args : safe_args) : error :=
  match args with
  | ArgsPositional message status =>
      MkError true message
              (Some (if truthyN status then default 400%N status else 400%N))
              (Some true) false VUndefined
  | ArgsOptions message status recoverable cause sensitive =>
      MkError true (default "[object Object]" message)
              (Some (if truthyN status then default 400%N status else 400%N))
              (Some (default true recoverable))
              (truthy sensitive) cause
  end.

(** [sanitizeError]: a SafeError goes through; anything else is wrapped as a
    status-500 SafeError whose [recoverable] is [error.recoverable ?? false]
    ("All errors considered fatal by default (will terminate the lease)"). *)
Definition sanitizeError (e : error) : error :=
  if e_safe e then e
  else SafeError (ArgsOptions (Some "Internal error, please try again later")
                              (Some 500%N)
                              (Some (default false (e_recoverable e)))
                              (VError e) None).

(** The test [!error.recoverable] that opens the catch block of
    [handleErrors]: true exactly when the lease is to be finalized. *)
Definition notRecoverable (e : error) : bool := negb (truthy (e_recoverable e)).

Lemma SafeError_recoverable_default args :
  e_recoverable (SafeError args) =
    Some match args with
         | ArgsOptions _ _ (Some b) _ _ => b
         | _ => true
         end.
Proof. by destruct args as [|? ? [[]|] ? ?]. Qed.

Lemma notRecoverable_SafeError args :
  notRecoverable (SafeError args) = true ↔
  ∃ m s c sv, args = ArgsOptions m s (Some false) c sv.
Proof.
  split.
  - destruct args as [|m s [[]|] c sv]; try discriminate. eauto.
  - by intros (m & s & c & sv & ->).
Qed.

Lemma notRecoverable_plainError message : notRecoverable (plainError message) = true.
Proof. reflexivity. Qed.

End Errors.

(* ===================================================================== *)
(** * filesystem.ts: ExtensionClient                                     *)
(* ===================================================================== *)
Module Filesystem.
Import Errors.

(** ** The request/response channel *)

Inductive ready_state := CONNECTING | OPEN | CLOSING | CLOSED.

(** How the promise returned by one [sendCommand] call was settled. *)
Inductive settlement := Resolved (v : value) | Rejected (v : value).

(** [ExtensionResponse]: [error] is [None] when the field is absent or falsy. *)
Record response := { r_id : string; r_result : value; r_error : option value }.

(** The client. [requestMap] maps a pending id to its command; the entry's
    [resolve] and [reject] callbacks settle the promise of the call that made
    it, which [settled] records by id, oldest first. [timers] are the deadlines
    scheduled with [setTimeout] that have not fired yet, with their delay.
    [sent] are the payloads given to [ws.send]. *)
Record client := {
  readyState : ready_state;
  requestMap : gmap string string;
  nextID : N;
  timeoutMillis : N;
  timers : list (string * N);
  sent : list (string * string);
  settled : list (string * settlement)
}.

(** The constructor: [_nextID = 1], [_timeoutMillis = 30000], an empty map. *)
Definition newClient (rs : ready_state) : client :=
  {| readyState := rs; requestMap := ∅; nextID := 1; timeoutMillis := 30000;
     timers := []; sent := []; settled := [] |}.

(** [get alive()] *)
Definition alive (c : client) : bool :=
  match readyState c with OPEN | CONNECTING => true | _ => false end.

Definition notAliveError : error := plainError "ExtensionClient: connection is not alive".

Definition timeoutError (command : string) (millis : N) : error :=
  plainError ("Extension did not respond to '" +:+ command +:+ "' command within "
                +:+ pretty millis +:+ "ms").

(** [sendCommand(command, params)] up to the point where the promise is
    returned: either the call throws (the connection is not alive, nothing
    changes), or the next id is taken, the pending entry recorded, the payload
    sent and the deadline scheduled. The result is the id of the call. *)
Definition sendCommand (command : string) (c : client) : error + (string * client) :=
  if negb (alive c) then inl notAliveError
  else
    let id := pretty (nextID c) in
    inr (id, {| readyState := readyState c;
                requestMap := <[id := command]> (requestMap c);
                nextID := (nextID c + 1)%N;
                timeoutMillis := timeoutMillis c;
                timers := timers c ++ [(id, timeoutMillis c)];
                sent := sent c ++ [(id, command)];
                settled := settled c |}).

(** The ['message'] handler installed by the constructor. *)
Definition onMessage (resp : response) (c : client) : client :=
  match requestMap c !! r_id resp with
  | Some command =>
      {| readyState := readyState c;
         requestMap := delete (r_id resp) (requestMap c);
         nextID := nextID c;
         timeoutMillis := timeoutMillis c;
         timers := timers c;
         sent := sent c;
         settled := settled c ++
           [(r_id resp, match r_error resp with
                        | Some err => Rejected err
                        | None => Resolved (r_result resp)
                        end)] |}
  | None => c
  end.

(** The deadline callback of the call [id], run by the timer. *)
Definition onTimeout (id : string) (c : client) : client :=
  match requestMap c !! id with
  | Some command =>
      {| readyState := readyState c;
         requestMap := delete id (requestMap c);
         nextID := nextID c;
         timeoutMillis := timeoutMillis c;
         timers := timers c;
         sent := sent c;
         settled := settled c ++
           [(id, Rejected (VError (timeoutError command (timeoutMillis c))))] |}
  | None => c
  end.

(** What can happen to a client: a call, an inbound message, a scheduled
    deadline firing (which removes it from the timers), the socket changing
    its state. *)
Inductive event :=
| ESend (command : string)
| ERecv (resp : response)
| ETimeout (id : string)
| ESocket (rs : ready_state).

Definition set_timers (ts : list (string * N)) (c : client) : client :=
  {| readyState := readyState c; requestMap := requestMap c; nextID := nextID c;
     timeoutMillis := timeoutMillis c; timers := ts; sent := sent c;
     settled := settled c |}.

Definition set_readyState (rs : ready_state) (c : client) : client :=
  {| readyState := rs; requestMap := requestMap c; nextID := nextID c;
     timeoutMillis := timeoutMillis c; timers := timers c; sent := sent c;
     settled := settled c |}.

Definition scheduled (id : string) (c : client) : bool :=
  bool_decide (id ∈ (timers c).*1).

(** One event; [None] when the event cannot happen in this state (a deadline
    that is not scheduled). A call on a dead connection throws and leaves the
    client as it is. *)
Definition step (ev : event) (c : client) : option client :=
  match ev with
  | ESend command =>
      match sendCommand command c with
      | inl _ => Some c
      | inr (_, c') => Some c'
      end
  | ERecv resp => Some (onMessage resp c)
  | ETimeout id =>
      if scheduled id c
      then Some (onTimeout id (set_timers (filter (λ t, t.1 ≠ id) (timers c)) c))
      else None
  | ESocket rs => Some (set_readyState rs c)
  end.

Fixpoint run (evs : list event) (c : client) : option client :=
  match evs with
  | [] => Some c
  | ev :: evs => c' ← step ev c; run evs c'
  end.

(** The settlements of the call [id], oldest first. *)
Definition settlements (id : string) (c : client) : list settlement :=
  (filter (λ s, s.1 = id) (settled c)).*2.

(** An event that answers the call [id] or fires its deadline. *)
Definition concerns (id : string) (ev : event) : bool :=
  match ev with
  | ERecv resp => bool_decide (r_id resp = id)
  | ETimeout id' => bool_decide (id' = id)
  | _ => false
  end.

(** ** Invariants of the channel *)

(** Every id the client knows was made from a counter value already used;
    a pending entry still has its deadline scheduled and its call unsettled. *)
Record wf (c : client) : Prop := {
  wf_ids : ∀ id, id ∈ dom (requestMap c) ∨ id ∈ (timers c).*1 ∨ id ∈ (settled c).*1 →
                 ∃ n, (n < nextID c)%N ∧ id = pretty n;
  wf_pending : ∀ id, id ∈ dom (requestMap c) →
                 id ∈ (timers c).*1 ∧ settlements id c = []
}.

Lemma settlements_app id c l :
  (filter (λ s : string * settlement, s.1 = id) (settled c ++ l)).*2 =
  settlements id c ++ (filter (λ s : string * settlement, s.1 = id) l).*2.
Proof. by rewrite filter_app, fmap_app. Qed.

Lemma wf_newClient rs : wf (newClient rs).
Proof.
  split; simpl; intros id; rewrite dom_empty_L.
  - intros [H|[H|H]]; [by apply not_elem_of_empty in H|by apply elem_of_nil in H..].
  - intros H. by apply not_elem_of_empty in H.
Qed.

Lemma wf_sendCommand command c id c' :
  wf c → sendCommand command c = inr (id, c') → wf c'.
Proof.
  intros [Hids Hpend]. unfold sendCommand.
  destruct (alive c); simpl; [|done]. intros [= <- <-].
  split; simpl.
  - intros id. rewrite dom_insert_L, fmap_app. simpl.
    rewrite elem_of_union, elem_of_singleton, elem_of_app, list_elem_of_singleton.
    intros H.
    assert (id = pretty (nextID c) ∨
            (id ∈ dom (requestMap c) ∨ id ∈ (timers c).*1 ∨ id ∈ (settled c).*1))
      as [->|H'] by tauto.
    + exists (nextID c). split; [lia|done].
    + destruct (Hids _ H') as (n & ? & ->). exists n. split; [lia|done].
  - intros id. rewrite dom_insert_L, fmap_app, elem_of_union, elem_of_singleton, elem_of_app.
    unfold settlements. simpl. intros [->|Hin].
    + split; [right; by apply list_elem_of_singleton|].
      destruct (filter _ (settled c)) as [|[id' s] l] eqn:Hf; [done|exfalso].
      assert (Hel : (id', s) ∈ filter (λ s : string * settlement, s.1 = pretty (nextID c)) (settled c))
        by (rewrite Hf; left).
      apply list_elem_of_filter in Hel as [Heq Hel]. simpl in Heq. subst id'.
      destruct (Hids (pretty (nextID c))) as (n & Hlt & Hn).
      { right; right. apply list_elem_of_fmap. by exists (pretty (nextID c), s). }
      apply (inj pretty) in Hn. lia.
    + destruct (Hpend _ Hin) as [? ?]. split; [by left|done].
Qed.

Lemma wf_onMessage resp c : wf c → wf (onMessage resp c).
Proof.
  intros [Hids Hpend]. unfold onMessage.
  destruct (requestMap c !! r_id resp) as [command|] eqn:Hl; [|done].
  split; simpl.
  - intros id. rewrite dom_delete_L, fmap_app. simpl.
    rewrite elem_of_difference, elem_of_app, list_elem_of_singleton.
    intros H. apply Hids.
    destruct H as [[? _]|[?|[?| ->]]]; auto.
    left. apply elem_of_dom. eauto.
  - intros id. rewrite dom_delete_L, elem_of_difference, elem_of_singleton.
    intros [Hin Hne]. destruct (Hpend _ Hin) as [? Hs]. split; [done|].
    unfold settlements in *. simpl. rewrite filter_app, fmap_app, Hs. simpl.
    rewrite filter_cons_False, filter_nil; [done|]. simpl. congruence.
Qed.

Lemma wf_onTimeout id c : wf c → wf (onTimeout id c).
Proof.
  intros [Hids Hpend]. unfold onTimeout.
  destruct (requestMap c !! id) as [command|] eqn:Hl; [|done].
  split; simpl.
  - intros id'. rewrite dom_delete_L, fmap_app. simpl.
    rewrite elem_of_difference, elem_of_app, list_elem_of_singleton.
    intros H. apply Hids.
    destruct H as [[? _]|[?|[?| ->]]]; auto.
    left. apply elem_of_dom. eauto.
  - intros id'. rewrite dom_delete_L, elem_of_difference, elem_of_singleton.
    intros [Hin Hne]. destruct (Hpend _ Hin) as [? Hs]. split; [done|].
    unfold settlements in *. simpl. rewrite filter_app, fmap_app, Hs. simpl.
    rewrite filter_cons_False, filter_nil; [done|]. simpl. congruence.
Qed.

Lemma wf_fire id c :
  wf c → wf (onTimeout id (set_timers (filter (λ t, t.1 ≠ id) (timers c)) c)).
Proof.
  intros [Hids Hpend]. unfold onTimeout. simpl.
  assert (Hsub : ∀ id', id' ∈ (filter (λ t : string * N, t.1 ≠ id) (timers c)).*1 →
                        id' ∈ (timers c).*1).
  { intros id' H. apply list_elem_of_fmap in H as (t & -> & Ht).
    apply list_elem_of_filter in Ht as [_ Ht]. apply list_elem_of_fmap. eauto. }
  assert (Hkeep : ∀ id', id' ≠ id → id' ∈ (timers c).*1 →
                         id' ∈ (filter (λ t : string * N, t.1 ≠ id) (timers c)).*1).
  { intros id' Hne H. apply list_elem_of_fmap in H as (t & -> & Ht).
    apply list_elem_of_fmap. exists t. split; [done|]. by apply list_elem_of_filter. }
  destruct (requestMap c !! id) as [command|] eqn:Hl.
  - split; simpl.
    + intros id'. rewrite dom_delete_L, fmap_app. simpl.
      rewrite elem_of_difference, elem_of_app, list_elem_of_singleton.
      intros H. apply Hids.
      destruct H as [[? _]|[?|[?| ->]]]; auto.
      left. apply elem_of_dom. eauto.
    + intros id'. rewrite dom_delete_L, elem_of_difference, elem_of_singleton.
      intros [Hin Hne]. destruct (Hpend _ Hin) as [? Hs]. split; [auto|].
      unfold settlements in *. simpl. rewrite filter_app, fmap_app, Hs. simpl.
      rewrite filter_cons_False, filter_nil; [done|]. simpl. congruence.
  - split; simpl.
    + intros id' H. apply Hids. destruct H as [?|[?|?]]; auto.
    + intros id' Hin. destruct (Hpend _ Hin) as [? Hs]. split; [|done].
      apply Hkeep; [|done]. intros ->. apply elem_of_dom in Hin as [? ?]. congruence.
Qed.

Lemma wf_step ev c c' : wf c → step ev c = Some c' → wf c'.
Proof.
  intros Hwf. destruct ev as [command|resp|id|rs]; simpl.
  - destruct (sendCommand command c) as [e|[id c1]] eqn:Hs; intros [= <-]; [done|].
    by eapply wf_sendCommand.
  - intros [= <-]. by apply wf_onMessage.
  - destruct (scheduled id c); [|done]. intros [= <-]. by apply wf_fire.
  - intros [= <-]. destruct Hwf as [Hids Hpend]. by split.
Qed.

Lemma wf_run evs : ∀ c c', wf c → run evs c = Some c' → wf c'.
Proof.
  induction evs as [|ev evs IH]; simpl; intros c c' Hwf.
  - by intros [= <-].
  - destruct (step ev c) as [c1|] eqn:Hs; simpl; [|done].
    intros Hr. eapply IH; [|done]. by eapply wf_step.
Qed.

(** The delay of the deadlines never changes. *)
Lemma timeoutMillis_step ev c c' : step ev c = Some c' → timeoutMillis c' = timeoutMillis c.
Proof.
  destruct ev as [command|resp|id|rs]; simpl.
  - unfold sendCommand. destruct (alive c); simpl; by intros [= <-].
  - intros [= <-]. unfold onMessage. by destruct (requestMap c !! r_id resp).
  - destruct (scheduled id c); [|done]. intros [= <-]. unfold onTimeout. simpl.
    by destruct (requestMap c !! id).
  - by intros [= <-].
Qed.

Lemma timeoutMillis_run evs : ∀ c c', run evs c = Some c' → timeoutMillis c' = timeoutMillis c.
Proof.
  induction evs as [|ev evs IH]; simpl; intros c c'.
  - by intros [= <-].
  - destruct (step ev c) as [c1|] eqn:Hs; simpl; [|done].
    intros Hr. rewrite (IH _ _ Hr). by eapply timeoutMillis_step.
Qed.

(** A pending entry stays as it is under every event that neither answers
    it nor fires its deadline. *)
Lemma pending_step id command ev c c' :
  wf c → requestMap c !! id = Some command → concerns id ev = false →
  step ev c = Some c' → requestMap c' !! id = Some command.
Proof.
  intros Hwf Hl Hc. destruct ev as [cmd|resp|id'|rs]; simpl in *.
  - unfold sendCommand. destruct (alive c); simpl; intros [= <-]; [|done]. simpl.
    rewrite lookup_insert_ne; [done|]. intros <-.
    destruct (wf_ids _ Hwf (pretty (nextID c))) as (n & Hlt & Hn).
    { left. apply elem_of_dom. eauto. }
    apply (inj pretty) in Hn. lia.
  - intros [= <-]. unfold onMessage. apply bool_decide_eq_false in Hc.
    destruct (requestMap c !! r_id resp); [|done]. simpl. by rewrite lookup_delete_ne.
  - destruct (scheduled id' c); [|done]. intros [= <-]. unfold onTimeout. simpl.
    apply bool_decide_eq_false in Hc.
    destruct (requestMap c !! id'); [|done]. simpl. by rewrite lookup_delete_ne.
  - by intros [= <-].
Qed.

Lemma pending_run id command evs : ∀ c c',
  wf c → requestMap c !! id = Some command →
  forallb (λ ev, negb (concerns id ev)) evs = true →
  run evs c = Some c' → requestMap c' !! id = Some command.
Proof.
  induction evs as [|ev evs IH]; simpl; intros c c' Hwf Hl Hall.
  - by intros [= <-].
  - apply andb_true_iff in Hall as [Hc Hall]. apply negb_true_iff in Hc.
    destruct (step ev c) as [c1|] eqn:Hs; simpl; [|done].
    intros Hr. eapply (IH c1); eauto using wf_step, pending_step.
Qed.

(** C6. A call whose reply does not arrive before its deadline fires loses
    its pending entry and is rejected with the timeout error (30000 ms by
    default), once; from then on a reply with that id changes nothing. In
    general an inbound message whose id has no pending entry leaves the whole
    client, hence every other pending request, as it was. *)
Theorem sendCommand_timeout_and_unmatched_reply rs evs c command id c1 evs' c2 :
  run evs (newClient rs) = Some c →
  sendCommand command c = inr (id, c1) →
  forallb (λ ev, negb (concerns id ev)) evs' = true →
  run evs' c1 = Some c2 →
  (requestMap c1 !! id = Some command ∧ (id, 30000%N) ∈ timers c1)
  ∧ (∃ c3, step (ETimeout id) c2 = Some c3
           ∧ requestMap c3 !! id = None
           ∧ settlements id c3 = [Rejected (VError (timeoutError command 30000))]
           ∧ ∀ resp, r_id resp = id → onMessage resp c3 = c3)
  ∧ (∀ resp c', requestMap c' !! r_id resp = None → onMessage resp c' = c').
Proof.
  intros Hreach Hsend Hquiet Hrun.
  assert (Hwf : wf c) by (eapply wf_run; [apply wf_newClient|done]).
  assert (Hwf1 : wf c1) by (by eapply wf_sendCommand).
  assert (Hms0 : timeoutMillis c = 30000%N) by (by rewrite (timeoutMillis_run _ _ _ Hreach)).
  assert (Hms : timeoutMillis c2 = 30000%N).
  { rewrite (timeoutMillis_run _ _ _ Hrun).
    unfold sendCommand in Hsend. destruct (alive c); simpl in Hsend; [|done].
    by injection Hsend as <- <-. }
  assert (Hl1 : requestMap c1 !! id = Some command).
  { unfold sendCommand in Hsend. destruct (alive c); simpl in Hsend; [|done].
    injection Hsend as <- <-. simpl. by rewrite lookup_insert_eq. }
  assert (Hl2 : requestMap c2 !! id = Some command) by (by eapply pending_run).
  assert (Hwf2 : wf c2) by (by eapply wf_run).
  destruct (wf_pending _ Hwf2 id) as [Hsched Hnone]; [apply elem_of_dom; eauto|].
  split; [split; [done|]|split].
  - unfold sendCommand in Hsend. destruct (alive c); simpl in Hsend; [|done].
    injection Hsend as <- <-. simpl. rewrite Hms0. apply elem_of_app. right. by left.
  - simpl. unfold scheduled. rewrite bool_decide_eq_true_2 by done.
    eexists. split; [done|]. unfold onTimeout. simpl. rewrite Hl2. simpl.
    split; [by rewrite lookup_delete_eq|]. split.
    + unfold settlements in *. simpl. rewrite filter_app, fmap_app, Hnone. simpl.
      rewrite filter_cons_True by done. by rewrite Hms.
    + intros resp <-. unfold onMessage. simpl. by rewrite lookup_delete_eq.
  - intros resp c' Hl. unfold onMessage. by rewrite Hl.
Qed.

(** A run of the channel: a first call is answered; a second one is not,
    while an unknown id and a later call are answered, and it times out. *)
Definition demo_before : list event :=
  [ESend "readFile"; ERecv {| r_id := "1"; r_result := VPayload "text"; r_error := None |}].
Definition demo_during : list event :=
  [ESend "readDirectory";
   ERecv {| r_id := "7"; r_result := VUndefined; r_error := None |};
   ERecv {| r_id := "3"; r_result := VUndefined; r_error := Some (VPayload "{}") |}].
Definition demo_c : client := default (newClient OPEN) (run demo_before (newClient OPEN)).
Definition demo_c1 : client :=
  match sendCommand "stat" demo_c with inr (_, c1) => c1 | inl _ => demo_c end.
Definition demo_c2 : client := default demo_c1 (run demo_during demo_c1).

Lemma sendCommand_timeout_witness :
  (run demo_before (newClient OPEN) = Some demo_c
   ∧ sendCommand "stat" demo_c = inr ("2", demo_c1)
   ∧ forallb (λ ev, negb (concerns "2" ev)) demo_during = true
   ∧ run demo_during demo_c1 = Some demo_c2)
  ∧ ((requestMap demo_c1 !! "2" = Some "stat" ∧ ("2", 30000%N) ∈ timers demo_c1)
     ∧ (∃ c3, step (ETimeout "2") demo_c2 = Some c3
           ∧ requestMap c3 !! "2" = None
           ∧ settlements "2" c3 = [Rejected (VError (timeoutError "stat" 30000))]
           ∧ ∀ resp, r_id resp = "2" → onMessage resp c3 = c3)
     ∧ (∀ resp c', requestMap c' !! r_id resp = None → onMessage resp c' = c')).
Proof.
  split.
  - repeat split; vm_compute; reflexivity.
  - apply (sendCommand_timeout_and_unmatched_reply OPEN demo_before demo_c "stat" "2"
             demo_c1 demo_during demo_c2); vm_compute; reflexivity.
Defined.

(** ** stat and findValidPaths *)

(** The separators of [path.split(/[\/\\]/)]. *)
Definition is_sep (c : ascii) : bool := (c =? "/")%char || (c =? "\")%char.

(** [path.split(/[\/\\]/)] *)
Fixpoint split_path (s : string) : list string :=
  match s with
  | EmptyString => [EmptyString]
  | String c r =>
      if is_sep c then EmptyString :: split_path r
      else match split_path r with
           | h :: t => String c h :: t
           | [] => [String c EmptyString]
           end
  end.

(** [pathComponents.join('/')] *)
Definition join (sep : string) (l : list string) : string := String.concat sep l.

(** The body of the loop after the probe: split, [shift()], join. *)
Definition strip_first (path : string) : string := join "/" (tail (split_path path)).

Section Stat.
(** How the remote end settles the promise of [sendCommand('stat', {path})]. *)
Variable reply : string → settlement.

Definition stat_ok (path : string) : bool :=
  match reply path with Resolved _ => true | Rejected _ => false end.

(** The while loop of [findValidPaths], with [existingPaths] and the
    paths probed so far (one [sendCommand('stat', ...)] each). Every round
    shortens [path], so its length bounds the number of rounds. *)
Fixpoint findValidPaths_loop (fuel : nat) (path : string) (maxPaths : nat)
    (existingPaths probes : list string) : list string * list string :=
  match fuel with
  | O => (existingPaths, probes)
  | S fuel =>
      if negb (String.eqb path "") && (length existingPaths <? maxPaths)%nat then
        let existingPaths' :=
          if stat_ok path then existingPaths ++ [path] else existingPaths in
        findValidPaths_loop fuel (strip_first path) maxPaths existingPaths' (probes ++ [path])
      else (existingPaths, probes)
  end.

Definition findValidPaths_run (path : string) (maxPaths : nat) : list string * list string :=
  findValidPaths_loop (S (String.length path)) path maxPaths [] [].

Definition findValidPaths (path : string) (maxPaths : nat) : list string :=
  (findValidPaths_run path maxPaths).1.

(** The error message [stat] builds when the query fails. *)
Definition stat_message (existingPaths : list string) : string :=
  if (0 <? length existingPaths)%nat
  then "File not found" +:+ ". Did you mean: " +:+ join ", " existingPaths
  else "File not found".

(** [stat(uri)]: the reply, or a SafeError carrying the suggestions. *)
Definition stat (path : string) : error + value :=
  match reply path with
  | Resolved v => inr v
  | Rejected err =>
      let existingPaths := findValidPaths path 3 in
      inl (SafeError (ArgsOptions (Some (stat_message existingPaths)) None None err
                                  (Some (0 <? length existingPaths)%nat)))
  end.
End Stat.

(** The path the extension looks up for a file command (client.ts, the
    ['message'] handler): [if (!filePath.startsWith('/') &&
    !filePath.match(/^[A-Za-z]:/)) filePath = '/' + filePath]. *)
Definition remote_path (path : string) : string :=
  match path with
  | String "/" _ => path
  | String c (String ":" _) =>
      let n := nat_of_ascii c in
      if (((65 <=? n) && (n <=? 90)) || ((97 <=? n) && (n <=? 122)))%nat
      then path else "/" +:+ path
  | _ => "/" +:+ path
  end.

(** A remote end on which exactly the listed files exist: the extension
    stats the path it made of the one it was sent. *)
Definition remote_with (existing : list string) (path : string) : settlement :=
  if bool_decide (remote_path path ∈ existing) then Resolved (VPayload "FileStat")
  else Rejected (VPayload "{}").

(** ** The paths [findValidPaths] probes *)

(** Every separator replaced by a slash: what split-then-join does. *)
Fixpoint normalize (s : string) : string :=
  match s with
  | EmptyString => EmptyString
  | String c r => String (if is_sep c then "/"%char else c) (normalize r)
  end.

(** The rest of the path after each of its separators, normalized, from the
    longest to the shortest. *)
Fixpoint after_seps (s : string) : list string :=
  match s with
  | EmptyString => []
  | String c r => if is_sep c then normalize r :: after_seps r else after_seps r
  end.

(** The longest prefix of non-empty paths. *)
Fixpoint live_prefix (l : list string) : list string :=
  match l with
  | [] => []
  | p :: l => if String.eqb p "" then [] else p :: live_prefix l
  end.

(** The candidates in the order they are probed: the path itself, then what
    is left of it after its first separator, and so on while something is
    left. *)
Definition candidates (path : string) : list string :=
  live_prefix (path :: after_seps path).

Lemma split_path_nonnil s : split_path s ≠ [].
Proof. destruct s as [|c r]; simpl; [done|]. destruct (is_sep c); [done|]. by destruct (split_path r). Qed.

Lemma join_split s : join "/" (split_path s) = normalize s.
Proof.
  induction s as [|c r IH]; [done|]. simpl.
  pose proof (split_path_nonnil r) as Hnn. unfold join in *.
  destruct (is_sep c).
  - destruct (split_path r) as [|h t] eqn:Hr; [done|]. simpl in *. by rewrite IH.
  - destruct (split_path r) as [|h t] eqn:Hr; [done|]. simpl in *.
    destruct t; simpl in *; by rewrite <- IH.
Qed.

Lemma strip_first_cons c r :
  strip_first (String c r) = if is_sep c then normalize r else strip_first r.
Proof.
  unfold strip_first. simpl. destruct (is_sep c); simpl; [apply join_split|].
  pose proof (split_path_nonnil r). by destruct (split_path r).
Qed.

Lemma is_sep_normalized c : is_sep (if is_sep c then "/"%char else c) = is_sep c.
Proof. by destruct (is_sep c) eqn:H. Qed.

Lemma normalize_idemp s : normalize (normalize s) = normalize s.
Proof.
  induction s as [|c r IH]; [done|]. simpl. rewrite IH, is_sep_normalized.
  by destruct (is_sep c).
Qed.

Lemma after_seps_normalize s : after_seps (normalize s) = after_seps s.
Proof.
  induction s as [|c r IH]; [done|]. simpl.
  by rewrite is_sep_normalized, IH, normalize_idemp.
Qed.

Lemma length_normalize s : String.length (normalize s) = String.length s.
Proof. induction s as [|c r IH]; simpl; congruence. Qed.

Lemma strip_first_after s :
  strip_first s = hd EmptyString (after_seps s)
  ∧ after_seps (strip_first s) = tail (after_seps s).
Proof.
  induction s as [|c r [IH1 IH2]]; [done|]. rewrite strip_first_cons. simpl.
  destruct (is_sep c); simpl; [|done]. split; [done|apply after_seps_normalize].
Qed.

Lemma strip_first_length s :
  (String.length (strip_first s) ≤ String.length s - 1)%nat.
Proof.
  induction s as [|c r IH]; [done|]. rewrite strip_first_cons. simpl.
  destruct (is_sep c); [rewrite length_normalize|]; lia.
Qed.

Section Probes.
Variable reply : string → settlement.

(** The loop read off a list of candidates. *)
Fixpoint collect (maxPaths : nat) (cands existingPaths probes : list string)
    : list string * list string :=
  match cands with
  | [] => (existingPaths, probes)
  | path :: cands =>
      if negb (String.eqb path "") && (length existingPaths <? maxPaths)%nat then
        collect maxPaths cands
                (if stat_ok reply path then existingPaths ++ [path] else existingPaths)
                (probes ++ [path])
      else (existingPaths, probes)
  end.

Lemma collect_strip maxPaths path ex pr :
  collect maxPaths (strip_first path :: after_seps (strip_first path)) ex pr
  = collect maxPaths (after_seps path) ex pr.
Proof.
  destruct (strip_first_after path) as [-> ->].
  by destruct (after_seps path).
Qed.

Lemma findValidPaths_loop_collect fuel : ∀ path maxPaths ex pr,
  (String.length path < fuel)%nat →
  findValidPaths_loop reply fuel path maxPaths ex pr
  = collect maxPaths (path :: after_seps path) ex pr.
Proof.
  induction fuel as [|fuel IH]; intros path maxPaths ex pr Hlen; [lia|].
  simpl. destruct (negb (path =? "")%string && (length ex <? maxPaths)%nat) eqn:Hgo; [|done].
  rewrite IH, collect_strip; [done|].
  pose proof (strip_first_length path).
  destruct path; [done|]. simpl in *. lia.
Qed.

Lemma collect_existing maxPaths cands : ∀ ex pr,
  (collect maxPaths cands ex pr).1
  = ex ++ take (maxPaths - length ex) (filter (λ p, stat_ok reply p = true) (live_prefix cands)).
Proof.
  induction cands as [|p cands IH]; intros ex pr; simpl.
  - by rewrite filter_nil, take_nil, app_nil_r.
  - destruct (p =? "")%string eqn:Hp; simpl.
    { by rewrite filter_nil, take_nil, app_nil_r. }
    destruct (length ex <? maxPaths)%nat eqn:Hlt.
    + apply Nat.ltb_lt in Hlt. rewrite IH.
      destruct (stat_ok reply p) eqn:Hok.
      * rewrite filter_cons_True by done. rewrite length_app. simpl.
        replace (maxPaths - length ex)%nat with (S (maxPaths - (length ex + 1)))%nat by lia.
        simpl. by rewrite <- app_assoc.
      * rewrite filter_cons_False; [done|]. congruence.
    + apply Nat.ltb_ge in Hlt.
      replace (maxPaths - length ex)%nat with 0%nat by lia.
      by rewrite take_0, app_nil_r.
Qed.

Lemma collect_probes maxPaths cands : ∀ ex pr,
  ∃ k, (collect maxPaths cands ex pr).2 = pr ++ take k (live_prefix cands).
Proof.
  induction cands as [|p cands IH]; intros ex pr; simpl.
  - exists 0%nat. by rewrite app_nil_r.
  - destruct (p =? "")%string eqn:Hp; simpl.
    { exists 0%nat. by rewrite app_nil_r. }
    destruct (length ex <? maxPaths)%nat.
    + destruct (IH (if stat_ok reply p then ex ++ [p] else ex) (pr ++ [p])) as [k ->].
      exists (S k). by rewrite <- app_assoc.
    + exists 0%nat. by rewrite app_nil_r.
Qed.
End Probes.

(** C8 (as the claim states it, refuted). With [/a/b/c] missing and [/b/c]
    present on the remote end, [stat] makes four probes, not at most three:
    the path itself again, then [a/b/c], [b/c] and [c], without a leading
    slash (the extension adds one before it looks a path up, so the probe
    [b/c] finds [/b/c]); and the suggestion in the message is [b/c], not
    [/b/c]. The number of probes is not bounded by 3 at all: a path of five
    segments of which nothing exists is probed 6 times. *)
Lemma stat_suggestion_counterexample :
  stat_ok (remote_with ["/b/c"]) "/a/b/c" = false
  ∧ stat_ok (remote_with ["/b/c"]) "/b/c" = true
  ∧ (findValidPaths_run (remote_with ["/b/c"]) "/a/b/c" 3).2 = ["/a/b/c"; "a/b/c"; "b/c"; "c"]
  ∧ stat (remote_with ["/b/c"]) "/a/b/c"
    = inl (SafeError (ArgsOptions (Some "File not found. Did you mean: b/c")
                                  None None (VPayload "{}") (Some true)))
  ∧ length (findValidPaths_run (remote_with []) "/a/b/c/d/e" 3).2 = 6%nat.
Proof. repeat split; vm_compute; reflexivity. Qed.

(** C8 (amended). When the query fails, [stat] probes the path again and then
    what is left of it after each separator in turn (joined with slashes, so
    without a leading slash), in that order and only until 3 probes have
    succeeded; the suggestions are the first 3 candidates whose probe succeeds,
    appended to the message when there is one. For [/a/b/c] missing and
    [/b/c] present on the remote end, only the probe of [b/c] succeeds and
    the message lists [b/c]. *)
Theorem stat_suggestions reply path :
  findValidPaths reply path 3
    = take 3 (filter (λ p, stat_ok reply p = true) (candidates path))
  ∧ (∃ k, (findValidPaths_run reply path 3).2 = take k (candidates path))
  ∧ stat reply path
    = match reply path with
      | Resolved v => inr v
      | Rejected err =>
          let suggestions := take 3 (filter (λ p, stat_ok reply p = true) (candidates path)) in
          inl (SafeError (ArgsOptions
                 (Some (if (0 <? length suggestions)%nat
                        then "File not found. Did you mean: " +:+ join ", " suggestions
                        else "File not found"))
                 None None err (Some (0 <? length suggestions)%nat)))
      end
  ∧ candidates "/a/b/c" = ["/a/b/c"; "a/b/c"; "b/c"; "c"]
  ∧ stat (remote_with ["/b/c"]) "/a/b/c"
    = inl (SafeError (ArgsOptions (Some "File not found. Did you mean: b/c")
                                  None None (VPayload "{}") (Some true))).
Proof.
  assert (Hex : findValidPaths reply path 3
                = take 3 (filter (λ p, stat_ok reply p = true) (candidates path))).
  { unfold findValidPaths, findValidPaths_run.
    rewrite findValidPaths_loop_collect by lia.
    by rewrite collect_existing. }
  split; [done|]. split; [|split; [|split]].
  - unfold findValidPaths_run. rewrite findValidPaths_loop_collect by lia.
    destruct (collect_probes reply 3 (path :: after_seps path) [] []) as [k ->].
    by exists k.
  - unfold stat. rewrite Hex. destruct (reply path); [done|]. simpl.
    unfold stat_message. by destruct (0 <? _)%nat.
  - reflexivity.
  - vm_compute; reflexivity.
Qed.

(** ** Every call settles at most once *)

Lemma settlements_nil id c : settlements id c = [] ↔ id ∉ (settled c).*1.
Proof.
  unfold settlements. split.
  - intros Hs Hin. apply list_elem_of_fmap in Hin as ([id' s] & Heq & Hin).
    simpl in Heq. subst id'.
    assert (Hel : (id, s) ∈ filter (λ s : string * settlement, s.1 = id) (settled c))
      by (by apply list_elem_of_filter).
    apply fmap_nil_inv in Hs. rewrite Hs in Hel. by apply elem_of_nil in Hel.
  - intros Hn. destruct (filter _ (settled c)) as [|[id' s] l] eqn:Hf; [done|exfalso].
    assert (Hel : (id', s) ∈ filter (λ s : string * settlement, s.1 = id) (settled c))
      by (rewrite Hf; left).
    apply list_elem_of_filter in Hel as [Heq Hel]. simpl in Heq. subst id'.
    apply Hn. apply list_elem_of_fmap. by exists (id, s).
Qed.

Lemma once_step ev c c' :
  wf c → NoDup (settled c).*1 → step ev c = Some c' → NoDup (settled c').*1.
Proof.
  intros Hwf Hnd. destruct ev as [command|resp|id|rs]; simpl.
  - unfold sendCommand. destruct (alive c); simpl; by intros [= <-].
  - intros [= <-]. unfold onMessage.
    destruct (requestMap c !! r_id resp) as [command|] eqn:Hl; [|done]. simpl.
    rewrite fmap_app. apply NoDup_app. split; [done|]. split; [|apply NoDup_singleton].
    intros x Hx Hx'. apply list_elem_of_singleton in Hx' as ->.
    destruct (wf_pending _ Hwf (r_id resp)) as [_ Hs]; [apply elem_of_dom; eauto|].
    by apply settlements_nil in Hs.
  - destruct (scheduled id c); [|done]. intros [= <-]. unfold onTimeout. simpl.
    destruct (requestMap c !! id) as [command|] eqn:Hl; [|done]. simpl.
    rewrite fmap_app. apply NoDup_app. split; [done|]. split; [|apply NoDup_singleton].
    intros x Hx Hx'. apply list_elem_of_singleton in Hx' as ->.
    destruct (wf_pending _ Hwf id) as [_ Hs]; [apply elem_of_dom; eauto|].
    by apply settlements_nil in Hs.
  - by intros [= <-].
Qed.

Lemma once_run evs : ∀ c c',
  wf c → NoDup (settled c).*1 → run evs c = Some c' → NoDup (settled c').*1.
Proof.
  induction evs as [|ev evs IH]; simpl; intros c c' Hwf Hnd.
  - by intros [= <-].
  - destruct (step ev c) as [c1|] eqn:Hs; simpl; [|done].
    intros Hr. eapply (IH c1); eauto using wf_step, once_step.
Qed.

(** X12. Under every sequence of calls, replies, deadlines and socket
    changes, a call of [sendCommand] is settled at most once (a reply after
    the deadline, a deadline after the reply and a repeated reply settle
    nothing), and the id a new call takes was never used before: it is not
    pending, has no deadline and names no settled call. *)
Theorem calls_settle_once rs evs c :
  run evs (newClient rs) = Some c →
  NoDup (settled c).*1
  ∧ (∀ id, (length (settlements id c) ≤ 1)%nat)
  ∧ (∀ id, id ∈ dom (requestMap c) → settlements id c = [])
  ∧ ∀ command id c', sendCommand command c = inr (id, c') →
      (id ∉ dom (requestMap c)) ∧ (id ∉ (timers c).*1) ∧ (id ∉ (settled c).*1).
Proof.
  intros Hrun.
  assert (Hwf : wf c) by (eapply wf_run; [apply wf_newClient|done]).
  assert (Hnd : NoDup (settled c).*1).
  { eapply once_run; [apply wf_newClient| |done]. constructor. }
  split; [done|]. split; [|split].
  - intros id. unfold settlements. rewrite length_fmap.
    induction (settled c) as [|[id' s] l IH]; [simpl; lia|].
    simpl in Hnd. apply NoDup_cons in Hnd as [Hni Hnd].
    destruct (decide (id' = id)) as [->|Hne].
    + rewrite filter_cons_True by done. simpl.
      assert (filter (λ s : string * settlement, s.1 = id) l = []) as ->; [|simpl; lia].
      destruct (filter _ l) as [|[id'' s'] l'] eqn:Hf; [done|exfalso].
      assert (Hel : (id'', s') ∈ filter (λ s : string * settlement, s.1 = id) l)
        by (rewrite Hf; left).
      apply list_elem_of_filter in Hel as [Heq Hel]. simpl in Heq. subst id''.
      apply Hni. apply list_elem_of_fmap. by exists (id, s').
    + rewrite filter_cons_False by done. by apply IH.
  - intros id Hin. by destruct (wf_pending _ Hwf id Hin).
  - intros command id c' Hs. unfold sendCommand in Hs.
    destruct (alive c); simpl in Hs; [|done]. injection Hs as <- _.
    assert (Hno : ¬ (pretty (nextID c) ∈ dom (requestMap c)
                     ∨ pretty (nextID c) ∈ (timers c).*1
                     ∨ pretty (nextID c) ∈ (settled c).*1)).
    { intros H. destruct (wf_ids _ Hwf _ H) as (n & Hlt & Hn).
      apply (inj pretty) in Hn. lia. }
    tauto.
Qed.

Lemma calls_settle_once_witness :
  NoDup (settled demo_c2).*1
  ∧ ∀ command id c', sendCommand command demo_c2 = inr (id, c') →
      (id ∉ dom (requestMap demo_c2)) ∧ (id ∉ (timers demo_c2).*1)
      ∧ (id ∉ (settled demo_c2).*1).
Proof.
  pose proof (calls_settle_once OPEN (demo_before ++ ESend "stat" :: demo_during) demo_c2
                ltac:(vm_compute; reflexivity)) as (H1 & _ & _ & H2).
  split; [exact H1|exact H2].
Defined.

End Filesystem.

(* ===================================================================== *)
(** * applicationPool.ts and server.ts                                   *)
(* ===================================================================== *)
Module Core.
Import Errors.

(** ** Promises and their reactions *)

(** Objects are named by the order of their creation: a [PooledApplication]
    by its index among the workers, a promise by its index in the heap, a
    call of [performOperation] by its number. *)
Definition wid := nat.
Definition pid := nat.
Definition opid := nat.

(** The functions handed to [performOperation]: [() => app.stop()] and
    [() => app.restart()] from [release], and the closures of the request
    handlers, told apart by a tag. *)
Inductive opfn :=
| FnStop (w : wid)
| FnRestart (w : wid)
| FnUser (tag : nat).

Inductive pstate :=
| Pending
| Fulfilled (v : value)
| Rejected (v : value).

(** What created a promise: [Promise.resolve()], the [then] of operation
    [op] (the new lock), the async call [performOperation] number [op], the
    call [fn()] of operation [op], a [ready] promise, the [Promise.all] of a
    disposed batch. The last three are settled from outside. *)
Inductive pkind :=
| KInit
| KLock (op : opid)
| KCaller (op : opid)
| KFn (op : opid)
| KReady
| KAll.

(** The code waiting on a promise, as closures with their captured variables:
    - [RWrapped w g fn op lock']: [lock.then(wrappedFn)], where [wrappedFn]
      captured [generationWhenQueued = g] and [fn], and [then] returned [lock'];
    - [RResume w op lock']: [wrappedFn] suspended at [await fn()];
    - [RCaller op caller]: [performOperation] suspended at [await lock], its
      own promise being [caller];
    - [RPush w]: [.then(() => this._pool.push(app))] in [release];
    - [RTick disposed]: the memory-pressure tick suspended in
      [await this._disposeBatch()] at [await Promise.all(...)], with
      [appsToDispose.length = disposed]. *)
Inductive reaction :=
| RWrapped (w : wid) (g : nat) (fn : opfn) (op : opid) (lock' : pid)
| RResume (w : wid) (op : opid) (lock' : pid)
| RCaller (op : opid) (caller : pid)
| RPush (w : wid)
| RTick (disposed : nat).

Record promise := {
  p_state : pstate;
  p_kind : pkind;
  p_reactions : list reaction
}.

(** ** The state of the server *)

(** [PooledApplication]: [ready] is the promise [resetExtensionState] made
    last, [fsproxy] whether an ExtensionClient is attached. *)
Record worker := {
  generation : nat;
  lock : pid;
  fsproxy : bool;
  ready : pid;
  extensionsPath : string
}.

(** [Lease], as far as [finalizeLease] reads it. *)
Record lease := {
  liveShareUrl : string;
  app : wid;
  cacheDir : string
}.

(** What the code does that can be observed, in order. *)
Inductive event :=
| EvSubmit (w : wid) (op : opid) (fn : opfn) (g : nat) (prev lock' caller : pid)
| EvInvoke (w : wid) (op : opid) (fn : opfn)
| EvSettle (w : wid) (op : opid) (s : pstate)
| EvSkip (w : wid) (op : opid)
| EvReturn (op : opid)
| EvThrow (op : opid) (v : value)
| EvStop (w : wid)
| EvProvision (w : wid) (basePath : string)
| EvEmitOom
| EvEmitDisposed (disposed : nat).

(** The heap of promises, the [PooledApplication] objects, the fields of
    [ApplicationPool] ([_pool], [_maxPoolSize], [oom]), the static counters of
    [PooledApplication], the fields of [Server] ([_leases],
    [_extensionsPathMap]), the scratch directories on disk, and the events so
    far. [nextOp] numbers the calls of [performOperation]. *)
Record world := {
  promises : list promise;
  workers : list worker;
  pool : list wid;
  maxPoolSize : nat;
  oom : bool;
  queuedOperations : Z;
  activeOperations : Z;
  nextOp : opid;
  leases : gmap string lease;
  extensionsPathMap : gmap string wid;
  dirs : gset string;
  trace : list event
}.

Definition set_promises (f : list promise → list promise) (st : world) : world :=
  {| promises := f (promises st); workers := workers st; pool := pool st;
     maxPoolSize := maxPoolSize st; oom := oom st;
     queuedOperations := queuedOperations st; activeOperations := activeOperations st;
     nextOp := nextOp st; leases := leases st; extensionsPathMap := extensionsPathMap st;
     dirs := dirs st; trace := trace st |}.
Definition set_workers (f : list worker → list worker) (st : world) : world :=
  {| promises := promises st; workers := f (workers st); pool := pool st;
     maxPoolSize := maxPoolSize st; oom := oom st;
     queuedOperations := queuedOperations st; activeOperations := activeOperations st;
     nextOp := nextOp st; leases := leases st; extensionsPathMap := extensionsPathMap st;
     dirs := dirs st; trace := trace st |}.
Definition set_pool (f : list wid → list wid) (st : world) : world :=
  {| promises := promises st; workers := workers st; pool := f (pool st);
     maxPoolSize := maxPoolSize st; oom := oom st;
     queuedOperations := queuedOperations st; activeOperations := activeOperations st;
     nextOp := nextOp st; leases := leases st; extensionsPathMap := extensionsPathMap st;
     dirs := dirs st; trace := trace st |}.
Definition set_oom (b : bool) (st : world) : world :=
  {| promises := promises st; workers := workers st; pool := pool st;
     maxPoolSize := maxPoolSize st; oom := b;
     queuedOperations := queuedOperations st; activeOperations := activeOperations st;
     nextOp := nextOp st; leases := leases st; extensionsPathMap := extensionsPathMap st;
     dirs := dirs st; trace := trace st |}.
Definition add_queued (k : Z) (st : world) : world :=
  {| promises := promises st; workers := workers st; pool := pool st;
     maxPoolSize := maxPoolSize st; oom := oom st;
     queuedOperations := (queuedOperations st + k)%Z; activeOperations := activeOperations st;
     nextOp := nextOp st; leases := leases st; extensionsPathMap := extensionsPathMap st;
     dirs := dirs st; trace := trace st |}.
Definition add_active (k : Z) (st : world) : world :=
  {| promises := promises st; workers := workers st; pool := pool st;
     maxPoolSize := maxPoolSize st; oom := oom st;
     queuedOperations := queuedOperations st; activeOperations := (activeOperations st + k)%Z;
     nextOp := nextOp st; leases := leases st; extensionsPathMap := extensionsPathMap st;
     dirs := dirs st; trace := trace st |}.
Definition bump_nextOp (st : world) : world :=
  {| promises := promises st; workers := workers st; pool := pool st;
     maxPoolSize := maxPoolSize st; oom := oom st;
     queuedOperations := queuedOperations st; activeOperations := activeOperations st;
     nextOp := S (nextOp st); leases := leases st; extensionsPathMap := extensionsPathMap st;
     dirs := dirs st; trace := trace st |}.
Definition set_leases (f : gmap string lease → gmap string lease) (st : world) : world :=
  {| promises := promises st; workers := workers st; pool := pool st;
     maxPoolSize := maxPoolSize st; oom := oom st;
     queuedOperations := queuedOperations st; activeOperations := activeOperations st;
     nextOp := nextOp st; leases := f (leases st); extensionsPathMap := extensionsPathMap st;
     dirs := dirs st; trace := trace st |}.
Definition set_extensionsPathMap (f : gmap string wid → gmap string wid) (st : world) : world :=
  {| promises := promises st; workers := workers st; pool := pool st;
     maxPoolSize := maxPoolSize st; oom := oom st;
     queuedOperations := queuedOperations st; activeOperations := activeOperations st;
     nextOp := nextOp st; leases := leases st; extensionsPathMap := f (extensionsPathMap st);
     dirs := dirs st; trace := trace st |}.
Definition set_dirs (f : gset string → gset string) (st : world) : world :=
  {| promises := promises st; workers := workers st; pool := pool st;
     maxPoolSize := maxPoolSize st; oom := oom st;
     queuedOperations := queuedOperations st; activeOperations := activeOperations st;
     nextOp := nextOp st; leases := leases st; extensionsPathMap := extensionsPathMap st;
     dirs := f (dirs st); trace := trace st |}.
Definition emit (ev : event) (st : world) : world :=
  {| promises := promises st; workers := workers st; pool := pool st;
     maxPoolSize := maxPoolSize st; oom := oom st;
     queuedOperations := queuedOperations st; activeOperations := activeOperations st;
     nextOp := nextOp st; leases := leases st; extensionsPathMap := extensionsPathMap st;
     dirs := dirs st; trace := trace st ++ [ev] |}.

(** [new ApplicationPool(logger, maxPoolSize)] inside [new Server()]. *)
Definition init (maxPoolSize : nat) : world :=
  {| promises := []; workers := []; pool := []; maxPoolSize := maxPoolSize; oom := false;
     queuedOperations := 0; activeOperations := 0; nextOp := 0;
     leases := ∅; extensionsPathMap := ∅; dirs := ∅; trace := [] |}.

(** *** Promise primitives *)

(** A new promise; its name is the next free index. *)
Definition alloc (s : pstate) (k : pkind) (st : world) : pid * world :=
  (length (promises st),
   set_promises (λ h, h ++ [{| p_state := s; p_kind := k; p_reactions := [] |}]) st).

(** [p.then(r)] or [await p] with continuation [r]. *)
Definition add_reaction (p : pid) (r : reaction) (st : world) : world :=
  set_promises (alter (λ pr, {| p_state := p_state pr; p_kind := p_kind pr;
                               p_reactions := p_reactions pr ++ [r] |}) p) st.

(** Resolving or rejecting [p]; a settled promise stays as it is. *)
Definition settle (p : pid) (s : pstate) (st : world) : world :=
  set_promises (alter (λ pr, match p_state pr with
                            | Pending => {| p_state := s; p_kind := p_kind pr;
                                            p_reactions := p_reactions pr |}
                            | _ => pr
                            end) p) st.

Definition set_worker (w : wid) (f : worker → worker) (st : world) : world :=
  set_workers (alter f w) st.

(** ** PooledApplication *)

(** [resetExtensionState()]: a new pending [ready] promise, no [fsproxy]. *)
Definition resetExtensionState (w : wid) (st : world) : world :=
  let '(r, st) := alloc Pending KReady st in
  set_worker w (λ wk, {| generation := generation wk; lock := lock wk; fsproxy := false;
                         ready := r; extensionsPath := extensionsPath wk |}) st.

(** [restart()] up to [return super.restart(options)]. *)
Definition restart (w : wid) (st : world) : world :=
  let st := resetExtensionState w st in
  set_worker w (λ wk, {| generation := S (generation wk); lock := lock wk;
                         fsproxy := fsproxy wk; ready := ready wk;
                         extensionsPath := extensionsPath wk |}) st.

(** The call [fn()] up to the promise it returns. *)
Definition call_fn (fn : opfn) (st : world) : world :=
  match fn with
  | FnStop w => emit (EvStop w) st
  | FnRestart w => restart w st
  | FnUser _ => st
  end.

(** [performOperation(fn)] up to its [await lock]; the result is the promise
    the async call returns. [None] only for a worker that does not exist. *)
Definition performOperation (w : wid) (fn : opfn) (st : world) : option (pid * world) :=
  wk ← workers st !! w;
  let st := add_queued 1 st in
  let generationWhenQueued := generation wk in
  let op := nextOp st in
  let '(lock', st) := alloc Pending (KLock op) st in
  let st := add_reaction (lock wk) (RWrapped w generationWhenQueued fn op lock') st in
  let st := set_worker w (λ wk, {| generation := generation wk; lock := lock';
                                   fsproxy := fsproxy wk; ready := ready wk;
                                   extensionsPath := extensionsPath wk |}) st in
  let '(caller, st) := alloc Pending (KCaller op) st in
  let st := add_reaction lock' (RCaller op caller) st in
  Some (caller,
        emit (EvSubmit w op fn generationWhenQueued (lock wk) lock' caller) (bump_nextOp st)).

Definition settled_value (s : pstate) : value :=
  match s with Fulfilled v | Rejected v => v | Pending => VUndefined end.

(** The continuation [r] run on a promise settled as [s]. *)
Definition react (r : reaction) (s : pstate) (st : world) : world :=
  match r with
  | RWrapped w g fn op lock' =>
      match s with
      | Rejected v =>
          (* [then] without a rejection handler passes the rejection on *)
          settle lock' (Rejected v) st
      | _ =>
          let st := add_queued (-1) st in
          if bool_decide (generation <$> workers st !! w = Some g) then
            let st := add_active 1 st in
            let st := call_fn fn (emit (EvInvoke w op fn) st) in
            let '(f, st) := alloc Pending (KFn op) st in
            add_reaction f (RResume w op lock') st
          else
            settle lock' (Fulfilled VUndefined) (emit (EvSkip w op) st)
      end
  | RResume w op lock' =>
      (* [result] is the value of [fn()] or the error caught *)
      let st := add_active (-1) (emit (EvSettle w op s) st) in
      settle lock' (Fulfilled (settled_value s)) st
  | RCaller op caller =>
      match s with
      | Rejected v => settle caller (Rejected v) (emit (EvThrow op v) st)
      | _ =>
          if instanceofError (settled_value s)
          then settle caller (Rejected (settled_value s)) (emit (EvThrow op (settled_value s)) st)
          else settle caller (Fulfilled VUndefined) (emit (EvReturn op) st)
      end
  | RPush w =>
      match s with
      | Fulfilled _ => set_pool (λ l, l ++ [w]) st
      | _ => st
      end
  | RTick disposed =>
      match s with
      | Fulfilled _ =>
          if (disposed =? 0)%nat then set_oom true (emit EvEmitOom st)
          else emit (EvEmitDisposed disposed) st
      | _ => st
      end
  end.

(** ** ApplicationPool *)

Inductive acquired := Acquired (w : wid) | AcquireFailed (e : error).

(** What the provisioning steps of [acquire] ([mkdtemp], [mkdir], [writeFile],
    [installExtension], [app.start()]) come to. *)
Inductive provisioning := ProvisionOk (basePath : string) | ProvisionFails (e : error).

(** [new PooledApplication(options)]: [generation = 1],
    [lock = Promise.resolve()], and the constructor's [resetExtensionState()]. *)
Definition newPooledApplication (extensionsPath : string) (st : world) : wid * world :=
  let '(l, st) := alloc (Fulfilled VUndefined) KInit st in
  let w := length (workers st) in
  let st := set_workers (λ ws, ws ++ [{| generation := 1; lock := l; fsproxy := false;
                                         ready := l; extensionsPath := extensionsPath |}]) st in
  (w, resetExtensionState w st).

Definition poolEmptyError : error := plainError "Pool is empty but mustUsePool is set".
Definition capacityError : error :=
  SafeError (ArgsPositional "The service is at capacity. Please try again later." (Some 429%N)).

(** [acquire(partialOptions, mustUsePool)]. [this._pool.pop()] takes the last
    element; the pool has one exactly when its length is positive. *)
Definition acquire (mustUsePool : bool) (prov : provisioning) (st : world) : acquired * world :=
  match last (pool st) with
  | Some w => (Acquired w, set_pool (λ l, removelast l) st)
  | None =>
      if mustUsePool then (AcquireFailed poolEmptyError, st)
      else if oom st then (AcquireFailed capacityError, st)
      else match prov with
           | ProvisionFails e => (AcquireFailed e, st)
           | ProvisionOk basePath =>
               let st := set_dirs (λ d, {[basePath]} ∪ d) st in
               let '(w, st) := newPooledApplication (basePath +:+ "/extensions") st in
               (Acquired w, emit (EvProvision w basePath) st)
           end
  end.

(** [release(app)]: the action is chosen now, the push happens when the
    promise of [performOperation] is fulfilled. *)
Definition release (w : wid) (st : world) : option world :=
  if (length (pool st) <? maxPoolSize st)%nat then
    '(caller, st) ← performOperation w (FnRestart w) st;
    Some (add_reaction caller (RPush w) st)
  else
    '(caller, st) ← performOperation w (FnStop w) st;
    Some st.

(** [Math.ceil(n * 0.25)]; multiplying by 0.25 is exact in floating point. *)
Definition ceil_quarter (n : nat) : nat := ((n + 3) / 4)%nat.

(** [array.splice(start, deleteCount)]: what stays and what is removed. *)
Definition splice {A} (start deleteCount : Z) (l : list A) : list A * list A :=
  let len := Z.of_nat (length l) in
  let actualStart := if (start <? 0)%Z then Z.max (len + start) 0 else Z.min start len in
  let actualDelete := Z.min (Z.max deleteCount 0) (len - actualStart) in
  (take (Z.to_nat actualStart) l ++ drop (Z.to_nat (actualStart + actualDelete)) l,
   take (Z.to_nat actualDelete) (drop (Z.to_nat actualStart) l)).

(** [memFree / memTotal < 0.25] on the numbers of /proc/meminfo ([None] is a
    missing key, hence NaN). For natural numbers below 2^53 the rounded
    quotient is below 0.25 exactly when [4 * memFree < memTotal]. *)
Definition belowThreshold (memFree memTotal : option N) : bool :=
  match memFree, memTotal with
  | Some f, Some t => (4 * f <? t)%N
  | _, _ => false
  end.

(** [_disposeBatch()] up to [await Promise.all(...)]: the promise awaited and
    [appsToDispose.length]. [Promise.all] of no promise is already fulfilled. *)
Definition disposeBatch (st : world) : pid * nat * world :=
  let batchSize := ceil_quarter (length (pool st)) in
  let '(rest, appsToDispose) :=
    splice (- Z.of_nat batchSize) (Z.of_nat batchSize) (pool st) in
  let st := set_pool (λ _, rest) st in
  let st := foldl (λ st w, emit (EvStop w) st) st appsToDispose in
  let '(p, st) := alloc (if appsToDispose is [] then Fulfilled (VPayload "[]") else Pending)
                        KAll st in
  (p, length appsToDispose, st).

(** One tick of the memory-pressure timer, after [_readMeminfo()]. *)
Definition tick (memFree memTotal : option N) (st : world) : world :=
  let st := set_oom false st in
  if belowThreshold memFree memTotal then
    let '(p, disposed, st) := disposeBatch st in
    add_reaction p (RTick disposed) st
  else st.

(** ** Server *)

(** [finalizeLease(lease)] *)
Definition finalizeLease (l : option lease) (st : world) : option world :=
  match l with
  | Some l =>
      wk ← workers st !! app l;
      let st := set_leases (delete (liveShareUrl l)) st in
      let st := set_extensionsPathMap (delete (extensionsPath wk)) st in
      st ← release (app l) st;
      Some (set_dirs (λ d, d ∖ {[cacheDir l]}) st)
  | None => Some st
  end.

(** The lease lookup and registration of [getOrCreateLease] for one request
    that no other request, timer or message interleaves with: the awaits of
    [_pool.acquire] and [mkdtemp] between [_leases.get] and [_leases.set] are
    taken in one step. The check of the URL, the TTL timer (also its reset
    for a lease that is there) and the Live Share join are left out. *)
Definition getOrCreateLease (url : string) (mustUsePool : bool) (prov : provisioning)
    (cacheDir : string) (st : world) : option ((error + lease) * world) :=
  match leases st !! url with
  | Some l => Some (inr l, st)
  | None =>
      match acquire mustUsePool prov st with
      | (AcquireFailed e, st) => Some (inl e, st)
      | (Acquired w, st) =>
          wk ← workers st !! w;
          let st := set_dirs (λ d, {[cacheDir]} ∪ d) st in
          let l := {| liveShareUrl := url; app := w; cacheDir := cacheDir |} in
          let st := set_leases (<[url := l]>) st in
          let st := set_extensionsPathMap (<[extensionsPath wk := w]>) st in
          Some (inr l, st)
      end
  end.

(** The catch block of [handleErrors] as far as the lease goes. *)
Definition handleErrors_catch (e : error) (l : option lease) (st : world) : option world :=
  if notRecoverable e then finalizeLease l st else Some st.

(** ** The event loop *)

(** What can happen next: a handler calls [performOperation] with its own
    function; the loop runs the oldest reaction of a settled promise; a promise
    made outside the core is settled; [restart] is called on a worker; the pool
    is asked for a worker or given one back; the memory-pressure timer ticks;
    a lease is looked up or created; a lease is finalized. *)
Inductive label :=
| LPerform (w : wid) (tag : nat)
| LFire (p : pid)
| LSettle (p : pid) (s : pstate)
| LRestart (w : wid)
| LAcquire (mustUsePool : bool) (prov : provisioning)
| LRelease (w : wid)
| LTick (memFree memTotal : option N)
| LLease (url : string) (mustUsePool : bool) (prov : provisioning) (cacheDir : string)
| LFinalize (l : lease).

Definition external (k : pkind) : bool :=
  match k with KFn _ | KReady | KAll => true | _ => false end.

Definition is_pending (s : pstate) : bool :=
  match s with Pending => true | _ => false end.

Definition pop_reaction (p : pid) (st : world) : world :=
  set_promises (alter (λ pr, {| p_state := p_state pr; p_kind := p_kind pr;
                               p_reactions := tail (p_reactions pr) |}) p) st.

(** One step; [None] when the step cannot be taken in this state. *)
Definition step (l : label) (st : world) : option world :=
  match l with
  | LPerform w tag => snd <$> performOperation w (FnUser tag) st
  | LFire p =>
      pr ← promises st !! p;
      match p_state pr, p_reactions pr with
      | Pending, _ => None
      | _, [] => None
      | s, r :: _ => Some (react r s (pop_reaction p st))
      end
  | LSettle p s =>
      pr ← promises st !! p;
      if is_pending (p_state pr) && external (p_kind pr) && negb (is_pending s)
      then Some (settle p s st) else None
  | LRestart w => _ ← workers st !! w; Some (restart w st)
  | LAcquire mustUsePool prov => Some (acquire mustUsePool prov st).2
  | LRelease w => release w st
  | LTick memFree memTotal => Some (tick memFree memTotal st)
  | LLease url mustUsePool prov cacheDir =>
      snd <$> getOrCreateLease url mustUsePool prov cacheDir st
  | LFinalize l => finalizeLease (Some l) st
  end.

Fixpoint run (ls : list label) (st : world) : option world :=
  match ls with
  | [] => Some st
  | l :: ls => st' ← step l st; run ls st'
  end.

(** ** Admission control of [acquire] *)

(** A run that leaves the out-of-capacity flag set on a pool that is not
    empty: a worker is provisioned, a tick under memory pressure finds nothing
    to evict, then the worker is released and its restart completes. *)
Definition oom_with_idle_worker : list label :=
  [LAcquire false (ProvisionOk "/tmp/a");
   LTick (Some 1%N) (Some 100%N); LFire 2;
   LRelease 0; LFire 0; LSettle 6 (Fulfilled VUndefined); LFire 6; LFire 3; LFire 4].

(** C4 (as the claim states it, refuted). With the out-of-capacity flag set,
    [acquire] still hands out an idle worker of the pool; and on an empty pool
    with [mustUsePool] it fails with the pool-empty error, not with the
    capacity error. *)
Lemma acquire_oom_counterexample :
  ∃ st, run oom_with_idle_worker (init 3) = Some st
        ∧ oom st = true
        ∧ pool st = [0%nat]
        ∧ (acquire false (ProvisionOk "/tmp/b") st).1 = Acquired 0
        ∧ (acquire true (ProvisionOk "/tmp/b") (set_oom true (init 3))).1
          = AcquireFailed poolEmptyError
        ∧ poolEmptyError ≠ capacityError.
Proof.
  eexists. split; [vm_compute; reflexivity|].
  split; [reflexivity|]. split; [reflexivity|]. split; [reflexivity|].
  split; [reflexivity|discriminate].
Qed.

(** C4 (amended). On an empty pool, [acquire] with [mustUsePool] fails with
    the pool-empty error and changes nothing, whatever provisioning would have
    given; without [mustUsePool] and with the out-of-capacity flag set it fails
    with the capacity error (a SafeError of status 429) and changes nothing.
    A pool that is not empty hands out its last worker, flag or no flag. *)
Theorem acquire_admission st prov :
  pool st = [] →
  acquire true prov st = (AcquireFailed poolEmptyError, st)
  ∧ (oom st = true → acquire false prov st = (AcquireFailed capacityError, st))
  ∧ e_status capacityError = Some 429%N
  ∧ (∀ st' l w mustUsePool, pool st' = l ++ [w] →
       acquire mustUsePool prov st' = (Acquired w, set_pool (λ l, removelast l) st')).
Proof.
  intros Hempty. unfold acquire. rewrite Hempty. simpl.
  split; [done|]. split; [by intros ->|]. split; [done|].
  intros st' l w mustUsePool ->. by rewrite last_snoc.
Qed.

Lemma acquire_admission_witness :
  pool (set_oom true (init 3)) = []
  ∧ acquire true (ProvisionOk "/tmp/a") (set_oom true (init 3))
    = (AcquireFailed poolEmptyError, set_oom true (init 3))
  ∧ acquire false (ProvisionOk "/tmp/a") (set_oom true (init 3))
    = (AcquireFailed capacityError, set_oom true (init 3)).
Proof.
  split; [reflexivity|].
  destruct (acquire_admission (set_oom true (init 3)) (ProvisionOk "/tmp/a") eq_refl)
    as (H1 & H2 & _).
  split; [exact H1|exact (H2 eq_refl)].
Defined.

(** ** The memory-pressure tick *)

Lemma ceil_quarter_spec n :
  (n ≤ 4 * ceil_quarter n)%nat ∧ (4 * ceil_quarter n < n + 4)%nat.
Proof.
  unfold ceil_quarter.
  pose proof (Nat.div_mod_eq (n + 3) 4). pose proof (Nat.mod_upper_bound (n + 3) 4 ltac:(lia)). lia.
Qed.


Lemma ceil_quarter_0 n : ceil_quarter n = 0%nat ↔ n = 0%nat.
Proof. pose proof (ceil_quarter_spec n). split; [lia|by intros ->]. Qed.








(** ** The bound of the pool *)

(** Two workers are in use on a pool of capacity 1. Both are released before
    either restart is through: each [release] finds the pool below capacity
    and chooses to restart; when the restarts complete, both are pushed. *)
Definition two_releases : list label :=
  [LAcquire false (ProvisionOk "/tmp/a"); LAcquire false (ProvisionOk "/tmp/b");
   LRelease 0; LRelease 1;
   LFire 0; LFire 2;
   LSettle 9 (Fulfilled VUndefined); LSettle 11 (Fulfilled VUndefined);
   LFire 9; LFire 11; LFire 4; LFire 6; LFire 5; LFire 7].

(** C10 (the code at the failing input). The pool of capacity 1 ends up
    holding two idle workers. *)
Theorem pool_bound_violated :
  ∃ st, run two_releases (init 1) = Some st
        ∧ maxPoolSize st = 1%nat
        ∧ pool st = [0%nat; 1%nat]
        ∧ (maxPoolSize st < length (pool st))%nat.
Proof.
  eexists. split; [vm_compute; reflexivity|].
  split; [reflexivity|]. split; [reflexivity|]. simpl. lia.
Qed.

(** ** finalizeLease *)

Definition demo_lease : lease :=
  {| liveShareUrl := "https://vscode.dev/liveshare/0"; app := 0; cacheDir := "/tmp/lease-1" |}.

Definition lease_created : list label :=
  [LLease "https://vscode.dev/liveshare/0" false (ProvisionOk "/tmp/a") "/tmp/lease-1"].

(** The event loop after one [finalizeLease]: the restart runs and completes,
    the caller resumes, the worker is pushed. *)
Definition drain_once : list label :=
  [LFire 0; LSettle 5 (Fulfilled VUndefined); LFire 5; LFire 2; LFire 3].

(** The same after two: the second restart was queued under generation 1 and
    is skipped, yet its [then] pushes the worker again. *)
Definition drain_twice : list label :=
  [LFire 0; LSettle 7 (Fulfilled VUndefined); LFire 7; LFire 2; LFire 2;
   LFire 3; LFire 4; LFire 5].

(** What one call of [finalizeLease] does. *)
Lemma finalizeLease_once l st st' :
  finalizeLease (Some l) st = Some st' →
  ∃ wk, workers st !! app l = Some wk
        ∧ leases st' = delete (liveShareUrl l) (leases st)
        ∧ extensionsPathMap st' = delete (extensionsPath wk) (extensionsPathMap st)
        ∧ dirs st' = dirs st ∖ {[cacheDir l]}
        ∧ nextOp st' = S (nextOp st)
        ∧ ∃ g prev lock' caller,
            trace st' = trace st ++
              [EvSubmit (app l) (nextOp st)
                 (if (length (pool st) <? maxPoolSize st)%nat
                  then FnRestart (app l) else FnStop (app l))
                 g prev lock' caller].
Proof.
  unfold finalizeLease. destruct (workers st !! app l) as [wk|] eqn:Hw; [|done].
  cbn [mbind option_bind]. unfold release, performOperation.
  cbn [workers pool maxPoolSize set_leases set_extensionsPathMap].
  rewrite Hw. cbn [mbind option_bind].
  destruct (length (pool st) <? maxPoolSize st)%nat; simpl;
    intros [= <-]; exists wk; simpl; repeat (split; [done|]); eauto.
Qed.

(** C3 (the code at the failing input). A second [finalizeLease] of the same
    lease submits a second release of its worker: the states already differ
    when the call returns, and once the event loop has run the worker sits in
    the pool twice. The lease map, the reverse index and the scratch directory
    are the same after one call and after two. *)
Theorem finalizeLease_twice :
  ∃ st once twice once' twice',
    run lease_created (init 3) = Some st
    ∧ leases st !! liveShareUrl demo_lease = Some demo_lease
    ∧ finalizeLease (Some demo_lease) st = Some once
    ∧ finalizeLease (Some demo_lease) once = Some twice
    ∧ nextOp once = 1%nat ∧ nextOp twice = 2%nat
    ∧ leases twice = leases once
    ∧ extensionsPathMap twice = extensionsPathMap once
    ∧ dirs twice = dirs once
    ∧ run drain_once once = Some once'
    ∧ run drain_twice twice = Some twice'
    ∧ pool once' = [0%nat]
    ∧ pool twice' = [0%nat; 0%nat].
Proof.
  do 5 eexists.
  split; [vm_compute; reflexivity|].
  split; [vm_compute; reflexivity|].
  split; [vm_compute; reflexivity|].
  split; [vm_compute; reflexivity|].
  split; [reflexivity|]. split; [reflexivity|].
  split; [vm_compute; reflexivity|].
  split; [vm_compute; reflexivity|].
  split; [vm_compute; reflexivity|].
  split; [vm_compute; reflexivity|].
  split; [vm_compute; reflexivity|].
  split; reflexivity.
Qed.

(** ** What the caller of performOperation gets *)

(** The wrapper resumed after [fn()] settled fulfils the new lock with the
    value or the error caught: the chain goes on after a failure as after a
    success. *)
Lemma react_resume w op lock' s st :
  react (RResume w op lock') s st
  = settle lock' (Fulfilled (settled_value s))
      (add_active (-1) (emit (EvSettle w op s) st)).
Proof. reflexivity. Qed.

(** The caller resumed on the fulfilled lock throws exactly when the value is
    an instance of [Error]. *)
Lemma react_caller op caller v st :
  react (RCaller op caller) (Fulfilled v) st
  = if instanceofError v
    then settle caller (Rejected v) (emit (EvThrow op v) st)
    else settle caller (Fulfilled VUndefined) (emit (EvReturn op) st).
Proof. reflexivity. Qed.

(** A handler's operation fails with the error payload of an RPC reply, a
    plain object and no instance of [Error] (the message handler of
    ExtensionClient rejects with [response.error] as parsed). *)
Definition failing_operation : list label :=
  [LAcquire false (ProvisionOk "/tmp/a");
   LPerform 0 7;
   LFire 0;
   LSettle 4 (Rejected (VPayload "{}"));
   LFire 4; LFire 2].

(** C7 (the code at the failing input). The operation was invoked and failed,
    and the caller's await returns normally: its promise is fulfilled and
    nothing is thrown. *)
Theorem non_error_failure_swallowed :
  ∃ st, run failing_operation (init 3) = Some st
        ∧ trace st = [EvProvision 0 "/tmp/a";
                      EvSubmit 0 0 (FnUser 7) 1 0 2 3;
                      EvInvoke 0 0 (FnUser 7);
                      EvSettle 0 0 (Rejected (VPayload "{}"));
                      EvReturn 0]
        ∧ p_state <$> promises st !! 3%nat = Some (Fulfilled VUndefined).
Proof.
  eexists. split; [vm_compute; reflexivity|]. split; reflexivity.
Qed.

(** ** The catch block of handleErrors *)

(** C9 (as the claim states it, refuted). The timeout error of [sendCommand]
    is a plain [Error]: it carries no [recoverable] flag, nothing marked it
    unrecoverable, and the handler finalizes the lease. *)
Lemma plain_error_counterexample :
  ∃ st st',
    run lease_created (init 3) = Some st
    ∧ leases st !! liveShareUrl demo_lease = Some demo_lease
    ∧ e_recoverable (Filesystem.timeoutError "stat" 30000) = None
    ∧ handleErrors_catch (Filesystem.timeoutError "stat" 30000) (Some demo_lease) st = Some st'
    ∧ finalizeLease (Some demo_lease) st = Some st'
    ∧ leases st' !! liveShareUrl demo_lease = None.
Proof.
  do 2 eexists.
  split; [vm_compute; reflexivity|].
  split; [vm_compute; reflexivity|].
  split; [reflexivity|].
  split; [vm_compute; reflexivity|].
  split; [vm_compute; reflexivity|].
  vm_compute; reflexivity.
Qed.

(** C9 (amended). A SafeError carries a [recoverable] flag that is true unless
    the options given to its constructor set it to false; any other error
    carries the flag only if something set it. The handler finalizes the lease
    exactly when the flag is false or absent, whatever [sensitive] is. *)
Theorem handleErrors_finalizes_unrecoverable e l st :
  handleErrors_catch e l st
  = (if notRecoverable e then finalizeLease l st else Some st)
  ∧ (notRecoverable e = true ↔ e_recoverable e = Some false ∨ e_recoverable e = None)
  ∧ (∀ sensitive',
       notRecoverable (MkError (e_safe e) (e_message e) (e_status e) (e_recoverable e)
                               sensitive' (e_cause e))
       = notRecoverable e)
  ∧ (∀ args, e_recoverable (SafeError args)
             = Some match args with
                    | ArgsOptions _ _ (Some b) _ _ => b
                    | _ => true
                    end)
  ∧ (∀ message, e_recoverable (plainError message) = None).
Proof.
  split; [done|]. split; [|split; [|split]].
  - destruct e as [? ? ? [[]|] ? ?]; unfold notRecoverable; simpl;
      (split; [try discriminate; auto|intros [?|?]; try discriminate; done]).
  - by destruct e.
  - apply SafeError_recoverable_default.
  - done.
Qed.

(** ** Invariants of the operation queue *)

(** What the events so far say about an operation. *)
Definition on_worker (tr : list event) (w : wid) (op : opid) : Prop :=
  ∃ fn g prev d c, EvSubmit w op fn g prev d c ∈ tr.
Definition invoked (tr : list event) (op : opid) : Prop := ∃ w fn, EvInvoke w op fn ∈ tr.
Definition skipped (tr : list event) (op : opid) : Prop := ∃ w, EvSkip w op ∈ tr.
Definition finished (tr : list event) (op : opid) : Prop := ∃ w s, EvSettle w op s ∈ tr.
(** The wrapper of the operation has run. *)
Definition touched (tr : list event) (op : opid) : Prop :=
  invoked tr op ∨ skipped tr op ∨ finished tr op.
(** The wrapper of the operation has returned. *)
Definition resolved (tr : list event) (op : opid) : Prop := skipped tr op ∨ finished tr op.
(** The value the wrapper returned. *)
Definition outcome (tr : list event) (op : opid) (v : value) : Prop :=
  (skipped tr op ∧ v = VUndefined) ∨ (∃ w s, EvSettle w op s ∈ tr ∧ v = settled_value s).

(** The operation an event of the queue is about. *)
Definition ev_op (ev : event) : option opid :=
  match ev with
  | EvSubmit _ op _ _ _ _ _ | EvInvoke _ op _ | EvSettle _ op _ | EvSkip _ op => Some op
  | _ => None
  end.

Definition wrapped_ops (rs : list reaction) : list opid :=
  omap (λ r, match r with RWrapped _ _ _ op _ => Some op | _ => None end) rs.
Definition resumed_ops (rs : list reaction) : list opid :=
  omap (λ r, match r with RResume _ op _ => Some op | _ => None end) rs.

Definition is_lock_kind (k : option pkind) : Prop :=
  k = Some KInit ∨ ∃ op, k = Some (KLock op).

Section Inv.
Variables (h : list promise) (ws : list worker) (n : opid) (tr : list event).

Definition kind_of (p : pid) : option pkind := p_kind <$> h !! p.

(** The shape of the state: names are in range, every submission has its
    promises, and the locks of a worker form a chain in the order of the
    submissions. *)
Record shape : Prop := {
  sh_lock : ∀ w wk, ws !! w = Some wk → is_lock_kind (kind_of (lock wk));
  sh_ops : ∀ ev op, ev ∈ tr → ev_op ev = Some op → op < n;
  sh_workers : ∀ w op, on_worker tr w op → w < length ws;
  sh_submit : ∀ w op fn g prev d c, EvSubmit w op fn g prev d c ∈ tr →
      kind_of d = Some (KLock op) ∧ is_lock_kind (kind_of prev);
  sh_submit_inj : ∀ w op fn g prev d c w' fn' g' prev' d' c',
      EvSubmit w op fn g prev d c ∈ tr → EvSubmit w' op fn' g' prev' d' c' ∈ tr →
      EvSubmit w op fn g prev d c = EvSubmit w' op fn' g' prev' d' c';
  sh_init : ∀ p pr, h !! p = Some pr → p_kind pr = KInit →
      p_state pr = Fulfilled VUndefined;
  sh_pred : ∀ w op2 fn g prev d c op1,
      EvSubmit w op2 fn g prev d c ∈ tr → on_worker tr w op1 → op1 < op2 →
      ∃ op fn' g' prev' c', EvSubmit w op fn' g' prev' prev c' ∈ tr ∧ (op1 ≤ op)%nat ∧ op < op2;
  sh_last : ∀ w wk op1, ws !! w = Some wk → on_worker tr w op1 →
      ∃ op fn g prev c, EvSubmit w op fn g prev (lock wk) c ∈ tr ∧ (op1 ≤ op)%nat;
  sh_events : ∀ w op, (∀ fn, EvInvoke w op fn ∈ tr → ∃ g prev d c, EvSubmit w op fn g prev d c ∈ tr)
      ∧ (EvSkip w op ∈ tr → on_worker tr w op)
      ∧ (∀ s, EvSettle w op s ∈ tr → on_worker tr w op ∧ invoked tr op)
}.

(** The reactions in the heap are accounted for by the events: a wrapper
    waits on the lock read at its submission and has not run; a suspended
    wrapper waits on the promise of its own call of [fn] and has not returned;
    a lock is fulfilled only by its wrapper, never rejected; a wrapper has run
    only after the lock before it was fulfilled. *)
Record tokens : Prop := {
  tk_wrapped : ∀ p pr w g fn op d, h !! p = Some pr → RWrapped w g fn op d ∈ p_reactions pr →
      (∃ c, EvSubmit w op fn g p d c ∈ tr) ∧ ¬ touched tr op;
  tk_resume : ∀ p pr w op d, h !! p = Some pr → RResume w op d ∈ p_reactions pr →
      p_kind pr = KFn op ∧ (∃ fn g prev c, EvSubmit w op fn g prev d c ∈ tr)
      ∧ invoked tr op ∧ ¬ resolved tr op;
  tk_fn : ∀ p pr op, h !! p = Some pr → p_kind pr = KFn op →
      invoked tr op ∧ ∀ p' pr', h !! p' = Some pr' → p_kind pr' = KFn op → p' = p;
  tk_caller : ∀ p pr op c, h !! p = Some pr → RCaller op c ∈ p_reactions pr →
      p_kind pr = KLock op ∧ kind_of c = Some (KCaller op);
  tk_nodup_wrapped : ∀ p pr, h !! p = Some pr → NoDup (wrapped_ops (p_reactions pr));
  tk_nodup_resumed : ∀ p pr, h !! p = Some pr → NoDup (resumed_ops (p_reactions pr));
  tk_lock_state : ∀ p pr op, h !! p = Some pr → p_kind pr = KLock op →
      match p_state pr with
      | Pending => True
      | Fulfilled v => outcome tr op v
      | Rejected _ => False
      end;
  tk_prev : ∀ w op fn g prev d c, EvSubmit w op fn g prev d c ∈ tr → touched tr op →
      ∃ pr v, h !! prev = Some pr ∧ p_state pr = Fulfilled v;
  tk_excl : ∀ op, invoked tr op → skipped tr op → False;
  tk_once : ∀ w op s w' s', EvSettle w op s ∈ tr → EvSettle w' op s' ∈ tr → s = s'
}.

(** What was observed, in its order: a function was called only after every
    operation submitted before it to the same worker had returned; a caller
    was thrown only the error its own function failed with, and returned
    normally only if its operation was skipped or did not end in an Error. *)
Record observed : Prop := {
  ob_order : ∀ tr1 tr2 w op fn op1, tr = tr1 ++ EvInvoke w op fn :: tr2 →
      on_worker tr w op1 → op1 < op → resolved tr1 op1;
  ob_throw : ∀ op v, EvThrow op v ∈ tr →
      instanceofError v = true ∧ ∃ w s, EvSettle w op s ∈ tr ∧ settled_value s = v;
  ob_return : ∀ op, EvReturn op ∈ tr →
      skipped tr op ∨ ∃ w s, EvSettle w op s ∈ tr ∧ instanceofError (settled_value s) = false
}.

Definition inv_core : Prop := shape ∧ tokens ∧ observed.
End Inv.

Definition inv (st : world) : Prop :=
  inv_core (promises st) (workers st) (nextOp st) (trace st).

(** *** How one more event changes what the trace says *)

Lemma snoc_split {A} (tr : list A) (ev x : A) tr1 tr2 :
  tr ++ [ev] = tr1 ++ x :: tr2 →
  (tr2 = [] ∧ tr = tr1 ∧ ev = x) ∨ (∃ tr2', tr2 = tr2' ++ [ev] ∧ tr = tr1 ++ x :: tr2').
Proof.
  intros Heq. destruct (decide (tr2 = [])) as [->|Hne].
  - left. apply app_inj_tail in Heq as [-> ->]. done.
  - right. destruct (exists_last Hne) as (tr2' & y & ->).
    rewrite app_comm_cons, app_assoc in Heq. apply app_inj_tail in Heq as [-> ->].
    by exists tr2'.
Qed.

(** Events that say nothing about an operation. *)
Definition quiet (ev : event) : Prop :=
  match ev with
  | EvStop _ | EvProvision _ _ | EvEmitOom | EvEmitDisposed _ | EvReturn _ | EvThrow _ _ => True
  | _ => False
  end.

Ltac snoc_in H :=
  apply elem_of_app in H as [H|H];
  [|apply list_elem_of_singleton in H; try discriminate H; try (subst; contradiction)].

Section Snoc.
Variables (tr : list event) (ev : event).

Lemma on_worker_mono w op : on_worker tr w op → on_worker (tr ++ [ev]) w op.
Proof. intros (fn & g & prev & d & c & H). do 5 eexists. apply elem_of_app. eauto. Qed.
Lemma invoked_mono op : invoked tr op → invoked (tr ++ [ev]) op.
Proof. intros (w & fn & H). do 2 eexists. apply elem_of_app. eauto. Qed.
Lemma skipped_mono op : skipped tr op → skipped (tr ++ [ev]) op.
Proof. intros (w & H). eexists. apply elem_of_app. eauto. Qed.
Lemma finished_mono op : finished tr op → finished (tr ++ [ev]) op.
Proof. intros (w & s & H). do 2 eexists. apply elem_of_app. eauto. Qed.
Lemma touched_mono op : touched tr op → touched (tr ++ [ev]) op.
Proof. unfold touched. intros [?|[?|?]]; eauto using invoked_mono, skipped_mono, finished_mono. Qed.
Lemma resolved_mono op : resolved tr op → resolved (tr ++ [ev]) op.
Proof. unfold resolved. intros [?|?]; eauto using skipped_mono, finished_mono. Qed.
Lemma outcome_mono op v : outcome tr op v → outcome (tr ++ [ev]) op v.
Proof.
  intros [[? ?]|(w & s & H & ?)]; [left; eauto using skipped_mono|].
  right. do 2 eexists. split; [apply elem_of_app; eauto|done].
Qed.

Lemma on_worker_snoc w op :
  on_worker (tr ++ [ev]) w op ↔
  on_worker tr w op ∨ ∃ fn g prev d c, ev = EvSubmit w op fn g prev d c.
Proof.
  split.
  - intros (fn & g & prev & d & c & H). apply elem_of_app in H as [H|H].
    + left. by do 5 eexists.
    + apply list_elem_of_singleton in H. right. by do 5 eexists.
  - intros [H|(fn & g & prev & d & c & ->)]; [by apply on_worker_mono|].
    do 5 eexists. apply elem_of_app. right. by left.
Qed.
Lemma invoked_snoc op :
  invoked (tr ++ [ev]) op ↔ invoked tr op ∨ ∃ w fn, ev = EvInvoke w op fn.
Proof.
  split.
  - intros (w & fn & H). apply elem_of_app in H as [H|H].
    + left. by do 2 eexists.
    + apply list_elem_of_singleton in H. right. by do 2 eexists.
  - intros [H|(w & fn & ->)]; [by apply invoked_mono|].
    do 2 eexists. apply elem_of_app. right. by left.
Qed.
Lemma skipped_snoc op :
  skipped (tr ++ [ev]) op ↔ skipped tr op ∨ ∃ w, ev = EvSkip w op.
Proof.
  split.
  - intros (w & H). apply elem_of_app in H as [H|H].
    + left. by eexists.
    + apply list_elem_of_singleton in H. right. by eexists.
  - intros [H|(w & ->)]; [by apply skipped_mono|].
    eexists. apply elem_of_app. right. by left.
Qed.
Lemma finished_snoc op :
  finished (tr ++ [ev]) op ↔ finished tr op ∨ ∃ w s, ev = EvSettle w op s.
Proof.
  split.
  - intros (w & s & H). apply elem_of_app in H as [H|H].
    + left. by do 2 eexists.
    + apply list_elem_of_singleton in H. right. by do 2 eexists.
  - intros [H|(w & s & ->)]; [by apply finished_mono|].
    do 2 eexists. apply elem_of_app. right. by left.
Qed.
End Snoc.

(** *** The shape is kept *)

Lemma is_lock_kind_mono (h h' : list promise) p :
  (∀ p k, kind_of h p = Some k → kind_of h' p = Some k) →
  is_lock_kind (kind_of h p) → is_lock_kind (kind_of h' p).
Proof. intros Hk [H|[op H]]; [left|right; exists op]; by apply Hk. Qed.

Lemma shape_heap h h' ws n tr :
  shape h ws n tr →
  (∀ p k, kind_of h p = Some k → kind_of h' p = Some k) →
  (∀ p pr, h' !! p = Some pr → p_kind pr = KInit → p_state pr = Fulfilled VUndefined) →
  shape h' ws n tr.
Proof.
  intros [] Hk Hi. split; try done.
  - intros w wk Hw. eapply is_lock_kind_mono; eauto.
  - intros w op fn g prev d c Hin.
    destruct (sh_submit0 _ _ _ _ _ _ _ Hin) as (? & ?).
    split; [by apply Hk|by eapply is_lock_kind_mono].
Qed.

(** What must have happened before an event that is not a submission. *)
Definition justified (tr : list event) (ev : event) : Prop :=
  match ev with
  | EvSubmit _ _ _ _ _ _ _ => False
  | EvInvoke w op fn => ∃ g prev d c, EvSubmit w op fn g prev d c ∈ tr
  | EvSkip w op => on_worker tr w op
  | EvSettle w op s => on_worker tr w op ∧ invoked tr op
  | _ => True
  end.

Lemma shape_event h ws n tr ev : justified tr ev → shape h ws n tr → shape h ws n (tr ++ [ev]).
Proof.
  intros Hj []. split; try done.
  - intros ev' op Hin Hop. snoc_in Hin; [eauto|]. subst ev'.
    destruct ev; try done; simpl in Hop, Hj; injection Hop as <-.
    + destruct Hj as (g & prev & d & c & Hj). by eapply sh_ops0.
    + destruct Hj as ((fn & g & prev & d & c & Hj) & ?). by eapply sh_ops0.
    + destruct Hj as (fn & g & prev & d & c & Hj). by eapply sh_ops0.
  - intros w op Hon. apply on_worker_snoc in Hon as [?|(?&?&?&?&?&->)]; [eauto|done].
  - intros w op fn g prev d c Hin. snoc_in Hin; eauto.
  - intros w op fn g prev d c w' fn' g' prev' d' c' H1 H2.
    snoc_in H1; snoc_in H2; eauto.
  - intros w op2 fn g prev d c op1 Hin Hon Hlt. snoc_in Hin.
    apply on_worker_snoc in Hon as [Hon|(?&?&?&?&?&->)]; [|done].
    destruct (sh_pred0 _ _ _ _ _ _ _ _ Hin Hon Hlt) as (op & fn' & g' & prev' & c' & H & ?).
    exists op, fn', g', prev', c'. split; [apply elem_of_app; eauto|done].
  - intros w wk op1 Hw Hon.
    apply on_worker_snoc in Hon as [Hon|(?&?&?&?&?&->)]; [|done].
    destruct (sh_last0 _ _ _ Hw Hon) as (op & fn' & g' & prev' & c' & H & ?).
    exists op, fn', g', prev', c'. split; [apply elem_of_app; eauto|done].
  - intros w op. destruct (sh_events0 w op) as (E1 & E2 & E3). split; [|split].
    + intros fn Hin. apply elem_of_app in Hin as [Hin|Hin].
      * destruct (E1 _ Hin) as (g & prev & d & c & H).
        exists g, prev, d, c. apply elem_of_app; eauto.
      * apply list_elem_of_singleton in Hin. subst ev.
        destruct Hj as (g & prev & d & c & H).
        exists g, prev, d, c. apply elem_of_app; eauto.
    + intros Hin. apply elem_of_app in Hin as [Hin|Hin].
      * by apply on_worker_mono, E2.
      * apply list_elem_of_singleton in Hin. subst ev. by apply on_worker_mono.
    + intros s Hin. apply elem_of_app in Hin as [Hin|Hin].
      * destruct (E3 _ Hin). split; [by apply on_worker_mono|by apply invoked_mono].
      * apply list_elem_of_singleton in Hin. subst ev. destruct Hj.
        split; [by apply on_worker_mono|by apply invoked_mono].
Qed.

Lemma shape_workers h ws ws' n tr :
  shape h ws n tr →
  length ws' = length ws →
  (∀ w wk', ws' !! w = Some wk' → ∃ wk, ws !! w = Some wk ∧ lock wk' = lock wk) →
  shape h ws' n tr.
Proof.
  intros [] Hlen Hw. split; try done.
  - intros w wk' Hl. destruct (Hw _ _ Hl) as (wk & ? & ->). eauto.
  - intros w op Hon. rewrite Hlen. eauto.
  - intros w wk' op1 Hl Hon. destruct (Hw _ _ Hl) as (wk & ? & ->). eauto.
Qed.

Lemma shape_new_worker h ws n tr wk :
  shape h ws n tr → kind_of h (lock wk) = Some KInit → shape h (ws ++ [wk]) n tr.
Proof.
  intros [] Hk. split; try done.
  - intros w wk' Hl. apply lookup_snoc_Some in Hl as [[_ Hl]|[_ <-]]; [eauto|by left].
  - intros w op Hon. rewrite length_app. simpl. pose proof (sh_workers0 _ _ Hon). lia.
  - intros w wk' op1 Hl Hon. apply lookup_snoc_Some in Hl as [[_ Hl]|[-> <-]]; [eauto|].
    pose proof (sh_workers0 _ _ Hon). lia.
Qed.

Definition set_lock (d : pid) (wk : worker) : worker :=
  {| generation := generation wk; lock := d; fsproxy := fsproxy wk; ready := ready wk;
     extensionsPath := extensionsPath wk |}.

Lemma shape_submit h h' ws n tr w wk fn g d c :
  shape h ws n tr → ws !! w = Some wk →
  (∀ p k, kind_of h p = Some k → kind_of h' p = Some k) →
  (∀ p pr, h' !! p = Some pr → p_kind pr = KInit → p_state pr = Fulfilled VUndefined) →
  kind_of h' d = Some (KLock n) →
  shape h' (alter (set_lock d) w ws) (S n) (tr ++ [EvSubmit w n fn g (lock wk) d c]).
Proof.
  intros [] Hw Hk Hi Hd. unfold wid, pid, opid in *.
  assert (Hfresh : ∀ w' fn' g' prev' d' c', EvSubmit w' n fn' g' prev' d' c' ∈ tr → False).
  { intros w' fn' g' prev' d' c' Hin. pose proof (sh_ops0 _ n Hin eq_refl). lia. }
  assert (Hold : ∀ w' op, on_worker (tr ++ [EvSubmit w n fn g (lock wk) d c]) w' op →
                 (on_worker tr w' op ∧ op < n) ∨ (w' = w ∧ op = n)).
  { intros w' op Hon. apply on_worker_snoc in Hon as [Hon|(?&?&?&?&?&Heq)].
    - left. split; [done|]. destruct Hon as (?&?&?&?&?&Hin). by eapply sh_ops0.
    - right. by injection Heq as -> ->. }
  split.
  - intros w' wk' Hl. destruct (decide (w' = w)) as [->|Hne].
    + rewrite list_lookup_alter_eq, Hw in Hl. injection Hl as <-. simpl. right. eauto.
    + rewrite list_lookup_alter_ne in Hl by done. eapply is_lock_kind_mono; eauto.
  - intros ev op Hin Hop. snoc_in Hin.
    + pose proof (sh_ops0 _ _ Hin Hop). lia.
    + subst ev. simpl in Hop. injection Hop as <-. lia.
  - intros w' op Hon. rewrite length_alter.
    destruct (Hold _ _ Hon) as [[Hon' _]|[-> _]]; [eauto|]. by eapply lookup_lt_Some.
  - intros w' op fn' g' prev' d' c' Hin. snoc_in Hin.
    + destruct (sh_submit0 _ _ _ _ _ _ _ Hin) as (? & ?).
      split; [by apply Hk|by eapply is_lock_kind_mono].
    + injection Hin as -> -> -> -> -> -> ->. split; [done|].
      eapply is_lock_kind_mono; eauto.
  - intros w1 op f1 g1 p1 d1 c1 w2 f2 g2 p2 d2 c2 H1 H2. snoc_in H1; snoc_in H2.
    + eauto.
    + injection H2 as -> -> -> -> -> -> ->. by apply Hfresh in H1.
    + injection H1 as -> -> -> -> -> -> ->. by apply Hfresh in H2.
    + congruence.
  - done.
  - intros w' op2 fn' g' prev' d' c' op1 Hin Hon Hlt. snoc_in Hin.
    + pose proof (sh_ops0 _ op2 Hin eq_refl).
      destruct (Hold _ _ Hon) as [[Hon' _]|[-> ->]]; [|lia].
      destruct (sh_pred0 _ _ _ _ _ _ _ _ Hin Hon' Hlt) as (op & f' & g'' & p' & c'' & Hsub & ?).
      exists op, f', g'', p', c''. split; [apply elem_of_app; eauto|done].
    + injection Hin as -> -> -> -> -> -> ->.
      destruct (Hold _ _ Hon) as [[Hon' _]|[_ ->]]; [|lia].
      destruct (sh_last0 _ _ _ Hw Hon') as (op & f' & g'' & p' & c'' & Hsub & ?).
      pose proof (sh_ops0 _ op Hsub eq_refl).
      exists op, f', g'', p', c''. split; [apply elem_of_app; eauto|]. split; [done|lia].
  - intros w' wk' op1 Hl Hon. destruct (decide (w' = w)) as [->|Hne].
    + rewrite list_lookup_alter_eq, Hw in Hl. injection Hl as <-. simpl.
      exists n, fn, g, (lock wk), c. split; [apply elem_of_app; right; by left|].
      destruct (Hold _ _ Hon) as [[_ ?]|[_ ->]]; lia.
    + rewrite list_lookup_alter_ne in Hl by done.
      destruct (Hold _ _ Hon) as [[Hon' _]|[-> _]]; [|done].
      destruct (sh_last0 _ _ _ Hl Hon') as (op & f' & g'' & p' & c'' & Hsub & ?).
      exists op, f', g'', p', c''. split; [apply elem_of_app; eauto|done].
  - intros w' op. destruct (sh_events0 w' op) as (E1 & E2 & E3). split; [|split].
    + intros fn' Hin. snoc_in Hin. destruct (E1 _ Hin) as (g' & prev' & d' & c' & H).
      exists g', prev', d', c'. apply elem_of_app; eauto.
    + intros Hin. snoc_in Hin. by apply on_worker_mono, E2.
    + intros s Hin. snoc_in Hin. destruct (E3 _ Hin).
      split; [by apply on_worker_mono|by apply invoked_mono].
Qed.

(** *** The accounting is kept *)

(** Reactions outside the operation queue. *)
Definition plain (r : reaction) : Prop :=
  match r with RPush _ | RTick _ => True | _ => False end.

(** Events that do not say that a wrapper ran. *)
Definition silent (ev : event) : Prop :=
  match ev with EvInvoke _ _ _ | EvSkip _ _ | EvSettle _ _ _ => False | _ => True end.

Lemma touched_snoc_silent tr ev op :
  silent ev → touched (tr ++ [ev]) op → touched tr op.
Proof.
  intros Hq [H|[H|H]].
  - apply invoked_snoc in H as [?|(?&?&->)]; [by left|done].
  - apply skipped_snoc in H as [?|(?&->)]; [by right; left|done].
  - apply finished_snoc in H as [?|(?&?&->)]; [by right; right|done].
Qed.

Lemma resolved_snoc_silent tr ev op :
  silent ev → resolved (tr ++ [ev]) op → resolved tr op.
Proof.
  intros Hq [H|H].
  - apply skipped_snoc in H as [?|(?&->)]; [by left|done].
  - apply finished_snoc in H as [?|(?&?&->)]; [by right|done].
Qed.

(** The clauses of [tokens] about one promise. *)
Definition promise_ok (h : list promise) (tr : list event) (p : pid) (pr : promise) : Prop :=
  (∀ w g fn op d, RWrapped w g fn op d ∈ p_reactions pr →
     (∃ c, EvSubmit w op fn g p d c ∈ tr) ∧ ¬ touched tr op)
  ∧ (∀ w op d, RResume w op d ∈ p_reactions pr →
     p_kind pr = KFn op ∧ (∃ fn g prev c, EvSubmit w op fn g prev d c ∈ tr)
     ∧ invoked tr op ∧ ¬ resolved tr op)
  ∧ (∀ op, p_kind pr = KFn op →
     invoked tr op ∧ ∀ p' pr', h !! p' = Some pr' → p_kind pr' = KFn op → p' = p)
  ∧ (∀ op c, RCaller op c ∈ p_reactions pr →
     p_kind pr = KLock op ∧ kind_of h c = Some (KCaller op))
  ∧ NoDup (wrapped_ops (p_reactions pr))
  ∧ NoDup (resumed_ops (p_reactions pr))
  ∧ (∀ op, p_kind pr = KLock op →
     match p_state pr with
     | Pending => True
     | Fulfilled v => outcome tr op v
     | Rejected _ => False
     end).

(** A promise that is as it was, up to reactions gone or plain ones added
    and, unless it is a lock, its state. *)
Definition old_like (h : list promise) (p : pid) (pr' : promise) : Prop :=
  ∃ pr, h !! p = Some pr ∧ p_kind pr' = p_kind pr
        ∧ (∀ r, r ∈ p_reactions pr' → r ∈ p_reactions pr ∨ plain r)
        ∧ sublist (wrapped_ops (p_reactions pr')) (wrapped_ops (p_reactions pr))
        ∧ sublist (resumed_ops (p_reactions pr')) (resumed_ops (p_reactions pr))
        ∧ (∀ op, p_kind pr = KLock op → p_state pr' = p_state pr).

Lemma tokens_promise_ok h tr p pr : tokens h tr → h !! p = Some pr → promise_ok h tr p pr.
Proof.
  intros [] Hl. unfold promise_ok.
  split; [intros; eapply tk_wrapped0; eauto|].
  split; [intros; eapply tk_resume0; eauto|].
  split; [intros; eapply tk_fn0; eauto|].
  split; [intros; eapply tk_caller0; eauto|].
  split; [eauto|]. split; [eauto|]. intros. by eapply tk_lock_state0.
Qed.

Lemma tokens_local h h' tr :
  tokens h tr →
  (∀ p k, kind_of h p = Some k → kind_of h' p = Some k) →
  (∀ p pr v, h !! p = Some pr → p_state pr = Fulfilled v →
             ∃ pr', h' !! p = Some pr' ∧ p_state pr' = Fulfilled v) →
  (∀ p pr', h' !! p = Some pr' → old_like h p pr' ∨ promise_ok h' tr p pr') →
  tokens h' tr.
Proof.
  intros [] Hk Hf Hsub. split; try done.
  - intros p pr' w g fn op d Hl Hin.
    destruct (Hsub _ _ Hl) as [(pr & Hl0 & _ & Hr & _)|(Hok & _)]; [|by apply Hok].
    destruct (Hr _ Hin) as [?|[]]. by eapply tk_wrapped0.
  - intros p pr' w op d Hl Hin.
    destruct (Hsub _ _ Hl) as [(pr & Hl0 & Hkd & Hr & _)|(_ & Hok & _)]; [|by apply Hok].
    destruct (Hr _ Hin) as [?|[]]. rewrite Hkd. by eapply tk_resume0.
  - intros p pr' op Hl Hkd.
    destruct (Hsub _ _ Hl) as [(pr & Hl0 & Hkd0 & _)|(_ & _ & Hok & _)]; [|by apply Hok].
    rewrite Hkd0 in Hkd. destruct (tk_fn0 _ _ _ Hl0 Hkd) as [Hi Hu]. split; [done|].
    intros p' pr2 Hl2 Hkd2.
    destruct (Hsub _ _ Hl2) as [(pr3 & Hl3 & Hkd3 & _)|(_ & _ & Hok & _)].
    + rewrite Hkd3 in Hkd2. eauto.
    + destruct (Hok _ Hkd2) as [_ Hu2]. symmetry. eapply Hu2; [done|]. by rewrite Hkd0.
  - intros p pr' op c Hl Hin.
    destruct (Hsub _ _ Hl) as [(pr & Hl0 & Hkd & Hr & _)|(_ & _ & _ & Hok & _)];
      [|by apply Hok].
    destruct (Hr _ Hin) as [Hin0|[]]. destruct (tk_caller0 _ _ _ _ Hl0 Hin0).
    rewrite Hkd. split; [done|by apply Hk].
  - intros p pr' Hl.
    destruct (Hsub _ _ Hl) as [(pr & Hl0 & _ & _ & Hs & _)|(_ & _ & _ & _ & Hok & _)]; [|done].
    eapply sublist_NoDup; [|exact Hs]; eauto.
  - intros p pr' Hl.
    destruct (Hsub _ _ Hl) as [(pr & Hl0 & _ & _ & _ & Hs & _)|(_ & _ & _ & _ & _ & Hok & _)];
      [|done].
    eapply sublist_NoDup; [|exact Hs]; eauto.
  - intros p pr' op Hl Hkd.
    destruct (Hsub _ _ Hl) as [(pr & Hl0 & Hkd0 & _ & _ & _ & Hst)|(_ & _ & _ & _ & _ & _ & Hok)];
      [|by apply Hok].
    rewrite Hkd0 in Hkd. rewrite (Hst _ Hkd). exact (tk_lock_state0 _ _ _ Hl0 Hkd).
  - intros w op fn g prev d c Hin Ht.
    destruct (tk_prev0 _ _ _ _ _ _ _ Hin Ht) as (pr & v & Hl & Hs).
    destruct (Hf _ _ _ Hl Hs) as (pr' & ? & ?). eauto.
Qed.

Lemma old_like_refl (h : list promise) p pr : h !! p = Some pr → old_like h p pr.
Proof. intros Hl. exists pr. repeat split; auto. Qed.

(** A new promise without reactions that is no lock already settled and
    not the promise of a call. *)
Lemma promise_ok_empty h tr p s k :
  (∀ op, k ≠ KFn op) → (∀ op, k = KLock op → s = Pending) →
  promise_ok h tr p {| p_state := s; p_kind := k; p_reactions := [] |}.
Proof.
  intros Hfn Hlk. unfold promise_ok. simpl.
  split; [intros ????? Hin; by apply elem_of_nil in Hin|].
  split; [intros ??? Hin; by apply elem_of_nil in Hin|].
  split; [intros op Hop; by destruct (Hfn op)|].
  split; [intros ?? Hin; by apply elem_of_nil in Hin|].
  split; [constructor|]. split; [constructor|].
  intros op Hop. by rewrite (Hlk _ Hop).
Qed.

Lemma tokens_silent h tr ev :
  silent ev →
  (∀ w op fn g prev d c, ev = EvSubmit w op fn g prev d c → ¬ touched tr op) →
  tokens h tr → tokens h (tr ++ [ev]).
Proof.
  intros Hq Hfresh []. split.
  - intros p pr w g fn op d Hl Hin. destruct (tk_wrapped0 _ _ _ _ _ _ _ Hl Hin) as [[c Hs] Hnt].
    split; [exists c; apply elem_of_app; eauto|]. intros Ht. by apply touched_snoc_silent in Ht.
  - intros p pr w op d Hl Hin.
    destruct (tk_resume0 _ _ _ _ _ Hl Hin) as (? & (fn & g & prev & c & Hs) & ? & Hnr).
    split; [done|]. split; [exists fn, g, prev, c; apply elem_of_app; eauto|].
    split; [by apply invoked_mono|]. intros Hr. by apply resolved_snoc_silent in Hr.
  - intros p pr op Hl Hkd. destruct (tk_fn0 _ _ _ Hl Hkd). split; [by apply invoked_mono|done].
  - done.
  - done.
  - done.
  - intros p pr op Hl Hkd. pose proof (tk_lock_state0 _ _ _ Hl Hkd) as Hst.
    destruct (p_state pr); [done|by apply outcome_mono|done].
  - intros w op fn g prev d c Hin Ht. apply touched_snoc_silent in Ht; [|done].
    apply elem_of_app in Hin as [Hin|Hin]; [eauto|].
    apply list_elem_of_singleton in Hin. symmetry in Hin. by destruct (Hfresh _ _ _ _ _ _ _ Hin).
  - intros op Hi Hs. apply invoked_snoc in Hi as [Hi|(?&?&->)]; [|done].
    apply skipped_snoc in Hs as [Hs|(?&->)]; [eauto|done].
  - intros w op s w' s' H1 H2. snoc_in H1. snoc_in H2. eauto.
Qed.

Lemma touched_snoc_about tr ev op op' :
  ev_op ev = Some op → touched (tr ++ [ev]) op' → touched tr op' ∨ op' = op.
Proof.
  intros Hop [H|[H|H]].
  - apply invoked_snoc in H as [?|(?&?&->)]; [left; by left|].
    right. simpl in Hop. congruence.
  - apply skipped_snoc in H as [?|(?&->)]; [left; by right; left|].
    right. simpl in Hop. congruence.
  - apply finished_snoc in H as [?|(?&?&->)]; [left; by right; right|].
    right. simpl in Hop. congruence.
Qed.

Lemma resolved_snoc_about tr ev op op' :
  ev_op ev = Some op → resolved (tr ++ [ev]) op' → resolved tr op' ∨ op' = op.
Proof.
  intros Hop [H|H].
  - apply skipped_snoc in H as [?|(?&->)]; [left; by left|].
    right. simpl in Hop. congruence.
  - apply finished_snoc in H as [?|(?&?&->)]; [left; by right|].
    right. simpl in Hop. congruence.
Qed.

(** The wrapper of [op] runs: it calls [fn] or skips it. *)
Lemma tokens_touch h tr ev op :
  (∃ w fn, ev = EvInvoke w op fn) ∨ (∃ w, ev = EvSkip w op) →
  ¬ touched tr op →
  (∀ p pr w g fn d, h !! p = Some pr → RWrapped w g fn op d ∉ p_reactions pr) →
  (∀ w fn g prev d c, EvSubmit w op fn g prev d c ∈ tr →
     ∃ pr v, h !! prev = Some pr ∧ p_state pr = Fulfilled v) →
  tokens h tr → tokens h (tr ++ [ev]).
Proof.
  intros Hev Hnt Hnw Hprev [].
  assert (Hop : ev_op ev = Some op) by (by destruct Hev as [(?&?&->)|(?&->)]).
  assert (Hns : ∀ w op' fn g prev d c, ev ≠ EvSubmit w op' fn g prev d c)
    by (by destruct Hev as [(?&?&->)|(?&->)]).
  assert (Hnf : ∀ w op' s, ev ≠ EvSettle w op' s)
    by (by destruct Hev as [(?&?&->)|(?&->)]).
  split.
  - intros p pr w g fn op' d Hl Hin.
    destruct (tk_wrapped0 _ _ _ _ _ _ _ Hl Hin) as [[c Hs] Hnt'].
    split; [exists c; apply elem_of_app; eauto|]. intros Ht.
    destruct (touched_snoc_about _ _ _ _ Hop Ht) as [?| ->]; [done|]. by eapply Hnw.
  - intros p pr w op' d Hl Hin.
    destruct (tk_resume0 _ _ _ _ _ Hl Hin) as (? & (fn & g & prev & c & Hs) & Hi & Hnr).
    split; [done|]. split; [exists fn, g, prev, c; apply elem_of_app; eauto|].
    split; [by apply invoked_mono|]. intros Hr.
    destruct (resolved_snoc_about _ _ _ _ Hop Hr) as [?| ->]; [done|]. apply Hnt. by left.
  - intros p pr op' Hl Hkd. destruct (tk_fn0 _ _ _ Hl Hkd). split; [by apply invoked_mono|done].
  - done.
  - done.
  - done.
  - intros p pr op' Hl Hkd. pose proof (tk_lock_state0 _ _ _ Hl Hkd) as Hst.
    destruct (p_state pr); [done|by apply outcome_mono|done].
  - intros w op' fn g prev d c Hin Ht.
    apply elem_of_app in Hin as [Hin|Hin];
      [|apply list_elem_of_singleton in Hin; symmetry in Hin; by destruct (Hns _ _ _ _ _ _ _ Hin)].
    destruct (touched_snoc_about _ _ _ _ Hop Ht) as [?| ->]; eauto.
  - intros op' Hi Hs.
    apply invoked_snoc in Hi as [Hi|(w & fn & Hi)];
      apply skipped_snoc in Hs as [Hs|(w' & Hs)].
    + eauto.
    + subst ev. simpl in Hop. injection Hop as ->. apply Hnt. by left.
    + subst ev. simpl in Hop. injection Hop as ->. apply Hnt. right. by left.
    + congruence.
  - intros w op' s w' s' H1 H2.
    apply elem_of_app in H1 as [H1|H1];
      [|apply list_elem_of_singleton in H1; symmetry in H1; by destruct (Hnf _ _ _ H1)].
    apply elem_of_app in H2 as [H2|H2];
      [|apply list_elem_of_singleton in H2; symmetry in H2; by destruct (Hnf _ _ _ H2)].
    eauto.
Qed.

(** The wrapper of [op] resumes after [fn]. *)
Lemma tokens_settle_ev h tr w op s :
  invoked tr op → ¬ resolved tr op →
  (∀ p pr w d, h !! p = Some pr → RResume w op d ∉ p_reactions pr) →
  tokens h tr → tokens h (tr ++ [EvSettle w op s]).
Proof.
  intros Hi Hnr Hnw [].
  assert (Hop : ev_op (EvSettle w op s) = Some op) by done.
  split.
  - intros p pr w' g fn op' d Hl Hin.
    destruct (tk_wrapped0 _ _ _ _ _ _ _ Hl Hin) as [[c Hs] Hnt'].
    split; [exists c; apply elem_of_app; eauto|]. intros Ht.
    destruct (touched_snoc_about _ _ _ _ Hop Ht) as [?| ->]; [done|]. apply Hnt'. by left.
  - intros p pr w' op' d Hl Hin.
    destruct (tk_resume0 _ _ _ _ _ Hl Hin) as (? & (fn & g & prev & c & Hs) & Hi' & Hnr').
    split; [done|]. split; [exists fn, g, prev, c; apply elem_of_app; eauto|].
    split; [by apply invoked_mono|]. intros Hr.
    destruct (resolved_snoc_about _ _ _ _ Hop Hr) as [?| ->]; [done|]. by eapply Hnw.
  - intros p pr op' Hl Hkd. destruct (tk_fn0 _ _ _ Hl Hkd). split; [by apply invoked_mono|done].
  - done.
  - done.
  - done.
  - intros p pr op' Hl Hkd. pose proof (tk_lock_state0 _ _ _ Hl Hkd) as Hst.
    destruct (p_state pr); [done|by apply outcome_mono|done].
  - intros w' op' fn g prev d c Hin Ht. snoc_in Hin.
    destruct (touched_snoc_about _ _ _ _ Hop Ht) as [?| ->]; [eauto|].
    eapply tk_prev0; [done|by left].
  - intros op' Hi' Hs. apply invoked_snoc in Hi' as [Hi'|(?&?&?)]; [|done].
    apply skipped_snoc in Hs as [Hs|(?&?)]; [eauto|done].
  - intros w1 op' s1 w2 s2 H1 H2.
    apply elem_of_app in H1 as [H1|H1]; apply elem_of_app in H2 as [H2|H2].
    + eauto.
    + apply list_elem_of_singleton in H2. injection H2 as -> -> ->.
      destruct Hnr. right. by do 2 eexists.
    + apply list_elem_of_singleton in H1. injection H1 as -> -> ->.
      destruct Hnr. right. by do 2 eexists.
    + apply list_elem_of_singleton in H1. apply list_elem_of_singleton in H2. congruence.
Qed.

(** *** The observations are kept *)

Lemma observed_event tr ev :
  (∀ w op fn, ev ≠ EvInvoke w op fn) → (∀ op, ev ≠ EvReturn op) → (∀ op v, ev ≠ EvThrow op v) →
  (∀ w op1 fn g prev d c, ev = EvSubmit w op1 fn g prev d c →
     ∀ w' op fn', EvInvoke w' op fn' ∈ tr → op < op1) →
  observed tr → observed (tr ++ [ev]).
Proof.
  intros Hni Hnr Hnt Hsub []. split.
  - intros tr1 tr2 w op fn op1 Heq Hon Hlt.
    apply snoc_split in Heq as [(_ & _ & Heq)|(tr2' & -> & Heq)]; [by destruct (Hni w op fn)|].
    apply on_worker_snoc in Hon as [Hon|(f & g & prev & d & c & Hev)]; [by eapply ob_order0|].
    assert (op < op1); [|lia].
    eapply Hsub; [done|]. rewrite Heq. apply elem_of_app. right. by left.
  - intros op v Hin. apply elem_of_app in Hin as [Hin|Hin];
      [|apply list_elem_of_singleton in Hin; symmetry in Hin; by destruct (Hnt _ _ Hin)].
    destruct (ob_throw0 _ _ Hin) as (? & w & s & ? & ?). split; [done|].
    exists w, s. split; [apply elem_of_app; eauto|done].
  - intros op Hin. apply elem_of_app in Hin as [Hin|Hin];
      [|apply list_elem_of_singleton in Hin; symmetry in Hin; by destruct (Hnr _ Hin)].
    destruct (ob_return0 _ Hin) as [?|(w & s & ? & ?)]; [left; by apply skipped_mono|].
    right. exists w, s. split; [apply elem_of_app; eauto|done].
Qed.

Lemma observed_invoke tr w op fn :
  (∀ op1, on_worker tr w op1 → op1 < op → resolved tr op1) →
  observed tr → observed (tr ++ [EvInvoke w op fn]).
Proof.
  intros Hord []. split.
  - intros tr1 tr2 w' op' fn' op1 Heq Hon Hlt.
    apply on_worker_snoc in Hon as [Hon|(?&?&?&?&?&?)]; [|done].
    apply snoc_split in Heq as [(_ & <- & Heq)|(tr2' & -> & Heq)].
    + injection Heq as <- <- <-. eauto.
    + by eapply ob_order0.
  - intros op' v Hin. snoc_in Hin.
    destruct (ob_throw0 _ _ Hin) as (? & w' & s & ? & ?). split; [done|].
    exists w', s. split; [apply elem_of_app; eauto|done].
  - intros op' Hin. snoc_in Hin.
    destruct (ob_return0 _ Hin) as [?|(w' & s & ? & ?)]; [left; by apply skipped_mono|].
    right. exists w', s. split; [apply elem_of_app; eauto|done].
Qed.

Lemma observed_throw tr op v w s :
  instanceofError v = true → EvSettle w op s ∈ tr → settled_value s = v →
  observed tr → observed (tr ++ [EvThrow op v]).
Proof.
  intros Hv Hs Hsv []. split.
  - intros tr1 tr2 w' op' fn' op1 Heq Hon Hlt.
    apply on_worker_snoc in Hon as [Hon|(?&?&?&?&?&?)]; [|done].
    apply snoc_split in Heq as [(_ & _ & Heq)|(tr2' & -> & Heq)]; [done|]. by eapply ob_order0.
  - intros op' v' Hin. apply elem_of_app in Hin as [Hin|Hin].
    + destruct (ob_throw0 _ _ Hin) as (? & w' & s' & ? & ?). split; [done|].
      exists w', s'. split; [apply elem_of_app; eauto|done].
    + apply list_elem_of_singleton in Hin. injection Hin as -> ->. split; [done|].
      exists w, s. split; [apply elem_of_app; eauto|done].
  - intros op' Hin. snoc_in Hin.
    destruct (ob_return0 _ Hin) as [?|(w' & s' & ? & ?)]; [left; by apply skipped_mono|].
    right. exists w', s'. split; [apply elem_of_app; eauto|done].
Qed.

Lemma observed_return tr op :
  (skipped tr op ∨ ∃ w s, EvSettle w op s ∈ tr ∧ instanceofError (settled_value s) = false) →
  observed tr → observed (tr ++ [EvReturn op]).
Proof.
  intros Hj []. split.
  - intros tr1 tr2 w' op' fn' op1 Heq Hon Hlt.
    apply on_worker_snoc in Hon as [Hon|(?&?&?&?&?&?)]; [|done].
    apply snoc_split in Heq as [(_ & _ & Heq)|(tr2' & -> & Heq)]; [done|]. by eapply ob_order0.
  - intros op' v' Hin. snoc_in Hin.
    destruct (ob_throw0 _ _ Hin) as (? & w' & s' & ? & ?). split; [done|].
    exists w', s'. split; [apply elem_of_app; eauto|done].
  - intros op' Hin. apply elem_of_app in Hin as [Hin|Hin].
    + destruct (ob_return0 _ Hin) as [?|(w' & s' & ? & ?)]; [left; by apply skipped_mono|].
      right. exists w', s'. split; [apply elem_of_app; eauto|done].
    + apply list_elem_of_singleton in Hin. injection Hin as ->.
      destruct Hj as [?|(w' & s' & ? & ?)]; [left; by apply skipped_mono|].
      right. exists w', s'. split; [apply elem_of_app; eauto|done].
Qed.

(** *** Order, from the shape and the accounting *)

Lemma resolved_touched tr op : resolved tr op → touched tr op.
Proof. intros [?|?]; [right; by left|right; by right]. Qed.

Lemma outcome_resolved tr op v : outcome tr op v → resolved tr op.
Proof. intros [[? _]|(w & s & ? & _)]; [by left|right; by exists w, s]. Qed.

(** Once the wrapper of an operation has run, every operation submitted
    earlier to the same worker has returned. *)
Lemma order_core h ws n tr :
  shape h ws n tr → tokens h tr →
  ∀ op2 w op1, on_worker tr w op2 → touched tr op2 → on_worker tr w op1 → op1 < op2 →
               resolved tr op1.
Proof.
  intros Hsh Htk op2. induction (lt_wf op2) as [op2 _ IH].
  intros w op1 (fn & g & prev & d & c & Hsub) Ht Hon Hlt.
  destruct (sh_pred _ _ _ _ Hsh _ _ _ _ _ _ _ _ Hsub Hon Hlt)
    as (op & fn' & g' & prev' & c' & Hsub' & Hle & Hlt').
  destruct (tk_prev _ _ Htk _ _ _ _ _ _ _ Hsub Ht) as (pr & v & Hl & Hst).
  destruct (sh_submit _ _ _ _ Hsh _ _ _ _ _ _ _ Hsub') as (Hkd & _).
  unfold kind_of in Hkd. rewrite Hl in Hkd. injection Hkd as Hkd.
  pose proof (tk_lock_state _ _ Htk _ _ _ Hl Hkd) as Hout. rewrite Hst in Hout.
  apply outcome_resolved in Hout.
  destruct (decide (op1 = op)) as [->|Hne]; [done|].
  eapply (IH op); [lia| |by apply resolved_touched|done|lia].
  by exists fn', g', prev', prev, c'.
Qed.

(** *** Changes of the heap *)

Lemma kind_of_app h x p k : kind_of h p = Some k → kind_of (h ++ [x]) p = Some k.
Proof.
  unfold kind_of. destruct (h !! p) as [pr|] eqn:Hl; [|done].
  intros. by rewrite (lookup_app_l_Some _ _ _ _ Hl).
Qed.

Lemma lookup_alter_Some {A} (f : A → A) (l : list A) q p y :
  alter f q l !! p = Some y →
  ∃ x, l !! p = Some x ∧ ((p = q ∧ y = f x) ∨ (p ≠ q ∧ y = x)).
Proof.
  destruct (decide (q = p)) as [->|Hne].
  - rewrite list_lookup_alter_eq. destruct (l !! p) as [x|]; [|done].
    intros [= <-]. eauto.
  - rewrite list_lookup_alter_ne by done. intros. eauto.
Qed.

Lemma kind_of_alter h f q p k :
  (∀ pr, p_kind (f pr) = p_kind pr) →
  kind_of h p = Some k → kind_of (alter f q h) p = Some k.
Proof.
  intros Hf. unfold kind_of, pid in *. destruct (decide (q = p)) as [->|Hne].
  - rewrite list_lookup_alter_eq. destruct (h !! p) as [pr|]; [|done].
    cbn. intros [= <-]. by rewrite Hf.
  - by rewrite list_lookup_alter_ne.
Qed.

Lemma inv_core_alloc h ws n tr x :
  inv_core h ws n tr →
  promise_ok (h ++ [x]) tr (length h) x →
  (p_kind x = KInit → p_state x = Fulfilled VUndefined) →
  inv_core (h ++ [x]) ws n tr.
Proof.
  intros (Hsh & Htk & Hob) Hok Hinit. split; [|split; [|done]].
  - eapply shape_heap; [done|intros; by apply kind_of_app|].
    intros p pr Hl Hk. apply lookup_snoc_Some in Hl as [[_ Hl]|[_ <-]]; [|auto].
    by eapply sh_init.
  - eapply tokens_local; [done|intros; by apply kind_of_app| |].
    + intros p pr v Hl Hs. exists pr. split; [|done]. by apply lookup_app_l_Some.
    + intros p pr Hl. apply lookup_snoc_Some in Hl as [[_ Hl]|[-> <-]].
      * left. by apply old_like_refl.
      * by right.
Qed.

Lemma inv_core_alter h ws n tr q f :
  inv_core h ws n tr →
  (∀ pr, p_kind (f pr) = p_kind pr) →
  (∀ pr, p_state pr ≠ Pending → p_state (f pr) = p_state pr) →
  (∀ pr, h !! q = Some pr → old_like h q (f pr) ∨ promise_ok (alter f q h) tr q (f pr)) →
  inv_core (alter f q h) ws n tr.
Proof.
  intros (Hsh & Htk & Hob) Hk Hs Hq. split; [|split; [|done]].
  - eapply shape_heap; [done|intros; by apply kind_of_alter|].
    intros p pr' Hl Hkd. apply lookup_alter_Some in Hl as (pr & Hl & [[-> ->]|[_ ->]]).
    + rewrite Hk in Hkd. pose proof (sh_init _ _ _ _ Hsh _ _ Hl Hkd) as Hst.
      rewrite Hs; [done|]. by rewrite Hst.
    + by eapply sh_init.
  - eapply tokens_local; [done|intros; by apply kind_of_alter| |].
    + intros p pr v Hl Hst. destruct (decide (q = p)) as [->|Hne].
      * exists (f pr). rewrite list_lookup_alter_eq, Hl. split; [done|].
        rewrite Hs; [done|]. by rewrite Hst.
      * exists pr. by rewrite list_lookup_alter_ne.
    + intros p pr' Hl. apply lookup_alter_Some in Hl as (pr & Hl & [[-> ->]|[_ ->]]); [eauto|].
      left. by apply old_like_refl.
Qed.

(** The reactions a promise loses do no harm. *)
Lemma wrapped_ops_tail rs : sublist (wrapped_ops (tail rs)) (wrapped_ops rs).
Proof.
  destruct rs as [|r rs]; [done|]. simpl. unfold wrapped_ops. simpl.
  destruct r; try reflexivity. by apply sublist_cons.
Qed.
Lemma resumed_ops_tail rs : sublist (resumed_ops (tail rs)) (resumed_ops rs).
Proof.
  destruct rs as [|r rs]; [done|]. simpl. unfold resumed_ops. simpl.
  destruct r; try reflexivity. by apply sublist_cons.
Qed.

Definition f_pop (pr : promise) : promise :=
  {| p_state := p_state pr; p_kind := p_kind pr; p_reactions := tail (p_reactions pr) |}.
Definition f_add (r : reaction) (pr : promise) : promise :=
  {| p_state := p_state pr; p_kind := p_kind pr; p_reactions := p_reactions pr ++ [r] |}.
Definition f_settle (s : pstate) (pr : promise) : promise :=
  match p_state pr with
  | Pending => {| p_state := s; p_kind := p_kind pr; p_reactions := p_reactions pr |}
  | _ => pr
  end.

Lemma inv_pop p st : inv st → inv (pop_reaction p st).
Proof.
  intros Hinv. unfold inv. simpl. apply (inv_core_alter _ _ _ _ p f_pop); try done.
  intros pr Hl. left. exists pr. split; [done|]. split; [done|].
  split; [|split; [apply wrapped_ops_tail|split; [apply resumed_ops_tail|done]]].
  intros r Hin. left. simpl in Hin. destruct (p_reactions pr); [done|]. by right.
Qed.

Lemma inv_add_plain p r st : plain r → inv st → inv (add_reaction p r st).
Proof.
  intros Hpl Hinv. unfold inv. simpl. apply (inv_core_alter _ _ _ _ p (f_add r)); try done.
  intros pr Hl. left. exists pr. split; [done|]. split; [done|]. simpl.
  split; [|split; [|split; [|done]]].
  - intros r' Hin. apply elem_of_app in Hin as [?|Hin]; [by left|].
    apply list_elem_of_singleton in Hin. subst. by right.
  - unfold wrapped_ops. rewrite omap_app. destruct r; simpl in Hpl; try done; simpl; by rewrite app_nil_r.
  - unfold resumed_ops. rewrite omap_app. destruct r; simpl in Hpl; try done; simpl; by rewrite app_nil_r.
Qed.

Lemma inv_settle_other p s st :
  (∀ pr op, promises st !! p = Some pr → p_kind pr ≠ KLock op) →
  inv st → inv (settle p s st).
Proof.
  intros Hnl Hinv. unfold inv. simpl. apply (inv_core_alter _ _ _ _ p (f_settle s)); try done.
  - intros pr. unfold f_settle. by destruct (p_state pr).
  - intros pr Hst. unfold f_settle. by destruct (p_state pr) eqn:E.
  - intros pr Hl. left. exists pr. split; [done|].
    unfold f_settle. destruct (p_state pr) eqn:Hst; simpl; repeat split; auto.
    intros op Hk. by destruct (Hnl _ _ Hl Hk).
Qed.

Lemma inv_alloc s k st :
  (∀ op, k ≠ KFn op) → (∀ op, k ≠ KLock op) → (k = KInit → s = Fulfilled VUndefined) →
  inv st → inv (alloc s k st).2.
Proof.
  intros Hfn Hlk Hinit Hinv. unfold inv. simpl. apply inv_core_alloc; [done| |done].
  apply promise_ok_empty; [done|]. intros op ->. by destruct (Hlk op).
Qed.

(** What makes a reaction of the operation queue accounted for. *)
Definition accounted (h : list promise) (tr : list event) (q : pid) (k : pkind)
    (r : reaction) : Prop :=
  match r with
  | RWrapped w g fn op d => (∃ c, EvSubmit w op fn g q d c ∈ tr) ∧ ¬ touched tr op
  | RResume w op d =>
      k = KFn op ∧ (∃ fn g prev c, EvSubmit w op fn g prev d c ∈ tr)
      ∧ invoked tr op ∧ ¬ resolved tr op
  | RCaller op c => k = KLock op ∧ kind_of h c = Some (KCaller op)
  | _ => True
  end.

Lemma promise_ok_change h tr q f pr :
  tokens h tr → h !! q = Some pr →
  (∀ pr, p_kind (f pr) = p_kind pr) →
  (∀ r, r ∈ p_reactions (f pr) →
        r ∈ p_reactions pr ∨ accounted (alter f q h) tr q (p_kind pr) r) →
  NoDup (wrapped_ops (p_reactions (f pr))) →
  NoDup (resumed_ops (p_reactions (f pr))) →
  (∀ op, p_kind pr = KLock op →
     match p_state (f pr) with
     | Pending => True
     | Fulfilled v => outcome tr op v
     | Rejected _ => False
     end) →
  promise_ok (alter f q h) tr q (f pr).
Proof.
  intros Htk Hl Hk Hr Hnw Hnr Hst. unfold promise_ok. rewrite Hk.
  split; [|split; [|split; [|split; [|split; [done|split; [done|done]]]]]].
  - intros w g fn op d Hin. destruct (Hr _ Hin) as [Hin0|Hacc]; [|done].
    by eapply tk_wrapped.
  - intros w op d Hin. destruct (Hr _ Hin) as [Hin0|Hacc]; [|done].
    by eapply tk_resume.
  - intros op Hkd. destruct (tk_fn _ _ Htk _ _ _ Hl Hkd) as [Hi Hu]. split; [done|].
    intros p' pr' Hl' Hkd'. apply lookup_alter_Some in Hl' as (pr0 & Hl0 & [[-> ->]|[_ ->]]).
    + done.
    + eauto.
  - intros op c Hin. destruct (Hr _ Hin) as [Hin0|Hacc]; [|done].
    destruct (tk_caller _ _ Htk _ _ _ _ Hl Hin0). split; [done|]. by apply kind_of_alter.
Qed.

(** Events of the pool and the monitor. *)
Definition background (ev : event) : Prop :=
  match ev with
  | EvStop _ | EvProvision _ _ | EvEmitOom | EvEmitDisposed _ => True
  | _ => False
  end.

Lemma inv_emit_background ev st : background ev → inv st → inv (emit ev st).
Proof.
  intros Hb (Hsh & Htk & Hob). unfold inv. simpl. split; [|split].
  - apply shape_event; [by destruct ev|done].
  - apply tokens_silent; [by destruct ev|by destruct ev|done].
  - apply observed_event; try done; by destruct ev.
Qed.

Lemma inv_set_worker w f st :
  (∀ wk, lock (f wk) = lock wk) → inv st → inv (set_worker w f st).
Proof.
  intros Hf (Hsh & Htk & Hob). unfold inv. simpl. split; [|done].
  eapply shape_workers; [done|by rewrite length_alter|].
  intros w' wk' Hl. apply lookup_alter_Some in Hl as (wk & Hl & [[-> ->]|[_ ->]]); eauto.
Qed.

Lemma inv_resetExtensionState w st : inv st → inv (resetExtensionState w st).
Proof.
  intros Hinv. unfold resetExtensionState.
  apply (inv_set_worker w _ (alloc Pending KReady st).2); [done|].
  by apply inv_alloc.
Qed.

Lemma inv_restart w st : inv st → inv (restart w st).
Proof.
  intros Hinv. unfold restart. apply inv_set_worker; [done|].
  by apply inv_resetExtensionState.
Qed.

Lemma inv_call_fn fn st : inv st → inv (call_fn fn st).
Proof.
  intros Hinv. destruct fn; simpl; [by apply inv_emit_background|by apply inv_restart|done].
Qed.

Lemma inv_newPooledApplication path st : inv st → inv (newPooledApplication path st).2.
Proof.
  intros Hinv. unfold newPooledApplication. simpl.
  apply inv_resetExtensionState.
  pose proof (inv_alloc (Fulfilled VUndefined) KInit st) as Ha.
  destruct Ha as (Hsh & Htk & Hob); try done.
  unfold inv. simpl in *. split; [|done].
  apply shape_new_worker; [done|]. simpl. unfold kind_of.
  by rewrite list_lookup_middle.
Qed.

Lemma touched_bound h ws n tr op : shape h ws n tr → touched tr op → op < n.
Proof.
  intros Hsh [(w & fn & H)|[(w & H)|(w & s & H)]]; by eapply (sh_ops _ _ _ _ Hsh _ op H).
Qed.

Lemma wrapped_ops_snoc rs r :
  wrapped_ops (rs ++ [r]) =
  wrapped_ops rs ++ match r with RWrapped _ _ _ op _ => [op] | _ => [] end.
Proof. unfold wrapped_ops. rewrite omap_app. by destruct r. Qed.
Lemma resumed_ops_snoc rs r :
  resumed_ops (rs ++ [r]) =
  resumed_ops rs ++ match r with RResume _ op _ => [op] | _ => [] end.
Proof. unfold resumed_ops. rewrite omap_app. by destruct r. Qed.

Lemma elem_of_wrapped_ops op rs :
  op ∈ wrapped_ops rs → ∃ w g fn d, RWrapped w g fn op d ∈ rs.
Proof.
  unfold wrapped_ops. rewrite list_elem_of_omap. intros (r & Hin & Hr).
  destruct r; try done. injection Hr as ->. eauto.
Qed.
Lemma elem_of_resumed_ops op rs :
  op ∈ resumed_ops rs → ∃ w d, RResume w op d ∈ rs.
Proof.
  unfold resumed_ops. rewrite list_elem_of_omap. intros (r & Hin & Hr).
  destruct r; try done. injection Hr as ->. eauto.
Qed.

Lemma inv_performOperation w fn st c st' :
  inv st → performOperation w fn st = Some (c, st') → inv st'.
Proof.
  intros Hinv. unfold performOperation.
  destruct (workers st !! w) as [wk|] eqn:Hw; [|done].
  cbn [mbind option_bind]. intros [= <- <-].
  unfold inv. cbn [promises workers nextOp trace emit bump_nextOp add_reaction alloc
                   set_promises set_worker set_workers add_queued fst snd].
  set (h := promises st) in *. set (tr := trace st) in *. set (n := nextOp st) in *.
  set (ws := workers st) in *. set (d := length h).
  set (L := {| p_state := Pending; p_kind := KLock n; p_reactions := [] |}).
  set (RW := RWrapped w (generation wk) fn n d).
  set (ev := EvSubmit w n fn (generation wk) (lock wk) d (length (alter _ (lock wk) (h ++ [L])))).
  (* the new lock *)
  assert (H1 : inv_core (h ++ [L]) ws n tr).
  { apply inv_core_alloc; [done| |done]. apply promise_ok_empty; [done|done]. }
  (* the submission *)
  assert (H2 : inv_core (h ++ [L]) (alter (set_lock d) w ws) (S n) (tr ++ [ev])).
  { destruct H1 as (Hsh & Htk & Hob). split; [|split].
    - apply (shape_submit (h ++ [L]) (h ++ [L]) ws n tr w wk); try done.
      + by eapply sh_init.
      + unfold kind_of. by rewrite list_lookup_middle.
    - apply tokens_silent; [done| |done].
      intros ??????? [= <- <- <- <- <- <- <-] Ht.
      pose proof (touched_bound _ _ _ _ _ Hsh Ht). lia.
    - apply observed_event; try done.
      intros ??????? [= <- <- <- <- <- <- <-] w' op fn' Hin.
      by eapply (sh_ops _ _ _ _ Hsh _ op Hin). }
  (* the wrapper on the old lock *)
  assert (H3 : inv_core (alter (f_add RW) (lock wk) (h ++ [L]))
                        (alter (set_lock d) w ws) (S n) (tr ++ [ev])).
  { apply inv_core_alter; [done|done|done|].
    intros pr Hl. right. destruct H2 as (Hsh2 & Htk2 & _). destruct H1 as (Hsh1 & Htk1 & _).
    apply promise_ok_change; try done.
    - simpl. intros r Hin. apply elem_of_app in Hin as [?|Hin]; [by left|right].
      apply list_elem_of_singleton in Hin. subst r. split.
      + eexists. apply elem_of_app. right. by left.
      + intros Ht. apply touched_snoc_silent in Ht; [|done].
        pose proof (touched_bound _ _ _ _ _ Hsh1 Ht). lia.
    - simpl. rewrite wrapped_ops_snoc. simpl. apply NoDup_app.
      split; [by eapply tk_nodup_wrapped|]. split; [|apply NoDup_singleton].
      intros op Hin Hop. apply list_elem_of_singleton in Hop. subst op.
      apply elem_of_wrapped_ops in Hin as (w' & g' & fn' & d' & Hin).
      destruct (tk_wrapped _ _ Htk1 _ _ _ _ _ _ _ Hl Hin) as [[c Hs] _].
      pose proof (sh_ops _ _ _ _ Hsh1 _ n Hs eq_refl). lia.
    - simpl. rewrite resumed_ops_snoc. simpl. rewrite app_nil_r.
      by eapply tk_nodup_resumed.
    - intros op Hk. simpl. by eapply (tk_lock_state _ _ Htk2). }
  (* the promise of the call, and the caller waiting on the new lock *)
  set (h2 := alter _ (lock wk) (h ++ [L])) in *.
  set (C := {| p_state := Pending; p_kind := KCaller n; p_reactions := [] |}).
  assert (H4 : inv_core (h2 ++ [C]) (alter (set_lock d) w ws) (S n) (tr ++ [ev])).
  { apply inv_core_alloc; [done| |done]. apply promise_ok_empty; [done|done]. }
  apply (inv_core_alter _ _ _ _ d (f_add (RCaller n (length h2)))); [done|done|done|].
  intros pr Hl. right. destruct H4 as (Hsh4 & Htk4 & _).
  assert (Hkd : p_kind pr = KLock n).
  { destruct (sh_submit _ _ _ _ Hsh4 w n fn (generation wk) (lock wk) d (length h2)) as [Hkd _].
    { apply elem_of_app. right. by left. }
    unfold kind_of in Hkd. rewrite Hl in Hkd. by injection Hkd. }
  apply promise_ok_change; try done.
  - simpl. intros r Hin. apply elem_of_app in Hin as [?|Hin]; [by left|right].
    apply list_elem_of_singleton in Hin. subst r. split; [done|].
    unfold kind_of. rewrite list_lookup_alter_ne.
    + by rewrite list_lookup_middle.
    + apply lookup_lt_Some in Hl. rewrite length_app in Hl. simpl in Hl.
      assert (d < length h2); [|lia]. unfold h2. rewrite length_alter, length_app. simpl. lia.
  - simpl. rewrite wrapped_ops_snoc. simpl. rewrite app_nil_r. by eapply tk_nodup_wrapped.
  - simpl. rewrite resumed_ops_snoc. simpl. rewrite app_nil_r. by eapply tk_nodup_resumed.
  - intros op Hk. simpl. by eapply (tk_lock_state _ _ Htk4).
Qed.

(** A wrapper returns: its lock is fulfilled with what it returned. *)
Lemma inv_settle_lock d op v st :
  inv st → kind_of (promises st) d = Some (KLock op) → outcome (trace st) op v →
  inv (settle d (Fulfilled v) st).
Proof.
  intros Hinv Hkd Hout. unfold inv. simpl.
  apply (inv_core_alter _ _ _ _ d (f_settle (Fulfilled v))); try done.
  - intros pr. unfold f_settle. by destruct (p_state pr).
  - intros pr Hst. unfold f_settle. by destruct (p_state pr) eqn:E.
  - intros pr Hl. right. destruct Hinv as (Hsh & Htk & _).
    assert (Hk : p_kind pr = KLock op).
    { unfold kind_of in Hkd. rewrite Hl in Hkd. by injection Hkd. }
    apply promise_ok_change; try done.
    + intros pr'. unfold f_settle. by destruct (p_state pr').
    + intros r Hin. left. unfold f_settle in Hin. by destruct (p_state pr).
    + unfold f_settle. destruct (p_state pr); simpl; by eapply tk_nodup_wrapped.
    + unfold f_settle. destruct (p_state pr); simpl; by eapply tk_nodup_resumed.
    + intros op' Hk'. rewrite Hk in Hk'. injection Hk' as <-.
      pose proof (tk_lock_state _ _ Htk _ _ _ Hl Hk) as Hst.
      unfold f_settle. by destruct (p_state pr) eqn:E; simpl; rewrite ?E.
Qed.

(** The call [fn()] returned its promise and the wrapper waits on it. *)
Lemma inv_alloc_fn w op d st :
  inv st →
  (∀ p' pr', promises st !! p' = Some pr' → p_kind pr' ≠ KFn op) →
  invoked (trace st) op → ¬ resolved (trace st) op →
  (∃ fn g prev c, EvSubmit w op fn g prev d c ∈ trace st) →
  inv (add_reaction (length (promises st)) (RResume w op d) (alloc Pending (KFn op) st).2).
Proof.
  intros Hinv Hnofn Hi Hnr Hsub. unfold inv. simpl.
  set (x := {| p_state := Pending; p_kind := KFn op; p_reactions := [] |}).
  assert (H1 : inv_core (promises st ++ [x]) (workers st) (nextOp st) (trace st)).
  { apply inv_core_alloc; [done| |done]. unfold promise_ok. simpl.
    split; [intros ????? Hin; by apply elem_of_nil in Hin|].
    split; [intros ??? Hin; by apply elem_of_nil in Hin|].
    split; [|split; [intros ?? Hin; by apply elem_of_nil in Hin|]].
    - intros op' [= <-]. split; [done|]. intros p' pr' Hl Hk.
      apply lookup_snoc_Some in Hl as [[_ Hl]|[-> _]]; [|done]. by destruct (Hnofn _ _ Hl).
    - split; [constructor|]. split; [constructor|done]. }
  apply (inv_core_alter _ _ _ _ _ (f_add (RResume w op d))); [done|done|done|].
  intros pr Hl. right. destruct H1 as (Hsh & Htk & _).
  rewrite list_lookup_middle in Hl by done. injection Hl as <-.
  apply promise_ok_change; try done.
  - by rewrite list_lookup_middle.
  - simpl. intros r Hin. apply list_elem_of_singleton in Hin. subst r. by right.
  - constructor.
  - simpl. apply NoDup_singleton.
Qed.

Lemma elem_of_wrapped_ops_2 w g fn op d rs : RWrapped w g fn op d ∈ rs → op ∈ wrapped_ops rs.
Proof. intros Hin. unfold wrapped_ops. apply list_elem_of_omap. by eexists. Qed.
Lemma elem_of_resumed_ops_2 w op d rs : RResume w op d ∈ rs → op ∈ resumed_ops rs.
Proof. intros Hin. unfold resumed_ops. apply list_elem_of_omap. by eexists. Qed.

(** What [call_fn] adds to the heap. *)
Lemma call_fn_promises fn st :
  ∃ l, promises (call_fn fn st) = promises st ++ l ∧ ∀ x, x ∈ l → p_kind x = KReady.
Proof.
  destruct fn; simpl.
  - exists []. split; [by rewrite app_nil_r|]. intros x Hx. by apply elem_of_nil in Hx.
  - eexists [_]. split; [done|]. intros x Hx. by apply list_elem_of_singleton in Hx as ->.
  - exists []. split; [by rewrite app_nil_r|]. intros x Hx. by apply elem_of_nil in Hx.
Qed.

Lemma call_fn_trace fn st :
  ∃ l, trace (call_fn fn st) = trace st ++ l ∧ ∀ ev, ev ∈ l → background ev.
Proof.
  destruct fn; simpl.
  - eexists [_]. split; [done|]. intros x Hx. by apply list_elem_of_singleton in Hx as ->.
  - exists []. split; [by rewrite app_nil_r|]. intros x Hx. by apply elem_of_nil in Hx.
  - exists []. split; [by rewrite app_nil_r|]. intros x Hx. by apply elem_of_nil in Hx.
Qed.

(** *** The reactions keep the invariant *)

(** A lock on which a wrapper waits is never rejected. *)
Lemma lock_not_rejected h ws n tr p pr :
  shape h ws n tr → tokens h tr → is_lock_kind (kind_of h p) → h !! p = Some pr →
  p_state pr ≠ Pending → ∃ v, p_state pr = Fulfilled v.
Proof.
  intros Hsh Htk Hk Hl Hnp. unfold kind_of in Hk. rewrite Hl in Hk. simpl in Hk.
  destruct Hk as [[= Hk]|[op [= Hk]]].
  - rewrite (sh_init _ _ _ _ Hsh _ _ Hl Hk). eauto.
  - pose proof (tk_lock_state _ _ Htk _ _ _ Hl Hk) as Hst.
    destruct (p_state pr); [done|eauto|done].
Qed.

Lemma inv_fire_wrapped p pr w g fn op d rs st :
  inv st → promises st !! p = Some pr → p_reactions pr = RWrapped w g fn op d :: rs →
  p_state pr ≠ Pending →
  inv (react (RWrapped w g fn op d) (p_state pr) (pop_reaction p st)).
Proof.
  intros Hinv Hl Hr Hnp. pose proof Hinv as (Hsh & Htk & Hob).
  assert (Hin : RWrapped w g fn op d ∈ p_reactions pr) by (rewrite Hr; by left).
  destruct (tk_wrapped _ _ Htk _ _ _ _ _ _ _ Hl Hin) as [[c Hsub] Hnt].
  destruct (sh_submit _ _ _ _ Hsh _ _ _ _ _ _ _ Hsub) as [Hkd Hkp].
  destruct (lock_not_rejected _ _ _ _ _ _ Hsh Htk Hkp Hl Hnp) as [v Hst].
  rewrite Hst.
  pose proof (inv_pop p st Hinv) as Hinv1.
  set (st1 := pop_reaction p st) in *.
  assert (Htr1 : trace st1 = trace st) by done.
  assert (Hold : ∀ p' pr1, promises st1 !! p' = Some pr1 →
            ∃ pr0, promises st !! p' = Some pr0 ∧ p_kind pr1 = p_kind pr0
                   ∧ p_state pr1 = p_state pr0
                   ∧ ((p' = p ∧ p_reactions pr1 = tail (p_reactions pr0))
                      ∨ (p' ≠ p ∧ pr1 = pr0))).
  { intros p' pr1 Hl1. simpl in Hl1.
    apply lookup_alter_Some in Hl1 as (pr0 & Hl0 & [[-> ->]|[? ->]]); eauto 10. }
  assert (Hnw : ∀ p' pr1 w' g' fn' d', promises st1 !! p' = Some pr1 →
            RWrapped w' g' fn' op d' ∉ p_reactions pr1).
  { intros p' pr1 w' g' fn' d' Hl1 Hin1.
    destruct (Hold _ _ Hl1) as (pr0 & Hl0 & _ & _ & [[-> Htl]|[Hne ->]]).
    - assert (pr0 = pr) as -> by congruence. rewrite Htl, Hr in Hin1. simpl in Hin1.
      pose proof (tk_nodup_wrapped _ _ Htk _ _ Hl) as Hnd. rewrite Hr in Hnd.
      unfold wrapped_ops in Hnd. simpl in Hnd. apply NoDup_cons in Hnd as [Hnd _].
      apply Hnd. by eapply elem_of_wrapped_ops_2.
    - destruct (tk_wrapped _ _ Htk _ _ _ _ _ _ _ Hl0 Hin1) as [[c' Hsub'] _].
      pose proof (sh_submit_inj _ _ _ _ Hsh _ _ _ _ _ _ _ _ _ _ _ _ _ Hsub Hsub') as Heq.
      injection Heq as _ _ _ Hp _ _. by destruct Hne. }
  assert (Hprev : ∀ w' fn' g' prev d' c', EvSubmit w' op fn' g' prev d' c' ∈ trace st1 →
            ∃ pr v, promises st1 !! prev = Some pr ∧ p_state pr = Fulfilled v).
  { intros w' fn' g' prev d' c' Hsub'.
    pose proof (sh_submit_inj _ _ _ _ Hsh _ _ _ _ _ _ _ _ _ _ _ _ _ Hsub Hsub') as Heq.
    injection Heq as _ _ _ <- _ _. exists (f_pop pr), v. split; [|done].
    simpl. unfold pid in *. by rewrite list_lookup_alter_eq, Hl. }
  assert (Hnofn : ∀ p' pr', promises st1 !! p' = Some pr' → p_kind pr' ≠ KFn op).
  { intros p' pr1 Hl1 Hk. destruct (Hold _ _ Hl1) as (pr0 & Hl0 & Hk0 & _).
    rewrite Hk0 in Hk. destruct (tk_fn _ _ Htk _ _ _ Hl0 Hk) as [Hi _]. apply Hnt. by left. }
  assert (Hon : on_worker (trace st1) w op) by (by exists fn, g, p, d, c).
  cbn [react].
  destruct (bool_decide _).
  - (* the generation is the one captured: [fn] is called *)
    set (st2 := emit (EvInvoke w op fn) (add_active 1 (add_queued (-1) st1))).
    assert (Hinv2 : inv st2).
    { destruct Hinv1 as (Hsh1 & Htk1 & Hob1).
      assert (Hsh2 : shape (promises st1) (workers st1) (nextOp st1)
                           (trace st1 ++ [EvInvoke w op fn])).
      { apply shape_event; [|done]. simpl. eauto. }
      assert (Htk2 : tokens (promises st1) (trace st1 ++ [EvInvoke w op fn])).
      { eapply tokens_touch; eauto. }
      split; [done|]. split; [done|].
      apply observed_invoke; [|done].
      intros op1 Hon1 Hlt.
      assert (Hres : resolved (trace st1 ++ [EvInvoke w op fn]) op1).
      { eapply (order_core _ _ _ _ Hsh2 Htk2 op w op1);
          [by apply on_worker_mono| |by apply on_worker_mono|done].
        left. apply invoked_snoc. right. eauto. }
      apply (resolved_snoc_about _ _ op) in Hres as [?| ->]; [done|lia|done]. }
    pose proof (inv_call_fn fn st2 Hinv2) as Hinv3.
    destruct (call_fn_promises fn st2) as (lp & Hlp & Hready).
    destruct (call_fn_trace fn st2) as (lt & Hlt & Hback).
    apply inv_alloc_fn; [done| | | |].
    + intros p' pr' Hl' Hk. rewrite Hlp in Hl'.
      apply lookup_app_Some in Hl' as [Hl'|[_ Hl']]; [by eapply Hnofn|].
      apply list_elem_of_lookup_2 in Hl'. by rewrite (Hready _ Hl') in Hk.
    + rewrite Hlt. exists w, fn.
      apply elem_of_app. left. apply elem_of_app. right. by left.
    + rewrite Hlt. intros Hres.
      assert (Hres2 : resolved (trace st2) op).
      { destruct Hres as [(w' & Hs)|(w' & s' & Hs)].
        - apply elem_of_app in Hs as [Hs|Hs]; [left; by exists w'|].
          apply Hback in Hs. done.
        - apply elem_of_app in Hs as [Hs|Hs]; [right; by exists w', s'|].
          apply Hback in Hs. done. }
      apply Hnt, resolved_touched.
      destruct Hres2 as [(w' & Hs)|(w' & s' & Hs)].
      * left. exists w'. simpl in Hs. by snoc_in Hs.
      * right. exists w', s'. simpl in Hs. by snoc_in Hs.
    + rewrite Hlt. exists fn, g, p, c.
      apply elem_of_app. left. apply elem_of_app. by left.
  - (* the generation has changed: the wrapper returns at once *)
    set (st2 := emit (EvSkip w op) (add_queued (-1) st1)).
    assert (Hinv2 : inv st2).
    { destruct Hinv1 as (Hsh1 & Htk1 & Hob1). split; [|split].
      - apply shape_event; [|done]. done.
      - eapply tokens_touch; eauto.
      - apply observed_event; try done. }
    apply (inv_settle_lock d op); [done| |].
    + simpl. by apply kind_of_alter.
    + left. split; [|done]. exists w. apply elem_of_app. right. by left.
Qed.

Lemma inv_fire_resume p pr w op d rs st :
  inv st → promises st !! p = Some pr → p_reactions pr = RResume w op d :: rs →
  inv (react (RResume w op d) (p_state pr) (pop_reaction p st)).
Proof.
  intros Hinv Hl Hr. pose proof Hinv as (Hsh & Htk & Hob).
  assert (Hin : RResume w op d ∈ p_reactions pr) by (rewrite Hr; by left).
  destruct (tk_resume _ _ Htk _ _ _ _ _ Hl Hin) as (Hk & (fn & g & prev & c & Hsub) & Hi & Hnr).
  destruct (sh_submit _ _ _ _ Hsh _ _ _ _ _ _ _ Hsub) as [Hkd _].
  pose proof (inv_pop p st Hinv) as Hinv1.
  set (st1 := pop_reaction p st) in *.
  assert (Hnw : ∀ p' pr1 w' d', promises st1 !! p' = Some pr1 →
            RResume w' op d' ∉ p_reactions pr1).
  { intros p' pr1 w' d' Hl1 Hin1. simpl in Hl1.
    apply lookup_alter_Some in Hl1 as (pr0 & Hl0 & [[-> ->]|[Hne ->]]).
    - assert (pr0 = pr) as -> by (unfold pid in *; congruence). simpl in Hin1. rewrite Hr in Hin1. simpl in Hin1.
      pose proof (tk_nodup_resumed _ _ Htk _ _ Hl) as Hnd. rewrite Hr in Hnd.
      unfold resumed_ops in Hnd. simpl in Hnd. apply NoDup_cons in Hnd as [Hnd _].
      apply Hnd. by eapply elem_of_resumed_ops_2.
    - destruct (tk_resume _ _ Htk _ _ _ _ _ Hl0 Hin1) as (Hk' & _).
      destruct (tk_fn _ _ Htk _ _ _ Hl Hk) as [_ Hu]. by destruct Hne; eapply Hu. }
  cbn [react].
  set (st2 := add_active (-1) (emit (EvSettle w op (p_state pr)) st1)).
  assert (Hinv2 : inv st2).
  { destruct Hinv1 as (Hsh1 & Htk1 & Hob1). split; [|split].
    - apply shape_event; [|done]. simpl. split; [|done]. by exists fn, g, prev, d, c.
    - by eapply tokens_settle_ev.
    - by apply observed_event. }
  apply (inv_settle_lock d op); [done| |].
  - simpl. by apply kind_of_alter.
  - right. exists w, (p_state pr). split; [|done]. apply elem_of_app. right. by left.
Qed.

Lemma inv_fire_caller p pr op c rs st :
  inv st → promises st !! p = Some pr → p_reactions pr = RCaller op c :: rs →
  p_state pr ≠ Pending →
  inv (react (RCaller op c) (p_state pr) (pop_reaction p st)).
Proof.
  intros Hinv Hl Hr Hnp. pose proof Hinv as (Hsh & Htk & Hob).
  assert (Hin : RCaller op c ∈ p_reactions pr) by (rewrite Hr; by left).
  destruct (tk_caller _ _ Htk _ _ _ _ Hl Hin) as [Hk Hkc].
  pose proof (tk_lock_state _ _ Htk _ _ _ Hl Hk) as Hst.
  pose proof (inv_pop p st Hinv) as Hinv1.
  set (st1 := pop_reaction p st) in *.
  assert (Hnl : ∀ ev pr' op', promises (emit ev st1) !! c = Some pr' → p_kind pr' ≠ KLock op').
  { intros ev pr' op' Hl' Hk'. simpl in Hl'.
    apply (kind_of_alter _ f_pop p) in Hkc; [|done].
    unfold kind_of, f_pop in Hkc. unfold pid in *. rewrite Hl' in Hkc. simpl in Hkc. congruence. }
  destruct (p_state pr) as [|v|v] eqn:Hs; [done| |done].
  cbn [react settled_value].
  destruct Hinv1 as (Hsh1 & Htk1 & Hob1).
  destruct (instanceofError v) eqn:Hv.
  - apply inv_settle_other; [by apply Hnl|]. split; [|split].
    + by apply shape_event.
    + by apply tokens_silent.
    + destruct Hst as [[_ ->]|(w & s & Hin' & ->)]; [done|].
      by eapply observed_throw.
  - apply inv_settle_other; [by apply Hnl|]. split; [|split].
    + by apply shape_event.
    + by apply tokens_silent.
    + apply observed_return; [|done].
      destruct Hst as [[? _]|(w & s & Hin' & ->)]; [by left|right; eauto].
Qed.

Lemma inv_fire p pr r rs st :
  inv st → promises st !! p = Some pr → p_reactions pr = r :: rs →
  p_state pr ≠ Pending →
  inv (react r (p_state pr) (pop_reaction p st)).
Proof.
  intros Hinv Hl Hr Hnp. destruct r.
  - by eapply inv_fire_wrapped.
  - by eapply inv_fire_resume.
  - by eapply inv_fire_caller.
  - pose proof (inv_pop p st Hinv). simpl. by destruct (p_state pr).
  - pose proof (inv_pop p st Hinv) as Hinv1. simpl. destruct (p_state pr); [done| |done].
    destruct (disposed =? 0)%nat.
    + by apply (inv_emit_background EvEmitOom).
    + by apply (inv_emit_background (EvEmitDisposed disposed)).
Qed.

(** *** Every reachable state satisfies the invariant *)

Lemma on_worker_nil w op : ¬ on_worker [] w op.
Proof. intros (?&?&?&?&?&H). by apply elem_of_nil in H. Qed.

Lemma inv_init m : inv (init m).
Proof.
  split; [|split].
  - split; simpl.
    + intros w wk H. done.
    + intros ev op H. by apply elem_of_nil in H.
    + intros w op H. by apply on_worker_nil in H.
    + intros ??????? H. by apply elem_of_nil in H.
    + intros ????????????? H. by apply elem_of_nil in H.
    + intros p pr H. done.
    + intros ???????? H. by apply elem_of_nil in H.
    + intros w wk op1 H. done.
    + intros w op. split; [|split].
      * intros fn H. by apply elem_of_nil in H.
      * intros H. by apply elem_of_nil in H.
      * intros s H. by apply elem_of_nil in H.
  - split; simpl.
    + intros ??????? H. done.
    + intros ????? H. done.
    + intros ??? H. done.
    + intros ???? H. done.
    + intros ?? H. done.
    + intros ?? H. done.
    + intros ??? H. done.
    + intros ??????? H. by apply elem_of_nil in H.
    + intros op (?&?&H). by apply elem_of_nil in H.
    + intros ????? H. by apply elem_of_nil in H.
  - split; simpl.
    + intros tr1 tr2 w op fn op1 H. by destruct tr1.
    + intros op v H. by apply elem_of_nil in H.
    + intros op H. by apply elem_of_nil in H.
Qed.

Lemma inv_acquire mustUsePool prov st : inv st → inv (acquire mustUsePool prov st).2.
Proof.
  intros Hinv. unfold acquire. destruct (last (pool st)); [done|].
  destruct mustUsePool; [done|]. destruct (oom st); [done|].
  destruct prov as [basePath|e]; [|done].
  pose proof (inv_newPooledApplication (basePath +:+ "/extensions")
                (set_dirs (λ d, {[basePath]} ∪ d) st) Hinv) as Hn.
  destruct (newPooledApplication _ _) as [w st1]. simpl.
  by apply inv_emit_background.
Qed.

Lemma inv_release w st st' : inv st → release w st = Some st' → inv st'.
Proof.
  intros Hinv. unfold release. destruct (_ <? _)%nat.
  - destruct (performOperation w (FnRestart w) st) as [[c st1]|] eqn:Hp; [|done].
    simpl. intros [= <-]. apply inv_add_plain; [done|]. by eapply inv_performOperation.
  - destruct (performOperation w (FnStop w) st) as [[c st1]|] eqn:Hp; [|done].
    simpl. intros [= <-]. by eapply inv_performOperation.
Qed.

Lemma inv_foldl_stop ws : ∀ st, inv st → inv (foldl (λ st w, emit (EvStop w) st) st ws).
Proof.
  induction ws as [|w ws IH]; intros st Hinv; simpl; [done|].
  apply IH. by apply inv_emit_background.
Qed.

Lemma inv_tick memFree memTotal st : inv st → inv (tick memFree memTotal st).
Proof.
  intros Hinv. unfold tick. destruct (belowThreshold _ _); [|done].
  unfold disposeBatch. destruct (splice _ _ _) as [rest gone]. simpl.
  apply inv_add_plain; [done|].
  apply (inv_alloc _ KAll); try done.
  by apply inv_foldl_stop.
Qed.

Lemma inv_finalizeLease l st st' : inv st → finalizeLease l st = Some st' → inv st'.
Proof.
  intros Hinv. unfold finalizeLease. destruct l as [l|]; [|by intros [= <-]].
  destruct (workers st !! app l) as [wk|]; [|done]. simpl.
  destruct (release _ _) as [st1|] eqn:Hr; [|done]. simpl. intros [= <-].
  eapply inv_release in Hr; [done|done].
Qed.

Lemma inv_getOrCreateLease url mustUsePool prov cacheDir st r st' :
  inv st → getOrCreateLease url mustUsePool prov cacheDir st = Some (r, st') → inv st'.
Proof.
  intros Hinv. unfold getOrCreateLease. destruct (leases st !! url); [by intros [= <- <-]|].
  pose proof (inv_acquire mustUsePool prov st Hinv) as Ha.
  destruct (acquire mustUsePool prov st) as [[w|e] st1]; [|by intros [= <- <-]].
  destruct (workers st1 !! w); [|done]. simpl. by intros [= <- <-].
Qed.

Lemma inv_step l st st' : inv st → step l st = Some st' → inv st'.
Proof.
  intros Hinv. destruct l; cbn [step].
  - destruct (performOperation w (FnUser tag) st) as [[c st1]|] eqn:Hp; [|done].
    simpl. intros [= <-]. by eapply inv_performOperation.
  - destruct (promises st !! p) as [pr|] eqn:Hl; [|done]. cbn [mbind option_bind].
    destruct (p_state pr) eqn:Hs; [done| |];
      (destruct (p_reactions pr) as [|r rs] eqn:Hr; [done|]; intros [= <-];
       rewrite <- Hs; eapply inv_fire; [done|done|done|by rewrite Hs]).
  - destruct (promises st !! p) as [pr|] eqn:Hl; [|done]. cbn [mbind option_bind].
    destruct (is_pending (p_state pr) && external (p_kind pr) && negb (is_pending s)) eqn:Hc;
      [|done].
    intros [= <-]. apply inv_settle_other; [|done].
    intros pr' op Hl' Hk. assert (pr' = pr) as -> by congruence.
    rewrite Hk in Hc. simpl in Hc. by rewrite andb_false_r in Hc.
  - destruct (workers st !! w); [|done]. simpl. intros [= <-]. by apply inv_restart.
  - intros [= <-]. by apply inv_acquire.
  - by apply inv_release.
  - intros [= <-]. by apply inv_tick.
  - destruct (getOrCreateLease _ _ _ _ _) as [[r st1]|] eqn:Hg; [|done].
    simpl. intros [= <-]. by eapply inv_getOrCreateLease.
  - by apply inv_finalizeLease.
Qed.

Lemma inv_run ls : ∀ st st', inv st → run ls st = Some st' → inv st'.
Proof.
  induction ls as [|l ls IH]; simpl; intros st st' Hinv.
  - by intros [= <-].
  - destruct (step l st) as [st1|] eqn:Hs; [|done]. simpl.
    intros Hr. eapply IH; [|done]. by eapply inv_step.
Qed.

Lemma inv_reachable m ls st : run ls (init m) = Some st → inv st.
Proof. apply inv_run, inv_init. Qed.

(** *** The trace only grows, and submissions are numbered in their order *)

(** The numbers of the submissions in a trace, in its order. *)
Definition submissions (tr : list event) : list opid :=
  omap (λ ev, match ev with EvSubmit _ op _ _ _ _ _ => Some op | _ => None end) tr.

(** [st'] extends [st]: more events, of which the submissions take the next
    numbers. *)
Definition extends (st st' : world) : Prop :=
  ∃ evs, trace st' = trace st ++ evs
         ∧ nextOp st' = nextOp st + length (submissions evs)
         ∧ submissions evs = seq (nextOp st) (length (submissions evs)).

Lemma extends_refl st : extends st st.
Proof. exists []. by rewrite app_nil_r, Nat.add_0_r. Qed.

Lemma extends_trans st1 st2 st3 : extends st1 st2 → extends st2 st3 → extends st1 st3.
Proof.
  intros (e1 & Ht1 & Hn1 & Hs1) (e2 & Ht2 & Hn2 & Hs2). exists (e1 ++ e2).
  unfold submissions in *. rewrite omap_app, length_app.
  split; [by rewrite Ht2, Ht1, app_assoc|]. split; [lia|].
  rewrite seq_app, <- Hs1, <- Hn1, <- Hs2. done.
Qed.

(** A state that differs only outside the trace and the counter. *)
Lemma extends_same st st' : trace st' = trace st → nextOp st' = nextOp st → extends st st'.
Proof. intros Ht Hn. exists []. by rewrite app_nil_r, Nat.add_0_r. Qed.

Lemma extends_emit ev st :
  (∀ w op fn g prev d c, ev ≠ EvSubmit w op fn g prev d c) → extends st (emit ev st).
Proof.
  intros Hns. exists [ev]. split; [done|].
  assert (submissions [ev] = []) as -> by (destruct ev; try done; by edestruct Hns).
  simpl. by rewrite Nat.add_0_r.
Qed.

Lemma extends_call_fn fn st : extends st (call_fn fn st).
Proof. destruct fn; simpl; [by apply extends_emit|by apply extends_same|apply extends_refl]. Qed.

Lemma extends_performOperation w fn st c st' :
  performOperation w fn st = Some (c, st') → extends st st'.
Proof.
  unfold performOperation. destruct (workers st !! w) as [wk|]; [|done].
  cbn [mbind option_bind]. intros [= <- <-].
  eexists [_]. split; [done|]. simpl. split; [lia|done].
Qed.

Lemma extends_quiet st st' evs :
  trace st' = trace st ++ evs → nextOp st' = nextOp st → submissions evs = [] →
  extends st st'.
Proof. intros Ht Hn Hs. exists evs. rewrite Hs. simpl. by rewrite Nat.add_0_r. Qed.

Ltac quiet_events :=
  eapply extends_quiet;
  [simpl; rewrite <- ?app_assoc; reflexivity|reflexivity|reflexivity].

Lemma extends_react r s st : extends st (react r s st).
Proof.
  destruct r; cbn [react].
  - destruct s; [| |by apply extends_same];
      (destruct (bool_decide _); [destruct fn|]); quiet_events.
  - quiet_events.
  - destruct s; [|destruct (instanceofError _)|]; quiet_events.
  - destruct s; by apply extends_same.
  - destruct s; try apply extends_refl. destruct (_ =? _)%nat; quiet_events.
Qed.

Lemma extends_foldl_stop ws : ∀ st, extends st (foldl (λ st w, emit (EvStop w) st) st ws).
Proof.
  induction ws as [|w ws IH]; intros st; simpl; [apply extends_refl|].
  eapply extends_trans; [|apply IH]. by apply extends_emit.
Qed.

Lemma extends_release w st st' : release w st = Some st' → extends st st'.
Proof.
  unfold release. destruct (_ <? _)%nat.
  - destruct (performOperation w (FnRestart w) st) as [[c st1]|] eqn:Hp; [|done].
    simpl. intros [= <-]. eapply extends_trans; [by eapply extends_performOperation|].
    by apply extends_same.
  - destruct (performOperation w (FnStop w) st) as [[c st1]|] eqn:Hp; [|done].
    simpl. intros [= <-]. by eapply extends_performOperation.
Qed.

Lemma extends_acquire mustUsePool prov st : extends st (acquire mustUsePool prov st).2.
Proof.
  unfold acquire. destruct (last (pool st)); [by apply extends_same|].
  destruct mustUsePool; [apply extends_refl|]. destruct (oom st); [apply extends_refl|].
  destruct prov as [basePath|e]; [|apply extends_refl]. simpl.
  eapply extends_trans; [|by apply extends_emit]. by apply extends_same.
Qed.

Lemma extends_step l st st' : step l st = Some st' → extends st st'.
Proof.
  destruct l; cbn [step].
  - destruct (performOperation w (FnUser tag) st) as [[c st1]|] eqn:Hp; [|done].
    simpl. intros [= <-]. by eapply extends_performOperation.
  - destruct (promises st !! p) as [pr|]; [|done]. cbn [mbind option_bind].
    destruct (p_state pr); [done| |]; (destruct (p_reactions pr); [done|]; intros [= <-];
      eapply extends_trans; [|apply extends_react]; by apply extends_same).
  - destruct (promises st !! p) as [pr|]; [|done]. cbn [mbind option_bind].
    destruct (_ && _); [|done]. intros [= <-]. by apply extends_same.
  - destruct (workers st !! w); [|done]. simpl. intros [= <-]. by apply extends_same.
  - intros [= <-]. apply extends_acquire.
  - apply extends_release.
  - intros [= <-]. unfold tick. destruct (belowThreshold _ _); [|by apply extends_same].
    unfold disposeBatch. destruct (splice _ _ _) as [rest gone]. simpl.
    eapply extends_trans; [|by apply extends_same].
    eapply extends_trans; [|apply extends_foldl_stop]. by apply extends_same.
  - unfold getOrCreateLease. destruct (leases st !! url); [intros [= <-]; apply extends_refl|].
    pose proof (extends_acquire mustUsePool prov st) as Ha.
    destruct (acquire mustUsePool prov st) as [[w|e] st1]; simpl in *;
      [|by intros [= <-]].
    destruct (workers st1 !! w); [|done]. simpl. intros [= <-].
    eapply extends_trans; [done|]. by apply extends_same.
  - unfold finalizeLease. destruct (workers st !! app l) as [wk|]; [|done]. simpl.
    destruct (release _ _) as [st1|] eqn:Hr; [|done]. simpl. intros [= <-].
    apply extends_release in Hr. eapply extends_trans; [|by apply extends_same].
    eapply extends_trans; [|done]. by apply extends_same.
Qed.

Lemma extends_run ls : ∀ st st', run ls st = Some st' → extends st st'.
Proof.
  induction ls as [|l ls IH]; simpl; intros st st'.
  - intros [= <-]. apply extends_refl.
  - destruct (step l st) as [st1|] eqn:Hs; [|done]. simpl. intros Hr.
    eapply extends_trans; [by eapply extends_step|by apply IH].
Qed.

(** In every reachable state the submissions so far are numbered 0, 1, ... in
    the order they were made. *)
Lemma submissions_numbered m ls st :
  run ls (init m) = Some st → submissions (trace st) = seq 0 (nextOp st).
Proof.
  intros Hr. destruct (extends_run _ _ _ Hr) as (evs & Ht & Hn & Hs).
  simpl in *. rewrite Ht, Hn. exact Hs.
Qed.

(** *** One operation at a time, in the order of submission *)

(** The body of [op] is running on [w]: [fn] was called and the promise it
    returned has not been awaited to its end. *)
Definition active (tr : list event) (w : wid) (op : opid) : Prop :=
  (∃ fn, EvInvoke w op fn ∈ tr) ∧ ¬ finished tr op.

Lemma active_on_worker h ws n tr w op :
  shape h ws n tr → tokens h tr → active tr w op →
  on_worker tr w op ∧ touched tr op ∧ ¬ resolved tr op.
Proof.
  intros Hsh Htk [[fn Hi] Hnf].
  destruct (sh_events _ _ _ _ Hsh w op) as (Hev & _ & _).
  destruct (Hev fn Hi) as (g & prev & d & c & Hsub).
  split; [by exists fn, g, prev, d, c|]. split; [left; by exists w, fn|].
  intros [Hs|Hf]; [|done].
  eapply (tk_excl _ _ Htk op); [by exists w, fn|done].
Qed.

Lemma active_excl h ws n tr w op1 op2 :
  shape h ws n tr → tokens h tr →
  active tr w op1 → active tr w op2 → op1 < op2 → False.
Proof.
  intros Hsh Htk Ha1 Ha2 Hlt.
  destruct (active_on_worker _ _ _ _ _ _ Hsh Htk Ha1) as (Hon1 & _ & Hnr1).
  destruct (active_on_worker _ _ _ _ _ _ Hsh Htk Ha2) as (Hon2 & Ht2 & _).
  by apply Hnr1, (order_core _ _ _ _ Hsh Htk op2 w op1).
Qed.

(** C1. Along every run of the server, from the empty pool: the operations
    submitted through [performOperation] are numbered 0, 1, 2, ... in the
    order of their submission; at most one operation is active on a worker at
    any time; and when the function of an operation is called, every
    operation submitted earlier to the same worker has already returned (it
    was skipped, or its function was called and its promise awaited to the
    end), so the bodies run one after the other in the order of submission,
    however many were submitted while earlier ones were still waiting. *)
Theorem operations_in_submission_order m ls st :
  run ls (init m) = Some st →
  submissions (trace st) = seq 0 (nextOp st)
  ∧ (∀ w op1 op2, active (trace st) w op1 → active (trace st) w op2 → op1 = op2)
  ∧ (∀ tr1 tr2 w op fn op1,
       trace st = tr1 ++ EvInvoke w op fn :: tr2 →
       on_worker (trace st) w op1 → op1 < op →
       resolved tr1 op1 ∧ ¬ active tr1 w op1
       ∧ (invoked (trace st) op1 → finished tr1 op1)).
Proof.
  intros Hrun. pose proof (inv_reachable _ _ _ Hrun) as (Hsh & Htk & Hob).
  split; [by eapply submissions_numbered|]. split.
  - intros w op1 op2 Ha1 Ha2.
    destruct (lt_eq_lt_dec op1 op2) as [[Hlt| ->]|Hlt]; [|done|]; exfalso.
    + exact (active_excl _ _ _ _ w op1 op2 Hsh Htk Ha1 Ha2 Hlt).
    + exact (active_excl _ _ _ _ w op2 op1 Hsh Htk Ha2 Ha1 Hlt).
  - intros tr1 tr2 w op fn op1 Htr Hon Hlt.
    pose proof (ob_order _ Hob _ _ _ _ _ _ Htr Hon Hlt) as Hres.
    assert (Hpre : ∀ ev, ev ∈ tr1 → ev ∈ trace st).
    { intros ev Hin. rewrite Htr. apply elem_of_app. by left. }
    assert (Hns : invoked (trace st) op1 → ¬ skipped tr1 op1).
    { intros Hi [w' Hs]. eapply (tk_excl _ _ Htk op1); [done|]. exists w'. by apply Hpre. }
    split; [done|]. split.
    + intros [[fn' Hi] Hnf]. destruct Hres as [Hs|Hf]; [|done].
      eapply Hns; [|done]. exists w, fn'. by apply Hpre.
    + intros Hi. destruct Hres as [Hs|Hf]; [|done]. by destruct (Hns Hi).
Qed.

(** Two operations submitted to one worker before the first has run; the
    first runs and completes, then the second runs. *)
Definition two_operations : list label :=
  [LAcquire false (ProvisionOk "/tmp/a");
   LPerform 0 7; LPerform 0 8;
   LFire 0; LSettle 6 (Fulfilled VUndefined); LFire 6; LFire 2; LFire 2].

Lemma operations_in_submission_order_witness :
  ∃ st, run two_operations (init 3) = Some st
        ∧ trace st = [EvProvision 0 "/tmp/a";
                      EvSubmit 0 0 (FnUser 7) 1 0 2 3;
                      EvSubmit 0 1 (FnUser 8) 1 2 4 5;
                      EvInvoke 0 0 (FnUser 7);
                      EvSettle 0 0 (Fulfilled VUndefined);
                      EvReturn 0;
                      EvInvoke 0 1 (FnUser 8)]
        ∧ submissions (trace st) = seq 0 (nextOp st)
        ∧ (∀ w op1 op2, active (trace st) w op1 → active (trace st) w op2 → op1 = op2).
Proof.
  eexists. split; [vm_compute; reflexivity|]. split; [vm_compute; reflexivity|].
  match goal with
  | |- submissions (trace ?st) = _ ∧ _ =>
      pose proof (operations_in_submission_order 3 two_operations st
                    ltac:(vm_compute; reflexivity)) as H
  end.
  split; [exact (proj1 H)|exact (proj1 (proj2 H))].
Defined.

(** *** An operation queued under an older generation *)

Lemma run_app ls1 : ∀ ls2 st, run (ls1 ++ ls2) st = st1 ← run ls1 st; run ls2 st1.
Proof.
  induction ls1 as [|l ls1 IH]; intros ls2 st; simpl; [done|].
  destruct (step l st) as [st1|]; simpl; [apply IH|done].
Qed.

(** An operation that was skipped stays so: its function is not called
    later, and its caller is not thrown anything. *)
Lemma skipped_forever st w op :
  inv st → EvSkip w op ∈ trace st →
  ¬ invoked (trace st) op ∧ ¬ finished (trace st) op ∧ ∀ v, EvThrow op v ∉ trace st.
Proof.
  intros (Hsh & Htk & Hob) Hs.
  assert (Hni : ¬ invoked (trace st) op).
  { intros Hi. eapply (tk_excl _ _ Htk op); [done|by exists w]. }
  assert (Hnf : ¬ finished (trace st) op).
  { intros (w' & s & Hf). destruct (sh_events _ _ _ _ Hsh w' op) as (_ & _ & Hev).
    by destruct (Hev s Hf). }
  split; [done|]. split; [done|].
  intros v Ht. destruct (ob_throw _ Hob _ _ Ht) as (_ & w' & s & Hf & _).
  apply Hnf. by exists w', s.
Qed.

(** The turn of a queued operation: the promise its wrapper waits on has
    settled and the wrapper is the oldest continuation on it. That promise is
    a lock of the chain, so it was fulfilled, and the wrapper runs. *)
Lemma wrapper_turn st p pr w g fn op d rs :
  inv st → promises st !! p = Some pr → p_state pr ≠ Pending →
  p_reactions pr = RWrapped w g fn op d :: rs →
  ∃ c v, EvSubmit w op fn g p d c ∈ trace st
         ∧ p_state pr = Fulfilled v
         ∧ ¬ touched (trace st) op
         ∧ step (LFire p) st
           = Some (react (RWrapped w g fn op d) (Fulfilled v) (pop_reaction p st)).
Proof.
  intros Hinv Hl Hnp Hr. pose proof Hinv as (Hsh & Htk & Hob).
  assert (Hin : RWrapped w g fn op d ∈ p_reactions pr) by (rewrite Hr; by left).
  destruct (tk_wrapped _ _ Htk _ _ _ _ _ _ _ Hl Hin) as [[c Hsub] Hnt].
  destruct (sh_submit _ _ _ _ Hsh _ _ _ _ _ _ _ Hsub) as [Hkd Hkp].
  destruct (lock_not_rejected _ _ _ _ _ _ Hsh Htk Hkp Hl Hnp) as [v Hst].
  exists c, v. split; [done|]. split; [done|]. split; [done|].
  cbn [step]. rewrite Hl. cbn [mbind option_bind]. by rewrite Hst, Hr.
Qed.

(** The caller of a skipped operation: whenever its [await lock] resumes, it
    resumes on [undefined] and returns normally. *)
Lemma skipped_caller_returns st w op p pr c rs :
  inv st → EvSkip w op ∈ trace st →
  promises st !! p = Some pr → p_state pr ≠ Pending → p_reactions pr = RCaller op c :: rs →
  p_state pr = Fulfilled VUndefined
  ∧ step (LFire p) st
    = Some (settle c (Fulfilled VUndefined) (emit (EvReturn op) (pop_reaction p st))).
Proof.
  intros Hinv Hs Hl Hnp Hr.
  destruct (skipped_forever _ _ _ Hinv Hs) as (_ & Hnf & _).
  destruct Hinv as (Hsh & Htk & Hob).
  assert (Hin : RCaller op c ∈ p_reactions pr) by (rewrite Hr; by left).
  destruct (tk_caller _ _ Htk _ _ _ _ Hl Hin) as [Hk _].
  pose proof (tk_lock_state _ _ Htk _ _ _ Hl Hk) as Hst.
  assert (Hv : p_state pr = Fulfilled VUndefined).
  { destruct (p_state pr) as [|v|v] eqn:E; [done| |done].
    destruct Hst as [[_ ->]|(w' & s & Hf & _)]; [done|].
    destruct Hnf. by exists w', s. }
  split; [done|]. cbn [step]. rewrite Hl. cbn [mbind option_bind]. by rewrite Hv, Hr.
Qed.

(** ** The generation an operation is submitted under *)

(** From [st] to [st'] events were added, and every submission among them
    recorded the generation its worker has in [ws]. *)
Definition records (ws : list worker) (st st' : world) : Prop :=
  ∃ evs, trace st' = trace st ++ evs
         ∧ ∀ w op fn g prev d c, EvSubmit w op fn g prev d c ∈ evs →
             generation <$> ws !! w = Some g.

Lemma records_refl ws st : records ws st st.
Proof.
  exists []. rewrite app_nil_r. split; [done|].
  intros w op fn g prev d c Hin. by apply elem_of_nil in Hin.
Qed.

Lemma records_trans ws st1 st2 st3 :
  records ws st1 st2 → records ws st2 st3 → records ws st1 st3.
Proof.
  intros (e1 & Ht1 & H1) (e2 & Ht2 & H2). exists (e1 ++ e2).
  split; [by rewrite Ht2, Ht1, app_assoc|].
  intros w op fn g prev d c Hin. apply elem_of_app in Hin as [Hin|Hin]; eauto.
Qed.

Lemma records_same ws st st' : trace st' = trace st → records ws st st'.
Proof. intros Ht. rewrite <- (app_nil_r (trace st)) in Ht. exists []. split; [done|].
  intros w op fn g prev d c Hin. by apply elem_of_nil in Hin.
Qed.

Lemma records_emit ws ev st :
  (∀ w op fn g prev d c, ev ≠ EvSubmit w op fn g prev d c) → records ws st (emit ev st).
Proof.
  intros Hns. exists [ev]. split; [done|].
  intros w op fn g prev d c Hin. apply list_elem_of_singleton in Hin. by edestruct Hns.
Qed.

Lemma records_call_fn ws fn st : records ws st (call_fn fn st).
Proof.
  destruct fn; simpl; [by apply records_emit|by apply records_same|apply records_refl].
Qed.

(** The submission records the generation the worker has when
    [performOperation] is called. *)
Lemma records_performOperation w fn st c st' :
  performOperation w fn st = Some (c, st') → records (workers st) st st'.
Proof.
  unfold performOperation. destruct (workers st !! w) as [wk|] eqn:Hw; [|done].
  cbn [mbind option_bind]. intros [= <- <-].
  eexists [_]. split; [done|]. intros w' op fn' g prev d c' Hin.
  apply list_elem_of_singleton in Hin. injection Hin as -> -> -> -> -> -> ->.
  by rewrite Hw.
Qed.

Lemma records_react ws r s st : records ws st (react r s st).
Proof.
  destruct r; cbn [react].
  - destruct s; [| |by apply records_same].
    + destruct (bool_decide _).
      * eapply records_trans; [|by apply records_same].
        eapply records_trans; [|apply records_call_fn].
        eapply records_trans; [|by apply records_emit]. by apply records_same.
      * eapply records_trans; [|by apply records_same].
        eapply records_trans; [|by apply records_emit]. by apply records_same.
    + destruct (bool_decide _).
      * eapply records_trans; [|by apply records_same].
        eapply records_trans; [|apply records_call_fn].
        eapply records_trans; [|by apply records_emit]. by apply records_same.
      * eapply records_trans; [|by apply records_same].
        eapply records_trans; [|by apply records_emit]. by apply records_same.
  - eapply records_trans; [|by apply records_same]. by apply records_emit.
  - destruct s; [|destruct (instanceofError _)|];
      (eapply records_trans; [|by apply records_same]); by apply records_emit.
  - destruct s; by apply records_same.
  - destruct s; try apply records_refl. destruct (_ =? _)%nat.
    + eapply records_trans; [|by apply records_same]. by apply records_emit.
    + by apply records_emit.
Qed.

Lemma records_foldl_stop ws' ws : ∀ st,
  records ws' st (foldl (λ st w, emit (EvStop w) st) st ws).
Proof.
  induction ws as [|w ws IH]; intros st; simpl; [apply records_refl|].
  eapply records_trans; [|apply IH]. by apply records_emit.
Qed.

Lemma records_release w st st' : release w st = Some st' → records (workers st) st st'.
Proof.
  unfold release. destruct (_ <? _)%nat.
  - destruct (performOperation w (FnRestart w) st) as [[c st1]|] eqn:Hp; [|done].
    simpl. intros [= <-]. eapply records_trans; [by eapply records_performOperation|].
    by apply records_same.
  - destruct (performOperation w (FnStop w) st) as [[c st1]|] eqn:Hp; [|done].
    simpl. intros [= <-]. by eapply records_performOperation.
Qed.

Lemma records_acquire ws mustUsePool prov st : records ws st (acquire mustUsePool prov st).2.
Proof.
  unfold acquire. destruct (last (pool st)); [by apply records_same|].
  destruct mustUsePool; [apply records_refl|]. destruct (oom st); [apply records_refl|].
  destruct prov as [basePath|e]; [|apply records_refl]. simpl.
  eapply records_trans; [|by apply records_emit]. by apply records_same.
Qed.

(** A step records, for each operation it submits, the generation the
    worker has when the step begins. *)
Lemma records_step l st st' : step l st = Some st' → records (workers st) st st'.
Proof.
  destruct l; cbn [step].
  - destruct (performOperation w (FnUser tag) st) as [[c st1]|] eqn:Hp; [|done].
    simpl. intros [= <-]. by eapply records_performOperation.
  - destruct (promises st !! p) as [pr|]; [|done]. cbn [mbind option_bind].
    destruct (p_state pr); [done| |]; (destruct (p_reactions pr); [done|]; intros [= <-];
      eapply records_trans; [|apply records_react]; by apply records_same).
  - destruct (promises st !! p) as [pr|]; [|done]. cbn [mbind option_bind].
    destruct (_ && _); [|done]. intros [= <-]. by apply records_same.
  - destruct (workers st !! w); [|done]. simpl. intros [= <-]. by apply records_same.
  - intros [= <-]. apply records_acquire.
  - apply records_release.
  - intros [= <-]. unfold tick. destruct (belowThreshold _ _); [|by apply records_same].
    unfold disposeBatch. destruct (splice _ _ _) as [rest gone]. simpl.
    eapply records_trans; [|by apply records_same].
    eapply records_trans; [|apply records_foldl_stop]. by apply records_same.
  - unfold getOrCreateLease. destruct (leases st !! url); [intros [= <-]; apply records_refl|].
    pose proof (records_acquire (workers st) mustUsePool prov st) as Ha.
    destruct (acquire mustUsePool prov st) as [[w|e] st1]; simpl in *;
      [|by intros [= <-]].
    destruct (workers st1 !! w); [|done]. simpl. intros [= <-].
    eapply records_trans; [done|]. by apply records_same.
  - unfold finalizeLease. destruct (workers st !! app l) as [wk|]; [|done]. simpl.
    destruct (release _ _) as [st1|] eqn:Hr; [|done]. simpl. intros [= <-].
    apply records_release in Hr. eapply records_trans; [|by apply records_same].
    eapply records_trans; [|exact Hr]. by apply records_same.
Qed.

(** Every submission in the trace of a run was made by one of its steps, and
    recorded the generation the worker had when that step began. *)
Lemma submitted_under ls : ∀ st0 st w op fn g prev d c,
  run ls st0 = Some st →
  EvSubmit w op fn g prev d c ∈ trace st →
  EvSubmit w op fn g prev d c ∈ trace st0
  ∨ ∃ ls1 l ls2 st1 st2 evs,
      ls = ls1 ++ l :: ls2 ∧ run ls1 st0 = Some st1 ∧ step l st1 = Some st2
      ∧ run ls2 st2 = Some st
      ∧ trace st2 = trace st1 ++ evs ∧ EvSubmit w op fn g prev d c ∈ evs
      ∧ generation <$> workers st1 !! w = Some g.
Proof.
  induction ls as [|l ls IH]; intros st0 st w op fn g prev d c; simpl.
  - intros [= <-] Hin. by left.
  - destruct (step l st0) as [sta|] eqn:Hs; [|done]. simpl. intros Hrun Hin.
    destruct (IH _ _ _ _ _ _ _ _ _ Hrun Hin)
      as [Ha|(ls1 & l' & ls2 & st1 & st2 & evs & -> & Hr1 & Hs' & Hr2 & Ht & He & Hg)].
    + destruct (records_step _ _ _ Hs) as (evs & Ht & Hrec).
      rewrite Ht in Ha. apply elem_of_app in Ha as [Ha|Ha]; [by left|]. right.
      exists [], l, ls, st0, sta, evs. repeat split; try done. by eapply Hrec.
    + right. exists (l :: ls1), l', ls2, st1, st2, evs. repeat split; try done.
      simpl. by rewrite Hs.
Qed.

(** C2. Along every run, when the turn of an operation comes (its wrapper is
    the oldest continuation of a settled promise), the generation [g] the
    wrapper holds is the one worker [w] had when the operation was submitted:
    the submission was made by a step of the run, and [w] had generation [g]
    in the state that step began in. The wrapper runs. If the generation of
    [w] is still [g], the function is called. If it is not, the function is
    not called, now or later: the step records the skip and nothing else,
    leaves the workers, the pool, the leases, the directories and the flag as
    they are, and fulfils the lock the caller awaits with [undefined]; the
    caller is never thrown an error, and whenever its await resumes it returns
    normally. *)
Theorem stale_operation_skipped m ls st p pr w g fn op d rs :
  run ls (init m) = Some st →
  promises st !! p = Some pr → p_state pr ≠ Pending →
  p_reactions pr = RWrapped w g fn op d :: rs →
  ∃ c st',
    EvSubmit w op fn g p d c ∈ trace st
    ∧ (∃ ls1 l ls2 st1 st2 evs,
         ls = ls1 ++ l :: ls2 ∧ run ls1 (init m) = Some st1 ∧ step l st1 = Some st2
         ∧ run ls2 st2 = Some st
         ∧ trace st2 = trace st1 ++ evs ∧ EvSubmit w op fn g p d c ∈ evs
         ∧ generation <$> workers st1 !! w = Some g)
    ∧ ¬ touched (trace st) op
    ∧ step (LFire p) st = Some st'
    ∧ (generation <$> workers st !! w = Some g →
         (∃ evs, trace st' = trace st ++ EvInvoke w op fn :: evs)
         ∧ activeOperations st' = (activeOperations st + 1)%Z)
    ∧ (generation <$> workers st !! w ≠ Some g →
         trace st' = trace st ++ [EvSkip w op]
         ∧ workers st' = workers st ∧ pool st' = pool st ∧ oom st' = oom st
         ∧ leases st' = leases st ∧ extensionsPathMap st' = extensionsPathMap st
         ∧ dirs st' = dirs st ∧ activeOperations st' = activeOperations st
         ∧ p_state <$> promises st' !! d = Some (Fulfilled VUndefined)
         ∧ ∀ ls' st'', run ls' st' = Some st'' →
             ¬ invoked (trace st'') op
             ∧ (∀ v, EvThrow op v ∉ trace st'')
             ∧ ∀ p' pr' c' rs', promises st'' !! p' = Some pr' →
                 p_state pr' ≠ Pending → p_reactions pr' = RCaller op c' :: rs' →
                 step (LFire p') st''
                 = Some (settle c' (Fulfilled VUndefined)
                           (emit (EvReturn op) (pop_reaction p' st'')))).
Proof.
  intros Hrun Hl Hnp Hr. pose proof (inv_reachable _ _ _ Hrun) as Hinv.
  destruct (wrapper_turn _ _ _ _ _ _ _ _ _ Hinv Hl Hnp Hr) as (c & v & Hsub & Hst & Hnt & Hstep).
  exists c, (react (RWrapped w g fn op d) (Fulfilled v) (pop_reaction p st)).
  split; [done|]. split.
  { destruct (submitted_under _ _ _ _ _ _ _ _ _ _ Hrun Hsub) as [Hin|H]; [|done].
    by apply elem_of_nil in Hin. }
  split; [done|]. split; [done|]. split.
  - intros Hg. cbn [react].
    change (workers (add_queued (-1) (pop_reaction p st))) with (workers st).
    rewrite (bool_decide_eq_true_2 _ Hg).
    split; [|by destruct fn]. destruct fn; simpl; eexists; by rewrite <- ?app_assoc.
  - intros Hg.
    assert (Hrun' : run (ls ++ [LFire p]) (init m)
              = Some (react (RWrapped w g fn op d) (Fulfilled v) (pop_reaction p st))).
    { rewrite run_app, Hrun. cbn [mbind option_bind run]. by rewrite Hstep. }
    revert Hrun' Hstep. cbn [react].
    change (workers (add_queued (-1) (pop_reaction p st))) with (workers st).
    rewrite (bool_decide_eq_false_2 _ Hg). intros Hrun' Hstep.
    split; [done|]. do 7 (split; [done|]). split.
    + destruct Hinv as (Hsh & Htk & Hob).
      destruct (sh_submit _ _ _ _ Hsh _ _ _ _ _ _ _ Hsub) as [Hkd _].
      unfold kind_of in Hkd. destruct (promises st !! d) as [prd|] eqn:Hd; [|done].
      injection Hkd as Hkd.
      pose proof (tk_lock_state _ _ Htk _ _ _ Hd Hkd) as Hds.
      assert (Hpd : p_state prd = Pending).
      { destruct (p_state prd) as [|v'|v']; [done| |done].
        destruct Hnt. by apply resolved_touched, (outcome_resolved _ _ v'). }
      assert (Hne : p ≠ d).
      { intros ->. unfold pid in *. rewrite Hl in Hd. injection Hd as ->. done. }
      simpl. unfold pid in *.
      rewrite list_lookup_alter, list_lookup_alter_ne, Hd by done.
      rewrite decide_True by done. simpl. by rewrite Hpd.
    + intros ls' st'' Hrun''.
      assert (Hinv'' : inv st'').
      { apply (inv_reachable m (ls ++ [LFire p] ++ ls')).
        rewrite app_assoc, run_app, Hrun'. done. }
      assert (Hs : EvSkip w op ∈ trace st'').
      { destruct (extends_run _ _ _ Hrun'') as (evs & -> & _).
        apply elem_of_app. left. simpl. apply elem_of_app. right. by left. }
      destruct (skipped_forever _ _ _ Hinv'' Hs) as (Hni & _ & Hnth).
      split; [done|]. split; [done|].
      intros p' pr' c' rs' Hl' Hnp' Hr'.
      by destruct (skipped_caller_returns _ _ _ _ _ _ _ Hinv'' Hs Hl' Hnp' Hr').
Qed.

(** Operation 0 is submitted under generation 1, the worker is restarted from
    outside the queue before it runs, then operation 1 is submitted. *)
Definition stale_submission : list label :=
  [LAcquire false (ProvisionOk "/tmp/a"); LPerform 0 7; LRestart 0; LPerform 0 8].

Definition stale_state : world :=
  Eval vm_compute in default (init 3) (run stale_submission (init 3)).

Definition stale_lock : promise :=
  {| p_state := Fulfilled VUndefined; p_kind := KInit;
     p_reactions := [RWrapped 0 1 (FnUser 7) 0 2] |}.

(** The same run once operation 0 was skipped and its caller resumed: the
    turn of operation 1, which was submitted after the restart. *)
Definition fresh_state : world :=
  Eval vm_compute in
    default (init 3) (run (stale_submission ++ [LFire 0; LFire 2]) (init 3)).

Definition fresh_lock : promise :=
  {| p_state := Fulfilled VUndefined; p_kind := KLock 0;
     p_reactions := [RWrapped 0 2 (FnUser 8) 1 5] |}.

Lemma stale_operation_skipped_witness :
  run stale_submission (init 3) = Some stale_state
  ∧ promises stale_state !! 0 = Some stale_lock
  ∧ generation <$> workers stale_state !! 0 = Some 2
  ∧ (∃ st1, run [LAcquire false (ProvisionOk "/tmp/a")] (init 3) = Some st1
            ∧ generation <$> workers st1 !! 0 = Some 1
            ∧ ∃ st2, step (LPerform 0 7) st1 = Some st2
                     ∧ EvSubmit 0 0 (FnUser 7) 1 0 2 3 ∈ trace st2)
  ∧ (∃ st', step (LFire 0) stale_state = Some st'
            ∧ trace st' = trace stale_state ++ [EvSkip 0 0]
            ∧ p_state <$> promises st' !! 2 = Some (Fulfilled VUndefined)
            ∧ ∀ ls' st'', run ls' st' = Some st'' →
                ¬ invoked (trace st'') 0 ∧ ∀ v, EvThrow 0 v ∉ trace st'')
  ∧ run (stale_submission ++ [LFire 0; LFire 2]) (init 3) = Some fresh_state
  ∧ promises fresh_state !! 2 = Some fresh_lock
  ∧ generation <$> workers fresh_state !! 0 = Some 2
  ∧ ∃ st' evs, step (LFire 2) fresh_state = Some st'
               ∧ trace st' = trace fresh_state ++ EvInvoke 0 1 (FnUser 8) :: evs.
Proof.
  assert (Hrun : run stale_submission (init 3) = Some stale_state)
    by (vm_compute; reflexivity).
  assert (Hl : promises stale_state !! 0 = Some stale_lock) by reflexivity.
  assert (Hg : generation <$> workers stale_state !! 0 = Some 2) by reflexivity.
  split; [exact Hrun|]. split; [exact Hl|]. split; [exact Hg|].
  assert (Hnp : p_state stale_lock ≠ Pending) by discriminate.
  destruct (stale_operation_skipped 3 stale_submission stale_state 0 stale_lock
              0 1 (FnUser 7) 0 2 [] Hrun Hl Hnp eq_refl)
    as (c & st' & _ & _ & _ & Hstep & _ & Hskip).
  assert (Hne : generation <$> workers stale_state !! 0 ≠ Some 1)
    by (rewrite Hg; discriminate).
  destruct (Hskip Hne) as (Ht & _ & _ & _ & _ & _ & _ & _ & Hd & Hlater).
  split.
  { eexists. split; [vm_compute; reflexivity|]. split; [reflexivity|].
    eexists. split; [vm_compute; reflexivity|].
    vm_compute. repeat first [apply list_elem_of_here | apply list_elem_of_further]. }
  split.
  { exists st'. split; [exact Hstep|]. split; [exact Ht|]. split; [exact Hd|].
    intros ls' st'' Hrun''. destruct (Hlater ls' st'' Hrun'') as (Hni & Hnt & _).
    split; [exact Hni|exact Hnt]. }
  assert (Hrun2 : run (stale_submission ++ [LFire 0; LFire 2]) (init 3) = Some fresh_state)
    by (vm_compute; reflexivity).
  assert (Hl2 : promises fresh_state !! 2 = Some fresh_lock) by reflexivity.
  assert (Hg2 : generation <$> workers fresh_state !! 0 = Some 2) by reflexivity.
  split; [exact Hrun2|]. split; [exact Hl2|]. split; [exact Hg2|].
  assert (Hnp2 : p_state fresh_lock ≠ Pending) by discriminate.
  destruct (stale_operation_skipped 3 (stale_submission ++ [LFire 0; LFire 2]) fresh_state
              2 fresh_lock 0 2 (FnUser 8) 1 5 [] Hrun2 Hl2 Hnp2 eq_refl)
    as (c2 & st2' & _ & _ & _ & Hstep2 & Hinv2 & _).
  destruct (Hinv2 Hg2) as [[evs Hev] _].
  exists st2', evs. split; [exact Hstep2|exact Hev].
Defined.

(** ** The lease timer and the hello of the extension *)

(** The callback of the timer made by [_createTimeout(liveShareUrl, app,
    seconds)]: [generationAtTimerCreation] is [app.generation] when the timer
    was made. A lease that is gone makes [lease?.app] undefined, which is no
    application. *)
Definition onLeaseTimeout (liveShareUrl : string) (app' : wid)
    (generationAtTimerCreation : nat) (st : world) : option world :=
  match leases st !! liveShareUrl with
  | Some l =>
      wk ← workers st !! app l;
      if bool_decide (app' = app l) && bool_decide (generationAtTimerCreation = generation wk)
      then finalizeLease (Some l) st
      else Some st
  | None => Some st
  end.

(** The [hello] message of the extension on the /fsproxy socket, given
    [path.dirname(message.params.extensionPath)]: the application is looked up
    in [_extensionsPathMap]; if it is there it gets its ExtensionClient and
    [markAsReady()] resolves its current [ready] promise. *)
Definition onHello (extensionsPath' : string) (st : world) : world :=
  match extensionsPathMap st !! extensionsPath' with
  | Some w =>
      match workers st !! w with
      | Some wk =>
          let st := set_worker w (λ wk, {| generation := generation wk; lock := lock wk;
                                           fsproxy := true; ready := ready wk;
                                           extensionsPath := extensionsPath wk |}) st in
          settle (ready wk) (Fulfilled VUndefined) st
      | None => st
      end
  | None => st
  end.

(** X9. After [finalizeLease] the timer of the lease and a late hello of its
    extension find nothing: both leave the state as it is. *)
Theorem finalized_lease_is_forgotten l st st' wk :
  workers st !! app l = Some wk →
  finalizeLease (Some l) st = Some st' →
  (∀ app' g, onLeaseTimeout (liveShareUrl l) app' g st' = Some st')
  ∧ onHello (extensionsPath wk) st' = st'.
Proof.
  intros Hw Hf. destruct (finalizeLease_once _ _ _ Hf) as (wk' & Hw' & Hl & He & _).
  assert (wk' = wk) as -> by congruence. split.
  - intros app' g. unfold onLeaseTimeout. by rewrite Hl, lookup_delete_eq.
  - unfold onHello. by rewrite He, lookup_delete_eq.
Qed.

Lemma finalized_lease_is_forgotten_witness :
  ∃ st st' wk, run lease_created (init 3) = Some st
    ∧ workers st !! app demo_lease = Some wk
    ∧ finalizeLease (Some demo_lease) st = Some st'
    ∧ onLeaseTimeout (liveShareUrl demo_lease) 0 1 st' = Some st'
    ∧ onHello (extensionsPath wk) st' = st'.
Proof.
  eexists _, _, _. split; [vm_compute; reflexivity|].
  match goal with
  | |- workers ?st !! _ = Some ?wk ∧ finalizeLease _ _ = Some ?st' ∧ _ =>
      pose proof (finalized_lease_is_forgotten demo_lease st st' wk
                    ltac:(vm_compute; reflexivity) ltac:(vm_compute; reflexivity)) as [H1 H2]
  end.
  split; [vm_compute; reflexivity|]. split; [vm_compute; reflexivity|].
  split; [apply H1|apply H2].
Defined.

(** ** The two gauges of the queue *)

(** What an event adds to [queuedOperations] and to [activeOperations]. *)
Definition queued_weight (ev : event) : Z :=
  match ev with
  | EvSubmit _ _ _ _ _ _ _ => 1
  | EvInvoke _ _ _ | EvSkip _ _ => -1
  | _ => 0
  end.
Definition active_weight (ev : event) : Z :=
  match ev with
  | EvInvoke _ _ _ => 1
  | EvSettle _ _ _ => -1
  | _ => 0
  end.
Definition total (f : event → Z) (tr : list event) : Z :=
  foldr (λ ev z, f ev + z)%Z 0%Z tr.

(** The operations whose wrapper has run, and those whose function has
    settled, one entry per event. *)
Definition started (tr : list event) : list opid :=
  omap (λ ev, match ev with EvInvoke _ op _ | EvSkip _ op => Some op | _ => None end) tr.
Definition called (tr : list event) : list opid :=
  omap (λ ev, match ev with EvInvoke _ op _ => Some op | _ => None end) tr.
Definition settled_ops (tr : list event) : list opid :=
  omap (λ ev, match ev with EvSettle _ op _ => Some op | _ => None end) tr.

(** An event no wrapper emits. *)
Definition calm (ev : event) : Prop :=
  match ev with
  | EvInvoke _ _ _ | EvSkip _ _ | EvSettle _ _ _ => False
  | _ => True
  end.

(** [st'] comes after [st]: more events, the gauges moved by their weights;
    outside the run of a continuation, no wrapper event. *)
Definition ledger (fire : Prop) (st st' : world) : Prop :=
  ∃ evs, trace st' = trace st ++ evs
         ∧ (fire ∨ Forall calm evs)
         ∧ queuedOperations st' = (queuedOperations st + total queued_weight evs)%Z
         ∧ activeOperations st' = (activeOperations st + total active_weight evs)%Z.

Lemma total_app f tr1 tr2 : total f (tr1 ++ tr2) = (total f tr1 + total f tr2)%Z.
Proof. induction tr1 as [|ev tr1 IH]; simpl; [done|]. rewrite IH. lia. Qed.

Lemma ledger_refl fire st : ledger fire st st.
Proof. exists []. rewrite app_nil_r. simpl. split; [done|]. split; [by right|lia]. Qed.

Lemma ledger_trans fire st1 st2 st3 :
  ledger fire st1 st2 → ledger fire st2 st3 → ledger fire st1 st3.
Proof.
  intros (e1 & Ht1 & Hc1 & Hq1 & Ha1) (e2 & Ht2 & Hc2 & Hq2 & Ha2). exists (e1 ++ e2).
  rewrite !total_app. split; [by rewrite Ht2, Ht1, app_assoc|]. split; [|lia].
  destruct Hc1 as [?|Hc1]; [by left|]. destruct Hc2 as [?|Hc2]; [by left|].
  right. by apply Forall_app_2.
Qed.

Lemma ledger_events fire st st' evs :
  trace st' = trace st ++ evs → fire ∨ Forall calm evs →
  queuedOperations st' = (queuedOperations st + total queued_weight evs)%Z →
  activeOperations st' = (activeOperations st + total active_weight evs)%Z →
  ledger fire st st'.
Proof. intros. by exists evs. Qed.

Lemma ledger_same fire st st' :
  trace st' = trace st → queuedOperations st' = queuedOperations st →
  activeOperations st' = activeOperations st → ledger fire st st'.
Proof.
  intros Ht Hq Ha. exists []. rewrite app_nil_r. simpl.
  split; [done|]. split; [by right|lia].
Qed.

Ltac ledger_step :=
  eapply ledger_events;
  [simpl; rewrite <- ?app_assoc; reflexivity
  |first [left; exact I | right; repeat constructor]
  |simpl; lia|simpl; lia].

Lemma ledger_performOperation w fn st c st' :
  performOperation w fn st = Some (c, st') → ledger False st st'.
Proof.
  unfold performOperation. destruct (workers st !! w) as [wk|]; [|done].
  cbn [mbind option_bind]. intros [= <- <-]. ledger_step.
Qed.

Lemma ledger_react r s st : ledger True st (react r s st).
Proof.
  destruct r; cbn [react].
  - destruct s; [| |by apply ledger_same];
      (destruct (bool_decide _); [destruct fn|]); ledger_step.
  - ledger_step.
  - destruct s; [|destruct (instanceofError _)|]; ledger_step.
  - destruct s; by apply ledger_same.
  - destruct s; try apply ledger_refl. destruct (_ =? _)%nat; ledger_step.
Qed.

Lemma ledger_foldl_stop ws : ∀ st, ledger False st (foldl (λ st w, emit (EvStop w) st) st ws).
Proof.
  induction ws as [|w ws IH]; intros st; simpl; [apply ledger_refl|].
  eapply ledger_trans; [|apply IH]. ledger_step.
Qed.

Lemma ledger_release w st st' : release w st = Some st' → ledger False st st'.
Proof.
  unfold release. destruct (_ <? _)%nat.
  - destruct (performOperation w (FnRestart w) st) as [[c st1]|] eqn:Hp; [|done].
    simpl. intros [= <-]. eapply ledger_trans; [by eapply ledger_performOperation|].
    by apply ledger_same.
  - destruct (performOperation w (FnStop w) st) as [[c st1]|] eqn:Hp; [|done].
    simpl. intros [= <-]. by eapply ledger_performOperation.
Qed.

Lemma ledger_acquire mustUsePool prov st : ledger False st (acquire mustUsePool prov st).2.
Proof.
  unfold acquire. destruct (last (pool st)); [by apply ledger_same|].
  destruct mustUsePool; [apply ledger_refl|]. destruct (oom st); [apply ledger_refl|].
  destruct prov as [basePath|e]; [|apply ledger_refl]. ledger_step.
Qed.

Definition is_fire (l : label) : Prop := match l with LFire _ => True | _ => False end.

Lemma ledger_weaken st st' fire : ledger False st st' → ledger fire st st'.
Proof.
  intros (evs & Ht & [[]|Hc] & Hq & Ha). exists evs. split; [done|]. split; [by right|done].
Qed.

Lemma ledger_of_step l st st' : step l st = Some st' → ledger (is_fire l) st st'.
Proof.
  destruct l; cbn [step is_fire].
  - destruct (performOperation w (FnUser tag) st) as [[c st1]|] eqn:Hp; [|done].
    simpl. intros [= <-]. by eapply ledger_performOperation.
  - destruct (promises st !! p) as [pr|]; [|done]. cbn [mbind option_bind].
    destruct (p_state pr); [done| |]; (destruct (p_reactions pr); [done|]; intros [= <-];
      eapply ledger_trans; [|apply ledger_react]; by apply ledger_same).
  - destruct (promises st !! p) as [pr|]; [|done]. cbn [mbind option_bind].
    destruct (_ && _); [|done]. intros [= <-]. by apply ledger_same.
  - destruct (workers st !! w); [|done]. simpl. intros [= <-]. by apply ledger_same.
  - intros [= <-]. apply ledger_acquire.
  - apply ledger_release.
  - intros [= <-]. unfold tick. destruct (belowThreshold _ _); [|by apply ledger_same].
    unfold disposeBatch. destruct (splice _ _ _) as [rest gone]. simpl.
    eapply ledger_trans; [|by apply ledger_same].
    eapply ledger_trans; [|apply ledger_foldl_stop]. by apply ledger_same.
  - unfold getOrCreateLease. destruct (leases st !! url); [intros [= <-]; apply ledger_refl|].
    pose proof (ledger_acquire mustUsePool prov st) as Ha.
    destruct (acquire mustUsePool prov st) as [[w|e] st1]; simpl in *;
      [|by intros [= <-]].
    destruct (workers st1 !! w); [|done]. simpl. intros [= <-].
    eapply ledger_trans; [done|]. by apply ledger_same.
  - unfold finalizeLease. destruct (workers st !! app l) as [wk|]; [|done]. simpl.
    destruct (release _ _) as [st1|] eqn:Hr; [|done]. simpl. intros [= <-].
    apply ledger_release in Hr. eapply ledger_trans; [|by apply ledger_same].
    eapply ledger_trans; [|done]. by apply ledger_same.
Qed.

Record counted (st : world) : Prop := {
  ct_queued : queuedOperations st = total queued_weight (trace st);
  ct_active : activeOperations st = total active_weight (trace st);
  ct_started : NoDup (started (trace st));
  ct_settled : NoDup (settled_ops (trace st))
}.

Lemma calm_started evs : Forall calm evs → started evs = [] ∧ settled_ops evs = [].
Proof.
  induction 1 as [|ev evs Hev _ [IH1 IH2]]; [done|].
  unfold started, settled_ops in *. destruct ev; simpl in *; done.
Qed.

Lemma elem_of_started tr op : op ∈ started tr → invoked tr op ∨ skipped tr op.
Proof.
  unfold started. rewrite list_elem_of_omap. intros (ev & Hin & Hev).
  destruct ev; try done; injection Hev as ->; [left; by eexists _, _|right; by eexists].
Qed.

Lemma elem_of_settled_ops tr op : op ∈ settled_ops tr → finished tr op.
Proof.
  unfold settled_ops. rewrite list_elem_of_omap. intros (ev & Hin & Hev).
  destruct ev; try done. injection Hev as ->. by eexists _, _.
Qed.

Lemma elem_of_called tr op : invoked tr op → op ∈ called tr.
Proof.
  intros (w & fn & Hin). unfold called. apply list_elem_of_omap. by eexists.
Qed.

Lemma elem_of_submissions tr w op : on_worker tr w op → op ∈ submissions tr.
Proof.
  intros (fn & g & prev & d & c & Hin). unfold submissions.
  apply list_elem_of_omap. by eexists.
Qed.

(** The events of a wrapper that runs: the call and what [fn()] does at once,
    or the skip. *)
Lemma react_wrapped_events w g fn op d v st :
  ∃ evs, trace (react (RWrapped w g fn op d) (Fulfilled v) st) = trace st ++ evs
         ∧ started evs = [op] ∧ settled_ops evs = [].
Proof.
  cbn [react]. destruct (bool_decide _).
  - destruct fn; simpl; eexists; (split; [by rewrite <- ?app_assoc|done]).
  - simpl. by eexists.
Qed.

Lemma counted_step l st st' : inv st → counted st → step l st = Some st' → counted st'.
Proof.
  intros Hinv [Hq Ha Hs Hf] Hstep.
  destruct (ledger_of_step _ _ _ Hstep) as (evs & Ht & Hc & Hq' & Ha').
  assert (Hnd : NoDup (started (trace st')) ∧ NoDup (settled_ops (trace st'))).
  { destruct Hc as [Hfire|Hc].
    - destruct l; try done. clear evs Ht Hq' Ha'. cbn [step] in Hstep.
      destruct (promises st !! p) as [pr|] eqn:Hl; [|done]. cbn [mbind option_bind] in Hstep.
      assert (Hnp : p_state pr ≠ Pending) by (intros E; by rewrite E in Hstep).
      destruct (p_reactions pr) as [|r rs] eqn:Hr; [by destruct (p_state pr)|].
      assert (Hst' : st' = react r (p_state pr) (pop_reaction p st))
        by (destruct (p_state pr); [done|by injection Hstep..]).
      assert (Hin : r ∈ p_reactions pr) by (rewrite Hr; by left).
      destruct r as [w g fn op d|w op d|op c|w|n].
      + destruct (wrapper_turn _ _ _ _ _ _ _ _ _ Hinv Hl Hnp Hr)
          as (c & v & _ & Hv & Hnt & _).
        rewrite Hv in Hst'.
        destruct (react_wrapped_events w g fn op d v (pop_reaction p st))
          as (evs & Ht & Hs1 & Hf1).
        rewrite Hst', Ht. unfold started, settled_ops in *. rewrite !omap_app, Hs1, Hf1.
        rewrite app_nil_r. split; [|done]. apply NoDup_app. split; [done|].
        split; [|apply NoDup_singleton]. intros x Hx Hx'.
        apply list_elem_of_singleton in Hx' as ->.
        apply Hnt. apply elem_of_started in Hx as [?|?]; [by left|right; by left].
      + destruct Hinv as (Hsh & Htk & Hob).
        destruct (tk_resume _ _ Htk _ _ _ _ _ Hl Hin) as (_ & _ & _ & Hnr).
        rewrite Hst'. cbn [react]. simpl. unfold started, settled_ops in *.
        rewrite !omap_app. simpl. rewrite app_nil_r. split; [done|].
        apply NoDup_app. split; [done|]. split; [|apply NoDup_singleton].
        intros x Hx Hx'. apply list_elem_of_singleton in Hx' as ->.
        apply Hnr. right. by apply elem_of_settled_ops.
      + rewrite Hst'. cbn [react].
        destruct (p_state pr); [|destruct (instanceofError _)|]; simpl;
          unfold started, settled_ops in *; rewrite !omap_app; simpl;
          by rewrite !app_nil_r.
      + rewrite Hst'. cbn [react]. by destruct (p_state pr).
      + rewrite Hst'. cbn [react]. destruct (p_state pr); try done.
        destruct (_ =? _)%nat; simpl; unfold started, settled_ops in *;
          rewrite !omap_app; simpl; by rewrite !app_nil_r.
    - destruct (calm_started _ Hc) as [H1 H2]. rewrite Ht.
      unfold started, settled_ops in *. by rewrite !omap_app, H1, H2, !app_nil_r. }
  destruct Hnd as [Hs' Hf']. split; [| |done|done].
  - rewrite Hq', Ht, total_app. lia.
  - rewrite Ha', Ht, total_app. lia.
Qed.

Lemma counted_run ls : ∀ st st', inv st → counted st → run ls st = Some st' → counted st'.
Proof.
  induction ls as [|l ls IH]; simpl; intros st st' Hinv Hc.
  - by intros [= <-].
  - destruct (step l st) as [st1|] eqn:Hs; [|done]. simpl.
    apply IH; [by eapply inv_step|by eapply counted_step].
Qed.

Lemma total_cons f ev tr : total f (ev :: tr) = (f ev + total f tr)%Z.
Proof. reflexivity. Qed.

Lemma total_queued tr :
  total queued_weight tr
  = (Z.of_nat (length (submissions tr)) - Z.of_nat (length (started tr)))%Z.
Proof.
  induction tr as [|ev tr IH]; [done|]. rewrite total_cons, IH.
  assert (Hs : length (submissions (ev :: tr))
               = ((if ev is EvSubmit _ _ _ _ _ _ _ then 1 else 0)
                  + length (submissions tr))%nat) by (by destruct ev).
  assert (Ht : length (started (ev :: tr))
               = (match ev with EvInvoke _ _ _ | EvSkip _ _ => 1 | _ => 0 end
                  + length (started tr))%nat) by (by destruct ev).
  rewrite Hs, Ht. destruct ev; simpl queued_weight; lia.
Qed.

Lemma total_active tr :
  total active_weight tr
  = (Z.of_nat (length (called tr)) - Z.of_nat (length (settled_ops tr)))%Z.
Proof.
  induction tr as [|ev tr IH]; [done|]. rewrite total_cons, IH.
  assert (Hs : length (called (ev :: tr))
               = ((if ev is EvInvoke _ _ _ then 1 else 0) + length (called tr))%nat)
    by (by destruct ev).
  assert (Ht : length (settled_ops (ev :: tr))
               = ((if ev is EvSettle _ _ _ then 1 else 0) + length (settled_ops tr))%nat)
    by (by destruct ev).
  rewrite Hs, Ht. destruct ev; simpl active_weight; lia.
Qed.

(** X10. Along every run, [queuedOperations] is the number of operations
    submitted whose wrapper has not run yet, [activeOperations] the number of
    functions called and not yet settled; neither gauge is ever negative. *)
Theorem gauges_count_operations m ls st :
  run ls (init m) = Some st →
  queuedOperations st
  = (Z.of_nat (length (submissions (trace st))) - Z.of_nat (length (started (trace st))))%Z
  ∧ activeOperations st
    = (Z.of_nat (length (called (trace st))) - Z.of_nat (length (settled_ops (trace st))))%Z
  ∧ NoDup (started (trace st)) ∧ NoDup (settled_ops (trace st))
  ∧ (0 ≤ queuedOperations st)%Z ∧ (0 ≤ activeOperations st)%Z.
Proof.
  intros Hrun. pose proof (inv_reachable _ _ _ Hrun) as Hinv.
  assert (Hc : counted st).
  { eapply counted_run; [apply (inv_init m)| |done]. by split; [..|constructor|constructor]. }
  destruct Hc as [Hq Ha Hs Hf]. rewrite total_queued in Hq. rewrite total_active in Ha.
  destruct Hinv as (Hsh & Htk & Hob).
  split; [done|]. split; [done|]. split; [done|]. split; [done|].
  assert (length (started (trace st)) ≤ length (submissions (trace st)))%nat.
  { apply submseteq_length, NoDup_submseteq; [done|]. intros op Hin.
    apply elem_of_started in Hin as [(w & fn & Hi)|(w & Hk)].
    - destruct (sh_events _ _ _ _ Hsh w op) as (Hev & _ & _).
      destruct (Hev fn Hi) as (g & prev & d & c & Hsub).
      apply (elem_of_submissions _ w). by exists fn, g, prev, d, c.
    - destruct (sh_events _ _ _ _ Hsh w op) as (_ & Hev & _).
      by apply (elem_of_submissions _ w), Hev. }
  assert (length (settled_ops (trace st)) ≤ length (called (trace st)))%nat.
  { apply submseteq_length, NoDup_submseteq; [done|]. intros op Hin.
    apply elem_of_settled_ops in Hin as (w & s & Hin).
    destruct (sh_events _ _ _ _ Hsh w op) as (_ & _ & Hev).
    apply elem_of_called. by destruct (Hev s Hin). }
  lia.
Qed.

Lemma gauges_count_operations_witness :
  ∃ st, run two_operations (init 3) = Some st
        ∧ queuedOperations st = 0%Z ∧ activeOperations st = 1%Z
        ∧ (0 ≤ queuedOperations st)%Z ∧ (0 ≤ activeOperations st)%Z.
Proof.
  eexists. split; [vm_compute; reflexivity|].
  split; [reflexivity|]. split; [reflexivity|].
  match goal with
  | |- (0 ≤ queuedOperations ?st)%Z ∧ _ =>
      pose proof (gauges_count_operations 3 two_operations st
                    ltac:(vm_compute; reflexivity)) as (_ & _ & _ & _ & H1 & H2)
  end.
  split; [exact H1|exact H2].
Defined.

(** ** Generations *)

Definition sound_generations (st : world) : Prop :=
  ∀ w wk, workers st !! w = Some wk → (1 ≤ generation wk)%nat.

(** [st'] comes after [st]: every worker is still there, under the same
    extensions path, and its generation is not lower; a new worker has a
    generation of at least 1; the operations submitted in between recorded a
    generation their worker has reached. *)
Definition ages (st st' : world) : Prop :=
  (∀ w wk, workers st !! w = Some wk →
     ∃ wk', workers st' !! w = Some wk' ∧ (generation wk ≤ generation wk')%nat
            ∧ extensionsPath wk' = extensionsPath wk)
  ∧ (∀ w wk', workers st' !! w = Some wk' → workers st !! w = None →
       (1 ≤ generation wk')%nat)
  ∧ ∃ evs, trace st' = trace st ++ evs
      ∧ ∀ w op fn g prev d c, EvSubmit w op fn g prev d c ∈ evs →
          ∃ wk', workers st' !! w = Some wk' ∧ (g ≤ generation wk')%nat
                 ∧ (sound_generations st → (1 ≤ g)%nat).

Lemma ages_sound st st' : ages st st' → sound_generations st → sound_generations st'.
Proof.
  intros (Hf & Hn & _) Hs w wk' Hw'. destruct (workers st !! w) as [wk|] eqn:Hw.
  - destruct (Hf _ _ Hw) as (wk'' & Hw'' & Hg & _).
    assert (wk'' = wk') as -> by congruence. pose proof (Hs _ _ Hw). lia.
  - by eapply Hn.
Qed.

Lemma ages_refl st : ages st st.
Proof.
  split; [by eauto|]. split; [intros w wk' Hw Hn; congruence|].
  exists []. rewrite app_nil_r. split; [done|].
  intros w op fn g prev d c Hin. by apply elem_of_nil in Hin.
Qed.

Lemma ages_trans st1 st2 st3 : ages st1 st2 → ages st2 st3 → ages st1 st3.
Proof.
  intros [H1 [N1 (e1 & Ht1 & Hs1)]] [H2 [N2 (e2 & Ht2 & Hs2)]]. split; [|split].
  - intros w wk Hw. destruct (H1 _ _ Hw) as (wk' & Hw' & Hg & He).
    destruct (H2 _ _ Hw') as (wk'' & Hw'' & Hg' & He').
    exists wk''. split; [done|]. split; [lia|congruence].
  - intros w wk3 Hw3 Hn1. destruct (workers st2 !! w) as [wk2|] eqn:Hw2.
    + pose proof (N1 _ _ Hw2 Hn1). destruct (H2 _ _ Hw2) as (wk' & Hw' & Hg & _).
      assert (wk' = wk3) as -> by congruence. lia.
    + by eapply N2.
  - exists (e1 ++ e2). split; [by rewrite Ht2, Ht1, app_assoc|].
    intros w op fn g prev d c Hin. apply elem_of_app in Hin as [Hin|Hin].
    + destruct (Hs1 _ _ _ _ _ _ _ Hin) as (wk' & Hw' & Hg & H1g).
      destruct (H2 _ _ Hw') as (wk'' & Hw'' & Hg' & _).
      exists wk''. split; [done|]. split; [lia|done].
    + destruct (Hs2 _ _ _ _ _ _ _ Hin) as (wk' & Hw' & Hg & H1g).
      exists wk'. split; [done|]. split; [done|]. intros Hs. apply H1g.
      eapply ages_sound; [|done]. split; [done|]. split; [done|]. by exists e1.
Qed.

(** A state that differs only outside the workers and the trace. *)
Lemma ages_same st st' : workers st' = workers st → trace st' = trace st → ages st st'.
Proof.
  intros Hw Ht. split; [rewrite Hw; by eauto|].
  split; [rewrite Hw; intros w wk' ? ?; congruence|].
  exists []. rewrite app_nil_r.
  split; [done|]. intros w op fn g prev d c Hin. by apply elem_of_nil in Hin.
Qed.

Lemma ages_emit ev st :
  (∀ w op fn g prev d c, ev ≠ EvSubmit w op fn g prev d c) → ages st (emit ev st).
Proof.
  intros Hns. split; [by eauto|]. split; [intros w wk' ? ?; simpl in *; congruence|].
  exists [ev]. split; [done|].
  intros w op fn g prev d c Hin. apply list_elem_of_singleton in Hin. by edestruct Hns.
Qed.

Lemma ages_set_worker w f st :
  (∀ wk, (generation wk ≤ generation (f wk))%nat ∧ extensionsPath (f wk) = extensionsPath wk) →
  ages st (set_worker w f st).
Proof.
  intros Hf. split; [|split].
  - intros w' wk Hw. simpl. destruct (decide (w' = w)) as [->|Hne].
    + exists (f wk). unfold wid in *. rewrite list_lookup_alter, decide_True, Hw by done.
      split; [done|]. apply Hf.
    + exists wk. unfold wid in *. rewrite list_lookup_alter_ne by done. done.
  - intros w' wk' Hw' Hn. simpl in Hw'. unfold wid in *.
    destruct (decide (w' = w)) as [->|Hne].
    + rewrite list_lookup_alter, decide_True, Hn in Hw' by done. discriminate Hw'.
    + rewrite list_lookup_alter_ne in Hw' by done. congruence.
  - exists []. simpl. rewrite app_nil_r. split; [done|].
    intros w' op fn g prev d c Hin. by apply elem_of_nil in Hin.
Qed.

Lemma ages_restart w st : ages st (restart w st).
Proof.
  unfold restart, resetExtensionState. simpl.
  eapply ages_trans; [|apply ages_set_worker; intros wk; simpl; split; [lia|done]].
  eapply ages_trans; [|apply ages_set_worker; intros wk; simpl; split; [lia|done]].
  by apply ages_same.
Qed.

Lemma ages_call_fn fn st : ages st (call_fn fn st).
Proof. destruct fn; simpl; [by apply ages_emit|apply ages_restart|apply ages_refl]. Qed.

Lemma ages_performOperation w fn st c st' :
  performOperation w fn st = Some (c, st') → ages st st'.
Proof.
  unfold performOperation. destruct (workers st !! w) as [wk|] eqn:Hw; [|done].
  cbn [mbind option_bind]. intros [= <- <-]. split; [|split].
  - intros w' wk' Hw'. simpl. unfold wid in *. destruct (decide (w' = w)) as [->|Hne].
    + rewrite list_lookup_alter, decide_True, Hw' by done. simpl.
      eexists. split; [done|]. simpl. split; [lia|done].
    + rewrite list_lookup_alter_ne by done. by eauto.
  - intros w' wk' Hw' Hn. simpl in Hw'. unfold wid in *.
    destruct (decide (w' = w)) as [->|Hne].
    + rewrite list_lookup_alter, decide_True, Hn in Hw' by done. discriminate Hw'.
    + rewrite list_lookup_alter_ne in Hw' by done. congruence.
  - eexists [_]. split; [done|]. intros w' op fn' g prev d c' Hin.
    apply list_elem_of_singleton in Hin. injection Hin as -> -> -> -> -> -> ->.
    simpl. unfold wid in *. rewrite list_lookup_alter, decide_True, Hw by done. simpl.
    eexists. split; [done|]. simpl. split; [lia|]. intros Hsound. by apply (Hsound w).
Qed.

Lemma ages_react r s st : ages st (react r s st).
Proof.
  destruct r; cbn [react].
  - destruct s; [| |by apply ages_same].
    + destruct (bool_decide _).
      * eapply ages_trans; [|by apply ages_same].
        eapply ages_trans; [|apply ages_call_fn].
        eapply ages_trans; [|by apply ages_emit]. by apply ages_same.
      * eapply ages_trans; [|by apply ages_same].
        eapply ages_trans; [|by apply ages_emit]. by apply ages_same.
    + destruct (bool_decide _).
      * eapply ages_trans; [|by apply ages_same].
        eapply ages_trans; [|apply ages_call_fn].
        eapply ages_trans; [|by apply ages_emit]. by apply ages_same.
      * eapply ages_trans; [|by apply ages_same].
        eapply ages_trans; [|by apply ages_emit]. by apply ages_same.
  - eapply ages_trans; [|by apply ages_same]. by apply ages_emit.
  - destruct s; [|destruct (instanceofError _)|];
      (eapply ages_trans; [|by apply ages_same]); by apply ages_emit.
  - destruct s; by apply ages_same.
  - destruct s; try apply ages_refl. destruct (_ =? _)%nat.
    + eapply ages_trans; [|by apply ages_same]. by apply ages_emit.
    + by apply ages_emit.
Qed.

Lemma ages_foldl_stop ws : ∀ st, ages st (foldl (λ st w, emit (EvStop w) st) st ws).
Proof.
  induction ws as [|w ws IH]; intros st; simpl; [apply ages_refl|].
  eapply ages_trans; [|apply IH]. by apply ages_emit.
Qed.

Lemma ages_release w st st' : release w st = Some st' → ages st st'.
Proof.
  unfold release. destruct (_ <? _)%nat.
  - destruct (performOperation w (FnRestart w) st) as [[c st1]|] eqn:Hp; [|done].
    simpl. intros [= <-]. eapply ages_trans; [by eapply ages_performOperation|].
    by apply ages_same.
  - destruct (performOperation w (FnStop w) st) as [[c st1]|] eqn:Hp; [|done].
    simpl. intros [= <-]. by eapply ages_performOperation.
Qed.

Lemma ages_resetExtensionState w st : ages st (resetExtensionState w st).
Proof.
  unfold resetExtensionState. simpl.
  eapply ages_trans; [|apply ages_set_worker; intros wk; simpl; split; [lia|done]].
  by apply ages_same.
Qed.

Lemma ages_add_worker wk st :
  (1 ≤ generation wk)%nat → ages st (set_workers (λ ws, ws ++ [wk]) st).
Proof.
  intros Hg. split; [|split]; simpl.
  - intros w wk0 Hw. exists wk0. split; [|done]. by apply lookup_app_l_Some.
  - intros w wk' Hw' Hn. apply lookup_ge_None in Hn.
    rewrite lookup_app_r in Hw' by done.
    destruct (w - length (workers st)) as [|k]; simpl in Hw'; [|done].
    by injection Hw' as <-.
  - exists []. rewrite app_nil_r. split; [done|].
    intros w op fn g prev d c Hin. by apply elem_of_nil in Hin.
Qed.

Lemma ages_acquire mustUsePool prov st : ages st (acquire mustUsePool prov st).2.
Proof.
  unfold acquire. destruct (last (pool st)); [by apply ages_same|].
  destruct mustUsePool; [apply ages_refl|]. destruct (oom st); [apply ages_refl|].
  destruct prov as [basePath|e]; [|apply ages_refl]. simpl.
  eapply ages_trans; [|by apply ages_emit].
  eapply ages_trans; [|apply ages_resetExtensionState].
  eapply ages_trans; [|apply ages_add_worker; simpl; lia].
  by apply ages_same.
Qed.

Lemma ages_step l st st' : step l st = Some st' → ages st st'.
Proof.
  destruct l; cbn [step].
  - destruct (performOperation w (FnUser tag) st) as [[c st1]|] eqn:Hp; [|done].
    simpl. intros [= <-]. by eapply ages_performOperation.
  - destruct (promises st !! p) as [pr|]; [|done]. cbn [mbind option_bind].
    destruct (p_state pr); [done| |]; (destruct (p_reactions pr); [done|]; intros [= <-];
      eapply ages_trans; [|apply ages_react]; by apply ages_same).
  - destruct (promises st !! p) as [pr|]; [|done]. cbn [mbind option_bind].
    destruct (_ && _); [|done]. intros [= <-]. by apply ages_same.
  - destruct (workers st !! w); [|done]. simpl. intros [= <-]. apply ages_restart.
  - intros [= <-]. apply ages_acquire.
  - apply ages_release.
  - intros [= <-]. unfold tick. destruct (belowThreshold _ _); [|by apply ages_same].
    unfold disposeBatch. destruct (splice _ _ _) as [rest gone]. simpl.
    eapply ages_trans; [|by apply ages_same].
    eapply ages_trans; [|apply ages_foldl_stop]. by apply ages_same.
  - unfold getOrCreateLease. destruct (leases st !! url); [intros [= <-]; apply ages_refl|].
    pose proof (ages_acquire mustUsePool prov st) as Ha.
    destruct (acquire mustUsePool prov st) as [[w|e] st1]; simpl in *;
      [|by intros [= <-]].
    destruct (workers st1 !! w); [|done]. simpl. intros [= <-].
    eapply ages_trans; [done|]. by apply ages_same.
  - unfold finalizeLease. destruct (workers st !! app l) as [wk|]; [|done]. simpl.
    destruct (release _ _) as [st1|] eqn:Hr; [|done]. simpl. intros [= <-].
    apply ages_release in Hr. eapply ages_trans; [|by apply ages_same].
    eapply ages_trans; [|done]. by apply ages_same.
Qed.

Lemma ages_run ls : ∀ st st', run ls st = Some st' → ages st st'.
Proof.
  induction ls as [|l ls IH]; simpl; intros st st'.
  - intros [= <-]. apply ages_refl.
  - destruct (step l st) as [st1|] eqn:Hs; [|done]. simpl. intros Hr.
    eapply ages_trans; [by eapply ages_step|by apply IH].
Qed.

(** X11. Along every run a worker keeps its extensions path and its
    generation never decreases; every generation is at least 1; and the
    generation an operation recorded at its submission is at least 1 and at
    most the generation its worker has now. *)
Theorem generations_only_grow m ls st ls' st' :
  run ls (init m) = Some st → run ls' st = Some st' →
  (∀ w wk, workers st !! w = Some wk →
     (1 ≤ generation wk)%nat
     ∧ ∃ wk', workers st' !! w = Some wk' ∧ (generation wk ≤ generation wk')%nat
              ∧ extensionsPath wk' = extensionsPath wk)
  ∧ (∀ w op fn g prev d c, EvSubmit w op fn g prev d c ∈ trace st →
       ∃ wk, workers st !! w = Some wk ∧ (1 ≤ g ≤ generation wk)%nat).
Proof.
  intros Hrun Hrun'.
  pose proof (ages_run _ _ _ Hrun) as Ha. pose proof (ages_run _ _ _ Hrun') as Ha'.
  assert (Hs0 : sound_generations (init m)) by (intros w wk Hw; done).
  pose proof (ages_sound _ _ Ha Hs0) as Hs.
  destruct Ha as (_ & _ & evs & Ht & Hsub). destruct Ha' as (Hf & _).
  split.
  - intros w wk Hw. split; [by apply (Hs w)|by apply Hf].
  - intros w op fn g prev d c Hin. simpl in Ht. rewrite Ht in Hin.
    destruct (Hsub _ _ _ _ _ _ _ Hin) as (wk & Hw & Hg & H1). exists wk.
    split; [done|]. split; [by apply H1|done].
Qed.

Lemma generations_only_grow_witness :
  ∃ st st', run stale_submission (init 3) = Some st
    ∧ run [LRestart 0] st = Some st'
    ∧ (generation <$> workers st !! 0) = Some 2
    ∧ (generation <$> workers st' !! 0) = Some 3
    ∧ ∀ w op fn g prev d c, EvSubmit w op fn g prev d c ∈ trace st →
        ∃ wk, workers st !! w = Some wk ∧ (1 ≤ g ≤ generation wk)%nat.
Proof.
  eexists _, _. split; [vm_compute; reflexivity|].
  split; [vm_compute; reflexivity|]. split; [reflexivity|]. split; [reflexivity|].
  match goal with
  | |- ∀ w op fn g prev d c, _ ∈ trace ?st → _ =>
      exact (proj2 (generations_only_grow 3 stale_submission st [LRestart 0] _
                      ltac:(vm_compute; reflexivity) ltac:(vm_compute; reflexivity)))
  end.
Defined.

End Core.

(* ===================================================================== *)
(** * fsproxy/src/client.ts: the keys typed into the editor              *)
(* ===================================================================== *)
Module Keys.

(** A text is the list of its characters, in the order [for (let char of
    text)] visits them; a key handed to the editor is a text of its own.
    Characters are 8-bit codes, which gives an ASCII text exactly: there a
    character is one code point, as the loop visits it. The loop treats every
    character other than the angle brackets and the letters of the special
    keys alike; what is stated of single characters is stated of ASCII texts
    ([ascii_text]). *)
Definition key := list ascii.
Definition chars (s : string) : list ascii := list_ascii_of_string s.

(** [static specialKeys = ['<Esc>', '<End>']] *)
Definition specialKeys : list key := [chars "<Esc>"; chars "<End>"].

(** [specialKeys.reduce((max, key) => Math.max(max, key.length), 0)] *)
Definition maxKeyLength : nat := foldl (λ m key, m `max` length key) 0 specialKeys.

(** [toUpperCase()] of one character. *)
Definition toUpperCase (c : ascii) : ascii :=
  let n := nat_of_ascii c in
  if ((97 <=? n) && (n <=? 122))%nat then ascii_of_nat (n - 32) else c.

(** The characters the [.] of a regular expression does not match. *)
Definition lineTerminator (c : ascii) : bool :=
  ((nat_of_ascii c =? 10) || (nat_of_ascii c =? 13))%nat.

Definition is_lt (c : ascii) : bool := bool_decide (c = "<"%char).
Definition is_gt (c : ascii) : bool := bool_decide (c = ">"%char).

(** [text.replace(/<(.)/, (match, p1) => '<' + p1.toUpperCase())]: the first
    [<] that is followed by a character, that character capitalized. *)
Fixpoint normalizeCase (s : list ascii) : list ascii :=
  match s with
  | c :: s' =>
      match s' with
      | d :: rest =>
          if is_lt c && negb (lineTerminator d) then c :: toUpperCase d :: rest
          else c :: normalizeCase s'
      | [] => s
      end
  | [] => []
  end.

(** [text.replace(pattern, replacement)] with a string pattern: only the
    first occurrence is replaced. *)
Fixpoint replaceFirst (pattern replacement s : list ascii) : list ascii :=
  if bool_decide (pattern `prefix_of` s) then replacement ++ drop (length pattern) s
  else match s with
       | [] => []
       | c :: s' => c :: replaceFirst pattern replacement s'
       end.

(** [typeKeys(keys)]: one key per character. *)
Definition typeKeys (keys : list ascii) : list key := map (λ c, [c]) keys.

(** One turn of the loop: the buffer and the keys typed so far. *)
Definition type_char (st : list ascii * list key) (char : ascii) : list ascii * list key :=
  let '(buffer, typed) := st in
  let '(buffer, typed) :=
    if is_lt char then ([], typed ++ typeKeys buffer) else (buffer, typed) in
  let buffer := buffer ++ [char] in
  if (maxKeyLength <? length buffer)%nat || negb (bool_decide (chars "<" `prefix_of` buffer))
  then ([], typed ++ typeKeys buffer)
  else if is_gt char then
    let normalized := normalizeCase buffer in
    if bool_decide (normalized ∈ specialKeys)
    then ([], typed ++ [normalized])
    else (buffer, typed)
  else (buffer, typed).

(** The loop and the flush after it, on the text as given. *)
Definition type_loop (st : list ascii * list key) (s : list ascii) : list key :=
  let '(buffer, typed) := foldl type_char st s in typed ++ typeKeys buffer.

Definition typeText (s : list ascii) : list key := type_loop ([], []) s.

(** [type(text, type)]: the keys the executor is called with, in order. *)
Definition type (s : list ascii) : list key :=
  typeText (replaceFirst (chars "<Enter>") (chars (String "010" "")) s).

(** The cases of the test suite of the extension. *)
Lemma type_test_cases :
  type (chars "foo<End>bar")
  = [chars "f"; chars "o"; chars "o"; chars "<End>"; chars "b"; chars "a"; chars "r"]
  ∧ type (chars "<a></a>") = typeKeys (chars "<a></a>")
  ∧ type (chars "<<a><a><><<End>a")
    = typeKeys (chars "<<a><a><><") ++ [chars "<End>"; chars "a"].
Proof. split; [|split]; vm_compute; reflexivity. Qed.

(** ** What is typed *)

Lemma typeKeys_app a b : typeKeys (a ++ b) = typeKeys a ++ typeKeys b.
Proof. apply map_app. Qed.

Lemma concat_typeKeys s : concat (typeKeys s) = s.
Proof. induction s as [|c s IH]; simpl; [done|by rewrite IH]. Qed.

(** The keys typed so far only grow. *)
Lemma type_char_typed buffer typed c :
  type_char (buffer, typed) c
  = ((type_char (buffer, []) c).1, typed ++ (type_char (buffer, []) c).2).
Proof.
  unfold type_char. destruct (is_lt c); simpl;
    repeat (match goal with |- context [if ?b then _ else _] => destruct b end; simpl);
    by rewrite ?app_nil_r, ?app_assoc.
Qed.

Lemma foldl_type_char_typed s : ∀ buffer typed,
  foldl type_char (buffer, typed) s
  = ((foldl type_char (buffer, []) s).1, typed ++ (foldl type_char (buffer, []) s).2).
Proof.
  induction s as [|c s IH]; intros buffer typed; cbn [foldl]; [by rewrite app_nil_r|].
  rewrite type_char_typed. destruct (type_char (buffer, []) c) as [b t]. simpl.
  rewrite (IH b (typed ++ t)), (IH b t). simpl. by rewrite app_assoc.
Qed.

Lemma type_loop_typed buffer typed s :
  type_loop (buffer, typed) s = typed ++ type_loop (buffer, []) s.
Proof.
  unfold type_loop. rewrite foldl_type_char_typed.
  destruct (foldl type_char (buffer, []) s) as [b t]. simpl. by rewrite app_assoc.
Qed.

Lemma type_loop_cons buffer typed c s :
  type_loop (buffer, typed) (c :: s) = type_loop (type_char (buffer, typed) c) s.
Proof. reflexivity. Qed.

(** An opening bracket flushes the buffer: what follows it is typed as if
    the text began there. *)
Lemma type_loop_lt buffer typed s :
  type_loop (buffer, typed) ("<"%char :: s)
  = typed ++ typeKeys buffer ++ typeText ("<"%char :: s).
Proof.
  unfold typeText. rewrite !type_loop_cons.
  change (type_char (buffer, typed) "<"%char) with (chars "<", typed ++ typeKeys buffer).
  change (type_char ([], []) "<"%char) with (chars "<", @nil key).
  by rewrite type_loop_typed, app_assoc.
Qed.

Lemma type_loop_app st a s :
  type_loop st (a ++ s) = type_loop (foldl type_char st a) s.
Proof. unfold type_loop. by rewrite foldl_app. Qed.

Lemma typeText_app_lt a s :
  typeText (a ++ "<"%char :: s) = typeText a ++ typeText ("<"%char :: s).
Proof.
  unfold typeText at 1. rewrite type_loop_app.
  unfold typeText at 1, type_loop at 2.
  destruct (foldl type_char ([], []) a) as [b t]. by rewrite type_loop_lt, app_assoc.
Qed.

Lemma toUpperCase_idemp c : toUpperCase (toUpperCase c) = toUpperCase c.
Proof. destruct c as [[] [] [] [] [] [] [] []]; reflexivity. Qed.

Lemma normalizeCase_upper s : map toUpperCase (normalizeCase s) = map toUpperCase s.
Proof.
  induction s as [|c s IH]; [done|]. cbn [normalizeCase]. destruct s as [|d rest]; [done|].
  destruct (is_lt c && negb (lineTerminator d)).
  - simpl. by rewrite toUpperCase_idemp.
  - cbn [map] in *. by rewrite IH.
Qed.

(** A key is one character or a special key. *)
Definition is_key (k : list ascii) : Prop := (∃ c, k = [c]) ∨ k ∈ specialKeys.

Lemma is_key_typeKeys s : Forall is_key (typeKeys s).
Proof. apply Forall_map, Forall_true. intros c. left. by exists c. Qed.

Lemma type_char_sound buffer c :
  Forall is_key (type_char (buffer, []) c).2
  ∧ map toUpperCase (concat (type_char (buffer, []) c).2 ++ (type_char (buffer, []) c).1)
    = map toUpperCase (buffer ++ [c]).
Proof.
  unfold type_char. destruct (is_lt c) eqn:Hlt; simpl.
  - apply bool_decide_eq_true_1 in Hlt as ->. simpl.
    rewrite ?app_nil_r, ?concat_typeKeys. split; [apply is_key_typeKeys|done].
  - repeat (match goal with |- context [if ?b then _ else _] => destruct b eqn:? end; simpl);
      rewrite ?app_nil_r, ?concat_typeKeys;
      (split; [auto using is_key_typeKeys|]); try done.
    + apply Forall_singleton. right. by eapply bool_decide_eq_true_1.
    + by rewrite normalizeCase_upper.
Qed.

Lemma type_loop_sound s : ∀ buffer,
  Forall is_key (type_loop (buffer, []) s)
  ∧ map toUpperCase (concat (type_loop (buffer, []) s)) = map toUpperCase (buffer ++ s).
Proof.
  induction s as [|c s IH]; intros buffer.
  - unfold type_loop. simpl. rewrite concat_typeKeys, app_nil_r.
    split; [apply is_key_typeKeys|done].
  - rewrite type_loop_cons. destruct (type_char_sound buffer c) as [Hk Hc].
    destruct (type_char (buffer, []) c) as [b t]. simpl in Hk, Hc.
    rewrite type_loop_typed. destruct (IH b) as [Hk' Hc']. split.
    + by apply Forall_app_2.
    + rewrite concat_app, map_app, Hc', <- map_app, app_assoc, map_app, Hc, <- map_app.
      by rewrite <- app_assoc.
Qed.

(** A text of ASCII characters. There a character of the text, a UTF-16 code
    unit and a byte are one and the same, and the loop [for (let char of
    text)] visits them one by one. *)
Definition ascii_text (s : list ascii) : Prop :=
  Forall (λ c, (nat_of_ascii c < 128)%nat) s.

(** ** Text without an opening bracket *)

Lemma type_loop_plain a : ∀ typed s,
  Forall (λ c, c ≠ "<"%char) a →
  type_loop ([], typed) (a ++ s) = typed ++ typeKeys a ++ typeText s.
Proof.
  induction a as [|c a IH]; intros typed s Ha.
  - simpl. by rewrite type_loop_typed.
  - apply Forall_cons in Ha as [Hc Ha]. rewrite <- app_comm_cons, type_loop_cons.
    assert (type_char ([], typed) c = ([], typed ++ [[c]])) as ->.
    { unfold type_char, is_lt. rewrite bool_decide_eq_false_2 by done. simpl.
      assert (bool_decide (["<"%char] `prefix_of` [c]) = false) as ->; [|done].
      apply bool_decide_eq_false_2. intros [k Hk]. simpl in Hk. congruence. }
    rewrite IH by done. simpl. by rewrite <- app_assoc.
Qed.

Lemma replaceFirst_plain pattern replacement a : ∀ s,
  Forall (λ c, c ≠ "<"%char) a → (∃ p, pattern = "<"%char :: p) →
  replaceFirst pattern replacement (a ++ s) = a ++ replaceFirst pattern replacement s.
Proof.
  intros s Ha [p ->]. induction a as [|c a IH]; [done|].
  apply Forall_cons in Ha as [Hc Ha]. simpl.
  rewrite bool_decide_eq_false_2; [by rewrite IH|].
  intros [k Hk]. simpl in Hk. congruence.
Qed.

(** X2. A text of ASCII characters with no opening bracket is typed
    character by character. *)
Theorem type_plain_text s :
  ascii_text s → Forall (λ c, c ≠ "<"%char) s → type s = typeKeys s.
Proof.
  intros _ Hs. unfold type.
  rewrite <- (app_nil_r s) at 1. rewrite replaceFirst_plain by (done || by eexists).
  change (replaceFirst _ _ []) with (@nil ascii). unfold typeText.
  rewrite type_loop_plain by done. by rewrite app_nil_r.
Qed.

Lemma type_plain_text_witness : type (chars "ggVG") = typeKeys (chars "ggVG").
Proof.
  apply type_plain_text; [repeat constructor|repeat constructor; discriminate].
Defined.

(** ** Special keys *)

(** The spellings the loop takes for a special key. *)
Definition spellings : list key :=
  [chars "<Esc>"; chars "<esc>"; chars "<End>"; chars "<end>"].

Lemma toUpperCase_E d : toUpperCase d = "E"%char → d = "E"%char ∨ d = "e"%char.
Proof.
  destruct d as [[] [] [] [] [] [] [] []]; intros H; vm_compute in H;
    first [discriminate H | by left | by right].
Qed.

Lemma normalizeCase_head c s : ∃ s', normalizeCase (c :: s) = c :: s'.
Proof.
  cbn [normalizeCase]. destruct s as [|d rest]; [by eexists|].
  destruct (is_lt c && negb (lineTerminator d)); by eexists.
Qed.

Lemma normalizeCase_cons c d rest :
  normalizeCase (c :: d :: rest)
  = if is_lt c && negb (lineTerminator d) then c :: toUpperCase d :: rest
    else c :: normalizeCase (d :: rest).
Proof. reflexivity. Qed.

Ltac in_list := repeat first [apply list_elem_of_here | apply list_elem_of_further].

Lemma normalizeCase_special k :
  normalizeCase k ∈ specialKeys ↔ k ∈ spellings.
Proof.
  split.
  - intros Hk. unfold specialKeys in Hk.
    destruct k as [|c1 [|d rest]].
    + apply elem_of_cons in Hk as [Hk|Hk]; [discriminate Hk|].
      apply list_elem_of_singleton in Hk. discriminate Hk.
    + apply elem_of_cons in Hk as [Hk|Hk]; [discriminate Hk|].
      apply list_elem_of_singleton in Hk. discriminate Hk.
    + rewrite normalizeCase_cons in Hk.
      destruct (is_lt c1 && negb (lineTerminator d)) eqn:E.
      * apply elem_of_cons in Hk as [Hk|Hk];
          [|apply list_elem_of_singleton in Hk];
          injection Hk as -> Hd ->;
          destruct (toUpperCase_E d Hd) as [-> | ->]; unfold spellings; in_list.
      * destruct (normalizeCase_head d rest) as [s' Hs']. rewrite Hs' in Hk.
        apply elem_of_cons in Hk as [Hk|Hk];
          [|apply list_elem_of_singleton in Hk];
          injection Hk as -> -> _; discriminate E.
  - unfold spellings. intros Hk. repeat (apply elem_of_cons in Hk as [-> |Hk]);
      [vm_compute; in_list..|by apply elem_of_nil in Hk].
Qed.

(** X3. A special key inside a text, in any of its spellings, is typed as one
    key, with its capital letter; what stands before it and what follows it
    are typed as they would be on their own. *)
Theorem type_special_key a k b :
  normalizeCase k ∈ specialKeys →
  typeText (a ++ k ++ b) = typeText a ++ [normalizeCase k] ++ typeText b.
Proof.
  intros Hk. apply normalizeCase_special in Hk. unfold spellings in Hk.
  assert (Hrun : foldl type_char ([], []) k = ([], [normalizeCase k])
                 ∧ ∃ k', k = "<"%char :: k').
  { repeat (apply elem_of_cons in Hk as [-> |Hk]);
      [split; [vm_compute; reflexivity|by eexists]..|by apply elem_of_nil in Hk]. }
  destruct Hrun as [Hrun [k' Hk']].
  rewrite Hk' at 1. rewrite <- app_comm_cons, typeText_app_lt.
  rewrite app_comm_cons, <- Hk'. f_equal.
  unfold typeText at 1. by rewrite type_loop_app, Hrun, type_loop_typed.
Qed.

Lemma type_special_key_witness :
  typeText (chars "a" ++ chars "<esc>" ++ chars ":w")
  = typeText (chars "a") ++ [chars "<Esc>"] ++ typeText (chars ":w").
Proof.
  apply (type_special_key (chars "a") (chars "<esc>") (chars ":w")).
  vm_compute. in_list.
Defined.

(** ** The Enter key *)

(** X4. Only the first [<Enter>] of a text is typed as a newline; an [<Enter>]
    the loop meets is typed as its seven characters. *)
Theorem type_enter_once a b :
  Forall (λ c, c ≠ "<"%char) a →
  type (a ++ chars "<Enter>" ++ b)
  = typeKeys a ++ [chars (String "010" "")] ++ typeText b
  ∧ typeText (chars "<Enter>" ++ b) = typeKeys (chars "<Enter>") ++ typeText b.
Proof.
  intros Ha. split.
  - unfold type. rewrite replaceFirst_plain by (done || by eexists).
    assert (replaceFirst (chars "<Enter>") (chars (String "010" "")) (chars "<Enter>" ++ b)
            = chars (String "010" "") ++ b) as ->.
    { change (chars "<Enter>" ++ b) with
        ("<"%char :: "E"%char :: "n"%char :: "t"%char :: "e"%char :: "r"%char :: ">"%char :: b).
      cbn [replaceFirst]. rewrite bool_decide_eq_true_2; [done|]. by exists b. }
    rewrite app_assoc. unfold typeText at 1. rewrite type_loop_plain.
    + by rewrite typeKeys_app, <- app_assoc.
    + apply Forall_app_2; [done|]. repeat constructor. discriminate.
  - unfold typeText at 1. rewrite type_loop_app.
    change (foldl type_char ([], []) (chars "<Enter>"))
      with (@nil ascii, typeKeys (chars "<Enter>")).
    by rewrite type_loop_typed.
Qed.

Lemma type_enter_once_witness :
  type (chars ":w" ++ chars "<Enter>" ++ chars "<Enter>")
  = typeKeys (chars ":w") ++ [chars (String "010" "")] ++ typeText (chars "<Enter>").
Proof.
  apply (type_enter_once (chars ":w") (chars "<Enter>")).
  repeat constructor; discriminate.
Defined.

(** ** The keys spell the text *)

(** The keys spell the text: read in order, every key is the next character
    of the text, or it is a special key and the text goes on with one of the
    spellings of that key. *)
Inductive spells : list key → list ascii → Prop :=
| spells_nil : spells [] []
| spells_char c keys s : spells keys s → spells ([c] :: keys) (c :: s)
| spells_special k keys s :
    k ∈ spellings → spells keys s → spells (normalizeCase k :: keys) (k ++ s).

Lemma spells_typeKeys a : ∀ keys s, spells keys s → spells (typeKeys a ++ keys) (a ++ s).
Proof. induction a as [|c a IH]; intros keys s H; [done|]. simpl. constructor. by apply IH. Qed.

Lemma spells_keys a : spells (typeKeys a) a.
Proof.
  pose proof (spells_typeKeys a [] [] spells_nil) as H. by rewrite !app_nil_r in H.
Qed.

Lemma spells_app keys1 s1 : ∀ keys2 s2,
  spells keys1 s1 → spells keys2 s2 → spells (keys1 ++ keys2) (s1 ++ s2).
Proof.
  intros keys2 s2 H1 H2. induction H1 as [|c keys s _ IH|k keys s Hk _ IH]; [done|..].
  - simpl. by constructor.
  - rewrite <- app_assoc. simpl. by constructor.
Qed.

(** One turn of the loop: the keys typed spell what left the buffer. *)
Lemma type_char_spells buffer c :
  ∃ x, spells (type_char (buffer, []) c).2 x
       ∧ buffer ++ [c] = x ++ (type_char (buffer, []) c).1.
Proof.
  unfold type_char. destruct (is_lt c) eqn:Hlt; simpl.
  - apply bool_decide_eq_true_1 in Hlt as ->. simpl. exists buffer. split; [|done].
    apply spells_keys.
  - repeat (match goal with |- context [if ?b then _ else _] => destruct b eqn:? end; simpl).
    + exists (buffer ++ [c]). rewrite app_nil_r. split; [|done]. apply spells_keys.
    + exists (buffer ++ [c]). rewrite app_nil_r. split; [|done].
      pose proof (spells_special (buffer ++ [c]) [] []) as H. rewrite app_nil_r in H.
      apply H; [|constructor].
      apply normalizeCase_special. by eapply bool_decide_eq_true_1.
    + exists []. split; [constructor|done].
    + exists []. split; [constructor|done].
Qed.

Lemma type_loop_spells s : ∀ buffer, spells (type_loop (buffer, []) s) (buffer ++ s).
Proof.
  induction s as [|c s IH]; intros buffer.
  - unfold type_loop. simpl. rewrite app_nil_r. apply spells_keys.
  - rewrite type_loop_cons. destruct (type_char_spells buffer c) as (x & Hx & Heq).
    destruct (type_char (buffer, []) c) as [b t]. simpl in Hx, Heq.
    rewrite type_loop_typed.
    replace (buffer ++ c :: s) with (x ++ b ++ s).
    + by apply spells_app.
    + rewrite app_assoc, <- Heq, <- app_assoc. done.
Qed.

(** X1. Typing a text of ASCII characters: every key typed is one character
    or one of the special keys, and the keys spell the text (after its first
    [<Enter>] became a newline): a key of one character is the next character
    of the text, and a special key stands where the text has one of the
    spellings of that key. *)
Theorem type_keys_spell_text s :
  ascii_text s →
  Forall is_key (type s)
  ∧ spells (type s) (replaceFirst (chars "<Enter>") (chars (String "010" "")) s).
Proof.
  intros _. split; [apply (type_loop_sound _ [])|apply (type_loop_spells _ [])].
Qed.

Lemma type_keys_spell_text_witness :
  spells [chars "a"; chars "<Esc>"; chars "b"] (chars "a<esc>b").
Proof.
  destruct (type_keys_spell_text (chars "a<esc>b")) as [_ H].
  - repeat constructor.
  - exact H.
Defined.

End Keys.

(* ===================================================================== *)
(** * server.ts: the read history of a lease and path normalization      *)
(* ===================================================================== *)
Module ReadHistory.

(** [array.slice(start)]: a negative [start] counts from the end, and both
    ends are clamped to the array. *)
Definition slice_from {A} (start : Z) (l : list A) : list A :=
  let len := Z.of_nat (length l) in
  let k := if (start <? 0)%Z then Z.max (len + start) 0 else Z.min start len in
  drop (Z.to_nat k) l.

(** [static historyLimit = 4] *)
Definition historyLimit : Z := 4.

(** [addToReadHistory(path)]: push, then
    [slice(this.readHistory.length - Lease.historyLimit)]. *)
Definition addToReadHistory (path : string) (readHistory : list string) : list string :=
  let readHistory := readHistory ++ [path] in
  slice_from (Z.of_nat (length readHistory) - historyLimit) readHistory.

(** The history of a new lease after the given reads, oldest first. *)
Definition history_after (paths : list string) : list string :=
  foldl (λ h path, addToReadHistory path h) [] paths.

(** [lease.readHistory.includes(filePath)], the freshness test of
    createDraft. *)
Definition includes (path : string) (readHistory : list string) : bool :=
  bool_decide (path ∈ readHistory).

(** What one call keeps: with fewer than three entries before it, all of them
    and the new one; with exactly two entries before it, the new one only
    (the start index is -1); with three or more, the last four. *)
Lemma addToReadHistory_keeps path h :
  addToReadHistory path h
  = if decide (length h = 2) then [path]
    else drop (length h + 1 - 4) (h ++ [path]).
Proof.
  unfold addToReadHistory, slice_from, historyLimit. rewrite length_app. simpl.
  destruct (decide (length h = 2)) as [E|E].
  - destruct h as [|a [|b [|c h]]]; try discriminate E. reflexivity.
  - destruct (Z.ltb_spec (Z.of_nat (length h + 1) - 4) 0).
    + assert (length h = 0 ∨ length h = 1) as [E'|E'] by lia; rewrite E'; reflexivity.
    + f_equal. lia.
Qed.

Lemma history_after_snoc paths path :
  history_after (paths ++ [path]) = addToReadHistory path (history_after paths).
Proof. unfold history_after. by rewrite foldl_app. Qed.

(** The history of a lease is its last read, and the one before it after an
    even number of reads. *)
Lemma history_after_spec paths :
  history_after paths
  = drop (length paths - (if Nat.even (length paths) then 2 else 1)) paths.
Proof.
  induction paths as [|path paths IH] using rev_ind; [done|].
  rewrite history_after_snoc, addToReadHistory_keeps, IH, length_app, length_drop.
  change (length [path]) with 1.
  replace (length paths + 1) with (S (length paths)) by lia.
  rewrite Nat.even_succ, <- Nat.negb_even.
  destruct (Nat.even (length paths)) eqn:Hev; cbn [negb].
  - destruct (decide (length paths = 0)) as [E0|E0].
    + destruct paths; [done|discriminate E0].
    + assert (2 ≤ length paths)%nat.
      { destruct (length paths) as [|[|n]]; [done|discriminate Hev|lia]. }
      rewrite decide_True by lia.
      replace (S (length paths) - 1) with (length paths) by lia.
      by rewrite drop_app_length.
  - assert (0 < length paths)%nat by (destruct (length paths); [discriminate Hev|lia]).
    rewrite decide_False by lia.
    replace (length paths - (length paths - 1) + 1 - 4) with 0 by lia.
    rewrite drop_0, drop_app_le by lia. f_equal; try f_equal; lia.
Qed.

(** X5. One call of [addToReadHistory], whatever the history before it: the
    path added is the last entry, the entries kept are the newest ones, never
    more than four; and when exactly two entries were there before, only the
    path added is kept. *)
Theorem addToReadHistory_newest path h :
  last (addToReadHistory path h) = Some path
  ∧ addToReadHistory path h `suffix_of` h ++ [path]
  ∧ (length (addToReadHistory path h) ≤ 4)%nat
  ∧ (length h = 2%nat → addToReadHistory path h = [path])
  ∧ (length h ≠ 2%nat → (length h < 4)%nat → addToReadHistory path h = h ++ [path]).
Proof.
  rewrite addToReadHistory_keeps. destruct (decide (length h = 2)) as [E|E].
  - split; [done|]. split; [by apply suffix_app_r|]. split; [simpl; lia|]. done.
  - split.
    + rewrite drop_app_le by lia. apply last_snoc.
    + split; [apply suffix_drop|]. split.
      * rewrite length_drop, length_app. simpl. lia.
      * split; [done|]. intros _ Hlt.
        replace (length h + 1 - 4) with 0 by lia. apply drop_0.
Qed.

(** X6. The history of a lease after any sequence of reads is the last path
    read, preceded by the one read before it exactly when the number of reads
    is even: it never holds more than two paths. *)
Theorem read_history_holds_two paths :
  history_after paths
  = drop (length paths - (if Nat.even (length paths) then 2 else 1)) paths
  ∧ (length (history_after paths) ≤ 2)%nat
  ∧ ∀ older p q r, paths = older ++ [p; q; r] → p ≠ q → p ≠ r →
      includes p (history_after paths) = false.
Proof.
  rewrite history_after_spec. split; [done|]. split.
  - rewrite length_drop. destruct (Nat.even (length paths)); lia.
  - intros older p q r -> Hq Hr. apply bool_decide_eq_false_2.
    rewrite length_app. change (length [p; q; r]) with 3.
    destruct (Nat.even (length older + 3)).
    + replace (older ++ [p; q; r]) with ((older ++ [p]) ++ [q; r])
        by (by rewrite <- app_assoc).
      rewrite drop_app_length'; [|rewrite length_app; simpl; lia].
      intros Hin. apply elem_of_cons in Hin as [->|Hin]; [done|].
      by apply list_elem_of_singleton in Hin.
    + replace (older ++ [p; q; r]) with ((older ++ [p; q]) ++ [r])
        by (by rewrite <- app_assoc).
      rewrite drop_app_length'; [|rewrite length_app; simpl; lia].
      intros Hin. by apply list_elem_of_singleton in Hin.
Qed.

End ReadHistory.

(* ===================================================================== *)
(** * server.ts and fsproxy/src/client.ts: the leading slash of a path   *)
(* ===================================================================== *)
Module Paths.

(** [/^[A-Za-z]:/] *)
Definition isLetter (c : ascii) : bool :=
  let n := nat_of_ascii c in
  (((65 <=? n) && (n <=? 90)) || ((97 <=? n) && (n <=? 122)))%nat.

Definition matchesDrive (path : string) : bool :=
  match path with
  | String c (String ":" _) => isLetter c
  | _ => false
  end.

Definition startsWithSlash (path : string) : bool :=
  match path with String "/" _ => true | _ => false end.

(** [Server.normalizePath(path)], and the same test on the path of every
    file command the extension receives: add a leading slash, unless it is a
    Windows path. *)
Definition normalizePath (path : string) : string :=
  if negb (startsWithSlash path) && negb (matchesDrive path)
  then "/" +:+ path else path.

(** X7. A normalized path begins with a slash or with a drive letter and a
    colon; a path that does so already is returned as it is, so normalizing
    twice (once in the server, once in the extension) is normalizing once. *)
Theorem normalizePath_idempotent path :
  (startsWithSlash (normalizePath path) || matchesDrive (normalizePath path) = true)
  ∧ (startsWithSlash path || matchesDrive path = true → normalizePath path = path)
  ∧ normalizePath (normalizePath path) = normalizePath path
  ∧ normalizePath "" = "/".
Proof.
  unfold normalizePath.
  destruct (startsWithSlash path) eqn:E1; destruct (matchesDrive path) eqn:E2; simpl;
    rewrite ?E1, ?E2; simpl; auto.
  split; [done|]. split; [discriminate|]. done.
Qed.

End Paths.

(* ===================================================================== *)
(** * fsproxy/src/client.ts: the message handler of the extension        *)
(* ===================================================================== *)
Module Extension.
Import Errors Filesystem.

(** What a call into the editor comes to: the value it returns (a byte array
    after its [toString()]), or an Error object it throws, given here as the
    JSON text [JSON.stringify] makes of it (an object, hence truthy once
    parsed). *)
Inductive api_result := Returns (v : value) | Throws (payload : string).

(** The commands that carry a path. *)
Definition fileCommands : list string :=
  ["stat"; "readDirectory"; "readFile"; "createDirectory"; "writeFile"; "openFile";
   "getDiagnostics"].

(** [JSON.stringify({ id, result })] and [JSON.stringify({ id, error })] as
    the server parses them. *)
Definition resultReply (id : string) (result : value) : response :=
  {| r_id := id; r_result := result; r_error := None |}.
Definition errorReply (id payload : string) : response :=
  {| r_id := id; r_result := VUndefined; r_error := Some (VPayload payload) |}.

(** [null] *)
Definition null : value := VPayload "null".

(** [Uri.from({ scheme: 'vsls', path: filePath })] makes the URI unless the
    path begins with two slashes: a URI without an authority is refused
    then, and the error is thrown before the [try]. *)
Definition uriPath (filePath : string) : bool := negb (String.prefix "//" filePath).

Section Handler.
(** The editor. [editor] is what the calls inside the [try] come to, for a
    command and a normalized path the URI is made of: [this._fs[command](uri)],
    [this._applyEdit(edit)] and [workspace.openTextDocument(uri)]. The other
    three are what the branches outside the [try] come to: the URI and the
    diagnostics of a file as the handler filters and maps them, [await
    this.type(params.text)], and the text of the active editor. *)
Variable editor : string → string → api_result.
Variable diagnostics : string → api_result.
Variable typing : api_result.
Variable editorText : api_result.

(** The ['message'] handler: the messages it sends back, in order, for a
    message whose [params.path] is a text [Uri.from] accepts ([uriPath]). A
    file command that throws inside the [try] sends the error, and the
    handler goes on to the send at its end; [openFile] assigns no result; an
    unknown command returns without a reply; and a throw in one of the
    branches outside the [try] ends the handler before its only send. *)
Definition onCommand (id command path : string) : list response :=
  if bool_decide (command ∈ fileCommands) then
    let filePath := Paths.normalizePath path in
    if bool_decide (command = "getDiagnostics") then
      match diagnostics filePath with
      | Returns v => [resultReply id v]
      | Throws _ => []
      end
    else
      match editor command filePath with
      | Returns v =>
          [resultReply id (if bool_decide (command = "openFile") then null else v)]
      | Throws payload => [errorReply id payload; resultReply id null]
      end
  else if bool_decide (command = "type") then
    match typing with
    | Returns _ => [resultReply id null]
    | Throws _ => []
    end
  else if bool_decide (command = "getEditorText") then
    match editorText with
    | Returns v => [resultReply id v]
    | Throws _ => []
    end
  else [].

(** What the branch of a command outside the [try] comes to, if the command
    has one. *)
Definition unguarded (command path : string) : option api_result :=
  if bool_decide (command = "getDiagnostics")
  then Some (diagnostics (Paths.normalizePath path))
  else if bool_decide (command = "type") then Some typing
  else if bool_decide (command = "getEditorText") then Some editorText
  else None.

(** The server's client fed the replies, oldest first. *)
Definition receive (replies : list response) (c : client) : client :=
  foldl (λ c resp, onMessage resp c) c replies.

(** The commands the methods of ExtensionClient send. *)
Definition clientCommands : list string :=
  ["stat"; "readDirectory"; "readFile"; "openFile"; "getDiagnostics"; "type";
   "getEditorText"; "createDirectory"; "writeFile"].


(** X14. Every command the methods of ExtensionClient send is one the
    extension knows. A file command other than [getDiagnostics], on a path
    the URI can be made of, is answered, first of all under the id of the
    call, whether the editor returns or throws. [getDiagnostics], [type] and
    [getEditorText] run outside the [try]: they are answered, once, when
    their branch returns, and not at all when it throws. A command the
    extension does not know gets no reply either. A call that gets no reply
    stays pending until its deadline. *)
Theorem commands_are_answered id command path :
  (command ∈ clientCommands →
     (command ∈ fileCommands ∧ command ≠ "getDiagnostics")
     ∨ is_Some (unguarded command path))
  ∧ (command ∈ fileCommands → command ≠ "getDiagnostics" →
       uriPath (Paths.normalizePath path) = true →
       ∃ resp replies, onCommand id command path = resp :: replies ∧ r_id resp = id
                       ∧ Forall (λ r, r_id r = id) replies)
  ∧ (∀ v, unguarded command path = Some (Returns v) →
       onCommand id command path
       = [resultReply id (if bool_decide (command = "type") then null else v)])
  ∧ (∀ payload, unguarded command path = Some (Throws payload) →
       onCommand id command path = []
       ∧ ∀ c, receive (onCommand id command path) c = c)
  ∧ (command ∉ clientCommands → onCommand id command path = []
       ∧ ∀ c, receive (onCommand id command path) c = c).
Proof.
  split; [|split; [|split; [|split]]].
  - intros Hc. unfold clientCommands in Hc. unfold unguarded, fileCommands.
    repeat (apply elem_of_cons in Hc as [-> |Hc]); try (by apply elem_of_nil in Hc);
      first [left; split; [by Keys.in_list|discriminate]
            |right; cbn [bool_decide decide_rel]; simpl; by eexists].
  - intros Hc Hd _. unfold onCommand.
    rewrite bool_decide_eq_true_2, (bool_decide_eq_false_2 (command = "getDiagnostics"))
      by done.
    destruct (editor _ _);
      eexists _, _; (split; [reflexivity|split; [done|repeat constructor]]).
  - intros v Hu. unfold unguarded in Hu. unfold onCommand.
    destruct (decide (command = "getDiagnostics")) as [->|Hd].
    + simpl in Hu. injection Hu as Hu. cbn [bool_decide decide_rel]. simpl. by rewrite Hu.
    + rewrite (bool_decide_eq_false_2 (command = "getDiagnostics")) in Hu |- * by done.
      destruct (decide (command = "type")) as [->|Ht].
      * simpl in Hu. injection Hu as Hu. cbn [bool_decide decide_rel]. simpl. by rewrite Hu.
      * rewrite (bool_decide_eq_false_2 (command = "type")) in Hu |- * by done.
        destruct (decide (command = "getEditorText")) as [->|He]; [|
          by rewrite (bool_decide_eq_false_2 (command = "getEditorText")) in Hu by done].
        simpl in Hu. injection Hu as Hu. cbn [bool_decide decide_rel]. simpl. by rewrite Hu.
  - intros payload Hu. unfold unguarded in Hu.
    assert (Hon : onCommand id command path = []); [|by rewrite Hon].
    unfold onCommand.
    destruct (decide (command = "getDiagnostics")) as [->|Hd].
    + simpl in Hu. injection Hu as Hu. cbn [bool_decide decide_rel]. simpl. by rewrite Hu.
    + rewrite (bool_decide_eq_false_2 (command = "getDiagnostics")) in Hu by done.
      destruct (decide (command = "type")) as [->|Ht].
      * simpl in Hu. injection Hu as Hu. cbn [bool_decide decide_rel]. simpl. by rewrite Hu.
      * rewrite (bool_decide_eq_false_2 (command = "type")) in Hu by done.
        destruct (decide (command = "getEditorText")) as [->|He]; [|
          by rewrite (bool_decide_eq_false_2 (command = "getEditorText")) in Hu by done].
        simpl in Hu. injection Hu as Hu. cbn [bool_decide decide_rel]. simpl. by rewrite Hu.
  - intros Hn. assert (Hon : onCommand id command path = []).
    { unfold onCommand, clientCommands, fileCommands in *.
      rewrite bool_decide_eq_false_2.
      - rewrite !bool_decide_eq_false_2; [done|..]; intros ->; apply Hn;
          repeat first [apply list_elem_of_here | apply list_elem_of_further].
      - intros Hin. apply Hn.
        repeat (apply elem_of_cons in Hin as [-> |Hin]);
          try (by apply elem_of_nil in Hin);
          repeat first [apply list_elem_of_here | apply list_elem_of_further]. }
    by rewrite Hon.
Qed.

End Handler.



End Extension.

(* ===================================================================== *)
(** * server.ts: MemoryStorage                                           *)
(* ===================================================================== *)
Module Storage.

(** An entry of [_data]: the value and [expiresAt], in milliseconds. The
    timer handle kept with it is never read. *)
Record entry := { value : string; expiresAt : Z }.

(** [`${user}:${key}`] *)
Definition namespacedKey (user key : string) : string := user +:+ ":" +:+ key.

(** [getUserValue({ user, key })]: no look at the clock. *)
Definition getUserValue (user key : string) (data : gmap string entry) : option string :=
  value <$> data !! namespacedKey user key.

(** [putUserValue({ user, key, body, ttl })] at the time [now] of
    [Date.now()]; [ttl] is in seconds. *)
Definition putUserValue (user key body : string) (ttl now : Z) (data : gmap string entry) : gmap string entry :=
  let ttlMillis := (ttl * 1000)%Z in
  <[namespacedKey user key := {| value := body; expiresAt := (now + ttlMillis)%Z |}]> data.

(** [deleteUserValue({ user, key })] *)
Definition deleteUserValue (user key : string) (data : gmap string entry) : gmap string entry :=
  delete (namespacedKey user key) data.

(** The callback of the timer that [putUserValue] set for [namespacedKey],
    run at the time [now]: a missing entry has no [expiresAt], and
    [undefined <= now] is false. *)
Definition onExpiry (namespacedKey' : string) (now : Z) (data : gmap string entry) : gmap string entry :=
  match data !! namespacedKey' with
  | Some e => if (expiresAt e <=? now)%Z then delete namespacedKey' data else data
  | None => data
  end.

(** What happens to the storage, each at its time. *)
Inductive event :=
| Put (user key body : string) (ttl : Z)
| Delete (user key : string)
| Expire (namespacedKey' : string).

Definition step (now : Z) (ev : event) (data : gmap string entry) : gmap string entry :=
  match ev with
  | Put user key body ttl => putUserValue user key body ttl now data
  | Delete user key => deleteUserValue user key data
  | Expire nk => onExpiry nk now data
  end.

Definition run (evs : list (Z * event)) (data : gmap string entry) : gmap string entry :=
  foldl (λ data '(now, ev), step now ev data) data evs.

(** An event that writes or deletes the slot of [user] and [key]. *)
Definition touches (user key : string) (ev : event) : bool :=
  match ev with
  | Put user' key' _ _ | Delete user' key' =>
      bool_decide (namespacedKey user' key' = namespacedKey user key)
  | Expire _ => false
  end.

(** A name without a colon. *)
Fixpoint no_colon (s : string) : bool :=
  match s with
  | EmptyString => true
  | String c s => negb (Ascii.eqb c ":") && no_colon s
  end.

Lemma namespacedKey_inj user key user' key' :
  no_colon user = true → no_colon user' = true →
  namespacedKey user key = namespacedKey user' key' → user = user' ∧ key = key'.
Proof.
  unfold namespacedKey. revert user'.
  induction user as [|c u IH]; intros [|c' u'] Hu Hu' Heq; cbn in *.
  - injection Heq as Heq. by subst.
  - injection Heq as Hc _. subst c'. by rewrite Ascii.eqb_refl in Hu'.
  - injection Heq as Hc _. subst c. by rewrite Ascii.eqb_refl in Hu.
  - injection Heq as Hc Heq. subst c'.
    apply andb_true_iff in Hu as [_ Hu]. apply andb_true_iff in Hu' as [_ Hu'].
    destruct (IH u' Hu Hu' Heq) as [-> ->]. done.
Qed.

(** X15. A value put is the value got back under the same user and key.
    Users whose names hold no colon are kept apart: a put under one user and
    key leaves what every other user and key reads. A colon in a user name
    breaks this: user [a:b] with key [c] writes the slot of user [a] with key
    [b:c]. *)
Theorem put_then_get user key body ttl now data :
  getUserValue user key (putUserValue user key body ttl now data) = Some body
  ∧ (∀ user' key', no_colon user = true → no_colon user' = true →
       (user', key') ≠ (user, key) →
       getUserValue user' key' (putUserValue user key body ttl now data)
       = getUserValue user' key' data)
  ∧ getUserValue "a" "b:c" (putUserValue "a:b" "c" body ttl now data) = Some body
  ∧ getUserValue user key (deleteUserValue user key (putUserValue user key body ttl now data))
    = None.
Proof.
  unfold getUserValue, putUserValue, deleteUserValue.
  split; [by rewrite lookup_insert_eq|]. split; [|split].
  - intros user' key' Hu Hu' Hne. rewrite lookup_insert_ne; [done|].
    intros Heq. destruct (namespacedKey_inj _ _ _ _ Hu Hu' Heq) as [-> ->]. done.
  - change (namespacedKey "a:b" "c") with (namespacedKey "a" "b:c").
    by rewrite lookup_insert_eq.
  - by rewrite lookup_delete_eq.
Qed.

Lemma run_snoc evs now ev data : run (evs ++ [(now, ev)]) data = step now ev (run evs data).
Proof. unfold run. by rewrite foldl_app. Qed.

(** X16. A value put at [t0] with a time to live stays readable under every
    sequence of puts and deletes of other slots and of timers of any slot
    firing before its expiry time, the timers of earlier puts of the same
    slot among them; its own timer, firing at the expiry time or later,
    removes it. *)
Theorem value_lives_until_expiry user key body ttl t0 data evs :
  Forall (λ '(now, ev), touches user key ev = false ∧ (now < t0 + ttl * 1000)%Z) evs →
  getUserValue user key (run evs (putUserValue user key body ttl t0 data)) = Some body
  ∧ ∀ now, (t0 + ttl * 1000 ≤ now)%Z →
      getUserValue user key
        (onExpiry (namespacedKey user key) now
           (run evs (putUserValue user key body ttl t0 data))) = None.
Proof.
  intros Hevs.
  assert (Hl : run evs (putUserValue user key body ttl t0 data) !! namespacedKey user key
               = Some {| value := body; expiresAt := (t0 + ttl * 1000)%Z |}).
  { induction evs as [|[now ev] evs IH] using rev_ind.
    - unfold run, putUserValue. simpl. by rewrite lookup_insert_eq.
    - apply Forall_app in Hevs as [Hevs Hev]. apply Forall_singleton in Hev as [Ht Hnow].
      rewrite run_snoc. specialize (IH Hevs).
      destruct ev as [u k b l|u k|nk]; simpl in *.
      + apply bool_decide_eq_false in Ht. unfold putUserValue.
        by rewrite lookup_insert_ne.
      + apply bool_decide_eq_false in Ht. unfold deleteUserValue.
        by rewrite lookup_delete_ne.
      + unfold onExpiry. destruct (run evs _ !! nk) as [e|] eqn:He; [|done].
        destruct (Z.leb_spec (expiresAt e) now); [|done].
        destruct (decide (nk = namespacedKey user key)) as [->|Hne].
        * rewrite IH in He. injection He as <-. simpl in *. lia.
        * by rewrite lookup_delete_ne. }
  unfold getUserValue. rewrite Hl. split; [done|].
  intros now Hnow. unfold onExpiry. rewrite Hl. simpl.
  destruct (Z.leb_spec (t0 + ttl * 1000) now); [|lia]. by rewrite lookup_delete_eq.
Qed.

Lemma value_lives_until_expiry_witness :
  getUserValue "u" "k"
    (run [(5%Z, Expire (namespacedKey "u" "k")); (6%Z, Put "v" "k" "other" 1);
          (7%Z, Delete "u" "j")]
         (putUserValue "u" "k" "fresh" 60 10 (putUserValue "u" "k" "stale" 0 0 ∅)))
  = Some "fresh".
Proof.
  apply (value_lives_until_expiry "u" "k" "fresh" 60 10).
  repeat constructor.
Defined.

End Storage.

(* ===================================================================== *)
(** * filesystem.ts: createIntermediateDirectories                       *)
(* ===================================================================== *)
Module Directories.
Import Errors Filesystem.

(** [path.split('/')] *)
Fixpoint split_slash (s : string) : list string :=
  match s with
  | EmptyString => [EmptyString]
  | String c r =>
      if Ascii.eqb c "/" then EmptyString :: split_slash r
      else match split_slash r with
           | h :: t => String c h :: t
           | [] => [String c EmptyString]
           end
  end.

Section Remote.
(** The far end of the channel: its state, the reply to a [stat] of a path
    and the reply to a [createDirectory] with the state it leaves. *)
Variable remote : Type.
Variable reply : remote → string → settlement.
Variable mkdir : string → remote → settlement * remote.

(** The loop over [pathComponents]: the path built so far, the remote, and
    the directories created, oldest first. The result is the error thrown, if
    any. An empty component is skipped; a [stat] that throws (after its search
    for suggestions) is followed by [createDirectory], whose error is thrown
    on. *)
Fixpoint create_loop (pathComponents : list string) (path : string) (r : remote)
    (created : list string) : option value * remote * list string :=
  match pathComponents with
  | [] => (None, r, created)
  | pathComponent :: rest =>
      if String.eqb pathComponent "" then create_loop rest path r created
      else
        let path := path +:+ "/" +:+ pathComponent in
        match stat (reply r) path with
        | inr _ => create_loop rest path r created
        | inl _ =>
            match mkdir path r with
            | (Resolved _, r') => create_loop rest path r' (created ++ [path])
            | (Rejected err, r') => (Some err, r', created)
            end
        end
  end.

(** [createIntermediateDirectories(uri)]: [pop()] drops the last component. *)
Definition createIntermediateDirectories (path : string) (r : remote)
    : option value * remote * list string :=
  create_loop (removelast (split_slash path)) "" r [].

(** The directories above a file, from the root down. *)
Fixpoint ancestors_from (pathComponents : list string) (path : string) : list string :=
  match pathComponents with
  | [] => []
  | pathComponent :: rest =>
      if String.eqb pathComponent "" then ancestors_from rest path
      else (path +:+ "/" +:+ pathComponent)
             :: ancestors_from rest (path +:+ "/" +:+ pathComponent)
  end.
Definition ancestors (path : string) : list string :=
  ancestors_from (removelast (split_slash path)) "".

Definition exists_on (r : remote) (path : string) : Prop :=
  ∃ v, reply r path = Resolved v.

Lemma stat_inr r path v : stat (reply r) path = inr v → exists_on r path.
Proof. unfold stat, exists_on. destruct (reply r path); [by eauto|done]. Qed.

Lemma stat_inl r path e : stat (reply r) path = inl e → ¬ exists_on r path.
Proof. unfold stat, exists_on. destruct (reply r path); [done|]. by intros _ [? ?]. Qed.

Lemma exists_on_stat r path : exists_on r path → ∃ v, stat (reply r) path = inr v.
Proof. intros [v Hv]. unfold stat. rewrite Hv. by eauto. Qed.

(** A remote on which a directory created exists from then on, and nothing
    that exists goes away when a directory is created. *)
Definition lawful : Prop :=
  ∀ path r v r', mkdir path r = (Resolved v, r') →
    exists_on r' path ∧ ∀ q, exists_on r q → exists_on r' q.

Lemma create_loop_spec pathComponents : ∀ path r created err r' created',
  create_loop pathComponents path r created = (err, r', created') →
  ∃ new, created' = created ++ new
         ∧ new `sublist_of` ancestors_from pathComponents path
         ∧ (lawful → err = None →
              (∀ q, exists_on r q → exists_on r' q)
              ∧ Forall (exists_on r') (ancestors_from pathComponents path)).
Proof.
  induction pathComponents as [|comp rest IH]; intros path r created err r' created'; simpl.
  - intros [= <- <- <-]. exists []. rewrite app_nil_r. split; [done|]. split; [done|].
    intros _ _. split; [done|constructor].
  - destruct (String.eqb comp ""); [apply IH|].
    destruct (stat (reply r) (path +:+ "/" +:+ comp)) as [e|v] eqn:Hs.
    + destruct (mkdir (path +:+ "/" +:+ comp) r) as [[v|e'] r1] eqn:Hm.
      * intros Hl. destruct (IH _ _ _ _ _ _ Hl) as (new & -> & Hsub & Hlaw).
        exists ((path +:+ "/" +:+ comp) :: new). split; [by rewrite <- app_assoc|].
        split; [by apply sublist_skip|]. intros Hlawful Herr.
        destruct (Hlaw Hlawful Herr) as [Hmono Hall].
        destruct (Hlawful _ _ _ _ Hm) as [Hnew Hkeep].
        split; [by auto|]. apply Forall_cons. split; [by auto|done].
      * intros [= <- <- <-]. exists []. rewrite app_nil_r. split; [done|].
        split; [apply sublist_nil_l|]. by intros _ [=].
    + intros Hl. destruct (IH _ _ _ _ _ _ Hl) as (new & -> & Hsub & Hlaw).
      exists new. split; [done|]. split; [by apply sublist_cons|].
      intros Hlawful Herr. destruct (Hlaw Hlawful Herr) as [Hmono Hall].
      split; [done|]. apply Forall_cons. split; [|done].
      apply Hmono. by eapply stat_inr.
Qed.

Lemma create_loop_nothing pathComponents : ∀ path r created,
  Forall (exists_on r) (ancestors_from pathComponents path) →
  create_loop pathComponents path r created = (None, r, created).
Proof.
  induction pathComponents as [|comp rest IH]; intros path r created; simpl; [done|].
  destruct (String.eqb comp ""); [apply IH|].
  intros Hall. apply Forall_cons in Hall as [Hex Hall].
  destruct (exists_on_stat _ _ Hex) as [v ->]. by apply IH.
Qed.

(** X17. [createIntermediateDirectories] creates only directories named by
    the components of the path before its last one, from the root down. On a
    remote where a directory created exists from then on and nothing goes
    away, a run that succeeded has left every such directory in place, and a
    second run creates nothing. *)
Theorem createIntermediateDirectories_once path r r' created :
  createIntermediateDirectories path r = (None, r', created) →
  created `sublist_of` ancestors path
  ∧ (lawful →
       Forall (exists_on r') (ancestors path)
       ∧ createIntermediateDirectories path r' = (None, r', [])).
Proof.
  unfold createIntermediateDirectories, ancestors. intros Hc.
  destruct (create_loop_spec _ _ _ _ _ _ _ Hc) as (new & Hnew & Hsub & Hlaw).
  simpl in Hnew. subst new. split; [done|]. intros Hlawful.
  destruct (Hlaw Hlawful eq_refl) as [_ Hall]. split; [done|].
  by apply create_loop_nothing.
Qed.

End Remote.

(** A remote that is the set of its directories. *)
Definition set_reply (r : gset string) (path : string) : settlement :=
  if bool_decide (path ∈ r) then Resolved (VPayload "FileStat") else Rejected (VPayload "{}").
Definition set_mkdir (path : string) (r : gset string) : settlement * gset string :=
  (Resolved VUndefined, {[path]} ∪ r).

Lemma set_lawful : lawful (gset string) set_reply set_mkdir.
Proof.
  intros path r v r' [= _ <-]. unfold exists_on, set_reply. split.
  - rewrite bool_decide_eq_true_2; [by eauto|]. set_solver.
  - intros q [v' Hq]. destruct (bool_decide (q ∈ r)) eqn:E; [|done].
    apply bool_decide_eq_true_1 in E. rewrite bool_decide_eq_true_2; [by eauto|]. set_solver.
Qed.

Lemma createIntermediateDirectories_once_witness :
  ancestors "/src//app/main.ts" = ["/src"; "/src/app"]
  ∧ createIntermediateDirectories (gset string) set_reply set_mkdir "/src//app/main.ts" {["/src"]}
    = (None, {["/src/app"]} ∪ {["/src"]}, ["/src/app"])
  ∧ createIntermediateDirectories (gset string) set_reply set_mkdir "/src//app/main.ts"
      ({["/src/app"]} ∪ {["/src"]})
    = (None, {["/src/app"]} ∪ {["/src"]}, []).
Proof.
  split; [reflexivity|].
  assert (H : createIntermediateDirectories (gset string) set_reply set_mkdir
                "/src//app/main.ts" {["/src"]}
              = (None, {["/src/app"]} ∪ {["/src"]}, ["/src/app"])) by (vm_compute; reflexivity).
  split; [exact H|].
  exact (proj2 (proj2 (createIntermediateDirectories_once (gset string) set_reply set_mkdir
                         _ _ _ _ H) set_lawful)).
Defined.

End Directories.

(* ===================================================================== *)
(** * errors.ts: what handleErrors answers                               *)
(* ===================================================================== *)
Module Responses.
Import Errors Core.

(** The catch block of [handleErrors] as far as the client and Sentry go:
    the status and message sent unless the headers went out already, and
    whether the error is reported ([sanitized.status >= 500]). *)
Definition respond (e : error) (headersSent : bool) : option (option N * string) * bool :=
  let sanitized := sanitizeError e in
  (if headersSent then None else Some (e_status sanitized, e_message sanitized),
   match e_status sanitized with Some s => (500 <=? s)%N | None => false end).

Definition unauthorizedError : error := SafeError (ArgsPositional "Unauthorized" (Some 401%N)).

(** The start of the try block, up to [getOrCreateLease]: the error thrown,
    or the user of the request. [verified] is what [verifyToken] came to for
    the token of the authorization header, if there is one. *)
Definition checkRequest (refuseRequests allowAnonymous : bool) (verified : option (error + string))
    : error + option string :=
  if refuseRequests then inl capacityError
  else
    match verified with
    | Some (inl e) => inl e
    | Some (inr uid) => inr (Some uid)
    | None => if allowAnonymous then inr None else inl unauthorizedError
    end.

(** X18. What the client is told about an error: a SafeError is answered
    with its own status and message; any other error with status 500 and a
    fixed message, never its own, and is reported. Sanitizing is idempotent,
    and the status of a SafeError made by the constructor is never absent or
    zero: a status of 0 is replaced by 400. *)
Theorem error_response e :
  e_safe (sanitizeError e) = true
  ∧ sanitizeError (sanitizeError e) = sanitizeError e
  ∧ (e_safe e = true →
       sanitizeError e = e ∧ (respond e false).1 = Some (e_status e, e_message e))
  ∧ (e_safe e = false →
       respond e false = (Some (Some 500%N, "Internal error, please try again later"), true)
       ∧ e_cause (sanitizeError e) = VError e
       ∧ e_recoverable (sanitizeError e) = Some (default false (e_recoverable e)))
  ∧ (∀ args, ∃ n, e_status (SafeError args) = Some n ∧ n ≠ 0%N
                  ∧ (∀ message, args = ArgsPositional message (Some 0%N) → n = 400%N))
  ∧ (respond e true).1 = None.
Proof.
  assert (Hstatus : ∀ args, ∃ n, e_status (SafeError args) = Some n ∧ n ≠ 0%N
                  ∧ (∀ message, args = ArgsPositional message (Some 0%N) → n = 400%N)).
  { intros [m [s|]|m [s|] r c sv]; simpl;
      try (destruct (N.eqb_spec s 0); simpl); eexists; (split; [done|]);
      (split; [done|]); try (intros m' [= _ ->]); done. }
  unfold respond, sanitizeError. destruct (e_safe e) eqn:Hs; simpl.
  - rewrite Hs. by repeat (split; [done|]).
  - by repeat (split; [done|]).
Qed.

(** X19. A request is refused with status 429 before its token is looked at
    when the service refuses requests; a request without a token is answered
    401 unless anonymous requests are allowed; an error of the token check is
    thrown as it is. In each case no lease was taken, and the catch block
    leaves the pool and the leases as they are, even for an error that is not
    recoverable. *)
Theorem admission_errors refuseRequests allowAnonymous verified e st :
  checkRequest refuseRequests allowAnonymous verified = inl e →
  handleErrors_catch e None st = Some st
  ∧ (refuseRequests = true →
       e = capacityError ∧ respond e false
       = (Some (Some 429%N, "The service is at capacity. Please try again later."), false))
  ∧ (refuseRequests = false → verified = None →
       allowAnonymous = false
       ∧ respond e false = (Some (Some 401%N, "Unauthorized"), false))
  ∧ (refuseRequests = false → ∀ r, verified = Some r → r = inl e).
Proof.
  intros Ha. split; [unfold handleErrors_catch; by destruct (notRecoverable e)|].
  unfold checkRequest in Ha. destruct refuseRequests.
  - injection Ha as <-. split; [done|]. split; [done|done].
  - split; [done|]. destruct verified as [[e'|uid]|]; try done.
    + injection Ha as <-. split; [done|]. by intros _ r [= <-].
    + destruct allowAnonymous; [done|]. injection Ha as <-. split; [done|]. done.
Qed.

Lemma admission_errors_witness :
  handleErrors_catch unauthorizedError None (init 3) = Some (init 3)
  ∧ respond unauthorizedError false = (Some (Some 401%N, "Unauthorized"), false).
Proof.
  destruct (admission_errors false false None unauthorizedError (init 3) eq_refl)
    as (H1 & _ & H2 & _).
  split; [exact H1|]. exact (proj2 (H2 eq_refl eq_refl)).
Defined.

End Responses.

(* ===================================================================== *)
(** * server.ts and the handlers: opening a file, drafts                 *)
(* ===================================================================== *)
Module Handlers.
Import Errors Core Responses.

(** [enum FileType] *)
Inductive fileType := Unknown | File | Directory | SymbolicLink.

Definition notAFileError (path : string) : error :=
  SafeError (ArgsOptions (Some (path +:+ " is not a file")) None None VUndefined (Some true)).

Definition failedToReadError (path : string) (cause : value) : error :=
  SafeError (ArgsOptions (Some ("Failed to read " +:+ path +:+ ". Check the path and try again."))
                         None None cause (Some true)).

(** [(await undefined).type] *)
Definition typeError : error :=
  plainError "Cannot read properties of undefined (reading 'type')".

(** The first statement of [Server.openFile(app, path)]: the error thrown, if
    any. [fsproxy] is what [app.fsproxy?.stat(uri)] came to, [None] when the
    application has no ExtensionClient. The error for something that is no
    file is thrown inside the [try] and so is caught and wrapped like any
    other. *)
Definition openFile_check (path : string) (fsproxy : option (value + fileType)) : option error :=
  match fsproxy with
  | None => Some (failedToReadError path (VError typeError))
  | Some (inl thrown) => Some (failedToReadError path thrown)
  | Some (inr File) => None
  | Some (inr _) => Some (failedToReadError path (VError (notAFileError path)))
  end.

(** X20. Whatever goes wrong when [openFile] checks the path (no client, a
    [stat] that throws anything at all, also a timeout, or a path that is no
    file), the error thrown is a SafeError of status 400 that is recoverable
    and sensitive, with the fixed message: the handler answers 400 and keeps
    the lease. The check passes only for a file. *)
Theorem openFile_keeps_lease path fsproxy :
  (openFile_check path fsproxy = None ↔ fsproxy = Some (inr File))
  ∧ ∀ e, openFile_check path fsproxy = Some e →
      e_safe e = true ∧ e_sensitive e = true ∧ notRecoverable e = false
      ∧ (∀ l st, handleErrors_catch e l st = Some st)
      ∧ respond e false
        = (Some (Some 400%N, "Failed to read " +:+ path +:+ ". Check the path and try again."),
           false).
Proof.
  split.
  - destruct fsproxy as [[thrown|[]]|]; simpl; split; intros; congruence.
  - intros e He.
    assert (∃ cause, e = failedToReadError path cause) as [cause ->].
    { destruct fsproxy as [[thrown|[]]|]; simpl in He; try done;
        injection He as <-; by eexists. }
    by repeat (split; [done|]).
Qed.

(** ** Drafts *)

(** [class Draft] *)
Record draft := {
  d_path : string;
  d_keystrokes : string;
  d_dependsOn : list string;
  d_hasProblem : bool
}.

Definition missingDraftError : error := SafeError (ArgsPositional "Missing draft ID" None).
Definition invalidDraftError : error := SafeError (ArgsPositional "Invalid draft ID" None).
Definition dependsError (draftID dependency : string) : error :=
  SafeError (ArgsPositional ("Draft " +:+ draftID +:+ " depends on draft " +:+ dependency
                               +:+ " which has not been applied") None).
Definition warningsError : error :=
  SafeError (ArgsPositional
    "Draft has warnings - use ignoreWarnings to ignore them if they are incorrect" None).

(** The edit handler from [if (!draftID)] on, for a draft id that is a string
    (the empty one is falsy): the error thrown, or the keystrokes typed and
    the drafts left when typing and saving went through. *)
Definition applyDraft (filePath draftID : string) (ignoreWarnings : bool)
    (drafts : gmap string draft) : error + (string * gmap string draft) :=
  if String.eqb draftID "" then inl missingDraftError
  else
    match drafts !! draftID with
    | Some d =>
        if String.eqb (d_path d) filePath then
          match List.find (λ dependency, bool_decide (is_Some (drafts !! dependency)))
                          (d_dependsOn d) with
          | Some dependency => inl (dependsError draftID dependency)
          | None =>
              if d_hasProblem d && negb ignoreWarnings then inl warningsError
              else inr (d_keystrokes d, delete draftID drafts)
          end
        else inl invalidDraftError
    | None => inl invalidDraftError
    end.

(** The end of createDraft: [draftID = (lease.drafts.size + 1).toString()],
    [lease.drafts.set(draftID, draft)]. *)
Definition addDraft (d : draft) (drafts : gmap string draft) : string * gmap string draft :=
  let draftID := pretty (S (size drafts)) in
  (draftID, <[draftID := d]> drafts).

Lemma find_none {A} (P : A → bool) l : List.find P l = None → Forall (λ x, P x = false) l.
Proof.
  induction l as [|x l IH]; simpl; [constructor|].
  destruct (P x) eqn:E; [done|]. intros H. constructor; [done|by apply IH].
Qed.

Lemma applyDraft_inr filePath draftID ignoreWarnings drafts keystrokes drafts' :
  applyDraft filePath draftID ignoreWarnings drafts = inr (keystrokes, drafts') →
  ∃ d, drafts !! draftID = Some d
       ∧ d_path d = filePath ∧ keystrokes = d_keystrokes d
       ∧ Forall (λ dependency, drafts !! dependency = None) (d_dependsOn d)
       ∧ (d_hasProblem d = true → ignoreWarnings = true)
       ∧ drafts' = delete draftID drafts
       ∧ draftID ≠ "".
Proof.
  unfold applyDraft. destruct (String.eqb_spec draftID "") as [->|Hne]; [done|].
  destruct (drafts !! draftID) as [d|] eqn:Hd; [|done].
  destruct (String.eqb_spec (d_path d) filePath) as [Hp|Hp]; [|done].
  destruct (List.find _ (d_dependsOn d)) as [dep|] eqn:Hf; [done|].
  apply find_none in Hf.
  destruct (d_hasProblem d && negb ignoreWarnings) eqn:Hw; [done|].
  intros [= <- <-]. exists d.
  split; [done|]. split; [done|]. split; [done|]. split.
  { eapply Forall_impl; [exact Hf|]. intros dep Hdep. simpl in Hdep.
    apply bool_decide_eq_false in Hdep. by apply eq_None_not_Some. }
  split; [|done]. intros Hpb. rewrite Hpb in Hw. by destruct ignoreWarnings.
Qed.

(** X21. A draft is applied only if it is pending under the id given, for
    the file given, with none of its dependencies pending, and free of
    warnings unless they are ignored; the keystrokes typed are its own, and
    it is removed, so that applying the same id again fails with
    [Invalid draft ID]. In particular a draft that lists itself or any pending
    draft among its dependencies is not applied. Every refusal is a
    recoverable SafeError. *)
Theorem draft_applied_once filePath draftID ignoreWarnings drafts :
  (∀ keystrokes drafts',
     applyDraft filePath draftID ignoreWarnings drafts = inr (keystrokes, drafts') →
     ∃ d, drafts !! draftID = Some d
          ∧ d_path d = filePath ∧ keystrokes = d_keystrokes d
          ∧ Forall (λ dependency, drafts !! dependency = None) (d_dependsOn d)
          ∧ (draftID ∉ d_dependsOn d)
          ∧ (d_hasProblem d = true → ignoreWarnings = true)
          ∧ drafts' = delete draftID drafts
          ∧ ∀ filePath' ignoreWarnings',
              applyDraft filePath' draftID ignoreWarnings' drafts' = inl invalidDraftError)
  ∧ (∀ e, applyDraft filePath draftID ignoreWarnings drafts = inl e →
       e_safe e = true ∧ notRecoverable e = false ∧ e_status e = Some 400%N).
Proof.
  split.
  - intros keystrokes drafts' Ha.
    destruct (applyDraft_inr _ _ _ _ _ _ Ha) as (d & Hd & Hp & Hk & Hdeps & Hw & -> & Hne).
    exists d. split; [done|]. split; [done|]. split; [done|]. split; [done|]. split.
    { intros Hin. rewrite Forall_forall in Hdeps. specialize (Hdeps _ Hin). congruence. }
    split; [done|]. split; [done|]. intros fp' iw'. unfold applyDraft.
    destruct (String.eqb_spec draftID "") as [?|_]; [done|]. by rewrite lookup_delete_eq.
  - intros e. unfold applyDraft. destruct (String.eqb draftID ""); [by intros [= <-]|].
    destruct (drafts !! draftID) as [d|]; [|by intros [= <-]].
    destruct (String.eqb (d_path d) filePath); [|by intros [= <-]].
    destruct (List.find _ (d_dependsOn d)) as [dep|]; [by intros [= <-]|].
    destruct (d_hasProblem d && negb ignoreWarnings); [by intros [= <-]|done].
Qed.

(** The drafts of a lease after the given drafts were made, none applied. *)
Definition drafts_after (ds : list draft) : gmap string draft :=
  foldl (λ drafts d, (addDraft d drafts).2) ∅ ds.

Lemma drafts_after_snoc ds d :
  drafts_after (ds ++ [d])
  = <[pretty (S (size (drafts_after ds))) := d]> (drafts_after ds).
Proof. unfold drafts_after. by rewrite foldl_app. Qed.

Lemma drafts_after_spec ds :
  size (drafts_after ds) = length ds
  ∧ ∀ i, drafts_after ds !! pretty (S i) = ds !! i.
Proof.
  induction ds as [|d ds [IHs IHl]] using rev_ind.
  - split; [done|]. intros i. apply lookup_empty.
  - rewrite drafts_after_snoc, IHs, length_app. simpl.
    assert (Hfresh : drafts_after ds !! pretty (S (length ds)) = None).
    { rewrite IHl. by apply lookup_ge_None. }
    split.
    + rewrite map_size_insert_None by done. rewrite IHs. lia.
    + intros i. destruct (decide (i = length ds)) as [->|Hne].
      * rewrite lookup_insert_eq. by rewrite lookup_app_r, Nat.sub_diag.
      * rewrite lookup_insert_ne by (intros H; apply (inj pretty) in H; lia).
        rewrite IHl. destruct (decide (i < length ds)%nat).
        -- by rewrite lookup_app_l.
        -- rewrite !lookup_ge_None_2; [done|rewrite length_app; simpl; lia|lia].
Qed.

(** X22. A new draft gets the id [size + 1] and takes the place of whatever
    the map holds under it. While no draft has been applied the ids are 1, 2,
    ... and nothing is replaced; once the first of two drafts has been
    applied, the next draft gets the id 2 and replaces the second draft, which
    is still pending. *)
Theorem draft_ids ds d :
  (addDraft d (drafts_after ds)).1 = pretty (S (length ds))
  ∧ drafts_after ds !! (addDraft d (drafts_after ds)).1 = None
  ∧ (∀ i, drafts_after ds !! pretty (S i) = ds !! i)
  ∧ ∀ d1 d2 keystrokes drafts',
      applyDraft (d_path d1) "1" true (drafts_after [d1; d2]) = inr (keystrokes, drafts') →
      (addDraft d drafts').1 = "2"
      ∧ drafts' !! "2" = Some d2
      ∧ (addDraft d drafts').2 !! "2" = Some d.
Proof.
  destruct (drafts_after_spec ds) as [Hs Hl]. unfold addDraft. simpl. rewrite Hs.
  split; [done|]. split; [rewrite Hl; by apply lookup_ge_None|]. split; [done|].
  intros d1 d2 keystrokes drafts' Ha.
  destruct (applyDraft_inr _ _ _ _ _ _ Ha) as (d0 & _ & _ & _ & _ & _ & -> & _).
  destruct (drafts_after_spec [d1; d2]) as [Hs2 Hl2].
  assert (E1 : pretty 1%nat = "1") by reflexivity.
  assert (E2 : pretty 2%nat = "2") by reflexivity.
  pose proof (Hl2 0%nat) as H0. pose proof (Hl2 1%nat) as H1. simpl in H0, H1.
  rewrite E1 in H0. rewrite E2 in H1.
  assert (Hsz : size (delete "1" (drafts_after [d1; d2])) = 1%nat).
  { rewrite map_size_delete_Some by (by eexists). by rewrite Hs2. }
  rewrite Hsz, E2. split; [done|]. split.
  - by rewrite lookup_delete_ne.
  - apply lookup_insert_eq.
Qed.

Definition demo_draft (keystrokes : string) : draft :=
  {| d_path := "/src/main.ts"; d_keystrokes := keystrokes; d_dependsOn := [];
     d_hasProblem := false |}.

Lemma draft_ids_witness :
  ∃ drafts', applyDraft "/src/main.ts" "1" true
               (drafts_after [demo_draft "ggOa<Esc>"; demo_draft "ggOb<Esc>"])
             = inr ("ggOa<Esc>", drafts')
    ∧ (addDraft (demo_draft "ggOc<Esc>") drafts').1 = "2"
    ∧ drafts' !! "2" = Some (demo_draft "ggOb<Esc>")
    ∧ (addDraft (demo_draft "ggOc<Esc>") drafts').2 !! "2" = Some (demo_draft "ggOc<Esc>").
Proof.
  eexists. split; [vm_compute; reflexivity|].
  apply (proj2 (proj2 (proj2 (draft_ids [] (demo_draft "ggOc<Esc>"))))
           (demo_draft "ggOa<Esc>") (demo_draft "ggOb<Esc>") "ggOa<Esc>").
  vm_compute. reflexivity.
Defined.

End Handlers.

(* ===================================================================== *)
(** * applicationPool.ts: reading /proc/meminfo                          *)
(* ===================================================================== *)
Module Meminfo.

(** [s.split(c)] for a separator of one character. *)
Fixpoint split_char (c : ascii) (s : string) : list string :=
  match s with
  | EmptyString => [EmptyString]
  | String a r =>
      if Ascii.eqb a c then EmptyString :: split_char c r
      else match split_char c r with
           | h :: t => String a h :: t
           | [] => [String a EmptyString]
           end
  end.

(** A text is given here by its UTF-16 code units, all of them below 256;
    the text of an ASCII file is its bytes. White space and line terminators
    among these code units: tab to carriage return, the space and the
    no-break space. *)
Definition isSpace (c : ascii) : bool :=
  let n := nat_of_ascii c in
  (((9 <=? n) && (n <=? 13)) || (n =? 32) || (n =? 160))%nat.

Fixpoint trimStart (s : string) : string :=
  match s with
  | String c r => if isSpace c then trimStart r else s
  | EmptyString => EmptyString
  end.

Fixpoint trimEnd (s : string) : string :=
  match s with
  | EmptyString => EmptyString
  | String c r =>
      match trimEnd r with
      | EmptyString => if isSpace c then EmptyString else String c EmptyString
      | r' => String c r'
      end
  end.

(** [s.trim()] *)
Definition trim (s : string) : string := trimEnd (trimStart s).

Definition digit (c : ascii) : option N :=
  let n := N_of_ascii c in
  if ((48 <=? n) && (n <=? 57))%N then Some (n - 48)%N else None.

(** The number spelled by the digits a string begins with. *)
Fixpoint digits (acc : N) (s : string) : N :=
  match s with
  | String c r => match digit c with Some d => digits (acc * 10 + d) r | None => acc end
  | EmptyString => acc
  end.

(** A number as [parseInt] gives it: NaN; an integer of at most 2^53 in
    absolute value, which the double holds exactly; minus zero; or the double
    the engine makes of an integer beyond 2^53, which need not be that
    integer. *)
Inductive number :=
| NaN
| Exact (z : Z)
| MinusZero
| Rounded (z : Z).

(** The double of the integer spelled by a sign and digits. *)
Definition toNumber (negative : bool) (n : N) : number :=
  if (n =? 0)%N then (if negative then MinusZero else Exact 0)
  else let z := (if negative then - Z.of_N n else Z.of_N n)%Z in
       if (n <=? 2 ^ 53)%N then Exact z else Rounded z.

(** [parseInt(s, 10)]: leading white space and a sign are passed over, the
    digits that follow are read, up to the first character that is none;
    without a digit the result is NaN. *)
Definition parseInt (s : string) : number :=
  let s := trimStart s in
  let '(negative, s) :=
    match s with
    | String "-" r => (true, r)
    | String "+" r => (false, r)
    | _ => (false, s)
    end in
  match s with
  | String c _ =>
      match digit c with
      | Some _ => toNumber negative (digits 0 s)
      | None => NaN
      end
  | EmptyString => NaN
  end.

(** The body of the loop of [_readMeminfo] for one line:
    [const [key, value] = line.split(':')], and the assignment if [value] is
    there and not empty. [result] is a plain object, given here by its own
    properties: assigning a number to [__proto__] calls the setter of
    [Object.prototype], which ignores a value that is no object, so nothing
    is stored; every other name becomes an own property. *)
Definition readLine (result : gmap string number) (line : string) : gmap string number :=
  match split_char ":" line with
  | key :: value :: _ =>
      if String.eqb value "" then result
      else
        let number := parseInt (hd "" (split_char " " (trim value))) in
        if String.eqb (trim key) "__proto__" then result
        else <[trim key := number]> result
  | _ => result
  end.

(** [_readMeminfo()] on the text of the file: the own properties of
    [memInfo]. *)
Definition readMeminfo (data : string) : gmap string number :=
  foldl readLine ∅ (split_char "010" data).

(** ** Decimal numbers *)

Lemma digit_pretty_N_char d : (d < 10)%N → digit (pretty_N_char d) = Some d.
Proof.
  intros Hd. destruct d as [|p]; [done|].
  do 4 (destruct p as [p|p|]; try done; try lia).
Qed.

Lemma digits_pretty_N_go x : ∀ s, digits 0 (pretty_N_go x s) = digits x s.
Proof.
  induction (N.lt_wf_0 x) as [x _ IH]. intros s.
  destruct (decide (x = 0%N)) as [->|Hx]; [by rewrite pretty_N_go_0|].
  rewrite pretty_N_go_step by lia. rewrite IH by (apply N.div_lt; lia).
  simpl. rewrite digit_pretty_N_char by (apply N.mod_lt; lia).
  f_equal. pose proof (N.div_mod x 10). lia.
Qed.

(** A string none of whose characters is [c]. *)
Fixpoint without (c : ascii) (s : string) : bool :=
  match s with
  | EmptyString => true
  | String a r => negb (Ascii.eqb a c) && without c r
  end.

Definition isDigit (c : ascii) : bool := bool_decide (is_Some (digit c)).

Fixpoint all_digits (s : string) : bool :=
  match s with
  | EmptyString => true
  | String a r => isDigit a && all_digits r
  end.

Lemma all_digits_pretty_N_go x : ∀ s, all_digits s = true → all_digits (pretty_N_go x s) = true.
Proof.
  induction (N.lt_wf_0 x) as [x _ IH]. intros s Hs.
  destruct (decide (x = 0%N)) as [->|Hx]; [by rewrite pretty_N_go_0|].
  rewrite pretty_N_go_step by lia. apply IH; [apply N.div_lt; lia|].
  simpl. rewrite Hs, andb_true_r. unfold isDigit.
  rewrite digit_pretty_N_char by (apply N.mod_lt; lia). done.
Qed.

Lemma pretty_N_go_nonempty x s : (0 < x)%N → pretty_N_go x s ≠ "".
Proof.
  revert s. induction (N.lt_wf_0 x) as [x _ IH]. intros s Hx.
  rewrite pretty_N_go_step by lia.
  destruct (decide (x `div` 10 = 0)%N) as [->|Hd]; [by rewrite pretty_N_go_0|].
  pose proof (N.div_lt x 10 ltac:(lia) ltac:(lia)) as Hlt.
  apply IH; [exact Hlt|]. apply N.neq_0_lt_0. exact Hd.
Qed.

Lemma pretty_N_spec (n : N) :
  digits 0 (pretty n) = n ∧ all_digits (pretty n) = true ∧ pretty n ≠ "".
Proof.
  unfold pretty, pretty_N. destruct (decide (n = 0%N)) as [->|Hn]; [done|].
  split; [by rewrite digits_pretty_N_go|].
  split; [by apply all_digits_pretty_N_go|apply pretty_N_go_nonempty; lia].
Qed.

Lemma all_digits_without c s : isDigit c = false → all_digits s = true → without c s = true.
Proof.
  intros Hc. induction s as [|a r IH]; simpl; [done|].
  intros Ha. apply andb_true_iff in Ha as [Ha Hr]. rewrite IH by done.
  rewrite andb_true_r. destruct (Ascii.eqb_spec a c) as [->|]; [congruence|done].
Qed.

(** ** Strings *)

Lemma without_app c s1 s2 : without c (s1 +:+ s2) = without c s1 && without c s2.
Proof. induction s1 as [|a r IH]; simpl; [done|]. by rewrite IH, andb_assoc. Qed.

Lemma split_char_without c s : without c s = true → split_char c s = [s].
Proof.
  induction s as [|a r IH]; simpl; [done|]. intros H.
  apply andb_true_iff in H as [Ha Hr]. apply negb_true_iff in Ha. rewrite Ha.
  by rewrite IH.
Qed.

Lemma split_char_app c s1 s2 :
  without c s1 = true → split_char c (s1 +:+ String c s2) = s1 :: split_char c s2.
Proof.
  induction s1 as [|a r IH]; simpl.
  - intros _. by rewrite Ascii.eqb_refl.
  - intros H. apply andb_true_iff in H as [Ha Hr]. apply negb_true_iff in Ha.
    rewrite Ha. by rewrite IH.
Qed.

(** [k] spaces. *)
Fixpoint spaces (k : nat) : string :=
  match k with O => EmptyString | S k => String " " (spaces k) end.

Lemma trimStart_spaces k s : trimStart (spaces k +:+ s) = trimStart s.
Proof. induction k as [|k IH]; simpl; [done|]. by rewrite IH. Qed.

Lemma trimEnd_keeps s c : isSpace c = false → trimEnd (s +:+ String c "") = s +:+ String c "".
Proof.
  intros Hc. induction s as [|a r IH]; simpl; [by rewrite Hc|].
  rewrite IH. by destruct r.
Qed.

Lemma without_spaces c k : c ≠ " "%char → without c (spaces k) = true.
Proof.
  intros Hc. induction k as [|k IH]; cbn [spaces without]; [done|].
  rewrite IH, andb_true_r. apply negb_true_iff.
  destruct (Ascii.eqb_spec " " c) as [E|E]; [by destruct Hc|done].
Qed.

(** ** A well-formed file *)

(** A line of /proc/meminfo: the key, a colon, padding, the number, [kB]. *)
Definition meminfoLine (key : string) (pad : nat) (n : N) : string :=
  key +:+ ":" +:+ spaces pad +:+ pretty n +:+ " kB".

(** The file: every line ends with a newline. *)
Definition meminfoText (entries : list (string * nat * N)) : string :=
  foldr (λ '(key, pad, n) rest, meminfoLine key pad n +:+ String "010" rest) "" entries.

Fixpoint all_ascii (s : string) : bool :=
  match s with
  | EmptyString => true
  | String a r => (nat_of_ascii a <? 128)%nat && all_ascii r
  end.

(** A key of ASCII characters, without colon or newline and without white
    space around it, that is not [__proto__]. *)
Definition clean (key : string) : Prop :=
  without ":" key = true ∧ without "010" key = true ∧ trim key = key
  ∧ all_ascii key = true ∧ key ≠ "__proto__".

Lemma pretty_N_head (n : N) : ∃ c r, pretty n = String c r ∧ isDigit c = true.
Proof.
  destruct (pretty_N_spec n) as (_ & Hd & Hne).
  destruct (pretty n) as [|c r]; [done|]. simpl in Hd.
  apply andb_true_iff in Hd as [Hc _]. by exists c, r.
Qed.

Lemma isDigit_not_space c : isDigit c = true → isSpace c = false.
Proof. destruct c as [[] [] [] [] [] [] [] []]; by vm_compute. Qed.

Lemma append_kB s : s +:+ " kB" = (s +:+ " k") +:+ String "B" "".
Proof.
  induction s as [|a s IH]; [done|].
  change (String a (s +:+ " kB") = String a ((s +:+ " k") +:+ String "B" "")).
  f_equal. exact IH.
Qed.

Lemma trimStart_nonspace c r : isSpace c = false → trimStart (String c r) = String c r.
Proof. intros H. cbn [trimStart]. by rewrite H. Qed.

Lemma parseInt_pretty (n : N) : (n ≤ 2 ^ 53)%N → parseInt (pretty n) = Exact (Z.of_N n).
Proof.
  intros Hle. destruct (pretty_N_spec n) as (Hn & _ & _).
  destruct (pretty_N_head n) as (c & r & Hp & Hc). unfold parseInt.
  rewrite Hp in *. rewrite trimStart_nonspace by (by apply isDigit_not_space).
  assert (Hsign : c ≠ "-"%char ∧ c ≠ "+"%char) by (split; intros ->; by vm_compute in Hc).
  destruct Hsign as [Hm Hpl].
  assert (Hd : ∃ d, digit c = Some d).
  { unfold isDigit in Hc. apply bool_decide_eq_true_1 in Hc. by destruct Hc as [d ?]; eauto. }
  destruct Hd as [d Hd].
  assert (match String c r with
          | String "-" r0 => (true, r0) | String "+" r0 => (false, r0) | _ => (false, String c r)
          end = (false, String c r)) as ->.
  { destruct c as [[] [] [] [] [] [] [] []]; try done; by destruct Hm || by destruct Hpl. }
  rewrite Hd, Hn. unfold toNumber.
  destruct (n =? 0)%N eqn:E0; [by apply N.eqb_eq in E0 as ->|].
  by rewrite (proj2 (N.leb_le _ _) Hle).
Qed.

(** The value of a line is its number, whatever the key. *)
Lemma meminfoLine_split key pad n :
  without ":" key = true →
  ∃ value, split_char ":" (meminfoLine key pad n) = [key; value]
           ∧ String.eqb value "" = false
           ∧ hd "" (split_char " " (trim value)) = pretty n.
Proof.
  intros Hc. unfold meminfoLine.
  destruct (pretty_N_spec n) as (_ & Hd & _).
  destruct (pretty_N_head n) as (c & r & Hp & Hdc).
  assert (Hrest : without ":" (spaces pad +:+ pretty n +:+ " kB") = true).
  { rewrite !without_app, without_spaces by done.
    rewrite (all_digits_without ":" (pretty n)) by done. done. }
  change (key +:+ ":" +:+ spaces pad +:+ pretty n +:+ " kB")
    with (key +:+ String ":" (spaces pad +:+ pretty n +:+ " kB")).
  rewrite split_char_app, split_char_without by done.
  eexists. split; [reflexivity|]. split.
  { destruct pad; simpl; [|done]. by rewrite Hp. }
  assert (Htrim : trim (spaces pad +:+ pretty n +:+ " kB") = pretty n +:+ " kB").
  { unfold trim. rewrite trimStart_spaces.
    assert (trimStart (pretty n +:+ " kB") = pretty n +:+ " kB") as ->.
    { rewrite Hp. change (String c r +:+ " kB") with (String c (r +:+ " kB")).
      apply trimStart_nonspace. by apply isDigit_not_space. }
    rewrite append_kB. by apply trimEnd_keeps. }
  rewrite Htrim.
  change (pretty n +:+ " kB") with (pretty n +:+ String " " "kB").
  by rewrite split_char_app by (by apply all_digits_without).
Qed.

Lemma readLine_meminfoLine result key pad n :
  clean key → (n ≤ 2 ^ 53)%N →
  readLine result (meminfoLine key pad n) = <[key := Exact (Z.of_N n)]> result.
Proof.
  intros (Hc & _ & Ht & _ & Hp) Hn. unfold readLine.
  destruct (meminfoLine_split key pad n Hc) as (value & -> & -> & ->).
  rewrite Ht. rewrite (proj2 (String.eqb_neq _ _) Hp). by rewrite parseInt_pretty.
Qed.

Lemma readLine_proto result pad n :
  readLine result (meminfoLine "__proto__" pad n) = result.
Proof.
  unfold readLine.
  destruct (meminfoLine_split "__proto__" pad n eq_refl) as (value & -> & -> & _).
  reflexivity.
Qed.

Lemma without_meminfoLine key pad n :
  without "010" key = true → without "010" (meminfoLine key pad n) = true.
Proof.
  intros Hc. destruct (pretty_N_spec n) as (_ & Hd & _). unfold meminfoLine.
  rewrite !without_app, Hc.
  rewrite without_spaces by (intros E; discriminate E).
  rewrite (all_digits_without "010" (pretty n)) by done. reflexivity.
Qed.

(** An entry the theorem speaks of: a clean key and a number the double
    holds exactly. *)
Definition wellformed (e : string * nat * N) : Prop := clean e.1.1 ∧ (e.2 ≤ 2 ^ 53)%N.

Lemma readMeminfo_text entries : ∀ result,
  Forall wellformed entries →
  foldl readLine result (split_char "010" (meminfoText entries))
  = foldl (λ result '(key, pad, n), <[key := Exact (Z.of_N n)]> result) result entries.
Proof.
  induction entries as [|[[key pad] n] entries IH]; intros result Hall; [done|].
  apply Forall_cons in Hall as [[Hk Hn] Hall]. simpl in Hk, Hn. cbn [meminfoText foldr].
  rewrite split_char_app by (apply without_meminfoLine, Hk).
  cbn [foldl]. rewrite readLine_meminfoLine by done. by apply IH.
Qed.

Lemma foldl_insert_lookup (entries : list (string * nat * N)) :
  ∀ (result : gmap string number) k,
  k ∉ entries.*1.*1 →
  foldl (λ result '(key, pad, n), <[key := Exact (Z.of_N n)]> result) result entries !! k
  = result !! k.
Proof.
  induction entries as [|[[key pad] n] entries IH]; intros result k Hk; [done|].
  simpl in *. apply not_elem_of_cons in Hk as [Hne Hk].
  rewrite IH by done. by rewrite lookup_insert_ne.
Qed.

(** X23. On a well-formed /proc/meminfo (lines of a key, a colon, any
    padding, a decimal number of at most 2^53 and [kB], each ended by a
    newline; the keys of ASCII characters, without colon, newline or white
    space around them, and none of them [__proto__]) the object
    [_readMeminfo] builds has, for every key, an own property holding the
    number of the last line with that key, and no own property for a key that
    is not there. A line without a colon is passed over, and so is a line
    whose key is [__proto__]. *)
Theorem readMeminfo_wellformed entries :
  Forall wellformed entries →
  (∀ before key pad n after,
     entries = before ++ (key, pad, n) :: after → key ∉ after.*1.*1 →
     readMeminfo (meminfoText entries) !! key = Some (Exact (Z.of_N n)))
  ∧ (∀ key, key ∉ entries.*1.*1 → readMeminfo (meminfoText entries) !! key = None)
  ∧ (∀ result line, without ":" line = true → readLine result line = result)
  ∧ (∀ result pad n, readLine result (meminfoLine "__proto__" pad n) = result).
Proof.
  intros Hall. unfold readMeminfo. rewrite readMeminfo_text by done.
  split; [|split; [|split]].
  - intros before key pad n after -> Hk. rewrite foldl_app. cbn [foldl].
    rewrite foldl_insert_lookup by done. apply lookup_insert_eq.
  - intros key Hk. rewrite foldl_insert_lookup by done. apply lookup_empty.
  - intros result line Hl. unfold readLine. by rewrite split_char_without.
  - apply readLine_proto.
Qed.

Lemma readMeminfo_wellformed_witness :
  readMeminfo (meminfoText [("MemTotal", 7%nat, 16384256%N); ("MemFree", 9%nat, 203184%N)])
    !! "MemFree" = Some (Exact 203184%Z)
  ∧ meminfoText [("MemTotal", 7%nat, 16384256%N); ("MemFree", 9%nat, 203184%N)]
    = "MemTotal:       16384256 kB" +:+ String "010" ("MemFree:         203184 kB"
        +:+ String "010" "").
Proof.
  split; [|reflexivity].
  refine (proj1 (readMeminfo_wellformed
            [("MemTotal", 7%nat, 16384256%N); ("MemFree", 9%nat, 203184%N)] _)
            [("MemTotal", 7%nat, 16384256%N)] "MemFree" 9%nat 203184%N [] eq_refl _).
  - repeat constructor; try discriminate; vm_compute; discriminate.
  - apply not_elem_of_nil.
Defined.

End Meminfo.

(* ===================================================================== *)
(** * handlers/edit.ts: the keystrokes of a draft                        *)
(* ===================================================================== *)
Module Edit.
Import Errors.

(** Texts are lists of characters, as in [Keys]; [nl] is the newline. *)
Definition nl : ascii := "010"%char.
Definition space : ascii := " "%char.
Definition backslash : ascii := "\"%char.

(** ** Replacing *)

(** [s.replace(new RegExp(pattern, 'g'), replacement)] for a pattern without
    metacharacters that is not empty, and a replacement without [$]: the
    occurrences are found from left to right and do not overlap. [skip]
    counts the characters of the occurrence just replaced that are still to
    be passed over. *)
Fixpoint replaceAll_from (skip : nat) (pattern replacement s : list ascii) : list ascii :=
  match s with
  | [] => []
  | c :: s' =>
      match skip with
      | S k => replaceAll_from k pattern replacement s'
      | O =>
          if bool_decide (pattern `prefix_of` s)
          then replacement ++ replaceAll_from (length pattern - 1) pattern replacement s'
          else c :: replaceAll_from 0 pattern replacement s'
      end
  end.

Definition replaceAll : list ascii → list ascii → list ascii → list ascii :=
  replaceAll_from 0.

(** The class [[.*+?^$()/|[\]\\]]. *)
Definition metacharacters : list ascii := Keys.chars ".*+?^$()/|[]\".

Definition metacharacter (c : ascii) : bool := bool_decide (c ∈ metacharacters).

(** [escapeString(str)]: every metacharacter gets a backslash before it
    ([$&] is the character matched), then every newline becomes the two
    characters backslash and [n]. *)
Definition escapeString (str : list ascii) : list ascii :=
  let str := flat_map (λ c, if metacharacter c then [backslash; c] else [c]) str in
  replaceAll [nl] [backslash; "n"%char] str.

(** [' '.repeat(n)] *)
Definition spaces (n : nat) : list ascii := repeat space n.

(** [indent(text, level)] *)
Definition indent (text : list ascii) (level : Z) : list ascii :=
  let text :=
    if (0 <? level)%Z then replaceAll [nl] (nl :: spaces (Z.to_nat level)) text
    else if (level <? 0)%Z then replaceAll (nl :: spaces (Z.to_nat (- level))) [nl] text
    else text in
  replaceAll [nl] (nl :: Keys.chars "<Esc>i") text.

(** ** Searching *)

(** [s.includes(pattern)] *)
Fixpoint includes (pattern s : list ascii) : bool :=
  bool_decide (pattern `prefix_of` s)
  || match s with [] => false | _ :: s' => includes pattern s' end.

(** [s.indexOf(pattern)]: counted from [from], -1 when there is none. *)
Fixpoint indexOf_from (from : Z) (pattern s : list ascii) : Z :=
  if bool_decide (pattern `prefix_of` s) then from
  else match s with
       | [] => (-1)%Z
       | _ :: s' => indexOf_from (from + 1) pattern s'
       end.

Definition indexOf : list ascii → list ascii → Z := indexOf_from 0.

(** [s.lastIndexOf('\n')], -1 when there is none. *)
Definition lastIndexOf (c : ascii) (s : list ascii) : Z :=
  match list_find (λ d, d = c) (reverse s) with
  | Some (i, _) => Z.of_nat (length s) - 1 - Z.of_nat i
  | None => (-1)%Z
  end.

(** [s.slice(0, end)]: a negative end counts from the end of the text. *)
Definition slice_to (e : Z) (s : list ascii) : list ascii :=
  let len := Z.of_nat (length s) in
  take (Z.to_nat (if (e <? 0)%Z then Z.max (len + e) 0 else Z.min e len)) s.

(** The class [[^\S\n]], of the characters below 128: white space other than
    the newline. *)
Definition blank (c : ascii) : bool :=
  let n := nat_of_ascii c in
  ((n =? 9) || (n =? 11) || (n =? 12) || (n =? 13) || (n =? 32))%nat.

(** [s.match(/[^\S\n]*$/)?.[0] ?? '']: the match at the first position from
    which only blanks follow, so the blanks the text ends with. *)
Fixpoint trailingBlanks (s : list ascii) : list ascii :=
  match s with
  | [] => []
  | _ :: s' => if forallb blank s then s else trailingBlanks s'
  end.

(** [s.match(/\n/g)?.length]: the number of newlines; the test [if
    (deleteLines)] fails for none. *)
Definition newlines (s : list ascii) : nat := length (filter (λ c, c = nl) s).

(** [n.toString()] of a length. *)
Definition toString (n : nat) : list ascii := Keys.chars (pretty n).

(** ** Operations *)

(** The [params] of an operation, as the API types them: texts, and a whole
    number of spaces. [None] is [undefined]. [others] holds the texts of any
    further properties of the object. *)
Record params := {
  anchorText : option (list ascii);
  newCode : option (list ascii);
  indentSpaces : option Z;
  relativePosition : option (list ascii);
  deleteStartText : option (list ascii);
  deleteEndText : option (list ascii);
  others : list (list ascii);
}.

Record operation := {
  op : list ascii;
  order : option Z;
  params_of : params;
}.

(** [Object.values(params)], the texts among them. *)
Definition values (p : params) : list (list ascii) :=
  omap id [anchorText p; newCode p; relativePosition p; deleteStartText p; deleteEndText p]
  ++ others p.

(** What reading a property of [undefined] throws. *)
Definition undefinedError (property : string) : error :=
  plainError ("Cannot read properties of undefined (reading '" +:+ property +:+ "')").

(** [if (anchorText) { keystrokes += '/' + escapeString(anchorText) + tail }] *)
Definition search (anchor : option (list ascii)) (tail : list ascii) : list ascii :=
  match anchor with
  | Some (c :: a) => Keys.chars "/" ++ escapeString (c :: a) ++ tail
  | _ => []
  end.

(** [case 'insert']: what is added to the keystrokes. *)
Definition insertKeys (p : params) : error + list ascii :=
  match newCode p with
  | None => inl (undefinedError "replace")
  | Some code =>
      let level := default 0%Z (indentSpaces p) in
      let code := indent code level in
      let position := relativePosition p in
      let code :=
        if bool_decide (position = Some (Keys.chars "linesAfter"))
           || bool_decide (position = Some (Keys.chars "linesBefore"))
        then if (0 <? level)%Z then spaces (Z.to_nat level) ++ code
             else if (level <? 0)%Z then drop (Z.to_nat (- level)) code
             else code
        else code in
      inr (if bool_decide (position = Some (Keys.chars "after"))
           then search (anchorText p) (Keys.chars "/e" ++ [nl])
                ++ Keys.chars "a" ++ code ++ Keys.chars "<Esc>"
           else if bool_decide (position = Some (Keys.chars "before"))
           then search (anchorText p) [nl]
                ++ Keys.chars "i" ++ code ++ Keys.chars "<Esc>"
           else if bool_decide (position = Some (Keys.chars "linesAfter"))
           then search (anchorText p) (Keys.chars "/e" ++ [nl])
                ++ Keys.chars "o<Esc>i" ++ code ++ Keys.chars "<Esc>"
           else if bool_decide (position = Some (Keys.chars "linesBefore"))
           then search (anchorText p) [nl]
                ++ Keys.chars "O<Esc>i" ++ code ++ Keys.chars "<Esc>"
           else [])
  end.

(** [case 'replace'] *)
Definition replaceKeys (p : params) (fileContent : list ascii) : error + list ascii :=
  match newCode p with
  | None => inl (undefinedError "replace")
  | Some code =>
      let code := indent code (default 0%Z (indentSpaces p)) in
      match anchorText p with
      | None => inl (undefinedError "match")
      | Some anchor =>
          let deleteLines := newlines anchor in
          let lastNewline := lastIndexOf nl anchor in
          let deleteChars := (Z.of_nat (length anchor) - lastNewline - 1)%Z in
          inr (search (Some anchor) [nl]
               ++ (if (0 <? deleteLines)%nat then toString deleteLines ++ Keys.chars "dd0" else [])
               ++ (if bool_decide (lastNewline ≠ (-1)%Z)
                   then (if bool_decide (deleteChars ≠ 0%Z)
                         then toString (Z.to_nat deleteChars) ++ Keys.chars "x" else [])
                   else toString (length anchor) ++ Keys.chars "x")
               ++ Keys.chars "a"
               ++ (if bool_decide (lastNewline ≠ (-1)%Z)
                   then trailingBlanks (slice_to (indexOf anchor fileContent) fileContent)
                   else [])
               ++ code ++ Keys.chars "<Esc>")
      end
  end.

(** [case 'deleteLines'] *)
Definition deleteKeys (p : params) : error + list ascii :=
  match deleteStartText p, deleteEndText p with
  | Some first, Some last =>
      inr (Keys.chars "/" ++ escapeString first ++ [nl] ++ Keys.chars "0:.,/"
           ++ escapeString last ++ Keys.chars "/d" ++ [nl])
  | _, _ => inl (undefinedError "replace")
  end.

(** The check on the special keys. *)
Definition hasSpecialKey (value : list ascii) : bool :=
  includes (Keys.chars "<Esc>") value || includes (Keys.chars "<End>") value.

(** One turn of the loop of [getKeystrokes]: the error thrown, or what the
    operation adds to the keystrokes. *)
Definition operationKeys (fileContent : list ascii) (o : operation) : error + list ascii :=
  let p := params_of o in
  if negb (bool_decide (op o = Keys.chars "deleteLines"))
     && (bool_decide (deleteStartText p ≠ None) || bool_decide (deleteEndText p ≠ None))
  then inl (SafeError (ArgsPositional
              "deleteStartText and deleteEndText are only valid for deleteLines" None))
  else if existsb hasSpecialKey (values p)
  then inl (SafeError (ArgsPositional "Parameters may not contain <Esc> or <End>" None))
  else if bool_decide (op o = Keys.chars "insert") then insertKeys p
  else if bool_decide (op o = Keys.chars "replace") then replaceKeys p fileContent
  else if bool_decide (op o = Keys.chars "deleteLines") then deleteKeys p
  else inl (SafeError (ArgsPositional
              ("Unsupported operation " +:+ string_of_list_ascii (op o)) None)).

(** [(a.order ?? 0)] *)
Definition rank (o : operation) : Z := default 0%Z (order o).

(** [operations.sort((a, b) => (a.order ?? 0) - (b.order ?? 0))]: the sort
    is stable, and the comparison a total preorder, so the outcome is the one
    of inserting each operation, the last one first, before the first
    operation that does not rank below it. *)
Fixpoint insert_operation (o : operation) (l : list operation) : list operation :=
  match l with
  | [] => [o]
  | x :: l' => if (rank o <=? rank x)%Z then o :: l else x :: insert_operation o l'
  end.

Definition sortOperations (operations : list operation) : list operation :=
  foldr insert_operation [] operations.

Definition addKeys (fileContent : list ascii)
    (keystrokes : error + list ascii) (o : operation) : error + list ascii :=
  match keystrokes with
  | inl e => inl e
  | inr keystrokes =>
      match operationKeys fileContent o with
      | inl e => inl e
      | inr keys => inr (keystrokes ++ keys)
      end
  end.

(** [getKeystrokes(operations, fileContent)] *)
Definition getKeystrokes (operations : list operation) (fileContent : list ascii)
    : error + list ascii :=
  foldl (addKeys fileContent) (inr (Keys.chars "gg")) (sortOperations operations).

(** ** Replacing one character *)

Lemma replaceAll_single c replacement s :
  replaceAll [c] replacement s
  = flat_map (λ d, if bool_decide (d = c) then replacement else [d]) s.
Proof.
  unfold replaceAll. induction s as [|d s IH]; [done|].
  cbn [replaceAll_from flat_map length]. change (1 - 1) with 0. rewrite IH.
  destruct (decide (d = c)) as [-> |Hd].
  - rewrite !bool_decide_eq_true_2; [done..|]. by exists s.
  - rewrite !bool_decide_eq_false_2; [done..|]. intros [k Hk]. simpl in Hk. congruence.
Qed.

(** ** Escaping *)

(** What [escapeString] makes of one character. *)
Definition escapeChar (c : ascii) : list ascii :=
  if metacharacter c then [backslash; c]
  else if bool_decide (c = nl) then [backslash; "n"%char]
  else [c].

Lemma metacharacter_nl c : metacharacter c = true → c ≠ nl ∧ c ≠ "n"%char.
Proof. intros Hc. split; intros ->; vm_compute in Hc; discriminate. Qed.

Lemma escapeString_chars s : escapeString s = flat_map escapeChar s.
Proof.
  unfold escapeString. rewrite replaceAll_single.
  induction s as [|c s IH]; [done|]. cbn [flat_map]. rewrite flat_map_app, IH.
  f_equal. unfold escapeChar. destruct (metacharacter c) eqn:Hc.
  - apply metacharacter_nl in Hc as [Hc _]. simpl.
    rewrite bool_decide_eq_false_2 by done. done.
  - simpl. by destruct (bool_decide (c = nl)).
Qed.

(** Reading an escaped text back: a backslash announces a newline or the
    character after it. *)
Fixpoint unescape (s : list ascii) : list ascii :=
  match s with
  | [] => []
  | c :: s' =>
      if bool_decide (c = backslash)
      then match s' with
           | [] => [c]
           | d :: s'' => (if bool_decide (d = "n"%char) then nl else d) :: unescape s''
           end
      else c :: unescape s'
  end.

Lemma unescape_escapeString s : unescape (escapeString s) = s.
Proof.
  rewrite escapeString_chars. induction s as [|c s IH]; [done|].
  cbn [flat_map]. unfold escapeChar at 1. destruct (metacharacter c) eqn:Hc.
  - apply metacharacter_nl in Hc as [_ Hc]. simpl.
    rewrite (bool_decide_eq_false_2 (c = "n"%char)) by done. by rewrite IH.
  - destruct (decide (c = nl)) as [-> |Hn].
    + simpl. by rewrite IH.
    + rewrite (bool_decide_eq_false_2 (c = nl)) by done. simpl.
      rewrite bool_decide_eq_false_2; [by rewrite IH|].
      intros ->. vm_compute in Hc. discriminate.
Qed.

Lemma escapeString_app a b : escapeString (a ++ b) = escapeString a ++ escapeString b.
Proof. by rewrite !escapeString_chars, flat_map_app. Qed.

Lemma escapeString_no_newline s : nl ∉ escapeString s.
Proof.
  rewrite escapeString_chars. induction s as [|c s IH]; [apply not_elem_of_nil|].
  cbn [flat_map]. rewrite elem_of_app. intros [Hc|Hs]; [|done].
  unfold escapeChar in Hc. destruct (metacharacter c) eqn:Hm.
  - apply metacharacter_nl in Hm as [Hm _].
    apply elem_of_cons in Hc as [Hc|Hc]; [discriminate Hc|].
    apply list_elem_of_singleton in Hc. congruence.
  - destruct (decide (c = nl)) as [-> |Hn].
    + simpl in Hc. apply elem_of_cons in Hc as [Hc|Hc]; [discriminate Hc|].
      apply list_elem_of_singleton in Hc. discriminate Hc.
    + rewrite bool_decide_eq_false_2 in Hc by done.
      apply list_elem_of_singleton in Hc. congruence.
Qed.

(** X24. Escaping loses nothing and never leaves a newline: two anchors with
    the same escaped text are the same anchor, the escaped text of an anchor
    holds no newline (which would end the search command typed into the
    editor), and a text without metacharacters and newlines is left as it
    is. *)
Theorem escapeString_injective a b :
  escapeString a = escapeString b →
  a = b
  ∧ (nl ∉ escapeString a)
  ∧ (Forall (λ c, metacharacter c = false ∧ c ≠ nl) a → escapeString a = a).
Proof.
  intros Hab. split; [|split].
  - by rewrite <- (unescape_escapeString a), Hab, unescape_escapeString.
  - apply escapeString_no_newline.
  - intros Ha. rewrite escapeString_chars. clear Hab.
    induction Ha as [|c s [Hm Hn] _ IH]; [done|]. cbn [flat_map]. rewrite IH.
    unfold escapeChar. rewrite Hm, bool_decide_eq_false_2 by done. done.
Qed.

Lemma escapeString_injective_witness :
  Keys.chars "f(x)" = Keys.chars "f(x)" ∧ (nl ∉ escapeString (Keys.chars "f(x)")).
Proof.
  destruct (escapeString_injective (Keys.chars "f(x)") (Keys.chars "f(x)") eq_refl)
    as (H1 & H2 & _).
  split; [exact H1|exact H2].
Defined.

(** ** Indenting *)

(** What [indent] makes of one character, for a level that is not negative. *)
Definition indentChar (level : Z) (c : ascii) : list ascii :=
  if bool_decide (c = nl) then nl :: Keys.chars "<Esc>i" ++ spaces (Z.to_nat level) else [c].

Lemma flat_map_spaces (f : ascii → list ascii) n :
  f space = [space] → flat_map f (spaces n) = spaces n.
Proof.
  intros Hf. unfold spaces. induction n as [|n IH]; [done|]. simpl. by rewrite Hf, IH.
Qed.

Lemma indent_chars text level :
  (0 ≤ level)%Z → indent text level = flat_map (indentChar level) text.
Proof.
  intros Hl. unfold indent.
  assert ((level <? 0)%Z = false) as -> by lia.
  destruct (0 <? level)%Z eqn:E; rewrite !replaceAll_single.
  - induction text as [|c s IH]; [done|]. cbn [flat_map]. rewrite flat_map_app, IH.
    f_equal. unfold indentChar. destruct (bool_decide (c = nl)) eqn:Hc.
    + cbn [flat_map]. rewrite bool_decide_eq_true_2 by done.
      rewrite flat_map_spaces by done. reflexivity.
    + cbn [flat_map]. by rewrite Hc.
  - assert (level = 0%Z) as -> by lia.
    apply flat_map_ext. intros c. unfold indentChar.
    destruct (bool_decide (c = nl)); [|done]. by rewrite app_nil_r.
Qed.

(** A special key in a text is typed as one key (the loop of [Keys.type]). *)
Lemma typeText_spelling a k b :
  k ∈ Keys.spellings →
  Keys.typeText (a ++ k ++ b)
  = Keys.typeText a ++ [Keys.normalizeCase k] ++ Keys.typeText b.
Proof.
  intros Hk. unfold Keys.spellings in Hk.
  assert (Hrun : foldl Keys.type_char ([], []) k = ([], [Keys.normalizeCase k])
                 ∧ ∃ k', k = "<"%char :: k').
  { repeat (apply elem_of_cons in Hk as [-> |Hk]);
      [split; [vm_compute; reflexivity|by eexists]..|by apply elem_of_nil in Hk]. }
  destruct Hrun as [Hrun [k' Hk']].
  rewrite Hk' at 1. rewrite <- app_comm_cons, Keys.typeText_app_lt.
  rewrite app_comm_cons, <- Hk'. f_equal.
  unfold Keys.typeText at 1. by rewrite Keys.type_loop_app, Hrun, Keys.type_loop_typed.
Qed.

Lemma typeText_Esc b :
  Keys.typeText (Keys.chars "<Esc>" ++ b) = [Keys.chars "<Esc>"] ++ Keys.typeText b.
Proof.
  exact (typeText_spelling [] (Keys.chars "<Esc>") b
           ltac:(unfold Keys.spellings; Keys.in_list)).
Qed.

Lemma typeText_plain a s :
  Forall (λ c, c ≠ "<"%char) a →
  Keys.typeText (a ++ s) = Keys.typeKeys a ++ Keys.typeText s.
Proof. intros Ha. unfold Keys.typeText at 1. by rewrite Keys.type_loop_plain. Qed.

Lemma spaces_plain n : Forall (λ c, c ≠ "<"%char) (spaces n).
Proof. induction n; constructor; done. Qed.

(** The keys typed for one character of an indented text. *)
Definition indentKeys (level : Z) (c : ascii) : list Keys.key :=
  if bool_decide (c = nl)
  then [[nl]; Keys.chars "<Esc>"; Keys.chars "i"] ++ Keys.typeKeys (spaces (Z.to_nat level))
  else [[c]].

(** X25. Typing a text indented by a level from 0 to 1000 (a number of
    spaces [' '.repeat] makes a string of): every character of a text of
    ASCII characters without opening brackets is typed as it is, and after
    each newline the editor gets the Escape key, an [i] and then the spaces
    of the level, so that it leaves and enters insert mode before the
    indentation. *)
Theorem indent_typed text level :
  (0 ≤ level ≤ 1000)%Z → Keys.ascii_text text → Forall (λ c, c ≠ "<"%char) text →
  indent text level = flat_map (indentChar level) text
  ∧ Keys.typeText (indent text level) = flat_map (indentKeys level) text.
Proof.
  intros [Hl _] _ Ht. split; [by apply indent_chars|].
  rewrite indent_chars by done.
  induction Ht as [|c s Hc _ IH]; [done|]. cbn [flat_map].
  unfold indentChar at 1, indentKeys at 1. destruct (bool_decide (c = nl)) eqn:E.
  - set (rest := flat_map (indentChar level) s) in *.
    change ((nl :: Keys.chars "<Esc>i" ++ spaces (Z.to_nat level)) ++ rest)
      with ([nl] ++ (Keys.chars "<Esc>" ++ (("i"%char :: spaces (Z.to_nat level)) ++ rest))).
    rewrite typeText_plain by (repeat constructor; done).
    rewrite typeText_Esc.
    rewrite typeText_plain by (constructor; [done|apply spaces_plain]).
    rewrite IH. reflexivity.
  - rewrite typeText_plain by (repeat constructor; done).
    by rewrite IH.
Qed.

Lemma indent_typed_witness :
  Keys.typeText (indent (Keys.chars ("a" +:+ String nl "b")) 2)
  = [Keys.chars "a"; [nl]; Keys.chars "<Esc>"; Keys.chars "i"; Keys.chars " "; Keys.chars " ";
     Keys.chars "b"].
Proof.
  destruct (indent_typed (Keys.chars ("a" +:+ String nl "b")) 2) as [_ H].
  - lia.
  - repeat constructor.
  - repeat constructor; discriminate.
  - rewrite H. reflexivity.
Defined.

(** ** The order of the operations *)



Lemma insert_operation_perm o l : insert_operation o l ≡ₚ o :: l.
Proof.
  induction l as [|x l IH]; [done|]. simpl.
  destruct (rank o <=? rank x)%Z; [done|]. by rewrite IH, Permutation_swap.
Qed.

Lemma sortOperations_perm l : sortOperations l ≡ₚ l.
Proof.
  induction l as [|x l IH]; [done|]. unfold sortOperations in *. simpl.
  by rewrite insert_operation_perm, IH.
Qed.









(** ** The errors *)

(** The operation lacks a text its case reads. *)
Definition lacksText (o : operation) : bool :=
  let p := params_of o in
  if bool_decide (op o = Keys.chars "insert") then bool_decide (newCode p = None)
  else if bool_decide (op o = Keys.chars "replace")
  then bool_decide (newCode p = None) || bool_decide (anchorText p = None)
  else if bool_decide (op o = Keys.chars "deleteLines")
  then bool_decide (deleteStartText p = None) || bool_decide (deleteEndText p = None)
  else false.

Lemma operationKeys_error fileContent o e :
  operationKeys fileContent o = inl e →
  (e_safe e = true ∧ e_status e = Some 400%N ∧ notRecoverable e = false)
  ∨ (lacksText o = true ∧ ∃ property, e = undefinedError property).
Proof.
  unfold operationKeys, lacksText.
  destruct (negb _ && _); [intros [= <-]; by left|].
  destruct (existsb _ _); [intros [= <-]; by left|].
  destruct (bool_decide (op o = Keys.chars "insert")).
  { unfold insertKeys. destruct (newCode (params_of o)); [done|].
    intros [= <-]. right. split; [done|by eexists]. }
  destruct (bool_decide (op o = Keys.chars "replace")).
  { unfold replaceKeys. destruct (newCode (params_of o)).
    - destruct (anchorText (params_of o)); [done|].
      intros [= <-]. right. split; [done|by eexists].
    - intros [= <-]. right. split; [done|by eexists]. }
  destruct (bool_decide (op o = Keys.chars "deleteLines")).
  { unfold deleteKeys.
    destruct (deleteStartText (params_of o)), (deleteEndText (params_of o));
      try done; intros [= <-]; right; (split; [done|by eexists]). }
  intros [= <-]. by left.
Qed.

Lemma operationKeys_lacksText fileContent o :
  lacksText o = true → ∃ e, operationKeys fileContent o = inl e.
Proof.
  unfold operationKeys, lacksText.
  destruct (negb _ && _); [by eexists|].
  destruct (existsb _ _); [by eexists|].
  destruct (bool_decide (op o = Keys.chars "insert")).
  { unfold insertKeys. destruct (newCode (params_of o)); [done|by eexists]. }
  destruct (bool_decide (op o = Keys.chars "replace")).
  { unfold replaceKeys. destruct (newCode (params_of o)); [|by eexists].
    destruct (anchorText (params_of o)); [done|by eexists]. }
  destruct (bool_decide (op o = Keys.chars "deleteLines")); [|done].
  unfold deleteKeys.
  destruct (deleteStartText (params_of o)), (deleteEndText (params_of o));
    try done; by eexists.
Qed.

Lemma addKeys_error fileContent l : ∀ e, foldl (addKeys fileContent) (inl e) l = inl e.
Proof. induction l as [|o l IH]; intros e; [done|]. simpl. apply IH. Qed.

Lemma foldl_addKeys_inl fileContent l : ∀ keystrokes e,
  foldl (addKeys fileContent) (inr keystrokes) l = inl e →
  ∃ o, o ∈ l ∧ operationKeys fileContent o = inl e.
Proof.
  induction l as [|o l IH]; intros keystrokes e; [done|]. simpl.
  destruct (operationKeys fileContent o) as [e'|keys] eqn:E.
  - rewrite addKeys_error. intros [= <-]. exists o. split; [apply list_elem_of_here|done].
  - intros H. destruct (IH _ _ H) as (o' & Ho' & He). exists o'.
    split; [by apply list_elem_of_further|done].
Qed.

Lemma foldl_addKeys_fails fileContent l o : ∀ r,
  o ∈ l → (∃ e, operationKeys fileContent o = inl e) →
  ∃ e, foldl (addKeys fileContent) r l = inl e.
Proof.
  induction l as [|x l IH]; intros r Ho He; [by apply elem_of_nil in Ho|].
  simpl. apply elem_of_cons in Ho as [-> |Ho]; [|by apply IH].
  destruct He as [e He]. destruct r as [e'|keystrokes]; simpl.
  - rewrite addKeys_error. by eexists.
  - rewrite He, addKeys_error. by eexists.
Qed.

(** The number of spaces of the operation is left out or a whole number of
    at most a thousand either way, so that [' '.repeat] makes its string and
    throws no [RangeError]. *)
Definition modestIndent (o : operation) : Prop :=
  match indentSpaces (params_of o) with
  | Some level => (-1000 ≤ level ≤ 1000)%Z
  | None => True
  end.

(** X28. The errors of [getKeystrokes] on a request whose operations ask for
    no more than a thousand spaces of indentation, or for none. An error it
    throws is the error of one of the operations; it is either a [SafeError]
    with status 400, which leaves the lease alone, or the error of reading a
    property of [undefined], thrown because the operation lacks a text its
    case needs (the new code, the anchor of a replacement, a text of a
    deletion): that one is no [SafeError], so [handleErrors] finalizes the
    lease and answers with status 500. And no keystrokes are made of a
    request that holds an operation lacking such a text. (A number of spaces
    that is no whole number, or one too large for a string, is outside this
    statement: there [' '.repeat] throws a [RangeError].) *)
Theorem getKeystrokes_errors operations fileContent :
  Forall modestIndent operations →
  (∀ e, getKeystrokes operations fileContent = inl e →
     ∃ o, o ∈ operations ∧ operationKeys fileContent o = inl e
       ∧ if e_safe e
         then e_status e = Some 400%N ∧ notRecoverable e = false
              ∧ ∀ l st, Core.handleErrors_catch e l st = Some st
         else lacksText o = true
              ∧ (∀ l st, Core.handleErrors_catch e l st = Core.finalizeLease l st)
              ∧ Responses.respond e false
                = (Some (Some 500%N, "Internal error, please try again later"), true))
  ∧ (∀ o, o ∈ operations → lacksText o = true →
       ∃ e, getKeystrokes operations fileContent = inl e).
Proof.
  intros _. split.
  - intros e He. unfold getKeystrokes in He.
    apply foldl_addKeys_inl in He as (o & Ho & He). exists o.
    rewrite sortOperations_perm in Ho. split; [done|]. split; [done|].
    destruct (operationKeys_error _ _ _ He) as [(Hs & Hst & Hr)|[Hl [property ->]]].
    + rewrite Hs. split; [done|]. split; [done|]. intros l st.
      unfold Core.handleErrors_catch. by rewrite Hr.
    + simpl. split; [done|]. split; [|done]. intros l st. reflexivity.
  - intros o Ho Hl. unfold getKeystrokes.
    apply (foldl_addKeys_fails _ _ o); [by rewrite sortOperations_perm|].
    by apply operationKeys_lacksText.
Qed.

(** An insertion indented by four spaces that holds no new code. *)
Definition insert_without_code : operation :=
  {| op := Keys.chars "insert"; order := None;
     params_of := {| anchorText := None; newCode := None; indentSpaces := Some 4%Z;
                     relativePosition := Some (Keys.chars "after"); deleteStartText := None;
                     deleteEndText := None; others := [] |} |}.

Lemma getKeystrokes_errors_witness :
  modestIndent insert_without_code
  ∧ ∃ e, getKeystrokes [insert_without_code] [] = inl e.
Proof.
  assert (H : modestIndent insert_without_code) by (unfold modestIndent; simpl; lia).
  split; [exact H|].
  apply (proj2 (getKeystrokes_errors [insert_without_code] []
                  (Forall_cons_2 _ _ _ H (Forall_nil_2 _))) insert_without_code).
  - apply list_elem_of_here.
  - reflexivity.
Defined.

(** A replacement without an anchor, for one: the error is the engine's. *)
Lemma replace_without_anchor code fileContent :
  getKeystrokes
    [{| op := Keys.chars "replace"; order := None;
        params_of := {| anchorText := None; newCode := Some code; indentSpaces := None;
                        relativePosition := None; deleteStartText := None;
                        deleteEndText := None; others := [] |} |}] fileContent
  = (if hasSpecialKey code
     then inl (SafeError (ArgsPositional "Parameters may not contain <Esc> or <End>" None))
     else inl (undefinedError "match")).
Proof.
  unfold getKeystrokes, sortOperations. cbn [foldr insert_operation foldl].
  unfold addKeys, operationKeys, values.
  cbn [op params_of deleteStartText deleteEndText anchorText newCode relativePosition others
       omap list_omap id app existsb].
  change (bool_decide (Keys.chars "replace" = Keys.chars "deleteLines")) with false.
  change (bool_decide (Keys.chars "replace" = Keys.chars "insert")) with false.
  change (bool_decide (Keys.chars "replace" = Keys.chars "replace")) with true.
  cbn [negb andb orb]. destruct (hasSpecialKey code); reflexivity.
Qed.

(** ** The special keys *)

Lemma includes_plain p a : ∀ s,
  Forall (λ c, c ≠ "<"%char) a →
  includes ("<"%char :: p) (a ++ s) = includes ("<"%char :: p) s.
Proof.
  induction a as [|c a IH]; intros s Ha; [done|].
  apply Forall_cons in Ha as [Hc Ha]. rewrite <- app_comm_cons.
  cbn [includes]. rewrite IH by done.
  rewrite bool_decide_eq_false_2; [done|]. intros [k Hk]. simpl in Hk. congruence.
Qed.

Lemma includes_nil p : includes ("<"%char :: p) [] = false.
Proof.
  cbn [includes]. rewrite bool_decide_eq_false_2; [done|].
  intros [k Hk]. simpl in Hk. discriminate Hk.
Qed.

Lemma hasSpecialKey_lowercase a b :
  Forall (λ c, c ≠ "<"%char) a → Forall (λ c, c ≠ "<"%char) b →
  hasSpecialKey (a ++ Keys.chars "<esc>" ++ b) = false.
Proof.
  intros Ha Hb. unfold hasSpecialKey.
  change (Keys.chars "<Esc>") with ("<"%char :: Keys.chars "Esc>").
  change (Keys.chars "<End>") with ("<"%char :: Keys.chars "End>").
  rewrite (includes_plain (Keys.chars "Esc>")), (includes_plain (Keys.chars "End>")) by done.
  assert (H1 : ¬ ("<"%char :: Keys.chars "Esc>") `prefix_of` Keys.chars "<esc>" ++ b)
    by (intros [k Hk]; simpl in Hk; congruence).
  assert (H2 : ¬ ("<"%char :: Keys.chars "End>") `prefix_of` Keys.chars "<esc>" ++ b)
    by (intros [k Hk]; simpl in Hk; congruence).
  change (Keys.chars "<esc>" ++ b) with ("<"%char :: (Keys.chars "esc>" ++ b)) in *.
  cbn [includes].
  rewrite (bool_decide_eq_false_2 _ H1), (bool_decide_eq_false_2 _ H2).
  rewrite (includes_plain (Keys.chars "Esc>") (Keys.chars "esc>")),
    (includes_plain (Keys.chars "End>") (Keys.chars "esc>")) by (repeat constructor; done).
  rewrite <- (app_nil_r b).
  rewrite (includes_plain (Keys.chars "Esc>")), (includes_plain (Keys.chars "End>")) by done.
  rewrite !includes_nil. reflexivity.
Qed.

Lemma includes_prefix p s : includes p (p ++ s) = true.
Proof.
  destruct (p ++ s) as [|c r] eqn:E; cbn [includes];
    (rewrite bool_decide_eq_true_2; [done|]); exists s; by rewrite E.
Qed.

Lemma replaceAll_none c p replacement s :
  c ∉ s → replaceAll (c :: p) replacement s = s.
Proof.
  unfold replaceAll. induction s as [|d s IH]; intros Hs; [done|].
  apply not_elem_of_cons in Hs as [Hd Hs]. cbn [replaceAll_from].
  rewrite bool_decide_eq_false_2; [by rewrite IH|].
  intros [k Hk]. simpl in Hk. congruence.
Qed.

(** A text without newlines is indented as it is. *)
Lemma indent_line text level : nl ∉ text → indent text level = text.
Proof.
  intros Ht. unfold indent.
  destruct (0 <? level)%Z; [|destruct (level <? 0)%Z];
    by rewrite !(replaceAll_none nl _ _ text Ht).
Qed.

Lemma replaceFirst_lt pattern replacement s :
  ¬ pattern `prefix_of` "<"%char :: s →
  Keys.replaceFirst pattern replacement ("<"%char :: s)
  = "<"%char :: Keys.replaceFirst pattern replacement s.
Proof. intros Hp. cbn [Keys.replaceFirst]. by rewrite bool_decide_eq_false_2. Qed.

Lemma plain_no_newline (s : list ascii) :
  Forall (λ c, c ≠ "<"%char ∧ c ≠ nl) s → Forall (λ c, c ≠ "<"%char) s ∧ nl ∉ s.
Proof.
  intros Hs. split; [eapply Forall_impl; [done|by intros ? []]|].
  induction Hs as [|c s [_ Hc] _ IH]; [apply not_elem_of_nil|].
  apply not_elem_of_cons. by split.
Qed.

(** X26. The check on the special keys knows one spelling of each key, the
    typing two. A parameter that holds [<Esc>] or [<End>] as written makes the
    operation fail with a [SafeError]. But new code that holds [<esc>] passes
    (here in an insertion after the cursor, with plain texts [a] before and
    [b] after it), and the extension types it as the Escape key: [a] is
    typed into the file, and [b] reaches the editor outside insert mode. *)
Theorem special_keys_guard fileContent rank_ level a b :
  Forall (λ c, c ≠ "<"%char ∧ c ≠ nl) a → Forall (λ c, c ≠ "<"%char ∧ c ≠ nl) b →
  let insertion code :=
    {| op := Keys.chars "insert"; order := rank_;
       params_of := {| anchorText := None; newCode := Some code; indentSpaces := level;
                       relativePosition := Some (Keys.chars "after");
                       deleteStartText := None; deleteEndText := None; others := [] |} |} in
  (∀ o, Exists (λ v, hasSpecialKey v = true) (values (params_of o)) →
     ∃ e, operationKeys fileContent o = inl e ∧ e_safe e = true ∧ e_status e = Some 400%N)
  ∧ (∃ e, getKeystrokes [insertion (a ++ Keys.chars "<Esc>" ++ b)] fileContent = inl e)
  ∧ getKeystrokes [insertion (a ++ Keys.chars "<esc>" ++ b)] fileContent
    = inr (Keys.chars "gga" ++ a ++ Keys.chars "<esc>" ++ b ++ Keys.chars "<Esc>")
  ∧ Keys.type (Keys.chars "gga" ++ a ++ Keys.chars "<esc>" ++ b ++ Keys.chars "<Esc>")
    = Keys.typeKeys (Keys.chars "gga" ++ a) ++ [Keys.chars "<Esc>"]
      ++ Keys.typeKeys b ++ [Keys.chars "<Esc>"].
Proof.
  intros Ha Hb insertion.
  apply plain_no_newline in Ha as [Ha Ha'], Hb as [Hb Hb'].
  assert (Hguard : ∀ o, Exists (λ v, hasSpecialKey v = true) (values (params_of o)) →
            ∃ e, operationKeys fileContent o = inl e ∧ e_safe e = true
                 ∧ e_status e = Some 400%N).
  { intros o Ho. unfold operationKeys. destruct (negb _ && _); [by eexists|].
    assert (existsb hasSpecialKey (values (params_of o)) = true) as ->; [|by eexists].
    apply existsb_exists. apply Exists_exists in Ho as (v & Hv & Hk).
    exists v. split; [by apply list_elem_of_In|done]. }
  split; [exact Hguard|]. split; [|split].
  - destruct (Hguard (insertion (a ++ Keys.chars "<Esc>" ++ b))) as (e & He & _).
    + apply Exists_cons_hd. unfold hasSpecialKey.
      change (Keys.chars "<Esc>") with ("<"%char :: Keys.chars "Esc>").
      rewrite (includes_plain (Keys.chars "Esc>")) by done.
      by rewrite includes_prefix.
    + exists e. unfold getKeystrokes, sortOperations. cbn [foldr insert_operation foldl].
      unfold addKeys. by rewrite He.
  - assert (Hind : indent (a ++ Keys.chars "<esc>" ++ b) (default 0%Z level)
                   = a ++ Keys.chars "<esc>" ++ b).
    { apply indent_line. rewrite !elem_of_app. intros [H|[H|H]]; [done| |done].
      vm_compute in H. repeat (apply elem_of_cons in H as [H|H]; [discriminate H|]).
      by apply elem_of_nil in H. }
    unfold getKeystrokes, sortOperations, insertion. cbn [foldr insert_operation foldl].
    unfold addKeys, operationKeys. cbn [op params_of deleteStartText deleteEndText].
    assert (existsb hasSpecialKey
              (values {| anchorText := None; newCode := Some (a ++ Keys.chars "<esc>" ++ b);
                         indentSpaces := level;
                         relativePosition := Some (Keys.chars "after");
                         deleteStartText := None; deleteEndText := None; others := [] |})
            = false) as ->.
    { unfold values. cbn [omap list_omap anchorText newCode relativePosition deleteStartText
                          deleteEndText others id app existsb].
      by rewrite hasSpecialKey_lowercase. }
    cbn [negb andb orb bool_decide decide_rel]. simpl bool_decide.
    unfold insertKeys. cbn [newCode indentSpaces relativePosition anchorText].
    rewrite Hind. simpl bool_decide. cbn [orb search app].
    by rewrite <- !app_assoc.
  - unfold Keys.type.
    assert (Henter : Keys.replaceFirst (Keys.chars "<Enter>") (Keys.chars (String "010" ""))
                       (Keys.chars "gga" ++ a ++ Keys.chars "<esc>" ++ b ++ Keys.chars "<Esc>")
                     = Keys.chars "gga" ++ a ++ Keys.chars "<esc>" ++ b ++ Keys.chars "<Esc>").
    { rewrite Keys.replaceFirst_plain by (repeat constructor; done || by eexists).
      rewrite Keys.replaceFirst_plain by (done || by eexists).
      change (Keys.chars "<esc>" ++ b ++ Keys.chars "<Esc>")
        with ("<"%char :: (Keys.chars "esc>" ++ b ++ Keys.chars "<Esc>")).
      rewrite replaceFirst_lt by (intros [k Hk]; simpl in Hk; congruence).
      rewrite Keys.replaceFirst_plain by (repeat constructor; done || by eexists).
      rewrite Keys.replaceFirst_plain by (done || by eexists).
      reflexivity. }
    rewrite Henter.
    rewrite (app_assoc (Keys.chars "gga") a).
    rewrite typeText_spelling by (unfold Keys.spellings; Keys.in_list).
    rewrite <- (app_nil_r (Keys.chars "gga" ++ a)) at 1.
    rewrite typeText_plain by (apply Forall_app_2; [repeat constructor; done|done]).
    rewrite typeText_plain by done.
    rewrite app_nil_r. reflexivity.
Qed.

Lemma special_keys_guard_witness :
  getKeystrokes
    [{| op := Keys.chars "insert"; order := None;
        params_of := {| anchorText := None;
                        newCode := Some (Keys.chars "x" ++ Keys.chars "<esc>" ++ Keys.chars ":q!");
                        indentSpaces := None;
                        relativePosition := Some (Keys.chars "after");
                        deleteStartText := None; deleteEndText := None; others := [] |} |}] []
  = inr (Keys.chars "ggax<esc>:q!<Esc>")
  ∧ Keys.type (Keys.chars "ggax<esc>:q!<Esc>")
    = Keys.typeKeys (Keys.chars "ggax") ++ [Keys.chars "<Esc>"]
      ++ Keys.typeKeys (Keys.chars ":q!") ++ [Keys.chars "<Esc>"].
Proof.
  destruct (special_keys_guard [] None None (Keys.chars "x") (Keys.chars ":q!"))
    as (_ & _ & H1 & H2).
  - repeat constructor; discriminate.
  - repeat constructor; discriminate.
  - split; [exact H1|exact H2].
Defined.


End Edit.

(* ===================================================================== *)
(** * analyze.ts: reading a file                                         *)
(* ===================================================================== *)
Module Analyze.
Import Errors.

(** ** Texts *)

(** A text is the list of its UTF-16 code units, as a string of JavaScript
    is; [s.length] is the length of the list. *)

(** A literal of the source, all of whose characters are ASCII. *)
Fixpoint units (s : string) : list N :=
  match s with
  | EmptyString => []
  | String c r => N_of_ascii c :: units r
  end.

Definition newline : N := 10.

(** [lines.join('\n')] *)
Fixpoint join (lines : list (list N)) : list N :=
  match lines with
  | [] => []
  | line :: rest =>
      match rest with
      | [] => line
      | _ => line ++ newline :: join rest
      end
  end.

(** [s.split(c)] for a separator of one code unit. *)
Fixpoint split (c : N) (s : list N) : list (list N) :=
  match s with
  | [] => [[]]
  | a :: r =>
      if (a =? c)%N then [] :: split c r
      else match split c r with
           | h :: t => (a :: h) :: t
           | [] => [[a]]
           end
  end.

(** [s.startsWith(p)] *)
Fixpoint startsWith (p s : list N) : bool :=
  match p, s with
  | [], _ => true
  | a :: p, b :: s => (a =? b)%N && startsWith p s
  | _ :: _, [] => false
  end.

(** [s.endsWith(suffix)] *)
Definition endsWith (suffix s : list N) : bool :=
  (length suffix <=? length s)%nat
  && bool_decide (drop (length s - length suffix) s = suffix).

(** White space and line terminators, which [trim] removes. *)
Definition isWhiteSpace (c : N) : bool :=
  (((9 <=? c) && (c <=? 13)) || (c =? 32) || (c =? 160) || (c =? 5760)
   || ((8192 <=? c) && (c <=? 8202)) || (c =? 8232) || (c =? 8233) || (c =? 8239)
   || (c =? 8287) || (c =? 12288) || (c =? 65279))%N.

Fixpoint trimStart (s : list N) : list N :=
  match s with
  | c :: r => if isWhiteSpace c then trimStart r else s
  | [] => []
  end.

Fixpoint trimEnd (s : list N) : list N :=
  match s with
  | [] => []
  | c :: r =>
      match trimEnd r with
      | [] => if isWhiteSpace c then [] else [c]
      | r' => c :: r'
      end
  end.

(** [s.trim()] *)
Definition trim (s : list N) : list N := trimEnd (trimStart s).

(** [\d] *)
Definition isDigit (c : N) : bool := ((48 <=? c) && (c <=? 57))%N.

(** ** What the platform decodes *)

(** The decoder of UTF-8 of the Encoding standard, without the fatal flag:
    the state between two bytes is the code point so far, the number of
    bytes the sequence still needs, and the bounds of the next byte. *)
Definition replacementCharacter : N := 65533.

(** A byte met while no sequence is open: the code point it is, or the
    sequence it opens. *)
Definition lead (b : N) : N + (N * nat * N * N) :=
  if (b <=? 0x7F)%N then inl b
  else if ((0xC2 <=? b) && (b <=? 0xDF))%N then inr (N.land b 0x1F, 1%nat, 0x80, 0xBF)%N
  else if ((0xE0 <=? b) && (b <=? 0xEF))%N
  then inr (N.land b 0xF, 2%nat,
            if (b =? 0xE0)%N then 0xA0 else 0x80, if (b =? 0xED)%N then 0x9F else 0xBF)%N
  else if ((0xF0 <=? b) && (b <=? 0xF4))%N
  then inr (N.land b 0x7, 3%nat,
            if (b =? 0xF0)%N then 0x90 else 0x80, if (b =? 0xF4)%N then 0x8F else 0xBF)%N
  else inl replacementCharacter.

(** The code points of a sequence of bytes. A byte out of the bounds ends the
    open sequence with an error and is read again with no sequence open; so
    does the end of the bytes inside a sequence. *)
Fixpoint utf8 (open : option (N * nat * N * N)) (bytes : list N) : list N :=
  match bytes with
  | [] => match open with Some _ => [replacementCharacter] | None => [] end
  | b :: rest =>
      let start :=
        match lead b with
        | inl point => point :: utf8 None rest
        | inr sequence => utf8 (Some sequence) rest
        end in
      match open with
      | None => start
      | Some (point, needed, lower, upper) =>
          if ((lower <=? b) && (b <=? upper))%N
          then let point := N.lor (N.shiftl point 6) (N.land b 0x3F) in
               match needed with
               | S (S needed) => utf8 (Some (point, S needed, 0x80, 0xBF)%N) rest
               | _ => point :: utf8 None rest
               end
          else replacementCharacter :: start
      end
  end.

(** The code units of a code point. *)
Definition utf16 (point : N) : list N :=
  if (point <? 0x10000)%N then [point]
  else [0xD800 + N.shiftr (point - 0x10000) 10; 0xDC00 + N.land (point - 0x10000) 0x3FF]%N.

(** [new TextDecoder().decode(bytes)]: UTF-8, errors replaced, and a byte
    order mark at the start left out. *)
Definition utf8Decode (bytes : list Byte.byte) : list N :=
  let points := utf8 None (Byte.to_N <$> bytes) in
  let points :=
    match points with
    | point :: rest => if (point =? 0xFEFF)%N then rest else points
    | [] => []
    end in
  flat_map utf16 points.

(** The bytes of a text of ASCII characters. *)
Fixpoint bytes (s : string) : list Byte.byte :=
  match s with
  | EmptyString => []
  | String c r => byte_of_ascii c :: bytes r
  end.

(** ** The parts of [analyzeFile] *)

(** [array.slice(start, end)]: a negative index counts from the end, and
    both are brought into the bounds of the array. *)
Definition relative (len x : Z) : Z :=
  if (x <? 0)%Z then Z.max (len + x) 0 else Z.min x len.

Definition slice {A} (start : Z) (final : option Z) (l : list A) : list A :=
  let len := Z.of_nat (length l) in
  let k := relative len start in
  let f := match final with Some e => relative len e | None => len end in
  take (Z.to_nat (f - k)) (drop (Z.to_nat k) l).

(** [s.replace(pattern, '')]: the first occurrence is removed. *)
Fixpoint removeFirst (pattern s : list N) : list N :=
  if startsWith pattern s then drop (length pattern) s
  else match s with
       | [] => []
       | c :: r => c :: removeFirst pattern r
       end.

(** [s.split(separator)], as far as its first element goes: the text before
    the first separator and the text after it, if there is one. *)
Fixpoint cut (separator s : list N) : option (list N * list N) :=
  if startsWith separator s then Some ([], drop (length separator) s)
  else match s with
       | [] => None
       | c :: r =>
           match cut separator r with
           | Some (before, after) => Some (c :: before, after)
           | None => None
           end
       end.

(** [const [lineNumber, code] = line.split(': ')]: the second element,
    [None] when the line holds no separator. *)
Definition code_of (line : list N) : option (list N) :=
  match cut (units ": ") line with
  | Some (_, rest) =>
      Some match cut (units ": ") rest with Some (code, _) => code | None => rest end
  | None => None
  end.

(** [collapseSequentialEllipsis(lines)]; [None] when [code.trim()] throws
    because a line has no second element. *)
Fixpoint collapse (wasLastLineEllipsis : bool) (lines : list (list N)) : option (list (list N)) :=
  match lines with
  | [] => Some []
  | line :: rest =>
      match code_of line with
      | None => None
      | Some code =>
          let isCurrentLineEllipsis := endsWith (units "...") (trim code) in
          match collapse isCurrentLineEllipsis rest with
          | None => None
          | Some collapsed =>
              Some (if negb isCurrentLineEllipsis || negb wasLastLineEllipsis
                    then line :: collapsed else collapsed)
          end
      end
  end.

Definition collapseSequentialEllipsis : list (list N) → option (list (list N)) := collapse false.

(** [/^\d+: (\.{3}:?)?$/.test(line)] *)
Definition ellipsisOnly (line : list N) : bool :=
  match cut (units ": ") line with
  | Some (number, rest) =>
      negb (bool_decide (number = [])) && forallb isDigit number
      && bool_decide (rest ∈ [units ""; units "..."; units "...:"])
  | None => false
  end.

(** One turn of the loop that adds the line numbers. Writing at the index
    just past the last element lengthens the array, and the element read
    there is [undefined]. *)
Definition numberLine (startLine : Z) (lines : list (list N)) (i : nat) : list (list N) :=
  let line :=
    units (pretty (startLine + Z.of_nat i + 1)%Z) ++ units ": "
    ++ default (units "undefined") (lines !! i) in
  if decide (i < length lines)%nat then <[i := line]> lines else lines ++ [line].

(** [for (let i = 0; i < (endLine - startLine || lines.length); i++)] *)
Definition numbered (startLine : Z) (endLine : option Z) (lines : list (list N)) : list (list N) :=
  let turns :=
    match endLine with
    | Some e => if (e - startLine =? 0)%Z then Z.of_nat (length lines) else (e - startLine)%Z
    | None => Z.of_nat (length lines)
    end in
  foldl (numberLine startLine) lines (seq 0 (Z.to_nat turns)).

(** The loop that fills [truncatedLines]. *)
Fixpoint truncate (characterLimit countedCharacters : Z) (lines : list (list N)) : list (list N) :=
  match lines with
  | [] => []
  | line :: rest =>
      let counted := (countedCharacters + Z.of_nat (length line) + 1)%Z in
      if (characterLimit <? counted)%Z then []
      else line :: truncate characterLimit counted rest
  end.

Definition truncatedWarning (nextLine : Z) : list N :=
  units "WARNING: This file is too large to display, so it was truncated. "
  ++ units "Read from line " ++ units (pretty nextLine) ++ units " for remaining data.".

Definition squashedWarning : list N :=
  units "WARNING: For performance reasons, some portions of this file are not shown "
  ++ units "(replaced with ellipses). To see full content, read specific line ranges.".

Definition historyWarning : list N :=
  units "WARNING: Only showing recent history. For more, request previous lines.".

Definition terminalBanner : list N := units "Host shared a Live Share terminal. Enter to type.".

(** The options of [analyzeFile] other than [fs] and [driver]. *)
Record options := {
  path : string;
  characterLimit : option Z;
  startLine : option Z;
  endLine : option Z;
  allowSquashing : option bool;
  squashThreshold : option Z;
}.

(** [!options.startLine] *)
Definition falsy (n : option Z) : bool :=
  match n with Some n => (n =? 0)%Z | None => true end.

(** The end of [analyzeFile]: the warnings, the lines, and the mark of the
    end of the file when the last line begins with the number of the last
    line of the file. *)
Definition finish (allLines lines warnings : list (list N)) : list N :=
  let data := match warnings with
              | [] => []
              | _ => join warnings ++ [newline; newline]
              end in
  let data := data ++ join lines in
  match last lines with
  | Some line =>
      if startsWith (units (pretty (length allLines)) ++ units ":") line
      then data ++ newline :: units "End of file" else data
  | None => data
  end.

Definition notFoundError (filePath : string) : error :=
  SafeError (ArgsOptions (Some ("File not found: " +:+ filePath)) None None VUndefined (Some true)).

Definition isDirectoryError (filePath : string) : error :=
  SafeError (ArgsOptions (Some ("Is a directory: " +:+ filePath)) None None VUndefined (Some true)).

Definition terminalError : error :=
  SafeError (ArgsPositional "Failed to get terminal contents. Is the terminal open?" None).

Section Platform.

(** What the platform and the other modules provide: the decoder of
    [new TextDecoder()], the [path] module of Node and [squashCode.ts]. *)
Variable decode : list Byte.byte → list N.
Variables (extname basename : string → string).
Variable supportedFileExtensions : list string.
Variable squashCode : string → list (list N) → list (list N).

(** The first half of [analyzeFile]: the value thrown, or all the lines, the
    start line (counted from 0) and the warnings so far. [driver] is [None]
    without a driver, and else what [getTerminalBuffer] comes to; [stat] and
    [readFile] are what the calls of the file system come to, the value
    thrown or the result, for [readFile] the bytes of the file. *)
Definition readLines (o : options) (driver : option (value + list (list N)))
    (stat : value + Handlers.fileType) (readFile : value + list Byte.byte)
    : value + (list (list N) * Z * list (list N)) :=
  let filePath := path o in
  let startLine := (default 1%Z (startLine o) - 1)%Z in
  match (if String.eqb filePath "terminal" then driver else None) with
  | Some (inl _) => inl (VError terminalError)
  | Some (inr buffer) =>
      let allLines := map (removeFirst terminalBanner) buffer in
      if falsy (Analyze.startLine o) && falsy (endLine o)
      then let startLine := Z.max 0 (Z.of_nat (length allLines) - 50) in
           inr (allLines, startLine, if (0 <? startLine)%Z then [historyWarning] else [])
      else inr (allLines, startLine, [])
  | None =>
      match stat with
      | inl thrown => inl thrown
      | inr Handlers.Unknown => inl (VError (notFoundError filePath))
      | inr Handlers.Directory => inl (VError (isDirectoryError filePath))
      | inr _ =>
          match readFile with
          | inl thrown => inl thrown
          | inr content =>
              let fileContent := decode content in
              inr (split newline fileContent, startLine, [])
          end
      end
  end.

(** The second half of [analyzeFile], from [allLines.slice] on. *)
Definition render (o : options) (allLines : list (list N)) (startLine : Z)
    (warnings : list (list N)) : value + list N :=
  let filePath := path o in
  let characterLimit := default 10000%Z (characterLimit o) in
  let allowSquashing := default true (allowSquashing o) in
  let squashThreshold := default 2500%Z (squashThreshold o) in
  let lines := slice startLine (endLine o) allLines in
  let characterCount := Z.of_nat (length (join lines)) in
  let squashed :=
    allowSquashing && (squashThreshold <? characterCount)%Z
    && bool_decide (extname filePath ∈ supportedFileExtensions) in
  let lines := if squashed then squashCode (basename filePath) lines else lines in
  let lines := numbered startLine (endLine o) lines in
  let '(lines, warnings) :=
    if (characterLimit <? characterCount)%Z
    then let truncatedLines := truncate characterLimit 0 lines in
         let nextLine := (startLine + Z.of_nat (length truncatedLines) + 1)%Z in
         (truncatedLines, warnings ++ [truncatedWarning nextLine])
    else (lines, warnings) in
  if squashed then
    let warnings := warnings ++ [squashedWarning] in
    match collapseSequentialEllipsis lines with
    | None => inl (VError (Edit.undefinedError "trim"))
    | Some collapsedLines =>
        if (length collapsedLines <? length lines)%nat
        then inr (finish allLines
                    (filter (λ line, ellipsisOnly line = false) collapsedLines)
                    (warnings ++ [units "WARNING: Some lines are omitted entirely."]))
        else inr (finish allLines lines warnings)
    end
  else inr (finish allLines lines warnings).

(** [analyzeFile(options)] *)
Definition analyzeFile (o : options) (driver : option (value + list (list N)))
    (stat : value + Handlers.fileType) (readFile : value + list Byte.byte) : value + list N :=
  match readLines o driver stat readFile with
  | inl thrown => inl thrown
  | inr (allLines, startLine, warnings) => render o allLines startLine warnings
  end.

End Platform.

(** The cases of the test suite. *)
Definition test_options (s e limit : option Z) : options :=
  {| path := "file.txt"; characterLimit := limit; startLine := s; endLine := e;
     allowSquashing := None; squashThreshold := None |}.

Lemma analyzeFile_test_cases extname basename supported squashCode :
  analyzeFile utf8Decode extname basename supported squashCode
    (test_options (Some 1%Z) (Some 2%Z) None) None (inr Handlers.File)
    (inr (bytes ("line1" +:+ String "010" "line2" +:+ String "010" "line3"
                 +:+ String "010" "line4" +:+ String "010" "line5")))
  = inr (units ("1: line1" +:+ String "010" "2: line2"))
  ∧ analyzeFile utf8Decode extname basename supported squashCode
      (test_options None None (Some 13%Z)) None (inr Handlers.File)
      (inr (bytes ("123456789" +:+ String "010" "abcdefghij" +:+ String "010" "ABCDEFGHIJ")))
    = inr (units ("WARNING: This file is too large to display, so it was truncated. "
                  +:+ "Read from line 2 for remaining data." +:+ String "010" (String "010" "")
                  +:+ "1: 123456789")).
Proof. split; reflexivity. Qed.

Lemma to_N_byte_of_ascii c : Byte.to_N (byte_of_ascii c) = N_of_ascii c.
Proof. by destruct c as [[] [] [] [] [] [] [] []]. Qed.

Lemma N_of_ascii_lt c : (nat_of_ascii c < 128)%nat → (N_of_ascii c < 128)%N.
Proof. unfold nat_of_ascii. lia. Qed.

Lemma lead_ascii b : (b < 128)%N → lead b = inl b.
Proof. intros Hb. unfold lead. by assert ((b <=? 0x7F)%N = true) as -> by (apply N.leb_le; lia). Qed.

(** The decoded text of a file of ASCII characters is its characters. *)
Lemma utf8Decode_ascii s :
  Forall (λ c, (nat_of_ascii c < 128)%nat) (list_ascii_of_string s) →
  utf8Decode (bytes s) = units s.
Proof.
  intros Hs.
  assert (Hp : utf8 None (Byte.to_N <$> bytes s) = units s).
  { induction s as [|c s IH]; [done|].
    cbn [list_ascii_of_string] in Hs. apply Forall_cons in Hs as [Hc Hs].
    cbn [bytes fmap list_fmap utf8 units]. rewrite to_N_byte_of_ascii.
    rewrite lead_ascii by by apply N_of_ascii_lt.
    f_equal. by apply IH. }
  unfold utf8Decode. rewrite Hp.
  assert (Hu : ∀ t, Forall (λ c, (nat_of_ascii c < 128)%nat) (list_ascii_of_string t) →
                flat_map utf16 (units t) = units t).
  { induction t as [|c t IH]; [done|]. cbn [list_ascii_of_string]. intros Ht.
    apply Forall_cons in Ht as [Hc Ht]. cbn [units flat_map].
    rewrite IH by done. unfold utf16.
    apply N_of_ascii_lt in Hc.
    by assert ((N_of_ascii c <? 0x10000)%N = true) as -> by (apply N.ltb_lt; lia). }
  destruct s as [|c s]; [done|]. cbn [units].
  cbn [list_ascii_of_string] in Hs. pose proof Hs as Hs'.
  apply Forall_cons in Hs' as [Hc _]. apply N_of_ascii_lt in Hc.
  assert ((N_of_ascii c =? 0xFEFF)%N = false) as -> by (apply N.eqb_neq; lia).
  exact (Hu (String c s) Hs).
Qed.

(** The decoder on bytes that are no ASCII text: a byte order mark at the
    start is left out, the three bytes of the euro sign are one code unit,
    the four bytes of a code point beyond the basic plane are two, and a byte
    that fits nowhere is replaced. *)
Lemma utf8Decode_examples :
  utf8Decode [Byte.xef; Byte.xbb; Byte.xbf; Byte.x61] = [97%N]
  ∧ utf8Decode [Byte.xe2; Byte.x82; Byte.xac] = [8364%N]
  ∧ utf8Decode [Byte.xf0; Byte.x9f; Byte.x98; Byte.x80] = [55357%N; 56832%N]
  ∧ utf8Decode [Byte.xe2; Byte.x82; Byte.x61; Byte.xff] = [65533%N; 97%N; 65533%N].
Proof. repeat split; reflexivity. Qed.

(** ** Numbering *)

(** The line the loop writes at index [i]. *)
Definition label (startLine : Z) (lines : list (list N)) (i : nat) : list N :=
  units (pretty (startLine + Z.of_nat i + 1)%Z) ++ units ": "
  ++ default (units "undefined") (lines !! i).

Lemma foldl_numberLine startLine lines n :
  foldl (numberLine startLine) lines (seq 0 n)
  = map (label startLine lines) (seq 0 n) ++ drop n lines.
Proof.
  induction n as [|n IH]; [done|].
  rewrite seq_S, foldl_app, IH, map_app. cbn [foldl map Nat.add].
  set (done_ := map (label startLine lines) (seq 0 n)).
  assert (Hlen : length done_ = n) by (unfold done_; by rewrite length_map, length_seq).
  unfold numberLine.
  assert (Hn : (done_ ++ drop n lines) !! n = lines !! n).
  { rewrite lookup_app_r by lia. rewrite Hlen, Nat.sub_diag, lookup_drop. f_equal. lia. }
  rewrite Hn. fold (label startLine lines n).
  rewrite length_app, Hlen, length_drop.
  destruct (decide (n < n + (length lines - n))%nat) as [Hlt|Hge].
  - destruct (lookup_lt_is_Some_2 lines n ltac:(lia)) as [x Hx].
    rewrite (drop_S _ _ _ Hx).
    replace n with (length done_ + 0)%nat at 1 by lia.
    rewrite insert_app_r. cbn [insert list_insert]. by rewrite <- app_assoc.
  - rewrite !drop_ge by lia. by rewrite !app_nil_r.
Qed.

(** ** Lengths *)

(** The code units of the lines, one more for each line. *)
Definition weight (lines : list (list N)) : nat :=
  sum_list_with (λ line, S (length line)) lines.

Lemma join_cons x y lines : join (x :: y :: lines) = x ++ newline :: join (y :: lines).
Proof. reflexivity. Qed.

Lemma length_join lines : lines ≠ [] → S (length (join lines)) = weight lines.
Proof.
  induction lines as [|x lines IH]; intros Hne; [done|].
  destruct lines as [|y lines].
  - unfold weight. cbn [join sum_list_with]. lia.
  - rewrite join_cons, length_app. cbn [length]. specialize (IH ltac:(done)).
    unfold weight in *. cbn [sum_list_with] in *. lia.
Qed.

Lemma split_nonempty c s : split c s ≠ [].
Proof.
  destruct s as [|a r]; [done|]. simpl.
  destruct (a =? c)%N; [done|]. by destruct (split c r).
Qed.

Lemma weight_split c s : weight (split c s) = S (length s).
Proof.
  induction s as [|a r IH]; [done|]. cbn [split].
  destruct (a =? c)%N.
  - unfold weight in *. cbn [sum_list_with]. rewrite IH. simpl. lia.
  - pose proof (split_nonempty c r) as Hne.
    destruct (split c r) as [|h t]; [done|].
    unfold weight in *. cbn [sum_list_with length] in *. lia.
Qed.

Lemma weight_app l1 l2 : weight (l1 ++ l2) = (weight l1 + weight l2)%nat.
Proof. apply sum_list_with_app. Qed.

Lemma weight_take n l : (weight (take n l) ≤ weight l)%nat.
Proof. rewrite <- (take_drop n l) at 2. rewrite weight_app. lia. Qed.

Lemma weight_drop n l : (weight (drop n l) ≤ weight l)%nat.
Proof. rewrite <- (take_drop n l) at 2. rewrite weight_app. lia. Qed.

(** The lines selected hold no more code units than the text. *)
Lemma characterCount_le start final fileContent :
  (length (join (slice start final (split newline fileContent))) ≤ length fileContent)%nat.
Proof.
  unfold slice.
  set (l := split newline fileContent).
  set (sub := take _ (drop _ l)).
  assert (Hw : (weight sub ≤ S (length fileContent))%nat).
  { unfold sub. etrans; [apply weight_take|]. etrans; [apply weight_drop|].
    unfold l. by rewrite weight_split. }
  destruct sub as [|x sub']; [simpl; lia|].
  pose proof (length_join (x :: sub') ltac:(done)). lia.
Qed.

(** ** Line numbers *)

Lemma pretty_Z_of_nat (n : nat) : pretty (Z.of_nat n) = pretty n.
Proof. destruct n; reflexivity. Qed.

Lemma units_app s t : units (s +:+ t) = units s ++ units t.
Proof. induction s as [|c s IH]; [done|]. cbn [units]. simpl. by rewrite IH. Qed.

Lemma units_inj s t : units s = units t → s = t.
Proof.
  revert t. induction s as [|c s IH]; intros [|d t]; try done.
  cbn [units]. intros [= Hc Hs]. f_equal; [|by apply IH].
  rewrite <- (ascii_N_embedding c), <- (ascii_N_embedding d). by rewrite Hc.
Qed.

Lemma startsWith_app s t u : startsWith (s ++ t) (s ++ u) = startsWith t u.
Proof. induction s as [|c s IH]; [done|]. cbn [app startsWith]. by rewrite N.eqb_refl. Qed.

(** Two numbers followed by a colon: one begins the other only if they are
    the same number. *)
Lemma startsWith_digits p1 : ∀ p2 t u,
  forallb isDigit p1 = true → forallb isDigit p2 = true →
  startsWith (p1 ++ 58%N :: t) (p2 ++ 58%N :: u) = true → p1 = p2.
Proof.
  induction p1 as [|c p1 IH]; intros p2 t u H1 H2 Hp.
  - destruct p2 as [|d p2]; [done|]. cbn [app startsWith forallb] in Hp, H2.
    apply andb_prop in Hp as [Hd _]. apply N.eqb_eq in Hd. subst d.
    apply andb_prop in H2 as [H2 _]. vm_compute in H2. discriminate.
  - cbn [forallb] in H1. apply andb_prop in H1 as [Hc H1].
    destruct p2 as [|d p2]; cbn [app startsWith forallb] in Hp, H2.
    + apply andb_prop in Hp as [Hd _]. apply N.eqb_eq in Hd. subst c.
      vm_compute in Hc. discriminate.
    + apply andb_prop in Hp as [Hd Hp]. apply N.eqb_eq in Hd. subst d. f_equal.
      apply andb_prop in H2 as [_ H2]. by apply (IH p2 t u).
Qed.

Lemma isDigit_units s : Meminfo.all_digits s = true → forallb isDigit (units s) = true.
Proof.
  induction s as [|c s IH]; [done|]. cbn [Meminfo.all_digits units forallb].
  intros H. apply andb_prop in H as [Hc Hs]. rewrite IH by done.
  rewrite andb_true_r. unfold Meminfo.isDigit in Hc.
  apply bool_decide_eq_true_1 in Hc as [d Hd]. unfold Meminfo.digit in Hd.
  unfold isDigit. by destruct (_ && _)%bool.
Qed.

Lemma isDigit_pretty_nat (n : nat) : forallb isDigit (units (pretty n)) = true.
Proof. apply isDigit_units, (Meminfo.pretty_N_spec (N.of_nat n)). Qed.

(** The mark of the end of the file is set for the last line only. *)
Lemma end_of_file_mark (len n : nat) line :
  startsWith (units (pretty len) ++ units ":") (units (pretty n) ++ units ": " ++ line)
  = bool_decide (n = len).
Proof.
  destruct (decide (n = len)) as [->|Hne].
  - rewrite bool_decide_eq_true_2 by done. rewrite startsWith_app. simpl. done.
  - rewrite bool_decide_eq_false_2 by done.
    destruct (startsWith _ _) eqn:E; [|done]. exfalso. apply Hne.
    apply (startsWith_digits (units (pretty len)) (units (pretty n)) [] (32%N :: line)) in E;
      [|apply isDigit_pretty_nat..].
    apply units_inj in E. symmetry. by apply (inj pretty).
Qed.

(** ** Reading a range of lines *)

Lemma slice_range_lookup {A} (l : list A) (s e i : nat) :
  (1 ≤ s)%nat → (s + i ≤ e)%nat →
  slice (Z.of_nat s - 1) (Some (Z.of_nat e)) l !! i = l !! (s - 1 + i)%nat.
Proof.
  intros Hs Hi. unfold slice, relative.
  assert ((Z.of_nat s - 1 <? 0)%Z = false) as -> by lia.
  assert ((Z.of_nat e <? 0)%Z = false) as -> by (apply Z.ltb_ge; lia).
  destruct (Z.min_spec (Z.of_nat e) (Z.of_nat (length l))) as [[? ->]|[? ->]],
    (Z.min_spec (Z.of_nat s - 1) (Z.of_nat (length l))) as [[? ->]|[? ->]];
    (destruct (decide (s - 1 + i < length l)%nat) as [Hlt|Hge];
     [rewrite lookup_take_lt by lia; rewrite lookup_drop; f_equal; lia
     |rewrite (lookup_ge_None_2 l) by lia; apply lookup_ge_None_2;
      rewrite length_take, length_drop; lia]).
Qed.

Lemma slice_range_length {A} (l : list A) (s e : nat) :
  (1 ≤ s)%nat → (length (slice (Z.of_nat s - 1) (Some (Z.of_nat e)) l) ≤ e - s + 1)%nat.
Proof.
  intros Hs. unfold slice, relative.
  assert ((Z.of_nat s - 1 <? 0)%Z = false) as -> by lia.
  assert ((Z.of_nat e <? 0)%Z = false) as -> by (apply Z.ltb_ge; lia).
  rewrite length_take, length_drop.
  destruct (Z.min_spec (Z.of_nat e) (Z.of_nat (length l))) as [[? ->]|[? ->]],
    (Z.min_spec (Z.of_nat s - 1) (Z.of_nat (length l))) as [[? ->]|[? ->]]; lia.
Qed.

(** The lines of the answer for the range from line [s] to line [e]: each
    with its number, and the text [undefined] where the file has no line. *)
Definition rangeLines (allLines : list (list N)) (s e : nat) : list (list N) :=
  map (λ i, units (pretty (s + i)%nat) ++ units ": "
            ++ default (units "undefined") (allLines !! (s - 1 + i)%nat))
      (seq 0 (e - s + 1)).

Lemma numbered_range allLines (s e : nat) :
  (1 ≤ s ≤ e)%nat →
  numbered (Z.of_nat s - 1) (Some (Z.of_nat e))
    (slice (Z.of_nat s - 1) (Some (Z.of_nat e)) allLines)
  = rangeLines allLines s e.
Proof.
  intros Hse. unfold numbered.
  assert ((Z.of_nat e - (Z.of_nat s - 1) =? 0)%Z = false) as -> by lia.
  replace (Z.to_nat (Z.of_nat e - (Z.of_nat s - 1))) with (e - s + 1)%nat by lia.
  rewrite foldl_numberLine.
  rewrite drop_ge by (apply slice_range_length; lia). rewrite app_nil_r.
  unfold rangeLines. apply map_ext_in. intros i Hi. apply in_seq in Hi.
  unfold label. rewrite slice_range_lookup by lia.
  replace (Z.of_nat s - 1 + Z.of_nat i + 1)%Z with (Z.of_nat (s + i)) by lia.
  by rewrite pretty_Z_of_nat.
Qed.

Lemma last_rangeLines allLines (s e : nat) :
  (1 ≤ s ≤ e)%nat →
  last (rangeLines allLines s e)
  = Some (units (pretty e) ++ units ": "
          ++ default (units "undefined") (allLines !! (e - 1)%nat)).
Proof.
  intros Hse. unfold rangeLines.
  replace (e - s + 1)%nat with (S (e - s)) by lia.
  rewrite seq_S, map_app. cbn [map]. rewrite last_snoc. cbn [Nat.add].
  replace (s + (e - s))%nat with e by lia.
  by replace (s - 1 + (e - s))%nat with (e - 1)%nat by lia.
Qed.

Lemma readLines_file decode o driver kind content :
  path o ≠ "terminal" → kind ≠ Handlers.Unknown → kind ≠ Handlers.Directory →
  readLines decode o driver (inr kind) (inr content)
  = inr (split newline (decode content), (default 1 (startLine o) - 1)%Z, []).
Proof.
  intros Hpath Hk1 Hk2. unfold readLines.
  assert (String.eqb (path o) "terminal" = false) as -> by by apply String.eqb_neq.
  by destruct kind.
Qed.

(** X29. Reading the lines [s] to [e] of a file whose decoded text is short
    enough to be neither squashed nor truncated (its length in UTF-16 code
    units is within the limit). The lines are those of the text the decoder
    makes of the bytes of the file. The answer holds one line for every
    number from [s] to [e], each after its number; a number past the end of
    the file is followed by the text [undefined], since the loop that adds
    the numbers runs to [e] whatever the file holds; and [End of file] is
    added exactly when [e] is the number of the last line. *)
Theorem analyzeFile_range decode extname basename supportedFileExtensions squashCode
    o driver kind content (s e : nat) :
  path o ≠ "terminal" → kind ≠ Handlers.Unknown → kind ≠ Handlers.Directory →
  startLine o = Some (Z.of_nat s) → endLine o = Some (Z.of_nat e) → (1 ≤ s ≤ e)%nat →
  allowSquashing o = Some false →
  (Z.of_nat (length (decode content)) ≤ default 10000 (characterLimit o))%Z →
  let allLines := split newline (decode content) in
  analyzeFile decode extname basename supportedFileExtensions squashCode
    o driver (inr kind) (inr content)
  = inr (if decide (e = length allLines)
         then join (rangeLines allLines s e) ++ newline :: units "End of file"
         else join (rangeLines allLines s e))
  ∧ length (rangeLines allLines s e) = (e - s + 1)%nat
  ∧ ∀ n, (s ≤ n ≤ e)%nat →
      rangeLines allLines s e !! (n - s)%nat
      = Some (units (pretty n) ++ units ": "
              ++ default (units "undefined") (allLines !! (n - 1)%nat)).
Proof.
  intros Hpath Hk1 Hk2 Hs He Hse Hsq Hlimit allLines. split; [|split].
  - unfold analyzeFile. rewrite readLines_file by done. rewrite Hs.
    change (default 1%Z (Some (Z.of_nat s))) with (Z.of_nat s). fold allLines.
    unfold render. rewrite He, Hsq.
    change (default true (Some false)) with false. cbn [andb].
    pose proof (characterCount_le (Z.of_nat s - 1) (Some (Z.of_nat e)) (decode content))
      as Hc.
    fold allLines in Hc.
    assert ((default 10000 (characterLimit o)
             <? Z.of_nat (length (join (slice (Z.of_nat s - 1) (Some (Z.of_nat e))
                                          allLines))))%Z
            = false) as -> by lia.
    rewrite numbered_range by done. f_equal. unfold finish.
    rewrite last_rangeLines by done. rewrite end_of_file_mark.
    cbn [app].
    destruct (decide (e = length allLines)) as [->|Hne].
    + by rewrite bool_decide_eq_true_2.
    + by rewrite bool_decide_eq_false_2.
  - unfold rangeLines. by rewrite length_map, length_seq.
  - intros n Hn. unfold rangeLines. rewrite list_lookup_fmap.
    rewrite lookup_seq_lt by lia. cbn [fmap option_fmap option_map Nat.add].
    replace (s + (n - s))%nat with n by lia.
    by replace (s - 1 + (n - s))%nat with (n - 1)%nat by lia.
Qed.

(** A file of a byte order mark, five euro signs, a newline and a [y]: 20
    bytes, and a text of 7 code units in two lines, within a limit of 7. *)
Definition euro_file : list Byte.byte :=
  [Byte.xef; Byte.xbb; Byte.xbf]
  ++ concat (replicate 5 [Byte.xe2; Byte.x82; Byte.xac]) ++ [Byte.x0a; Byte.x79].

Lemma analyzeFile_range_witness :
  analyzeFile utf8Decode (λ s, s) (λ s, s) [] (λ _ l, l)
    {| path := "a.txt"; characterLimit := Some 7%Z; startLine := Some 1%Z;
       endLine := Some 3%Z; allowSquashing := Some false; squashThreshold := None |}
    None (inr Handlers.File) (inr euro_file)
  = inr (units "1: " ++ replicate 5 8364%N ++ newline :: units "2: y"
         ++ newline :: units "3: undefined").
Proof.
  destruct (analyzeFile_range utf8Decode (λ s, s) (λ s, s) [] (λ _ l, l)
              {| path := "a.txt"; characterLimit := Some 7%Z; startLine := Some 1%Z;
                 endLine := Some 3%Z; allowSquashing := Some false;
                 squashThreshold := None |}
              None Handlers.File euro_file 1 3) as [H _];
    try done; try (simpl; lia); try (vm_compute; done).
Defined.

(** ** Truncating *)

Lemma truncate_prefix limit lines : ∀ counted, truncate limit counted lines `prefix_of` lines.
Proof.
  induction lines as [|line rest IH]; intros counted; [done|]. cbn [truncate].
  destruct (_ <? _)%Z; [apply prefix_nil|apply prefix_cons, IH].
Qed.

(** What is shown fits the limit. *)
Lemma truncate_weight limit lines : ∀ counted,
  truncate limit counted lines = []
  ∨ (counted + Z.of_nat (weight (truncate limit counted lines)) ≤ limit)%Z.
Proof.
  induction lines as [|line rest IH]; intros counted; [by left|]. cbn [truncate].
  destruct (_ <? _)%Z eqn:E; [by left|]. right.
  unfold weight. cbn [sum_list_with]. fold (weight (truncate limit
    (counted + Z.of_nat (length line) + 1) rest)).
  destruct (IH (counted + Z.of_nat (length line) + 1)%Z) as [-> |H].
  - unfold weight. cbn [sum_list_with]. lia.
  - lia.
Qed.

(** The first line that is not shown does not fit. *)
Lemma truncate_next limit lines : ∀ counted line,
  lines !! length (truncate limit counted lines) = Some line →
  (limit < counted + Z.of_nat (weight (truncate limit counted lines))
           + Z.of_nat (length line) + 1)%Z.
Proof.
  induction lines as [|x rest IH]; intros counted line; [done|]. cbn [truncate].
  destruct (_ <? _)%Z eqn:E.
  - intros [= <-]. unfold weight. cbn [sum_list_with]. lia.
  - cbn [length lookup list_lookup]. intros H. apply IH in H.
    unfold weight in *. cbn [sum_list_with]. lia.
Qed.

Lemma weight_imap (f : nat → list N → list N) lines :
  (∀ i line, length line ≤ length (f i line))%nat →
  (weight lines ≤ weight (imap f lines))%nat.
Proof.
  revert f. induction lines as [|x lines IH]; intros f Hf; [done|].
  rewrite imap_cons. unfold weight in *. cbn [sum_list_with].
  specialize (IH (f ∘ S) ltac:(intros; apply Hf)). specialize (Hf 0%nat x). lia.
Qed.

(** ** Reading a file that is too long *)

Lemma slice_from {A} (l : list A) (s : nat) :
  (1 ≤ s)%nat → slice (Z.of_nat s - 1) None l = drop (s - 1) l.
Proof.
  intros Hs. unfold slice, relative.
  assert ((Z.of_nat s - 1 <? 0)%Z = false) as -> by lia.
  destruct (Z.min_spec (Z.of_nat s - 1) (Z.of_nat (length l))) as [[? ->]|[? ->]].
  - replace (Z.to_nat (Z.of_nat s - 1)) with (s - 1)%nat by lia.
    apply take_ge. rewrite length_drop. lia.
  - rewrite Z.sub_diag, Nat2Z.id. rewrite !drop_ge by lia. done.
Qed.

(** The lines from line [s] on, each after its number. *)
Definition linesFrom (allLines : list (list N)) (s : nat) : list (list N) :=
  imap (λ i line, units (pretty (s + i)%nat) ++ units ": " ++ line) (drop (s - 1) allLines).

Lemma numbered_from allLines (s : nat) :
  (1 ≤ s)%nat →
  numbered (Z.of_nat s - 1) None (drop (s - 1) allLines) = linesFrom allLines s.
Proof.
  intros Hs. unfold numbered, linesFrom. rewrite Nat2Z.id, foldl_numberLine.
  set (lines := drop (s - 1) allLines).
  rewrite (drop_ge lines) by lia. rewrite app_nil_r.
  apply list_eq. intros i. rewrite list_lookup_imap, list_lookup_fmap.
  destruct (lines !! i) as [line|] eqn:E.
  - rewrite lookup_seq_lt by (by eapply lookup_lt_Some).
    cbn [fmap option_fmap option_map Nat.add]. unfold label. rewrite E. cbn [default].
    replace (Z.of_nat s - 1 + Z.of_nat i + 1)%Z with (Z.of_nat (s + i)) by lia.
    by rewrite pretty_Z_of_nat.
  - rewrite lookup_seq_ge; [done|]. by apply lookup_ge_None.
Qed.

(** X30. Reading a file from line [s] on when the lines of its decoded text
    hold more UTF-16 code units than the limit. The answer is the warning and
    the numbered lines shown; these are the first lines of the numbered
    lines, never all of them, and each counted with its newline they fit the
    limit, while the next line would not; the warning names the number of
    that next line; and [End of file] is never added. If the first line with
    its number is longer than the limit, no line is shown and the warning
    asks to read from line [s] again. *)
Theorem analyzeFile_truncated decode extname basename supportedFileExtensions squashCode
    o driver kind content (s : nat) (limit : Z) :
  path o ≠ "terminal" → kind ≠ Handlers.Unknown → kind ≠ Handlers.Directory →
  startLine o = Some (Z.of_nat s) → endLine o = None → (1 ≤ s)%nat →
  allowSquashing o = Some false →
  characterLimit o = Some limit → (0 ≤ limit)%Z →
  let allLines := split newline (decode content) in
  (limit < Z.of_nat (length (join (drop (s - 1) allLines))))%Z →
  let shown := truncate limit 0 (linesFrom allLines s) in
  analyzeFile decode extname basename supportedFileExtensions squashCode
    o driver (inr kind) (inr content)
  = inr (truncatedWarning (Z.of_nat (s + length shown)) ++ [newline; newline] ++ join shown)
  ∧ shown `prefix_of` linesFrom allLines s
  ∧ (length shown < length (linesFrom allLines s))%nat
  ∧ (Z.of_nat (weight shown) ≤ limit)%Z
  ∧ (∀ line, linesFrom allLines s !! length shown = Some line →
       (limit < Z.of_nat (weight shown) + Z.of_nat (length line) + 1)%Z)
  ∧ (∀ line, linesFrom allLines s !! 0%nat = Some line →
       (limit < Z.of_nat (length line) + 1)%Z → shown = []).
Proof.
  intros Hpath Hk1 Hk2 Hs He Hs1 Hsq Hlimit Hpos allLines Hcount shown.
  set (lines := drop (s - 1) allLines) in *.
  assert (Hprefix : shown `prefix_of` linesFrom allLines s) by apply truncate_prefix.
  assert (Hweight : (Z.of_nat (weight shown) ≤ limit)%Z).
  { destruct (truncate_weight limit (linesFrom allLines s) 0) as [H|H].
    - unfold shown. rewrite H. unfold weight. simpl. lia.
    - fold shown in H. lia. }
  assert (Hstrict : (length shown < length (linesFrom allLines s))%nat).
  { pose proof (prefix_length _ _ Hprefix) as Hle.
    destruct (decide (length shown = length (linesFrom allLines s))) as [Heq|]; [|lia].
    exfalso. apply prefix_length_eq in Hprefix; [|lia].
    assert (Hne : lines ≠ []) by (intros Hnil; rewrite Hnil in Hcount; simpl in Hcount; lia).
    pose proof (length_join lines Hne) as Hj.
    pose proof (weight_imap (λ i line, units (pretty (s + i)%nat) ++ units ": " ++ line)
                  lines) as Hw.
    change (imap _ lines) with (linesFrom allLines s) in Hw. rewrite <- Hprefix in Hw.
    specialize (Hw ltac:(intros; rewrite !length_app; lia)). lia. }
  split; [|split; [done|split; [done|split; [done|split]]]].
  - unfold analyzeFile. rewrite readLines_file by done. rewrite Hs.
    change (default 1%Z (Some (Z.of_nat s))) with (Z.of_nat s). fold allLines.
    unfold render. rewrite He, Hsq, Hlimit.
    change (default true (Some false)) with false. cbn [andb].
    change (default 10000%Z (Some limit)) with limit.
    rewrite slice_from by done. fold lines.
    assert ((limit <? Z.of_nat (length (join lines)))%Z = true) as -> by lia.
    unfold lines. rewrite numbered_from by done. fold shown. f_equal.
    replace (Z.of_nat s - 1 + Z.of_nat (length shown) + 1)%Z
      with (Z.of_nat (s + length shown)) by lia.
    unfold finish. cbn [app join].
    assert (Hlast : match last shown with
                    | Some line => startsWith (units (pretty (length allLines)) ++ units ":") line
                    | None => false
                    end = false).
    { rewrite last_lookup. destruct shown as [|x shown'] eqn:E; [done|].
      cbn [length Nat.pred].
      destruct ((x :: shown') !! length shown') as [line|] eqn:El; [|done].
      pose proof (prefix_lookup_Some _ _ _ _ El Hprefix) as Hl.
      unfold linesFrom in Hl. rewrite list_lookup_imap in Hl.
      destruct (drop (s - 1) allLines !! length shown') as [line'|] eqn:Ed; [|done].
      injection Hl as <-.
      change (startsWith (units (pretty (length allLines)) ++ units ":")
                (units (pretty (s + length shown')%nat) ++ units ": " ++ line') = false).
      rewrite end_of_file_mark.
      apply bool_decide_eq_false_2.
      unfold linesFrom in Hstrict. rewrite length_imap, length_drop in Hstrict.
      cbn [length] in Hstrict. lia. }
    rewrite <- !app_assoc.
    destruct (last shown) as [line|]; [by rewrite Hlast|done].
  - intros line Hline. pose proof (truncate_next limit _ 0 line Hline) as H.
    fold shown in H. lia.
  - intros line Hline Hlong. unfold shown.
    destruct (linesFrom allLines s) as [|x rest]; [done|].
    injection Hline as ->. cbn [truncate].
    assert ((limit <? 0 + Z.of_nat (length line) + 1)%Z = true) as -> by lia. done.
Qed.

(** Two cases: the file of the test suite with a limit of 13, and a file of
    a line of three euro signs and a line of four with a limit of 7, where
    the 22 bytes are 8 code units and the first numbered line has 6. *)
Lemma analyzeFile_truncated_witness :
  analyzeFile utf8Decode (λ s, s) (λ s, s) [] (λ _ l, l)
    {| path := "a.txt"; characterLimit := Some 13%Z; startLine := Some 1%Z; endLine := None;
       allowSquashing := Some false; squashThreshold := None |}
    None (inr Handlers.File)
    (inr (bytes ("123456789" +:+ String "010" "abcdefghij" +:+ String "010" "ABCDEFGHIJ")))
  = inr (truncatedWarning 2 ++ [newline; newline] ++ units "1: 123456789")
  ∧ analyzeFile utf8Decode (λ s, s) (λ s, s) [] (λ _ l, l)
      {| path := "a.txt"; characterLimit := Some 7%Z; startLine := Some 1%Z; endLine := None;
         allowSquashing := Some false; squashThreshold := None |}
      None (inr Handlers.File)
      (inr (concat (replicate 3 [Byte.xe2; Byte.x82; Byte.xac]) ++ [Byte.x0a]
            ++ concat (replicate 4 [Byte.xe2; Byte.x82; Byte.xac])))
    = inr (truncatedWarning 2 ++ [newline; newline] ++ units "1: " ++ replicate 3 8364%N).
Proof.
  split.
  - destruct (analyzeFile_truncated utf8Decode (λ s, s) (λ s, s) [] (λ _ l, l)
                {| path := "a.txt"; characterLimit := Some 13%Z; startLine := Some 1%Z;
                   endLine := None; allowSquashing := Some false; squashThreshold := None |}
                None Handlers.File
                (bytes ("123456789" +:+ String "010" "abcdefghij"
                        +:+ String "010" "ABCDEFGHIJ"))
                1 13) as [H _];
      try done; try (vm_compute; done).
  - destruct (analyzeFile_truncated utf8Decode (λ s, s) (λ s, s) [] (λ _ l, l)
                {| path := "a.txt"; characterLimit := Some 7%Z; startLine := Some 1%Z;
                   endLine := None; allowSquashing := Some false; squashThreshold := None |}
                None Handlers.File
                (concat (replicate 3 [Byte.xe2; Byte.x82; Byte.xac]) ++ [Byte.x0a]
                 ++ concat (replicate 4 [Byte.xe2; Byte.x82; Byte.xac]))
                1 7) as [H _];
      try done; try (vm_compute; done).
Defined.

End Analyze.
